(** * Pyle: the bytecode compiler and the stack virtual machine

    A shallow embedding of [pyle/pyle_compiler.py], [pyle/pyle_vm.py],
    [pyle/pyle_bytecode.py], [pyle/pyle_builtins.py] and the parts of
    [pyle/pyle_ast.py] and [pyle/pyle_types.py] they use, followed by the
    properties of the compiler and of the machine that the specification
    states.

    Conventions.
    - A Python [int] is a [Z]; a Python [float] is an IEEE binary64 number,
      a [spec_float] with [prec = 53] and [emax = 1024].
    - A Python list used as a stack or as an array keeps its Python order:
      the top of the operand stack is the LAST element.
    - A Python exception that the code catches and turns into
      [Result.err] is an [Err]; an exception that nothing catches leaves
      [interpret] through the host and is a [Raise]. *)

From Stdlib Require Import ZArith Bool Lia.
From Stdlib Require Import Floats.SpecFloat.
From stdpp Require Import base option list gmap strings.

Local Open Scope string_scope.
Local Open Scope list_scope.
Local Open Scope Z_scope.

(** ** Python sequences: [len], indexing with negative indices, slices *)

Definition len {A} (l : list A) : Z := Z.of_nat (length l).

(** [l[i]]: a negative [i] counts from the end, out of range is [None]
    (an [IndexError] at the call site). *)
Definition getitem {A} (l : list A) (i : Z) : option A :=
  if 0 <=? i then l !! Z.to_nat i
  else if 0 <=? len l + i then l !! Z.to_nat (len l + i)
  else None.

(** [l[i] = x], with the same index convention; [None] when out of range. *)
Definition setitem {A} (l : list A) (i : Z) (x : A) : option (list A) :=
  let j := if 0 <=? i then i else len l + i in
  if (0 <=? j) && (j <? len l) then Some (<[Z.to_nat j := x]> l) else None.

(** [l[:n]]: a negative [n] drops [-n] elements from the end. *)
Definition slice_to {A} (l : list A) (n : Z) : list A :=
  if 0 <=? n then take (Z.to_nat n) l
  else take (Z.to_nat (len l + n)) l.

(** [l.pop()]: the list without its last element, and that element. *)
Fixpoint list_pop {A} (l : list A) : option (list A * A) :=
  match l with
  | [] => None
  | x :: l' =>
      match list_pop l' with
      | None => Some ([], x)
      | Some (r, y) => Some (x :: r, y)
      end
  end.

(** ** Tokens ([pyle_types.py]) *)

Inductive TokenType :=
| INT | FLOAT | STRING | KEYWORD | IDENT | DOT
| L_PAREN | R_PAREN | L_BRACKET | R_BRACKET | L_CURLY_BRACE | R_CURLY_BRACE
| L_SQ_BRACKET | R_SQ_BRACKET | COMMA
| PLUS | MINUS | MUL | DIV | MOD | EOF | ERROR
| SEMICOLON | COLON
| GT | GTE | LT | LTE | EQ | BANG | NEQ | ASSIGN.

Record Loc := mkLoc { line : Z; col_start : Z; col_end : option Z }.

Record Token := mkToken {
  kind : TokenType;
  value : string;
  loc : Loc;
  source_name : string
}.

(** ** Opcodes, instructions and function objects ([pyle_bytecode.py]) *)

Inductive OpCode :=
| OP_CONST | OP_DEF_GLOBAL | OP_GET_GLOBAL | OP_SET_GLOBAL | OP_DEF_CONST_GLOBAL
| OP_DEF_LOCAL | OP_GET_LOCAL | OP_SET_LOCAL | OP_DEF_CONST_LOCAL
| OP_ADD | OP_SUBTRACT | OP_MULTIPLY | OP_DIVIDE | OP_MODULO
| OP_NEGATE | OP_NOT
| OP_EQUAL | OP_NOT_EQUAL | OP_GREATER | OP_GREATER_EQUAL | OP_LESS | OP_LESS_EQUAL
| OP_AND | OP_OR
| OP_TRUE | OP_FALSE | OP_NONE
| OP_BUILD_RANGE | OP_ITER_NEW | OP_ITER_NEXT_OR_JUMP | OP_BUILD_LIST
| OP_ENTER_SCOPE | OP_EXIT_SCOPE
| OP_JUMP_IF_FALSE | OP_JUMP | OP_POP
| OP_INDEX_GET | OP_INDEX_SET | OP_GET_ATTR
| OP_CALL | OP_BUILD_KWARGS | OP_CALL_KW | OP_RETURN
| OP_HALT.

(** The operand of an instruction: absent, one integer, or the pair of
    counts of [OP_CALL_KW]. *)
Inductive Operand :=
| NoOperand
| IntOperand (n : Z)
| PairOperand (n_pos n_kw : Z).

Record Instruction := mkInstruction { opcode : OpCode; operand : Operand }.

(** The host functions of [pyle_builtins.py]. *)
Inductive NativeFn :=
| native_echo | native_len | native_scan | native_perf_counter
| native_import_py | native_get_attr.

Record PyleFunction := mkPyleFunction {
  name : string;
  arity : Z;
  start_ip : option Z;
  native_fn : option NativeFn
}.

#[global] Instance NativeFn_eq_dec : EqDecision NativeFn.
Proof. solve_decision. Defined.
#[global] Instance PyleFunction_eq_dec : EqDecision PyleFunction.
Proof. solve_decision. Defined.
#[global] Instance Operand_eq_dec : EqDecision Operand.
Proof. solve_decision. Defined.
Arguments NativeFn_eq_dec : simpl never.
Arguments PyleFunction_eq_dec : simpl never.
Arguments Operand_eq_dec : simpl never.

(** [BUILTINS], in the insertion order of the dict. *)
Definition BUILTINS : list (string * PyleFunction) :=
  [ ("echo", mkPyleFunction "echo" (-1) None (Some native_echo));
    ("len", mkPyleFunction "len" 1 None (Some native_len));
    ("scan", mkPyleFunction "scan" (-1) None (Some native_scan));
    ("perf_counter", mkPyleFunction "perf_counter" 0 None (Some native_perf_counter));
    ("importpy", mkPyleFunction "importpy" 1 None (Some native_import_py));
    ("get_attr", mkPyleFunction "get_attr" 2 None (Some native_get_attr)) ].

(** [name in BUILTINS]. *)
Definition in_BUILTINS (n : string) : bool :=
  existsb (fun kv => String.eqb (fst kv) n) BUILTINS.

(** ** Numbers

    Python compares an [int] with a [float] by their exact values, and a
    [bool] is an [int] ([True == 1]).  Every number that is not a NaN is
    [sign * m * 2^e] with [m] odd, zero, or an infinity; two numbers are
    equal exactly when these normal forms coincide. *)

Definition float : Type := spec_float.
Definition prec : Z := 53.
Definition emax : Z := 1024.

Inductive exact :=
| ExZero
| ExInf (neg : bool)
| ExFin (neg : bool) (m : positive) (e : Z).

#[global] Instance exact_eq_dec : EqDecision exact.
Proof. solve_decision. Defined.
Arguments exact_eq_dec : simpl never.

Fixpoint odd_part (m : positive) (e : Z) : positive * Z :=
  match m with
  | xO p => odd_part p (e + 1)
  | _ => (m, e)
  end.

Definition exact_of_Z (z : Z) : exact :=
  match z with
  | Z0 => ExZero
  | Zpos p => let '(m, e) := odd_part p 0 in ExFin false m e
  | Zneg p => let '(m, e) := odd_part p 0 in ExFin true m e
  end.

(** [None] for a NaN, which is equal to nothing. *)
Definition exact_of_float (f : float) : option exact :=
  match f with
  | S754_zero _ => Some ExZero
  | S754_infinity s => Some (ExInf s)
  | S754_nan => None
  | S754_finite s m e => let '(m', e') := odd_part m e in Some (ExFin s m' e')
  end.

(** [float(z)]: round to nearest even; [None] is the [OverflowError] of an
    integer too large for a float. *)
Definition float_of_Z (z : Z) : option float :=
  match binary_normalize prec emax z 0 false with
  | S754_infinity _ => None
  | f => Some f
  end.

(** ** Constants

    What the compiler puts in the constants table: the literals of the
    program, [None], function objects, and the list of keyword names of a
    call.  A list constant is compared element-wise. *)

#[warnings="-register-all"]
Inductive Const :=
| CInt (z : Z)
| CFloat (f : float)
| CBool (b : bool)
| CStr (s : string)
| CNone
| CList (l : list Const)
| CFunc (f : PyleFunction).

Definition is_list (c : Const) : bool :=
  match c with CList _ => true | _ => false end.

Definition exact_of_Const (c : Const) : option exact :=
  match c with
  | CInt z => Some (exact_of_Z z)
  | CBool b => Some (exact_of_Z (Z.b2z b))
  | CFloat f => exact_of_float f
  | _ => None
  end.

(** Two numbers are equal: neither is a NaN and their exact values are
    the same. *)
Definition same_number (x y : option exact) : bool :=
  match x, y with
  | Some a, Some b => bool_decide (a = b)
  | _, _ => false
  end.
Arguments same_number : simpl never.

(** Python's [a == b] on constants. *)
Fixpoint py_eq (a b : Const) : bool :=
  match a, b with
  | CList l1, CList l2 =>
      (fix all_eq (l1 l2 : list Const) : bool :=
         match l1, l2 with
         | [], [] => true
         | x :: l1', y :: l2' => py_eq x y && all_eq l1' l2'
         | _, _ => false
         end) l1 l2
  | CStr s, CStr t => String.eqb s t
  | CNone, CNone => true
  | CFunc f, CFunc g => bool_decide (f = g)
  | _, _ => same_number (exact_of_Const a) (exact_of_Const b)
  end.

(** [constants.index(value)]: the position of the first entry equal to
    [value]; [None] is the [ValueError]. *)
Fixpoint index_of (value : Const) (constants : list Const) : option nat :=
  match constants with
  | [] => None
  | c :: rest => if py_eq c value then Some 0%nat else S <$> index_of value rest
  end.

(** The loop of [add_constant] for a list [value]: the first entry that is
    a list and equal to it. *)
Fixpoint index_of_list (value : Const) (constants : list Const) : option nat :=
  match constants with
  | [] => None
  | c :: rest =>
      if is_list c && py_eq c value then Some 0%nat
      else S <$> index_of_list value rest
  end.

(** [Compiler.add_constant], on the constants table: the index returned
    and the table afterwards. *)
Definition add_constant (value : Const) (constants : list Const) : Z * list Const :=
  let found :=
    if is_list value then
      match index_of_list value constants with
      | Some i => Some i
      | None => index_of value constants
      end
    else index_of value constants in
  match found with
  | Some i => (Z.of_nat i, constants)
  | None => (len (constants ++ [value]) - 1, constants ++ [value])
  end.

(** ** The syntax tree ([pyle_ast.py])

    One type for every node class: the compiler dispatches on the class of
    a node at run time and accepts any node in any position.  A field that
    the code tests for truth ([if node.initializer:]) is an [option]. *)

Inductive PyNumber :=
| NumInt (z : Z)
| NumFloat (f : float).

#[warnings="-register-all"]
Inductive ASTNode :=
| Block (statements : list ASTNode) (token : option Token)
| VarDeclareStmt (name : Token) (initializer : option ASTNode) (is_const : bool)
    (token : option Token)
| AssignStmt (name : Token) (value : ASTNode) (token : option Token)
| VariableExpr (name : Token) (token : option Token)
| IfStmt (condition then_branch : ASTNode) (else_branch : option ASTNode)
    (token : option Token)
| Number (value : PyNumber) (token : option Token)
| String_ (value : string) (token : option Token)
| UnaryOp (op : Token) (operand : ASTNode) (token : option Token)
| ArrayLiteral (elements : list ASTNode) (token : option Token)
| Boolean (value : bool) (token : option Token)
| BinaryOp (left : ASTNode) (op : Token) (right : ASTNode) (token : option Token)
| LogicalOp (left : ASTNode) (op : Token) (right : ASTNode) (token : option Token)
| ComparisonOp (left : ASTNode) (op : Token) (right : ASTNode) (token : option Token)
| WhileStmt (condition body : ASTNode) (token : option Token)
| BreakStmt (token : option Token)
| ContinueStmt (token : option Token)
| RangeSpecifier (start end_ : ASTNode) (step : option ASTNode) (token : option Token)
| ForInStmt (loop_variable : Token) (iterable body : ASTNode) (token : option Token)
| FunctionExpr (params : list Token) (body : ASTNode) (token : option Token)
| FunctionDefStmt (name : Token) (params : list Token) (body : ASTNode)
    (token : option Token)
| CallExpr (callee : ASTNode) (arguments : list ASTNode)
    (keywords : list (Token * ASTNode)) (token : option Token)
| IndexExpr (collection index : ASTNode) (token : option Token)
| AssignIndexStmt (collection index value : ASTNode) (token : option Token)
| ReturnStmt (value : option ASTNode) (token : option Token)
| DotExpr (object : ASTNode) (attr : Token) (token : option Token).

(** [isinstance(node, Expr)]: the classes that derive from [Expr].
    [RangeSpecifier] and [Block] derive from [ASTNode] only, the statement
    classes from [Stmt]. *)
Definition is_Expr (node : ASTNode) : bool :=
  match node with
  | VariableExpr _ _ | Number _ _ | String_ _ _ | UnaryOp _ _ _
  | ArrayLiteral _ _ | Boolean _ _ | BinaryOp _ _ _ _ | LogicalOp _ _ _ _
  | ComparisonOp _ _ _ _ | FunctionExpr _ _ _ | CallExpr _ _ _ _
  | IndexExpr _ _ _ | DotExpr _ _ _ => true
  | _ => false
  end.

(** [node.token]. *)
Definition node_token (node : ASTNode) : option Token :=
  match node with
  | Block _ t | VarDeclareStmt _ _ _ t | AssignStmt _ _ t | VariableExpr _ t
  | IfStmt _ _ _ t | Number _ t | String_ _ t | UnaryOp _ _ t
  | ArrayLiteral _ t | Boolean _ t | BinaryOp _ _ _ t | LogicalOp _ _ _ t
  | ComparisonOp _ _ _ t | WhileStmt _ _ t | BreakStmt t | ContinueStmt t
  | RangeSpecifier _ _ _ t | ForInStmt _ _ _ t | FunctionExpr _ _ t
  | FunctionDefStmt _ _ _ t | CallExpr _ _ _ t | IndexExpr _ _ t
  | AssignIndexStmt _ _ _ t | ReturnStmt _ t | DotExpr _ _ t => t
  end.

(** [kind.name], the name of a member of the [TokenType] enum. *)
Definition kind_name (k : TokenType) : string :=
  match k with
  | INT => "INT" | FLOAT => "FLOAT" | STRING => "STRING"
  | KEYWORD => "KEYWORD" | IDENT => "IDENT" | DOT => "DOT"
  | L_PAREN => "L_PAREN" | R_PAREN => "R_PAREN"
  | L_BRACKET => "L_BRACKET" | R_BRACKET => "R_BRACKET"
  | L_CURLY_BRACE => "L_CURLY_BRACE" | R_CURLY_BRACE => "R_CURLY_BRACE"
  | L_SQ_BRACKET => "L_SQ_BRACKET" | R_SQ_BRACKET => "R_SQ_BRACKET"
  | COMMA => "COMMA"
  | PLUS => "PLUS" | MINUS => "MINUS" | MUL => "MUL" | DIV => "DIV"
  | MOD => "MOD" | EOF => "EOF" | ERROR => "ERROR"
  | SEMICOLON => "SEMICOLON" | COLON => "COLON"
  | GT => "GT" | GTE => "GTE" | LT => "LT" | LTE => "LTE" | EQ => "EQ"
  | BANG => "BANG" | NEQ => "NEQ" | ASSIGN => "ASSIGN"
  end.

(** ** The compiler ([pyle_compiler.py]) *)

Definition OPERATION_INTS : list (string * OpCode) :=
  [ ("PLUS", OP_ADD); ("MINUS", OP_SUBTRACT); ("MUL", OP_MULTIPLY);
    ("DIV", OP_DIVIDE); ("MOD", OP_MODULO);
    ("and", OP_AND); ("or", OP_OR);
    ("EQ", OP_EQUAL); ("NEQ", OP_NOT_EQUAL); ("GT", OP_GREATER);
    ("GTE", OP_GREATER_EQUAL); ("LT", OP_LESS); ("LTE", OP_LESS_EQUAL) ].

(** [OPERATION_INTS.get(key)]. *)
Definition OPERATION_INTS_get (key : string) : option OpCode :=
  snd <$> find (fun kv => String.eqb (fst kv) key) OPERATION_INTS.

(** The fields of a [Compiler] object. *)
Record Compiler := mkCompiler {
  bytecode_chunk : list Instruction;
  constants : list Const;
  scope_depth : Z;
  token_map : gmap Z Token;
  loop_level : Z;
  loop_start_patches : list (list Z);
  loop_end_patches : list (list Z)
}.

(** The exceptions that abort a compilation. *)
Inductive CompileError :=
| UnsupportedUnaryOperator (op : Token)
| OperatorNotImplemented (op : Token)
| BreakOutsideLoop
| ContinueOutsideLoop
| PatchIndexError (instruction_index : Z)
| JumpOverElseNotSet
| IndexError_patches.

(** Compiler methods run in a state and exception monad over the fields of
    [self]. *)
Definition M (A : Type) : Type := Compiler -> CompileError + A * Compiler.

Definition ret {A} (a : A) : M A := fun self => inr (a, self).
Definition bind {A B} (m : M A) (k : A -> M B) : M B :=
  fun self => match m self with
              | inl e => inl e
              | inr (a, self') => k a self'
              end.
Definition raise {A} (e : CompileError) : M A := fun _ => inl e.
Definition gets {A} (f : Compiler -> A) : M A := fun self => inr (f self, self).
Definition modify (f : Compiler -> Compiler) : M unit := fun self => inr (tt, f self).

Declare Scope compiler_scope.
Delimit Scope compiler_scope with compiler.
Notation "x <- m ;; k" := (bind m (fun x => k))
  (at level 100, m at next level, right associativity) : compiler_scope.
Notation "m ;; k" := (bind m (fun _ => k))
  (at level 100, right associativity) : compiler_scope.
Local Open Scope compiler_scope.

Definition set_bytecode_chunk (l : list Instruction) (self : Compiler) : Compiler :=
  mkCompiler l (constants self) (scope_depth self) (token_map self)
    (loop_level self) (loop_start_patches self) (loop_end_patches self).
Definition set_constants (l : list Const) (self : Compiler) : Compiler :=
  mkCompiler (bytecode_chunk self) l (scope_depth self) (token_map self)
    (loop_level self) (loop_start_patches self) (loop_end_patches self).
Definition set_scope_depth (d : Z) (self : Compiler) : Compiler :=
  mkCompiler (bytecode_chunk self) (constants self) d (token_map self)
    (loop_level self) (loop_start_patches self) (loop_end_patches self).
Definition set_token_map (m : gmap Z Token) (self : Compiler) : Compiler :=
  mkCompiler (bytecode_chunk self) (constants self) (scope_depth self) m
    (loop_level self) (loop_start_patches self) (loop_end_patches self).
Definition set_loop_level (n : Z) (self : Compiler) : Compiler :=
  mkCompiler (bytecode_chunk self) (constants self) (scope_depth self)
    (token_map self) n (loop_start_patches self) (loop_end_patches self).
Definition set_loop_start_patches (l : list (list Z)) (self : Compiler) : Compiler :=
  mkCompiler (bytecode_chunk self) (constants self) (scope_depth self)
    (token_map self) (loop_level self) l (loop_end_patches self).
Definition set_loop_end_patches (l : list (list Z)) (self : Compiler) : Compiler :=
  mkCompiler (bytecode_chunk self) (constants self) (scope_depth self)
    (token_map self) (loop_level self) (loop_start_patches self) l.

(** [self.add_constant(value)]. *)
Definition Compiler_add_constant (value : Const) : M Z :=
  fun self =>
    let '(i, pool) := add_constant value (constants self) in
    inr (i, set_constants pool self).

(** [self.emit_instruction(opcode, operand, token)]. *)
Definition emit_instruction (op : OpCode) (arg : Operand) (token : option Token) : M Z :=
  fun self =>
    let instruction_index := len (bytecode_chunk self) in
    let self1 :=
      set_bytecode_chunk (bytecode_chunk self ++ [mkInstruction op arg]) self in
    let self2 :=
      match token with
      | Some t => set_token_map (<[instruction_index := t]> (token_map self1)) self1
      | None => self1
      end in
    inr (instruction_index, self2).

(** [self.bytecode_chunk[idx].operand = target]. *)
Definition set_operand (idx : Z) (target : Operand) : M unit :=
  fun self =>
    match getitem (bytecode_chunk self) idx with
    | None => inl (PatchIndexError idx)
    | Some instr =>
        match setitem (bytecode_chunk self) idx
                (mkInstruction (opcode instr) target) with
        | None => inl (PatchIndexError idx)
        | Some chunk => inr (tt, set_bytecode_chunk chunk self)
        end
    end.

(** [self.bytecode_chunk[idx].operand]. *)
Definition operand_at (idx : Z) : M Operand :=
  fun self =>
    match getitem (bytecode_chunk self) idx with
    | None => inl (PatchIndexError idx)
    | Some instr => inr (operand instr, self)
    end.

(** [self.patch_jump(instruction_index, jump_target_ip)]. *)
Definition patch_jump (instruction_index : Z) (jump_target_ip : option Z) : M unit :=
  n <- gets (fun self => len (bytecode_chunk self)) ;;
  if negb ((0 <=? instruction_index) && (instruction_index <? n))
  then raise (PatchIndexError instruction_index)
  else
    let target_ip_to_set := match jump_target_ip with Some t => t | None => n end in
    set_operand instruction_index (IntOperand target_ip_to_set).

(** [for patch_idx in patches: self.bytecode_chunk[patch_idx].operand = target]. *)
Fixpoint patch_all (patches : list Z) (target : Operand) : M unit :=
  match patches with
  | [] => ret tt
  | patch_idx :: rest => set_operand patch_idx target ;; patch_all rest target
  end.

(** [self.loop_..._patches[-1]]. *)
Definition last_patches (f : Compiler -> list (list Z)) : M (list Z) :=
  stack <- gets f ;;
  match getitem stack (-1) with
  | Some l => ret l
  | None => raise IndexError_patches
  end.

(** [stack[-1].append(jump_idx)]. *)
Definition append_to_last (stack : list (list Z)) (jump_idx : Z)
  : option (list (list Z)) :=
  match getitem stack (-1) with
  | Some l => setitem stack (-1) (l ++ [jump_idx])
  | None => None
  end.

(** [stack.pop()], the popped list dropped. *)
Definition pop_patches (stack : list (list Z)) : option (list (list Z)) :=
  fst <$> list_pop stack.

Definition push_patches (stack : list (list Z)) : list (list Z) := stack ++ [[]].

Definition begin_loop_start (self : Compiler) : Compiler :=
  set_loop_start_patches (push_patches (loop_start_patches self)) self.
Definition begin_loop_end (self : Compiler) : Compiler :=
  set_loop_end_patches (push_patches (loop_end_patches self)) self.

(** [self.loop_start_patches.pop()] and [self.loop_end_patches.pop()]. *)
Definition pop_loop_start : M unit :=
  fun self => match pop_patches (loop_start_patches self) with
              | Some st => inr (tt, set_loop_start_patches st self)
              | None => inl IndexError_patches
              end.
Definition pop_loop_end : M unit :=
  fun self => match pop_patches (loop_end_patches self) with
              | Some st => inr (tt, set_loop_end_patches st self)
              | None => inl IndexError_patches
              end.

(** [self.loop_end_patches[-1].append(jump_idx)], and the same for the
    [continue] patches. *)
Definition record_break (jump_idx : Z) : M unit :=
  fun self => match append_to_last (loop_end_patches self) jump_idx with
              | Some st => inr (tt, set_loop_end_patches st self)
              | None => inl IndexError_patches
              end.
Definition record_continue (jump_idx : Z) : M unit :=
  fun self => match append_to_last (loop_start_patches self) jump_idx with
              | Some st => inr (tt, set_loop_start_patches st self)
              | None => inl IndexError_patches
              end.

Definition add_scope_depth (d : Z) : M unit :=
  modify (fun self => set_scope_depth (scope_depth self + d) self).
Definition add_loop_level (d : Z) : M unit :=
  modify (fun self => set_loop_level (loop_level self + d) self).

(** [emit_instruction] with the returned index dropped. *)
Definition emit (op : OpCode) (arg : Operand) (token : option Token) : M unit :=
  _ <- emit_instruction op arg token ;; ret tt.

Definition when (b : bool) (m : M unit) : M unit := if b then m else ret tt.

(** [a if a else b] on tokens. *)
Definition token_or (a b : option Token) : option Token :=
  match a with Some t => Some t | None => b end.

Definition is_not_None {A} (x : option A) : bool :=
  match x with Some _ => true | None => false end.

Definition Const_of_number (v : PyNumber) : Const :=
  match v with NumInt z => CInt z | NumFloat f => CFloat f end.

#[global] Instance TokenType_eq_dec : EqDecision TokenType.
Proof. solve_decision. Defined.

(** The sentinel operand of a jump that is not patched yet. *)
Definition placeholder : Operand := IntOperand 99999.

(** [for x in l: body(x)]. *)
Definition for_each {A} (l : list A) (body : A -> M unit) : M unit :=
  (fix each (l : list A) : M unit :=
     match l with
     | [] => ret tt
     | x :: rest => body x ;; each rest
     end) l.

(** The prologue and epilogue shared by [visit_FunctionDefStmt] and
    [visit_FunctionExpr] around the body: the parameters are bound in
    reverse order. *)
Fixpoint define_params (params : list Token) : M unit :=
  match params with
  | [] => ret tt
  | param_token :: rest =>
      param_name_idx <- Compiler_add_constant (CStr (value param_token)) ;;
      emit OP_DEF_LOCAL (IntOperand param_name_idx) (Some param_token) ;;
      define_params rest
  end.

(** [Compiler._compile_node]: the dispatch on the class of the node, each
    branch the [visit_] method of that class. *)
Fixpoint _compile_node (node : ASTNode) {struct node} : M unit :=
  match node with
  | Block statements token =>
      let create_new_scope := is_not_None token in
      when create_new_scope
        (add_scope_depth 1 ;; emit OP_ENTER_SCOPE NoOperand token) ;;
      for_each statements (fun statement_node =>
        _compile_node statement_node ;;
        when (is_Expr statement_node) (emit OP_POP NoOperand None)) ;;
      when create_new_scope
        (emit OP_EXIT_SCOPE NoOperand token ;; add_scope_depth (-1))
  | Number v token =>
      constant_index <- Compiler_add_constant (Const_of_number v) ;;
      emit OP_CONST (IntOperand constant_index) token
  | String_ v token =>
      constant_index <- Compiler_add_constant (CStr v) ;;
      emit OP_CONST (IntOperand constant_index) token
  | UnaryOp op operand _ =>
      _compile_node operand ;;
      if bool_decide (kind op = MINUS) then emit OP_NEGATE NoOperand (Some op)
      else if bool_decide (kind op = KEYWORD) && String.eqb (value op) "not"
      then emit OP_NOT NoOperand (Some op)
      else raise (UnsupportedUnaryOperator op)
  | BinaryOp left_ op right_ token =>
      _compile_node left_ ;;
      _compile_node right_ ;;
      match OPERATION_INTS_get (kind_name (kind op)) with
      | None => raise (OperatorNotImplemented op)
      | Some opcode => emit opcode NoOperand token
      end
  | LogicalOp left_ op right_ _ =>
      let op_token_value := value op in
      if String.eqb op_token_value "or" then
        _compile_node left_ ;;
        _compile_node left_ ;;
        _compile_node right_ ;;
        match OPERATION_INTS_get op_token_value with
        | None => raise (OperatorNotImplemented op)
        | Some opcode => emit opcode NoOperand (Some op)
        end
      else if String.eqb op_token_value "and" then
        _compile_node left_ ;;
        _compile_node right_ ;;
        match OPERATION_INTS_get op_token_value with
        | None => raise (OperatorNotImplemented op)
        | Some opcode => emit opcode NoOperand (Some op)
        end
      else raise (OperatorNotImplemented op)
  | ComparisonOp left_ op right_ token =>
      _compile_node left_ ;;
      _compile_node right_ ;;
      match OPERATION_INTS_get (kind_name (kind op)) with
      | None => raise (OperatorNotImplemented op)
      | Some opcode => emit opcode NoOperand token
      end
  | VarDeclareStmt name initializer is_const _ =>
      match initializer with
      | Some init => _compile_node init
      | None =>
          idx <- Compiler_add_constant CNone ;;
          emit OP_CONST (IntOperand idx) (Some name)
      end ;;
      let var_name_str := value name in
      name_idx <- Compiler_add_constant (CStr var_name_str) ;;
      depth <- gets scope_depth ;;
      if 0 <? depth then
        let op_code := if is_const then OP_DEF_CONST_LOCAL else OP_DEF_LOCAL in
        emit op_code (IntOperand name_idx) (Some name)
      else
        let op_code := if is_const then OP_DEF_CONST_GLOBAL else OP_DEF_GLOBAL in
        emit op_code (IntOperand name_idx) (Some name) ;;
        emit OP_DEF_GLOBAL (IntOperand name_idx) (Some name)
  | AssignStmt name v _ =>
      _compile_node v ;;
      let var_name_str := value name in
      name_idx <- Compiler_add_constant (CStr var_name_str) ;;
      depth <- gets scope_depth ;;
      if 0 <? depth then emit OP_SET_LOCAL (IntOperand name_idx) (Some name)
      else emit OP_SET_GLOBAL (IntOperand name_idx) (Some name)
  | VariableExpr name _ =>
      let var_name := value name in
      name_idx <- Compiler_add_constant (CStr var_name) ;;
      depth <- gets scope_depth ;;
      if (0 <? depth) && negb (in_BUILTINS var_name)
      then emit OP_GET_LOCAL (IntOperand name_idx) (Some name)
      else emit OP_GET_GLOBAL (IntOperand name_idx) (Some name)
  | Boolean v token =>
      if v then emit OP_TRUE NoOperand token else emit OP_FALSE NoOperand token
  | IfStmt condition then_branch else_branch token =>
      _compile_node condition ;;
      jump_if_false_idx <- emit_instruction OP_JUMP_IF_FALSE placeholder token ;;
      _compile_node then_branch ;;
      jump_over_else_idx <-
        (if is_not_None else_branch
         then emit_instruction OP_JUMP placeholder token
         else ret (-1)) ;;
      patch_jump jump_if_false_idx None ;;
      match else_branch with
      | Some else_node =>
          _compile_node else_node ;;
          if jump_over_else_idx =? -1 then raise JumpOverElseNotSet
          else patch_jump jump_over_else_idx None
      | None => ret tt
      end
  | WhileStmt condition body token =>
      add_loop_level 1 ;;
      modify begin_loop_start ;;
      modify begin_loop_end ;;
      loop_start_ip <- gets (fun self => len (bytecode_chunk self)) ;;
      _compile_node condition ;;
      exit_loop_jump_idx <- emit_instruction OP_JUMP_IF_FALSE placeholder token ;;
      _compile_node body ;;
      continue_patches <- last_patches loop_start_patches ;;
      patch_all continue_patches (IntOperand loop_start_ip) ;;
      emit OP_JUMP (IntOperand loop_start_ip) token ;;
      patch_jump exit_loop_jump_idx None ;;
      loop_end_target_ip <- operand_at exit_loop_jump_idx ;;
      break_patches <- last_patches loop_end_patches ;;
      patch_all break_patches loop_end_target_ip ;;
      pop_loop_start ;;
      pop_loop_end ;;
      add_loop_level (-1)
  | RangeSpecifier start end_ step token =>
      _compile_node start ;;
      _compile_node end_ ;;
      match step with
      | Some step_node => _compile_node step_node
      | None =>
          idx <- Compiler_add_constant (CInt 1) ;;
          emit OP_CONST (IntOperand idx) token
      end ;;
      emit OP_BUILD_RANGE NoOperand token
  | ForInStmt loop_variable iterable body token =>
      add_loop_level 1 ;;
      modify begin_loop_end ;;
      modify begin_loop_start ;;
      add_scope_depth 1 ;;
      emit OP_ENTER_SCOPE NoOperand token ;;
      _compile_node iterable ;;
      emit OP_ITER_NEW NoOperand (token_or (node_token iterable) token) ;;
      let var_name_str := value loop_variable in
      name_idx <- Compiler_add_constant (CStr var_name_str) ;;
      none_idx <- Compiler_add_constant CNone ;;
      emit OP_CONST (IntOperand none_idx) (Some loop_variable) ;;
      emit OP_DEF_LOCAL (IntOperand name_idx) (Some loop_variable) ;;
      loop_iteration_start_ip <- gets (fun self => len (bytecode_chunk self)) ;;
      jump_if_exhausted_idx <- emit_instruction OP_ITER_NEXT_OR_JUMP placeholder token ;;
      emit OP_SET_LOCAL (IntOperand name_idx) (Some loop_variable) ;;
      _compile_node body ;;
      emit OP_JUMP (IntOperand loop_iteration_start_ip) token ;;
      break_handler_ip <- gets (fun self => len (bytecode_chunk self)) ;;
      emit OP_POP NoOperand token ;;
      current_loop_break_patches <- last_patches loop_end_patches ;;
      patch_all current_loop_break_patches (IntOperand break_handler_ip) ;;
      after_loop_ip <- gets (fun self => len (bytecode_chunk self)) ;;
      patch_jump jump_if_exhausted_idx (Some after_loop_ip) ;;
      current_loop_continue_patches <- last_patches loop_start_patches ;;
      patch_all current_loop_continue_patches (IntOperand loop_iteration_start_ip) ;;
      emit OP_EXIT_SCOPE NoOperand token ;;
      add_scope_depth (-1) ;;
      pop_loop_start ;;
      pop_loop_end ;;
      add_loop_level (-1)
  | ArrayLiteral elements token =>
      for_each elements (fun element_expr => _compile_node element_expr) ;;
      let num_elements := len elements in
      emit OP_BUILD_LIST (IntOperand num_elements) token
  | BreakStmt token =>
      level <- gets loop_level ;;
      if level =? 0 then raise BreakOutsideLoop
      else
        jump_idx <- emit_instruction OP_JUMP placeholder token ;;
        record_break jump_idx
  | ContinueStmt token =>
      level <- gets loop_level ;;
      if level =? 0 then raise ContinueOutsideLoop
      else
        jump_idx <- emit_instruction OP_JUMP placeholder token ;;
        record_continue jump_idx
  | FunctionDefStmt name params body token =>
      jump_over_body_idx <- emit_instruction OP_JUMP placeholder token ;;
      function_start_ip <- gets (fun self => len (bytecode_chunk self)) ;;
      enclosing_scope_depth <- gets scope_depth ;;
      add_scope_depth 1 ;;
      emit OP_ENTER_SCOPE NoOperand token ;;
      define_params (rev params) ;;
      _compile_node body ;;
      emit OP_EXIT_SCOPE NoOperand (token_or (node_token body) token) ;;
      none_idx <- Compiler_add_constant CNone ;;
      emit OP_CONST (IntOperand none_idx) token ;;
      emit OP_RETURN NoOperand token ;;
      modify (set_scope_depth enclosing_scope_depth) ;;
      patch_jump jump_over_body_idx None ;;
      let pyle_fn_name := value name in
      let func_obj :=
        mkPyleFunction pyle_fn_name (len params) (Some function_start_ip) None in
      func_const_idx <- Compiler_add_constant (CFunc func_obj) ;;
      emit OP_CONST (IntOperand func_const_idx) (Some name) ;;
      depth <- gets scope_depth ;;
      name_idx <- Compiler_add_constant (CStr (value name)) ;;
      if 0 <? depth then emit OP_DEF_LOCAL (IntOperand name_idx) (Some name)
      else emit OP_DEF_GLOBAL (IntOperand name_idx) (Some name)
  | CallExpr callee arguments keywords token =>
      _compile_node callee ;;
      for_each arguments (fun arg => _compile_node arg) ;;
      for_each keywords (fun '(_, kw_value) => _compile_node kw_value) ;;
      match keywords with
      | _ :: _ =>
          let kw_names := CList (map (fun kw => CStr (value (fst kw))) keywords) in
          kw_names_idx <- Compiler_add_constant kw_names ;;
          emit OP_CONST (IntOperand kw_names_idx) token ;;
          emit OP_BUILD_KWARGS (IntOperand (len keywords)) token ;;
          emit OP_CALL_KW (PairOperand (len arguments) (len keywords)) token
      | [] => emit OP_CALL (IntOperand (len arguments)) token
      end
  | ReturnStmt v token =>
      match v with
      | Some value_node => _compile_node value_node
      | None =>
          idx <- Compiler_add_constant CNone ;;
          emit OP_CONST (IntOperand idx) token
      end ;;
      emit OP_RETURN NoOperand token
  | FunctionExpr params body token =>
      jump_over_body_idx <- emit_instruction OP_JUMP placeholder token ;;
      function_start_ip <- gets (fun self => len (bytecode_chunk self)) ;;
      enclosing_scope_depth <- gets scope_depth ;;
      add_scope_depth 1 ;;
      emit OP_ENTER_SCOPE NoOperand token ;;
      define_params (rev params) ;;
      _compile_node body ;;
      emit OP_EXIT_SCOPE NoOperand (token_or (node_token body) token) ;;
      none_idx <- Compiler_add_constant CNone ;;
      emit OP_CONST (IntOperand none_idx) token ;;
      emit OP_RETURN NoOperand token ;;
      modify (set_scope_depth enclosing_scope_depth) ;;
      patch_jump jump_over_body_idx None ;;
      let func_obj :=
        mkPyleFunction "<lambda>" (len params) (Some function_start_ip) None in
      func_const_idx <- Compiler_add_constant (CFunc func_obj) ;;
      emit OP_CONST (IntOperand func_const_idx) token
  | IndexExpr collection index token =>
      _compile_node collection ;;
      _compile_node index ;;
      emit OP_INDEX_GET NoOperand token
  | AssignIndexStmt collection index v token =>
      _compile_node collection ;;
      _compile_node index ;;
      _compile_node v ;;
      emit OP_INDEX_SET NoOperand token
  | DotExpr object attr token =>
      _compile_node object ;;
      attr_name_idx <- Compiler_add_constant (CStr (value attr)) ;;
      emit OP_GET_ATTR (IntOperand attr_name_idx) token
  end.

(** [Compiler._initialize_builtins]: for each entry of [BUILTINS], push the
    function object and define it as a global. *)
Fixpoint initialize_from (items : list (string * PyleFunction)) : M unit :=
  match items with
  | [] => ret tt
  | (fn_name, fn_obj) :: rest =>
      fn_idx <- Compiler_add_constant (CFunc fn_obj) ;;
      name_idx <- Compiler_add_constant (CStr fn_name) ;;
      emit OP_CONST (IntOperand fn_idx) None ;;
      emit OP_DEF_GLOBAL (IntOperand name_idx) None ;;
      initialize_from rest
  end.

Definition _initialize_builtins : M unit := initialize_from BUILTINS.

(** The fields that [compile] (and [__init__]) assign before the builtins
    are initialised. *)
Definition reset : Compiler := mkCompiler [] [] 0 ∅ 0 [] [].

(** [Compiler.compile(node)]: the method resets every field first, so its
    result does not depend on the state it is called in. *)
Definition compile (node : ASTNode) : M (list Instruction * list Const) :=
  modify (fun _ => reset) ;;
  _initialize_builtins ;;
  emit OP_ENTER_SCOPE NoOperand None ;;
  modify (set_scope_depth 1) ;;
  _compile_node node ;;
  emit OP_EXIT_SCOPE NoOperand None ;;
  modify (set_scope_depth 0) ;;
  none_idx <- Compiler_add_constant CNone ;;
  emit OP_CONST (IntOperand none_idx) None ;;
  emit OP_RETURN NoOperand None ;;
  gets (fun self => (bytecode_chunk self, constants self)).

(** [Compiler()]: the state after [__init__]. *)
Definition Compiler_new : Compiler :=
  match _initialize_builtins reset with
  | inr (_, self) => self
  | inl _ => reset
  end.

(** [Compiler().compile(node)], the chunk alone. *)
Definition compile_program (node : ASTNode) : CompileError + list Instruction * list Const :=
  match compile node Compiler_new with
  | inl e => inl e
  | inr (chunk, _) => inr chunk
  end.

Definition tok (k : TokenType) (v : string) : Token := mkToken k v (mkLoc 1 0 None) "".
Definition ident (v : string) : ASTNode := VariableExpr (tok IDENT v) (Some (tok IDENT v)).
Definition int_lit (z : Z) : ASTNode := Number (NumInt z) None.
Definition S1 : ASTNode :=
  Block [ VarDeclareStmt (tok IDENT "x")
            (Some (BinaryOp (int_lit 2) (tok PLUS "+")
                     (BinaryOp (int_lit 3) (tok MUL "*") (int_lit 4) None) None))
            false None;
          ident "x" ] None.

(** ** Run-time values ([pyle_vm.py], [pyle_bytecode.py])

    The values of the machine are the Python objects that the bytecode can
    build.  A list is mutable and shared, so a list value is an address
    into a heap; so is an iterator, whose cursor [next] advances in place.
    A [Range] is a record of three arbitrary values; a dict (the keyword
    arguments of a call, the globals, a scope) keeps its insertion order
    and is an association list.  [VHost] is a raw callable of the host
    (a Python function or method), known only by a handle.  Strings are
    sequences of 8-bit characters. *)

Module VM.

Definition addr : Type := nat.

#[warnings="-register-all"]
Inductive Value :=
| VInt (z : Z)
| VFloat (f : float)
| VBool (b : bool)
| VStr (s : string)
| VNone
| VList (a : addr)
| VRange (start end_ step : Value)
| VIter (a : addr)
| VFunc (f : PyleFunction)
| VDict (items : list (Value * Value))
| VHost (h : N).

(** The cursor of an iterator: over a list (the list is dropped once the
    cursor ran off its end), over a [range], or over the items that remain
    of an immutable sequence (the characters of a string, the keys of a
    dict). *)
Inductive Iterator :=
| ListIter (seq : option addr) (index : nat)
| RangeIter (next step remaining : Z)
| ItemsIter (remaining : list Value).

Inductive Obj :=
| OList (items : list Value)
| OIter (it : Iterator).

Definition Heap : Type := list Obj.

(** A new object gets the next address. *)
Definition alloc (h : Heap) (o : Obj) : addr * Heap := (length h, h ++ [o]).

Definition heap_list (h : Heap) (a : addr) : option (list Value) :=
  match h !! a with
  | Some (OList items) => Some items
  | _ => None
  end.

(** The exceptions of Python that the machine meets. *)
Inductive PyExc :=
| TypeError | IndexError | KeyError | ValueError | OverflowError
| ZeroDivisionError | RecursionError | StopIteration
| HostException      (* an [Exception] raised by host code *)
| HostAbort.         (* a [BaseException] that is no [Exception] *)

(** The result of a Python operation: a value, or a raised exception. *)
Inductive Py (A : Type) :=
| PyOk (a : A)
| PyRaise (e : PyExc).
Arguments PyOk {A} a.
Arguments PyRaise {A} e.

Definition py_bind {A B} (m : Py A) (k : A -> Py B) : Py B :=
  match m with
  | PyOk a => k a
  | PyRaise e => PyRaise e
  end.

(** *** Numbers *)

Inductive num :=
| NumZ (z : Z)
| NumF (f : float).

(** [isinstance(v, (int, float))], with the number; a [bool] is an [int]. *)
Definition as_num (v : Value) : option num :=
  match v with
  | VInt z => Some (NumZ z)
  | VBool b => Some (NumZ (Z.b2z b))
  | VFloat f => Some (NumF f)
  | _ => None
  end.

Definition is_number (v : Value) : bool := is_not_None (as_num v).

Definition exact_of_num (n : num) : option exact :=
  match n with
  | NumZ z => Some (exact_of_Z z)
  | NumF f => exact_of_float f
  end.

Definition to_float (n : num) : Py float :=
  match n with
  | NumF f => PyOk f
  | NumZ z => match float_of_Z z with
              | Some f => PyOk f
              | None => PyRaise OverflowError
              end
  end.

(** [a op b] on numbers for [+], [-] and [*]: integer arithmetic on two
    integers, float arithmetic as soon as one operand is a float. *)
Definition arith (fz : Z -> Z -> Z) (ff : float -> float -> float) (a b : num)
  : Py Value :=
  match a, b with
  | NumZ x, NumZ y => PyOk (VInt (fz x y))
  | _, _ =>
      py_bind (to_float a) (fun x =>
      py_bind (to_float b) (fun y => PyOk (VFloat (ff x y))))
  end.

Definition is_float_zero (f : float) : bool :=
  match f with S754_zero _ => true | _ => false end.

(** [a / b] on two integers: the quotient rounded once to the nearest
    float.  [OverflowError] when it is too large for a float. *)
Definition int_true_divide (a b : Z) : Py Value :=
  let as_sf (z : Z) : float :=
    match z with
    | Z0 => S754_zero false
    | Zpos p => S754_finite false p 0
    | Zneg p => S754_finite true p 0
    end in
  if b =? 0 then PyRaise ZeroDivisionError
  else match SFdiv prec emax (as_sf a) (as_sf b) with
       | S754_infinity _ => PyRaise OverflowError
       | q => PyOk (VFloat q)
       end.

(** [a / b] on numbers. *)
Definition true_divide (a b : num) : Py Value :=
  match a, b with
  | NumZ x, NumZ y => int_true_divide x y
  | _, _ =>
      py_bind (to_float a) (fun x =>
      py_bind (to_float b) (fun y =>
        if is_float_zero y then PyRaise ZeroDivisionError
        else PyOk (VFloat (SFdiv prec emax x y))))
  end.

Definition float_negative (f : float) : bool :=
  match f with
  | S754_infinity true | S754_finite true _ _ => true
  | _ => false
  end.

Definition float_sign (f : float) : bool :=
  match f with
  | S754_zero s | S754_infinity s | S754_finite s _ _ => s
  | S754_nan => false
  end.

(** C's [fmod]: the exact remainder, with the sign of [x]. *)
Definition fmod (x y : float) : float :=
  match x, y with
  | S754_nan, _ | _, S754_nan => S754_nan
  | S754_infinity _, _ => S754_nan
  | _, S754_zero _ => S754_nan
  | S754_zero _, _ => x
  | S754_finite _ _ _, S754_infinity _ => x
  | S754_finite sx mx ex, S754_finite _ my ey =>
      let e := Z.min ex ey in
      let r := (Zpos mx * 2 ^ (ex - e)) mod (Zpos my * 2 ^ (ey - e)) in
      if r =? 0 then S754_zero sx
      else binary_normalize prec emax (cond_Zopp sx r) e false
  end.

(** [v % w] on floats ([float_rem]): the remainder takes the sign of [w]. *)
Definition float_rem (v w : float) : float :=
  let m := fmod v w in
  if is_float_zero m then S754_zero (float_sign w)
  else if xorb (float_negative w) (float_negative m) then SFadd prec emax m w
  else m.

(** [a % b] on numbers. *)
Definition modulo (a b : num) : Py Value :=
  match a, b with
  | NumZ x, NumZ y =>
      if y =? 0 then PyRaise ZeroDivisionError else PyOk (VInt (x mod y))
  | _, _ =>
      py_bind (to_float a) (fun x =>
      py_bind (to_float b) (fun y =>
        if is_float_zero y then PyRaise ZeroDivisionError
        else PyOk (VFloat (float_rem x y))))
  end.

(** The order of two exact numbers. *)
Definition exact_compare (a b : exact) : comparison :=
  let scaled (x : exact) (e : Z) : Z :=
    match x with
    | ExFin s m ex => cond_Zopp s (Zpos m * 2 ^ (ex - e))
    | _ => 0
    end in
  let exponent (x : exact) (other : Z) : Z :=
    match x with ExFin _ _ e => e | _ => other end in
  match a, b with
  | ExInf sa, ExInf sb =>
      if eqb sa sb then Eq else if sa then Lt else Gt
  | ExInf sa, _ => if sa then Lt else Gt
  | _, ExInf sb => if sb then Gt else Lt
  | _, _ =>
      let e := Z.min (exponent a (exponent b 0)) (exponent b (exponent a 0)) in
      Z.compare (scaled a e) (scaled b e)
  end.

Inductive CompareOp := CmpLt | CmpLe | CmpGt | CmpGe.

Definition holds (op : CompareOp) (c : comparison) : bool :=
  match op, c with
  | CmpLt, Lt | CmpLe, Lt | CmpLe, Eq | CmpGt, Gt | CmpGe, Gt | CmpGe, Eq => true
  | _, _ => false
  end.

(** An ordering comparison of two numbers: false when one is a NaN. *)
Definition num_compare (op : CompareOp) (a b : num) : bool :=
  match exact_of_num a, exact_of_num b with
  | Some x, Some y => holds op (exact_compare x y)
  | _, _ => false
  end.

Definition num_eq (a b : num) : bool :=
  same_number (exact_of_num a) (exact_of_num b).

(** *** Dicts

    A key must be hashable: lists, ranges and dicts are not.  Two keys are
    the same key when they are equal; a NaN key is taken to be the one
    object it was stored under. *)

Definition hashable (v : Value) : bool :=
  match v with
  | VList _ | VRange _ _ _ | VDict _ => false
  | _ => true
  end.

Definition key_eq (a b : Value) : bool :=
  match a, b with
  | VStr s, VStr t => String.eqb s t
  | VNone, VNone => true
  | VIter x, VIter y => bool_decide (x = y)
  | VFunc f, VFunc g => bool_decide (f = g)
  | VHost x, VHost y => bool_decide (x = y)
  | _, _ =>
      match as_num a, as_num b with
      | Some x, Some y => bool_decide (exact_of_num x = exact_of_num y)
      | _, _ => false
      end
  end.

(** [d.get(k)]. *)
Fixpoint dict_get {V} (d : list (Value * V)) (k : Value) : option V :=
  match d with
  | [] => None
  | (k', v) :: d' => if key_eq k' k then Some v else dict_get d' k
  end.

(** [d[k] = v]: a key that is present keeps its place, a new key goes last. *)
Fixpoint dict_set {V} (d : list (Value * V)) (k : Value) (v : V) : list (Value * V) :=
  match d with
  | [] => [(k, v)]
  | (k', v') :: d' =>
      if key_eq k' k then (k', v) :: d' else (k', v') :: dict_set d' k v
  end.

(** *** Truth, equality and order of values *)

(** [bool(v)]. *)
Definition truthy (h : Heap) (v : Value) : bool :=
  match v with
  | VInt z => negb (z =? 0)
  | VFloat f => negb (is_float_zero f)
  | VBool b => b
  | VStr s => negb (String.eqb s "")
  | VNone => false
  | VList a => match heap_list h a with Some [] => false | _ => true end
  | VDict [] => false
  | _ => true
  end.

(** [self._is_falsey(value)]. *)
Definition _is_falsey (h : Heap) (v : Value) : bool := negb (truthy h v).

(** [a == b].  The elements of two lists are compared in turn, each level
    of nesting taking one level of the host's recursion; [None] is the
    [RecursionError] of a comparison nested deeper than [depth].  An object
    is equal to itself. *)
Fixpoint py_eq (depth : nat) (h : Heap) (a b : Value) {struct depth} : option bool :=
  match depth with
  | O => None
  | S depth' =>
      let fix all_eq (l1 l2 : list Value) : option bool :=
        match l1, l2 with
        | [], [] => Some true
        | x :: l1', y :: l2' =>
            match py_eq depth' h x y with
            | Some true => all_eq l1' l2'
            | r => r
            end
        | _, _ => Some false
        end in
      let fix included (d1 d2 : list (Value * Value)) : option bool :=
        match d1 with
        | [] => Some true
        | (k, v) :: d1' =>
            match dict_get d2 k with
            | None => Some false
            | Some v' =>
                match py_eq depth' h v v' with
                | Some true => included d1' d2
                | r => r
                end
            end
        end in
      match a, b with
      | VStr s, VStr t => Some (String.eqb s t)
      | VNone, VNone => Some true
      | VList x, VList y =>
          if bool_decide (x = y) then Some true
          else all_eq (default [] (heap_list h x)) (default [] (heap_list h y))
      | VRange s1 e1 t1, VRange s2 e2 t2 => all_eq [s1; e1; t1] [s2; e2; t2]
      | VIter x, VIter y => Some (bool_decide (x = y))
      | VFunc f, VFunc g => Some (bool_decide (f = g))
      | VHost x, VHost y => Some (bool_decide (x = y))
      | VDict d1, VDict d2 =>
          if bool_decide (length d1 = length d2) then included d1 d2 else Some false
      | _, _ =>
          match as_num a, as_num b with
          | Some x, Some y => Some (num_eq x y)
          | _, _ => Some false
          end
      end
  end.

(** [a < b], [a <= b], [a > b], [a >= b]: numbers, two strings, or two
    lists (by their first differing elements, then by length); anything
    else is a [TypeError]. *)
Fixpoint py_compare (depth : nat) (h : Heap) (op : CompareOp) (a b : Value)
  {struct depth} : Py bool :=
  match depth with
  | O => PyRaise RecursionError
  | S depth' =>
      let fix lists (l1 l2 : list Value) : Py bool :=
        match l1, l2 with
        | x :: l1', y :: l2' =>
            match py_eq depth' h x y with
            | None => PyRaise RecursionError
            | Some true => lists l1' l2'
            | Some false => py_compare depth' h op x y
            end
        | _, _ => PyOk (holds op (Nat.compare (length l1) (length l2)))
        end in
      match a, b with
      | VStr s, VStr t => PyOk (holds op (String.compare s t))
      | VList x, VList y =>
          lists (default [] (heap_list h x)) (default [] (heap_list h y))
      | _, _ =>
          match as_num a, as_num b with
          | Some x, Some y => PyOk (num_compare op x y)
          | _, _ => PyRaise TypeError
          end
      end
  end.

(** *** Sequences *)

(** An index: an [int] or a [bool]. *)
Definition as_index (v : Value) : option Z :=
  match v with
  | VInt z => Some z
  | VBool b => Some (Z.b2z b)
  | _ => None
  end.

(** The characters of a string, each a string of length one. *)
Fixpoint chars (s : string) : list string :=
  match s with
  | EmptyString => []
  | String c rest => String c EmptyString :: chars rest
  end.

Definition join (l : list string) : string := fold_right String.append "" l.

(** [seq * n]: nothing when [n <= 0]. *)
Definition repeat_list {A} (l : list A) (n : Z) : list A :=
  concat (replicate (Z.to_nat n) l).

(** The bounds of the slice [start:stop:step] of a sequence of [length]
    items ([PySlice_AdjustIndices]); [None] is an omitted bound. *)
Definition adjust_bound (length step : Z) (is_stop : bool) (i : option Z) : Z :=
  match i with
  | None =>
      if is_stop then (if step <? 0 then -1 else length)
      else (if step <? 0 then length - 1 else 0)
  | Some i =>
      if i <? 0 then
        (if i + length <? 0 then (if step <? 0 then -1 else 0) else i + length)
      else if length <=? i then (if step <? 0 then length - 1 else length)
      else i
  end.

Definition slice_count (start stop step : Z) : Z :=
  if step <? 0 then (if stop <? start then (start - stop - 1) / (- step) + 1 else 0)
  else (if start <? stop then (stop - start - 1) / step + 1 else 0).

(** [l[start:stop:step]] for a step that is not zero. *)
Definition slice {A} (l : list A) (start stop : option Z) (step : Z) : list A :=
  let first := adjust_bound (len l) step false start in
  let last := adjust_bound (len l) step true stop in
  omap (fun i => l !! Z.to_nat (first + Z.of_nat i * step))
    (seq 0 (Z.to_nat (slice_count first last step))).

(** A bound of a slice: [None], or an index. *)
Definition slice_bound (v : Value) : Py (option Z) :=
  match v with
  | VNone => PyOk None
  | _ => match as_index v with
         | Some z => PyOk (Some z)
         | None => PyRaise TypeError
         end
  end.

(** [collection[start:end:step]]: the step is read first, and a zero step is
    a [ValueError]. *)
Definition getslice (h : Heap) (collection start stop step : Value)
  : Py (Value * Heap) :=
  let sliced {A} (l : list A) (k : list A -> Value * Heap) : Py (Value * Heap) :=
    py_bind (slice_bound step) (fun st =>
    let st := default 1 st in
    if st =? 0 then PyRaise ValueError
    else
      py_bind (slice_bound start) (fun a =>
      py_bind (slice_bound stop) (fun b => PyOk (k (slice l a b st))))) in
  match collection with
  | VList a =>
      match heap_list h a with
      | Some items =>
          sliced items (fun l => let '(a', h') := alloc h (OList l) in (VList a', h'))
      | None => PyRaise TypeError
      end
  | VStr s => sliced (chars s) (fun l => (VStr (join l), h))
  | _ => PyRaise TypeError
  end.

(** [collection[index]]. *)
Definition getindex (h : Heap) (collection index : Value) : Py Value :=
  match collection with
  | VList a =>
      match heap_list h a, as_index index with
      | Some items, Some i =>
          match getitem items i with
          | Some x => PyOk x
          | None => PyRaise IndexError
          end
      | _, _ => PyRaise TypeError
      end
  | VStr s =>
      match as_index index with
      | Some i =>
          match getitem (chars s) i with
          | Some c => PyOk (VStr c)
          | None => PyRaise IndexError
          end
      | None => PyRaise TypeError
      end
  | VDict d =>
      if hashable index then
        match dict_get d index with
        | Some x => PyOk x
        | None => PyRaise KeyError
        end
      else PyRaise TypeError
  | _ => PyRaise TypeError
  end.

(** [collection[index] = value] on the list at address [a]. *)
Definition setindex (h : Heap) (a : addr) (index value : Value) : Py Heap :=
  match heap_list h a, as_index index with
  | Some items, Some i =>
      match setitem items i value with
      | Some items' => PyOk (<[a := OList items']> h)
      | None => PyRaise IndexError
      end
  | _, _ => PyRaise TypeError
  end.

(** *** Iteration *)

(** [len(range(start, stop, step))]. *)
Definition range_length (start stop step : Z) : Z :=
  if 0 <? step then (if start <? stop then (stop - start - 1) / step + 1 else 0)
  else (if stop <? start then (start - stop - 1) / (- step) + 1 else 0).

(** [iter(v)].  A list, a string and a dict get a new iterator; a [Range]
    builds [iter(range(start, end, step))], which wants three integers and
    a step that is not zero; an iterator is its own iterator. *)
Definition py_iter (h : Heap) (v : Value) : Py (Value * Heap) :=
  let new (it : Iterator) : Py (Value * Heap) :=
    let '(a, h') := alloc h (OIter it) in PyOk (VIter a, h') in
  match v with
  | VList a => new (ListIter (Some a) 0)
  | VStr s => new (ItemsIter (map VStr (chars s)))
  | VDict d => new (ItemsIter (map fst d))
  | VRange start end_ step =>
      match as_index start, as_index end_, as_index step with
      | Some a, Some b, Some c =>
          if c =? 0 then PyRaise ValueError
          else new (RangeIter a c (range_length a b c))
      | _, _, _ => PyRaise TypeError
      end
  | VIter a => PyOk (VIter a, h)
  | _ => PyRaise TypeError
  end.

(** [next(v)]: the next item and the heap with the cursor advanced, or
    [StopIteration]; a value that is no iterator is a [TypeError]. *)
Definition py_next (h : Heap) (v : Value) : Py Value * Heap :=
  match v with
  | VIter a =>
      match h !! a with
      | Some (OIter (ListIter (Some l) i)) =>
          match heap_list h l ≫= (fun items => items !! i) with
          | Some x => (PyOk x, <[a := OIter (ListIter (Some l) (S i))]> h)
          | None => (PyRaise StopIteration, <[a := OIter (ListIter None i)]> h)
          end
      | Some (OIter (ListIter None _)) => (PyRaise StopIteration, h)
      | Some (OIter (RangeIter n st r)) =>
          if 0 <? r
          then (PyOk (VInt n), <[a := OIter (RangeIter (n + st) st (r - 1))]> h)
          else (PyRaise StopIteration, h)
      | Some (OIter (ItemsIter (x :: rest))) =>
          (PyOk x, <[a := OIter (ItemsIter rest)]> h)
      | Some (OIter (ItemsIter [])) => (PyRaise StopIteration, h)
      | _ => (PyRaise TypeError, h)
      end
  | _ => (PyRaise TypeError, h)
  end.

(** [zip(it, values)], of which [dict(...)] then takes the pairs: [zip]
    asks [it] first, so it takes one more item from [it] than there are
    values when [it] is the longer. *)
Fixpoint zip_names (h : Heap) (it : Value) (values : list Value)
  : Py (list (Value * Value)) * Heap :=
  let '(r, h') := py_next h it in
  match r, values with
  | PyRaise StopIteration, _ => (PyOk [], h')
  | PyRaise e, _ => (PyRaise e, h')
  | PyOk _, [] => (PyOk [], h')
  | PyOk k, v :: values' =>
      let '(rest, h'') := zip_names h' it values' in
      (py_bind rest (fun l => PyOk ((k, v) :: l)), h'')
  end.

(** [dict(pairs)]. *)
Fixpoint dict_of (pairs : list (Value * Value)) (d : list (Value * Value))
  : Py (list (Value * Value)) :=
  match pairs with
  | [] => PyOk d
  | (k, v) :: rest =>
      if hashable k then dict_of rest (dict_set d k v) else PyRaise TypeError
  end.

(** *** The host

    What the machine asks of the Python run time beyond the operations
    above: calling a native function of [BUILTINS] ([echo] prints, [scan]
    reads, [importpy] loads a module), calling a raw host callable with
    positional and keyword arguments, looking up an attribute, formatting a
    string with [%], and how deep a comparison may nest.  A host answers
    with a value and the heap it leaves, or raises.  It does not write the
    fields of the machine: the native functions of [BUILTINS] receive the
    machine and ignore it, and Python code that finds the machine by
    reflection is left out. *)

Inductive HostResult :=
| HostReturn (v : Value) (h : Heap)
| HostRaise (abort : bool).

Record Host := mkHost {
  host_native : NativeFn -> list Value -> Heap -> HostResult;
  host_call : N -> list Value -> option Value -> Heap -> HostResult;
  host_getattr : Value -> Value -> Heap -> HostResult;
  host_format : string -> Value -> Heap -> HostResult;
  recursion_limit : nat
}.

(** *** The machine *)

Record PyleVariable := mkVariable {
  var_name : Value;
  value : Value;
  is_const : bool
}.

Record CallFrame := mkCallFrame {
  return_ip : Z;
  stack_slot : Z;
  env_depth : Z
}.

Definition Scope : Type := list (Value * PyleVariable).

Record PyleVM := mkVM {
  bytecode_chunk : list Instruction;
  constants : list Value;
  ip : Z;
  stack : list Value;
  globals : Scope;
  environments : list Scope;
  frames : list CallFrame;
  heap : Heap
}.

(** The runtime errors that [_run] returns as [Result.err]. *)
Inductive PyleRuntimeError :=
| StackUnderflow (op : OpCode)
| UndefinedGlobal (var : Value)
| AssignUndefinedGlobal (var : Value)
| AssignConstGlobal (var : Value)
| UnsupportedOperandTypes (left_ right_ : Value)
| DivisionByZero
| ModuloByZero
| OperandNotNumber (v : Value)
| NotIterable (v : Value)
| NotIterator (v : Value)
| IndexingError (e : PyExc)
| IndexAssignmentError (e : PyExc)
| IndexAssignmentNotSupported (collection : Value)
| AttributeLookupError
| ExitScopeWithoutScope
| NoActiveLocalScope (var : Value)
| StackUnderflowLocal (var : Value)
| StackUnderflowSetLocal (var : Value)
| UndefinedLocal (var : Value)
| AssignConstLocal (var : Value)
| AssignUndefinedLocal (var : Value)
| NotCallable (callee : Value)
| PythonFunctionError (callee : Value)
| NativeArity (f : PyleFunction) (num_args : Z)
| NativeFunctionError (f : PyleFunction)
| NoStartIp (f : PyleFunction)
| FunctionArity (f : PyleFunction) (num_args : Z)
| KwargsCallError
| UnknownOpcode (op : OpCode).

Inductive Result :=
| Ok (v : Value)
| Err (e : PyleRuntimeError).

(** One pass of the loop of [_run] either goes on with the next
    instruction, or returns a [Result], or lets an exception escape. *)
Inductive Step (A : Type) :=
| Next (a : A) (vm : PyleVM)
| Return_ (r : Result) (vm : PyleVM)
| Raise (e : PyExc).
Arguments Next {A} a vm.
Arguments Return_ {A} r vm.
Arguments Raise {A} e.

Definition V (A : Type) : Type := PyleVM -> Step A.

Definition vret {A} (a : A) : V A := fun vm => Next a vm.
Definition vbind {A B} (m : V A) (k : A -> V B) : V B :=
  fun vm => match m vm with
            | Next a vm' => k a vm'
            | Return_ r vm' => Return_ r vm'
            | Raise e => Raise e
            end.
(** [return Result.err(PyleRuntimeError(...))]. *)
Definition err {A} (e : PyleRuntimeError) : V A := fun vm => Return_ (Err e) vm.
(** [return Result.ok(v)]. *)
Definition ok {A} (v : Value) : V A := fun vm => Return_ (Ok v) vm.
(** An exception that no handler of [_run] catches. *)
Definition throw {A} (e : PyExc) : V A := fun _ => Raise e.
Definition lift {A} (p : Py A) : V A :=
  match p with
  | PyOk a => vret a
  | PyRaise e => throw e
  end.
Definition read {A} (f : PyleVM -> A) : V A := fun vm => Next (f vm) vm.
Definition write (f : PyleVM -> PyleVM) : V unit := fun vm => Next tt (f vm).

Declare Scope vm_scope.
Delimit Scope vm_scope with vm.
Notation "x <- m ;; k" := (vbind m (fun x => k))
  (at level 100, m at next level, right associativity) : vm_scope.
Notation "m ;; k" := (vbind m (fun _ => k))
  (at level 100, right associativity) : vm_scope.
Local Open Scope vm_scope.

Definition set_ip (i : Z) (vm : PyleVM) : PyleVM :=
  mkVM (bytecode_chunk vm) (constants vm) i (stack vm) (globals vm)
    (environments vm) (frames vm) (heap vm).
Definition set_stack (st : list Value) (vm : PyleVM) : PyleVM :=
  mkVM (bytecode_chunk vm) (constants vm) (ip vm) st (globals vm)
    (environments vm) (frames vm) (heap vm).
Definition set_globals (g : Scope) (vm : PyleVM) : PyleVM :=
  mkVM (bytecode_chunk vm) (constants vm) (ip vm) (stack vm) g
    (environments vm) (frames vm) (heap vm).
Definition set_environments (envs : list Scope) (vm : PyleVM) : PyleVM :=
  mkVM (bytecode_chunk vm) (constants vm) (ip vm) (stack vm) (globals vm)
    envs (frames vm) (heap vm).
Definition set_frames (fs : list CallFrame) (vm : PyleVM) : PyleVM :=
  mkVM (bytecode_chunk vm) (constants vm) (ip vm) (stack vm) (globals vm)
    (environments vm) fs (heap vm).
Definition set_heap (h : Heap) (vm : PyleVM) : PyleVM :=
  mkVM (bytecode_chunk vm) (constants vm) (ip vm) (stack vm) (globals vm)
    (environments vm) (frames vm) h.

(** [self._push(value)]. *)
Definition _push (v : Value) : V unit :=
  write (fun vm => set_stack (stack vm ++ [v]) vm).

(** [self._pop()].  On an empty stack the method raises a
    [PyleRuntimeError], which is no exception class: Python answers with a
    [TypeError]. *)
Definition _pop : V Value :=
  fun vm => match list_pop (stack vm) with
            | Some (rest, v) => Next v (set_stack rest vm)
            | None => Raise TypeError
            end.

(** [[self._pop() for _ in range(n)]], reversed: the values in the order
    they were pushed. *)
Fixpoint pop_many (n : nat) : V (list Value) :=
  match n with
  | O => vret []
  | S n' => v <- _pop ;; vs <- pop_many n' ;; vret (vs ++ [v])
  end.

(** [self.stack[-1] if self.stack else None]. *)
Definition top_or_None (st : list Value) : Value :=
  match list_pop st with
  | Some (_, v) => v
  | None => VNone
  end.

(** [self.constants[operand]]. *)
Definition constant (arg : Operand) : V Value :=
  fun vm => match arg with
            | IntOperand i =>
                match getitem (constants vm) i with
                | Some c => Next c vm
                | None => Raise IndexError
                end
            | _ => Raise TypeError
            end.

(** The operand used as an integer (a count, or the target of a jump). *)
Definition int_operand (arg : Operand) : V Z :=
  match arg with
  | IntOperand n => vret n
  | _ => throw TypeError
  end.

(** [return Result.err(e)] when the stack holds fewer than [n] values. *)
Definition need (n : Z) (e : PyleRuntimeError) : V unit :=
  st <- read stack ;;
  if len st <? n then err e else vret tt.

(** [self._set_variable(store, var_name, value, is_const)]. *)
Definition _set_variable (store : Scope) (var value : Value) (const : bool)
  : Py Scope :=
  if hashable var then PyOk (dict_set store var (mkVariable var value const))
  else PyRaise TypeError.

(** [var_name in store]. *)
Definition contains (store : Scope) (var : Value) : Py bool :=
  if hashable var then PyOk (is_not_None (dict_get store var))
  else PyRaise TypeError.

(** The search of [OP_GET_LOCAL], from the innermost scope outwards. *)
Fixpoint find_local (rev_envs : list Scope) (var : Value) : Py (option PyleVariable) :=
  match rev_envs with
  | [] => PyOk None
  | scope :: outer =>
      py_bind (contains scope var) (fun present =>
        if present then PyOk (dict_get scope var) else find_local outer var)
  end.

(** The search of [OP_SET_LOCAL]: the scopes with the first binding of
    [var] replaced, unless that binding is a constant or there is none. *)
Inductive Assignment :=
| Assigned (rev_envs : list Scope)
| ConstBinding
| Unbound.

Fixpoint assign_local (rev_envs : list Scope) (var value : Value) : Py Assignment :=
  match rev_envs with
  | [] => PyOk Unbound
  | scope :: outer =>
      py_bind (contains scope var) (fun present =>
        if present then
          match dict_get scope var with
          | Some (mkVariable _ _ true) => PyOk ConstBinding
          | _ =>
              py_bind (_set_variable scope var value false) (fun scope' =>
                PyOk (Assigned (scope' :: outer)))
          end
        else
          py_bind (assign_local outer var value) (fun r =>
            PyOk match r with
                 | Assigned outer' => Assigned (scope :: outer')
                 | other => other
                 end))
  end.

(** *** The Python operators of the arithmetic opcodes *)

Definition py_add_numbers (a b : num) : Py Value := arith Z.add (SFadd prec emax) a b.

(** [left - right]. *)
Definition py_sub (left_ right_ : Value) : Py Value :=
  match as_num left_, as_num right_ with
  | Some a, Some b => arith Z.sub (SFsub prec emax) a b
  | _, _ => PyRaise TypeError
  end.

(** [left * right]: numbers, or a string or a list repeated. *)
Definition py_mul (h : Heap) (left_ right_ : Value) : Py (Value * Heap) :=
  let repeated (sequence : Value) (n : Z) : Py (Value * Heap) :=
    match sequence with
    | VStr s => PyOk (VStr (join (repeat_list [s] n)), h)
    | VList a =>
        match heap_list h a with
        | Some items =>
            let '(a', h') := alloc h (OList (repeat_list items n)) in
            PyOk (VList a', h')
        | None => PyRaise TypeError
        end
    | _ => PyRaise TypeError
    end in
  match as_num left_, as_num right_ with
  | Some a, Some b => py_bind (arith Z.mul (SFmul prec emax) a b) (fun v => PyOk (v, h))
  | _, _ =>
      match as_index left_, as_index right_ with
      | _, Some n => repeated left_ n
      | Some n, _ => repeated right_ n
      | _, _ => PyRaise TypeError
      end
  end.

(** [left / right]. *)
Definition py_div (left_ right_ : Value) : Py Value :=
  match as_num left_, as_num right_ with
  | Some a, Some b => true_divide a b
  | _, _ => PyRaise TypeError
  end.

(** [right == 0]. *)
Definition eq_zero (v : Value) : bool :=
  match as_num v with
  | Some n => num_eq n (NumZ 0)
  | None => false
  end.

(** [- value] on a number. *)
Definition py_neg (n : num) : Value :=
  match n with
  | NumZ z => VInt (- z)
  | NumF f => VFloat (SFopp f)
  end.

(** The answer of the host inside a [try ... except Exception]: an
    [Exception] becomes the runtime error [e]. *)
Definition host_answer (r : HostResult) (e : PyleRuntimeError) : V unit :=
  match r with
  | HostReturn v h => write (set_heap h) ;; _push v
  | HostRaise false => err e
  | HostRaise true => throw HostAbort
  end.

Section Machine.

Context (host : Host).

(** [left % right]: numbers, or a string formatted by the host. *)
Definition py_mod (left_ right_ : Value) : V unit :=
  match as_num left_, as_num right_ with
  | Some a, Some b => v <- lift (modulo a b) ;; _push v
  | _, _ =>
      match left_ with
      | VStr s =>
          h <- read heap ;;
          match host_format host s right_ h with
          | HostReturn v h' => write (set_heap h') ;; _push v
          | HostRaise false => throw HostException
          | HostRaise true => throw HostAbort
          end
      | _ => throw TypeError
      end
  end.

(** A binary opcode that pops [right], then [left], and pushes
    [f left right]. *)
Definition binary (op : OpCode) (f : Value -> Value -> V unit) : V unit :=
  need 2 (StackUnderflow op) ;;
  right_ <- _pop ;;
  left_ <- _pop ;;
  f left_ right_.

Definition compare (op : OpCode) (c : CompareOp) : V unit :=
  binary op (fun left_ right_ =>
    h <- read heap ;;
    b <- lift (py_compare (recursion_limit host) h c left_ right_) ;;
    _push (VBool b)).

Definition equal (op : OpCode) (negate : bool) : V unit :=
  binary op (fun left_ right_ =>
    h <- read heap ;;
    match py_eq (recursion_limit host) h left_ right_ with
    | Some b => _push (VBool (xorb negate b))
    | None => throw RecursionError
    end).

(** [OP_CALL] *)
Definition call (arg : Operand) : V unit :=
  num_args <- int_operand arg ;;
  st <- read stack ;;
  if len st <? num_args + 1 then err (StackUnderflow OP_CALL)
  else
    let callee_candidate_idx := len st - 1 - num_args in
    match getitem st callee_candidate_idx with
    | None => throw IndexError
    | Some callee_candidate =>
        match callee_candidate with
        | VHost handle =>
            args <- pop_many (Z.to_nat num_args) ;;
            _ <- _pop ;;
            h <- read heap ;;
            host_answer (host_call host handle args None h)
              (PythonFunctionError callee_candidate)
        | VFunc function_to_call =>
            match native_fn function_to_call with
            | Some fn =>
                if (0 <=? arity function_to_call)
                   && negb (num_args =? arity function_to_call)
                then err (NativeArity function_to_call num_args)
                else
                  args <- pop_many (Z.to_nat num_args) ;;
                  _ <- _pop ;;
                  h <- read heap ;;
                  host_answer (host_native host fn args h)
                    (NativeFunctionError function_to_call)
            | None =>
                match start_ip function_to_call with
                | None => err (NoStartIp function_to_call)
                | Some start =>
                    if negb (num_args =? arity function_to_call)
                    then err (FunctionArity function_to_call num_args)
                    else
                      return_to <- read ip ;;
                      depth <- read (fun vm => len (environments vm)) ;;
                      let frame := mkCallFrame return_to callee_candidate_idx depth in
                      write (fun vm => set_frames (frames vm ++ [frame]) vm) ;;
                      write (set_ip start)
                end
            end
        | _ => err (NotCallable callee_candidate)
        end
    end.

(** [while len(self.environments) > depth: self.environments.pop()]: a
    negative [depth] empties the list and then pops once more. *)
Definition pop_environments (depth : Z) (envs : list Scope) : Py (list Scope) :=
  if len envs <=? depth then PyOk envs
  else if 0 <=? depth then PyOk (take (Z.to_nat depth) envs)
  else PyRaise IndexError.

(** [OP_RETURN] *)
Definition return_ : V unit :=
  need 1 (StackUnderflow OP_RETURN) ;;
  return_value <- _pop ;;
  fs <- read frames ;;
  match list_pop fs with
  | None => ok return_value
  | Some (fs', frame) =>
      write (set_frames fs') ;;
      write (set_ip (return_ip frame)) ;;
      envs <- read environments ;;
      envs' <- lift (pop_environments (env_depth frame) envs) ;;
      write (set_environments envs') ;;
      write (fun vm => set_stack (slice_to (stack vm) (stack_slot frame)) vm) ;;
      _push return_value
  end.

(** [OP_BUILD_KWARGS] *)
Definition build_kwargs (arg : Operand) : V unit :=
  num_kwargs <- int_operand arg ;;
  need (num_kwargs + 1) (StackUnderflow OP_BUILD_KWARGS) ;;
  kw_names <- _pop ;;
  kw_values <- pop_many (Z.to_nat num_kwargs) ;;
  h <- read heap ;;
  it <- lift (py_iter h kw_names) ;;
  let '(names_iterator, h1) := it in
  let '(pairs, h2) := zip_names h1 names_iterator kw_values in
  pairs <- lift pairs ;;
  kwargs <- lift (dict_of pairs []) ;;
  write (set_heap h2) ;;
  _push (VDict kwargs).

(** [OP_CALL_KW] *)
Definition call_kw (arg : Operand) : V unit :=
  match arg with
  | PairOperand num_args num_kwargs =>
      need (num_args + 2) (StackUnderflow OP_CALL_KW) ;;
      kwargs <- _pop ;;
      args <- pop_many (Z.to_nat num_args) ;;
      func <- _pop ;;
      match func with
      | VHost handle =>
          h <- read heap ;;
          host_answer (host_call host handle args (Some kwargs) h) KwargsCallError
      | _ => err KwargsCallError
      end
  | _ => throw TypeError
  end.

(** [OP_DEF_LOCAL] and [OP_DEF_CONST_LOCAL], which differ in [is_const]. *)
Definition def_local (arg : Operand) (const : bool) : V unit :=
  var <- constant arg ;;
  envs <- read environments ;;
  match list_pop envs with
  | None => err (NoActiveLocalScope var)
  | Some (outer, current_scope) =>
      need 1 (StackUnderflowLocal var) ;;
      v <- _pop ;;
      scope' <- lift (_set_variable current_scope var v const) ;;
      write (set_environments (outer ++ [scope']))
  end.

(** The body of the loop of [_run] after the instruction is fetched and
    [ip] incremented: the chain of [if op == ...]. *)
Definition execute (op : OpCode) (arg : Operand) : V unit :=
  match op with
  | OP_CONST => c <- constant arg ;; _push c
  | OP_DEF_GLOBAL =>
      var <- constant arg ;;
      need 1 (StackUnderflow OP_DEF_GLOBAL) ;;
      v <- _pop ;;
      g <- read globals ;;
      g' <- lift (_set_variable g var v false) ;;
      write (set_globals g')
  | OP_GET_GLOBAL =>
      var <- constant arg ;;
      g <- read globals ;;
      present <- lift (contains g var) ;;
      if negb present then err (UndefinedGlobal var)
      else
        match dict_get g var with
        | Some var_val => _push (value var_val)
        | None => throw KeyError
        end
  | OP_SET_GLOBAL =>
      var <- constant arg ;;
      g <- read globals ;;
      present <- lift (contains g var) ;;
      if negb present then err (AssignUndefinedGlobal var)
      else
        need 1 (StackUnderflow OP_SET_GLOBAL) ;;
        match dict_get g var with
        | None => throw KeyError
        | Some old =>
            if is_const old then err (AssignConstGlobal var)
            else
              v <- _pop ;;
              g' <- lift (_set_variable g var v false) ;;
              write (set_globals g')
        end
  | OP_DEF_CONST_GLOBAL =>
      var <- constant arg ;;
      need 1 (StackUnderflow OP_DEF_GLOBAL) ;;
      v <- _pop ;;
      g <- read globals ;;
      g' <- lift (_set_variable g var v true) ;;
      write (set_globals g')
  | OP_ADD =>
      binary OP_ADD (fun left_ right_ =>
        match as_num left_, as_num right_ with
        | Some a, Some b => v <- lift (py_add_numbers a b) ;; _push v
        | _, _ =>
            match left_, right_ with
            | VStr s, VStr t => _push (VStr (s ++ t))
            | VList x, VList y =>
                h <- read heap ;;
                match heap_list h x, heap_list h y with
                | Some l1, Some l2 =>
                    let '(a, h') := alloc h (OList (l1 ++ l2)) in
                    write (set_heap h') ;; _push (VList a)
                | _, _ => throw TypeError
                end
            | _, _ => err (UnsupportedOperandTypes left_ right_)
            end
        end)
  | OP_SUBTRACT =>
      binary OP_SUBTRACT (fun left_ right_ =>
        v <- lift (py_sub left_ right_) ;; _push v)
  | OP_MULTIPLY =>
      binary OP_MULTIPLY (fun left_ right_ =>
        h <- read heap ;;
        r <- lift (py_mul h left_ right_) ;;
        let '(v, h') := r in
        write (set_heap h') ;; _push v)
  | OP_DIVIDE =>
      binary OP_DIVIDE (fun left_ right_ =>
        if eq_zero right_ then err DivisionByZero
        else v <- lift (py_div left_ right_) ;; _push v)
  | OP_MODULO =>
      binary OP_MODULO (fun left_ right_ =>
        if eq_zero right_ then err ModuloByZero
        else py_mod left_ right_)
  | OP_NEGATE =>
      need 1 (StackUnderflow OP_NEGATE) ;;
      v <- _pop ;;
      match as_num v with
      | Some n => _push (py_neg n)
      | None => err (OperandNotNumber v)
      end
  | OP_NOT =>
      need 1 (StackUnderflow OP_NOT) ;;
      v <- _pop ;;
      h <- read heap ;;
      _push (VBool (negb (truthy h v)))
  | OP_EQUAL => equal OP_EQUAL false
  | OP_NOT_EQUAL => equal OP_NOT_EQUAL true
  | OP_GREATER => compare OP_GREATER CmpGt
  | OP_GREATER_EQUAL => compare OP_GREATER_EQUAL CmpGe
  | OP_LESS => compare OP_LESS CmpLt
  | OP_LESS_EQUAL => compare OP_LESS_EQUAL CmpLe
  | OP_AND =>
      binary OP_AND (fun left_ right_ =>
        h <- read heap ;;
        _push (if truthy h left_ then right_ else left_))
  | OP_OR =>
      binary OP_OR (fun left_ right_ =>
        h <- read heap ;;
        _push (if truthy h left_ then left_ else right_))
  | OP_TRUE => _push (VBool true)
  | OP_FALSE => _push (VBool false)
  | OP_NONE => _push VNone
  | OP_BUILD_RANGE =>
      need 3 (StackUnderflow OP_BUILD_RANGE) ;;
      step <- _pop ;;
      end_ <- _pop ;;
      start <- _pop ;;
      _push (VRange start end_ step)
  | OP_ITER_NEW =>
      need 1 (StackUnderflow OP_ITER_NEW) ;;
      iterable <- _pop ;;
      h <- read heap ;;
      match py_iter h iterable with
      | PyOk (iterator, h') => write (set_heap h') ;; _push iterator
      | PyRaise TypeError => err (NotIterable iterable)
      | PyRaise e => throw e
      end
  | OP_ITER_NEXT_OR_JUMP =>
      need 1 (StackUnderflow OP_ITER_NEXT_OR_JUMP) ;;
      st <- read stack ;;
      let iterator := top_or_None st in
      h <- read heap ;;
      match py_next h iterator with
      | (PyOk v, h') => write (set_heap h') ;; _push v
      | (PyRaise StopIteration, h') =>
          write (set_heap h') ;;
          _ <- _pop ;;
          target <- int_operand arg ;;
          write (set_ip target)
      | (PyRaise TypeError, _) => err (NotIterator iterator)
      | (PyRaise e, _) => throw e
      end
  | OP_BUILD_LIST =>
      num_elements <- int_operand arg ;;
      need num_elements (StackUnderflow OP_BUILD_LIST) ;;
      elements <- pop_many (Z.to_nat num_elements) ;;
      h <- read heap ;;
      let '(a, h') := alloc h (OList elements) in
      write (set_heap h') ;; _push (VList a)
  | OP_INDEX_GET =>
      need 2 (StackUnderflow OP_INDEX_GET) ;;
      index <- _pop ;;
      collection <- _pop ;;
      h <- read heap ;;
      let r :=
        match index with
        | VRange start end_ step => getslice h collection start end_ step
        | _ => py_bind (getindex h collection index) (fun v => PyOk (v, h))
        end in
      match r with
      | PyOk (v, h') => write (set_heap h') ;; _push v
      | PyRaise TypeError => err (IndexingError TypeError)
      | PyRaise IndexError => err (IndexingError IndexError)
      | PyRaise KeyError => err (IndexingError KeyError)
      | PyRaise e => throw e
      end
  | OP_INDEX_SET =>
      need 3 (StackUnderflow OP_INDEX_SET) ;;
      v <- _pop ;;
      index <- _pop ;;
      collection <- _pop ;;
      match collection with
      | VList a =>
          h <- read heap ;;
          match setindex h a index v with
          | PyOk h' => write (set_heap h') ;; _push v
          | PyRaise TypeError => err (IndexAssignmentError TypeError)
          | PyRaise IndexError => err (IndexAssignmentError IndexError)
          | PyRaise e => throw e
          end
      | _ => err (IndexAssignmentNotSupported collection)
      end
  | OP_GET_ATTR =>
      need 1 (StackUnderflow OP_GET_ATTR) ;;
      obj <- _pop ;;
      attr_name <- constant arg ;;
      h <- read heap ;;
      host_answer (host_getattr host obj attr_name h) AttributeLookupError
  | OP_ENTER_SCOPE =>
      write (fun vm => set_environments (environments vm ++ [[]]) vm)
  | OP_EXIT_SCOPE =>
      envs <- read environments ;;
      match list_pop envs with
      | None => err ExitScopeWithoutScope
      | Some (outer, _) => write (set_environments outer)
      end
  | OP_DEF_LOCAL => def_local arg false
  | OP_DEF_CONST_LOCAL => def_local arg true
  | OP_GET_LOCAL =>
      var <- constant arg ;;
      envs <- read environments ;;
      found <- lift (find_local (rev envs) var) ;;
      match found with
      | Some var_val => _push (value var_val)
      | None => err (UndefinedLocal var)
      end
  | OP_SET_LOCAL =>
      var <- constant arg ;;
      need 1 (StackUnderflowSetLocal var) ;;
      val_to_assign <- _pop ;;
      envs <- read environments ;;
      r <- lift (assign_local (rev envs) var val_to_assign) ;;
      match r with
      | Assigned rev_envs => write (set_environments (rev rev_envs))
      | ConstBinding => err (AssignConstLocal var)
      | Unbound => err (AssignUndefinedLocal var)
      end
  | OP_JUMP_IF_FALSE =>
      need 1 (StackUnderflow OP_JUMP_IF_FALSE) ;;
      condition_value <- _pop ;;
      h <- read heap ;;
      if _is_falsey h condition_value
      then target <- int_operand arg ;; write (set_ip target)
      else vret tt
  | OP_JUMP => target <- int_operand arg ;; write (set_ip target)
  | OP_POP => need 1 (StackUnderflow OP_POP) ;; _ <- _pop ;; vret tt
  | OP_CALL => call arg
  | OP_RETURN => return_
  | OP_BUILD_KWARGS => build_kwargs arg
  | OP_CALL_KW => call_kw arg
  | OP_HALT => st <- read stack ;; ok (top_or_None st)
  end.

(** [self._current_instruction()]. *)
Definition _current_instruction (vm : PyleVM) : option Instruction :=
  if (0 <=? ip vm) && (ip vm <? len (bytecode_chunk vm))
  then bytecode_chunk vm !! Z.to_nat (ip vm)
  else None.

(** One pass of the [while True] of [_run].  Leaving the loop by [break]
    returns [Result.ok] of the top of the stack. *)
Definition iteration : V unit :=
  fun vm =>
    if len (bytecode_chunk vm) <=? ip vm
    then Return_ (Ok (top_or_None (stack vm))) vm
    else
      match _current_instruction vm with
      | None => Return_ (Ok (top_or_None (stack vm))) vm
      | Some current_instr_obj =>
          execute (opcode current_instr_obj) (operand current_instr_obj)
            (set_ip (ip vm + 1) vm)
      end.

(** [self._run()], for at most [fuel] passes of the loop: [Next] is a
    machine that still runs. *)
Fixpoint _run (fuel : nat) (vm : PyleVM) : Step unit :=
  match fuel with
  | O => Next tt vm
  | S fuel' =>
      match iteration vm with
      | Next _ vm' => _run fuel' vm'
      | finished => finished
      end
  end.

End Machine.

(** The constants as the objects the machine shares: a list constant is one
    list object of the heap. *)
Fixpoint load_const (c : Const) (h : Heap) : Value * Heap :=
  match c with
  | CInt z => (VInt z, h)
  | CFloat f => (VFloat f, h)
  | CBool b => (VBool b, h)
  | CStr s => (VStr s, h)
  | CNone => (VNone, h)
  | CFunc f => (VFunc f, h)
  | CList l =>
      let '(items, h1) :=
        (fix each (l : list Const) (h : Heap) : list Value * Heap :=
           match l with
           | [] => ([], h)
           | c :: rest =>
               let '(v, h1) := load_const c h in
               let '(vs, h2) := each rest h1 in
               (v :: vs, h2)
           end) l h in
      let '(a, h2) := alloc h1 (OList items) in
      (VList a, h2)
  end.

Fixpoint load_constants (cs : list Const) (h : Heap) : list Value * Heap :=
  match cs with
  | [] => ([], h)
  | c :: rest =>
      let '(v, h1) := load_const c h in
      let '(vs, h2) := load_constants rest h1 in
      (v :: vs, h2)
  end.

(** The machine as [interpret] resets it. *)
Definition boot (chunk : list Instruction) (consts : list Const) : PyleVM :=
  let '(values, h) := load_constants consts [] in
  mkVM chunk values 0 [] [] [] [] h.

(** [PyleVM.interpret(bytecode_chunk, constants)]. *)
Definition interpret (host : Host) (fuel : nat)
  (chunk : list Instruction) (consts : list Const) : Step unit :=
  _run host fuel (boot chunk consts).

End VM.

(** A host on which every call fails: enough to run a program that calls
    no native function, reads no attribute and formats no string. *)
Definition silent_host : VM.Host :=
  VM.mkHost (fun _ _ _ => VM.HostRaise false) (fun _ _ _ _ => VM.HostRaise false)
    (fun _ _ _ => VM.HostRaise false) (fun _ _ _ => VM.HostRaise false) 1000.

(** Compile with a new compiler, then interpret. *)
Definition compile_and_run (host : VM.Host) (fuel : nat) (program : ASTNode)
  : option (VM.Step unit) :=
  match compile_program program with
  | inl _ => None
  | inr (chunk, consts) => Some (VM.interpret host fuel chunk consts)
  end.


(** What [interpret] returned, if it returned. *)
Definition returned (r : option (VM.Step unit)) : option VM.Result :=
  match r with
  | Some (VM.Return_ res _) => Some res
  | _ => None
  end.

(** The machine that [interpret] leaves when it returns. *)
Definition machine (r : option (VM.Step unit)) : option VM.PyleVM :=
  match r with
  | Some (VM.Return_ _ vm) => Some vm
  | _ => None
  end.

(** The exception that escaped from [interpret], if one did. *)
Definition escaped (r : option (VM.Step unit)) : option VM.PyExc :=
  match r with
  | Some (VM.Raise e) => Some e
  | _ => None
  end.

(** ** Programs of the scenarios *)

Definition program (statements : list ASTNode) : ASTNode := Block statements None.
Definition let_ (x : string) (e : ASTNode) : ASTNode :=
  VarDeclareStmt (tok IDENT x) (Some e) false (Some (tok KEYWORD "let")).
Definition const_ (x : string) (e : ASTNode) : ASTNode :=
  VarDeclareStmt (tok IDENT x) (Some e) true (Some (tok KEYWORD "const")).
Definition return_stmt (e : ASTNode) : ASTNode :=
  ReturnStmt (Some e) (Some (tok KEYWORD "return")).
Definition str_lit (s : string) : ASTNode := String_ s None.
Definition float_lit (f : float) : ASTNode := Number (NumFloat f) None.

(** The float [1.0]. *)
Definition one : float := S754_finite false 4503599627370496 (-52).

(** The float [2.0]. *)
Definition two : float := S754_finite false 4503599627370496 (-51).

(** [let x = 2 + 3 * 4; return x] *)
Definition S1_return : ASTNode :=
  program [ let_ "x" (BinaryOp (int_lit 2) (tok PLUS "+")
                        (BinaryOp (int_lit 3) (tok MUL "*") (int_lit 4) None) None);
            return_stmt (ident "x") ].

(** [true or false] *)
Definition or_program : ASTNode :=
  program [ LogicalOp (Boolean true None) (tok KEYWORD "or") (Boolean false None)
              (Some (tok KEYWORD "or")) ].

(** [true and false] *)
Definition and_program : ASTNode :=
  program [ LogicalOp (Boolean true None) (tok KEYWORD "and") (Boolean false None)
              (Some (tok KEYWORD "and")) ].

(** [let a = [1, 2, 3]; a[1] = 10] *)
Definition index_assign_program : ASTNode :=
  program [ let_ "a" (ArrayLiteral [int_lit 1; int_lit 2; int_lit 3] None);
            AssignIndexStmt (ident "a") (int_lit 1) (int_lit 10) None ].

(** ["a" - 1] *)
Definition subtract_program : ASTNode :=
  program [ BinaryOp (str_lit "a") (tok MINUS "-") (int_lit 1) None ].

(** [1; 1.0] *)
Definition one_twice_program : ASTNode :=
  program [ int_lit 1; float_lit one ].

(** [2; 2.0] *)
Definition two_twice_program : ASTNode :=
  program [ int_lit 2; float_lit two ].

(** The instructions that [compile] adds after the native prelude. *)
Definition user_code (r : CompileError + list Instruction * list Const)
  : list Instruction :=
  match r with
  | inr (chunk, _) => drop 12 chunk
  | inl _ => []
  end.

(** ** Machines and programs used as examples *)

(** A machine inside a call: the callee at slot 1, two scopes opened since
    the call, the return value on top. *)
Definition in_call : VM.PyleVM :=
  VM.mkVM [mkInstruction OP_RETURN NoOperand] [] 1
    [VM.VInt 0; VM.VNone; VM.VInt 7; VM.VInt 42] []
    [[]; []; []] [VM.mkCallFrame 5 1 1] [].


(** [let s = ""; for c in "ab" { s = s + c }; return s] *)
Definition for_string_program : ASTNode :=
  program [ let_ "s" (str_lit "");
            ForInStmt (tok IDENT "c") (str_lit "ab")
              (Block [AssignStmt (tok IDENT "s")
                        (BinaryOp (ident "s") (tok PLUS "+") (ident "c") None) None]
                 (Some (tok L_CURLY_BRACE "{")))
              (Some (tok KEYWORD "for"));
            return_stmt (ident "s") ].

(** A machine with the string ["ab"] on its operand stack. *)
Definition on_string : VM.PyleVM := VM.mkVM [] [] 0 [VM.VStr "ab"] [] [] [] [].

(** The machine [vm] with a new iterator object [it] in its heap and,
    pushed on the operand stack [below], the reference to it. *)
Definition with_iterator (vm : VM.PyleVM) (below : list VM.Value) (it : VM.Iterator)
  : VM.PyleVM :=
  VM.set_stack (below ++ [VM.VIter (length (VM.heap vm))])
    (VM.set_heap (VM.heap vm ++ [VM.OIter it]) vm).

(** The constants table that [compile] returns. *)
Definition pool (r : CompileError + list Instruction * list Const) : list Const :=
  match r with
  | inr (_, consts) => consts
  | inl _ => []
  end.

(** ** The constants table, for the statements below *)

(** Two lists are equal element by element under [eqb]. *)
Fixpoint list_eqb {A} (eqb : A -> A -> bool) (l1 l2 : list A) : bool :=
  match l1, l2 with
  | [], [] => true
  | x :: l1', y :: l2' => eqb x y && list_eqb eqb l1' l2'
  | _, _ => false
  end.

(** No two entries of the pool are equal. *)
Definition distinct_pool (pool : list Const) : Prop :=
  forall i j a b, pool !! i = Some a -> pool !! j = Some b ->
                  py_eq a b = true -> i = j.

(** The pool after [add_constant] was called on each of [values] in turn. *)
Definition pool_of (values : list Const) : list Const :=
  fold_left (fun pool v => snd (add_constant v pool)) values [].

(** The constants of a kind that only numbers compare equal to. *)
Definition numeric (c : Const) : bool :=
  match c with
  | CInt _ | CFloat _ | CBool _ => true
  | _ => false
  end.

(** The entry at [i] is the first entry of [pool] equal to [v]. *)
Definition first_equal (v : Const) (pool : list Const) (i : nat) : Prop :=
  (exists c, pool !! i = Some c /\ py_eq c v = true)
  /\ forall j c, (j < i)%nat -> pool !! j = Some c -> py_eq c v = false.

(** No entry of [pool] is equal to [v]. *)
Definition none_equal (v : Const) (pool : list Const) : Prop :=
  forall j c, pool !! j = Some c -> py_eq c v = false.

(** The three instructions that end every compiled chunk, [k] the index of
    the constant [None]. *)
Definition EXIT_CONST_RETURN (k : nat) : list Instruction :=
  [ mkInstruction OP_EXIT_SCOPE NoOperand;
    mkInstruction OP_CONST (IntOperand (Z.of_nat k));
    mkInstruction OP_RETURN NoOperand ].

(** The chunk and the constants table of [S1]. *)
Definition S1_chunk : list Instruction :=
  Eval vm_compute in
    match compile_program S1 with inr (chunk, _) => chunk | inl _ => [] end.
Definition S1_consts : list Const :=
  Eval vm_compute in pool (compile_program S1).
(** ** What a compilation step leaves in place

    The statements about the compiler follow a compilation step by step:
    [wp m Q self] holds when [m], run in the state [self], either raises
    or ends in a state that satisfies [Q]. *)

Definition wp {A} (m : M A) (Q : A -> Compiler -> Prop) (self : Compiler) : Prop :=
  match m self with
  | inl _ => True
  | inr (a, self') => Q a self'
  end.

(** The opcodes whose operand a patch may overwrite. *)
Definition jump_op (op : OpCode) : bool :=
  match op with
  | OP_JUMP | OP_JUMP_IF_FALSE | OP_ITER_NEXT_OR_JUMP => true
  | _ => false
  end.

(** The opcodes that write the globals map. *)
Definition writes_global (op : OpCode) : bool :=
  match op with
  | OP_DEF_GLOBAL | OP_DEF_CONST_GLOBAL | OP_SET_GLOBAL => true
  | _ => false
  end.

(** [idx] is the index of a jump instruction of the chunk. *)
Definition is_jump_at (self : Compiler) (idx : Z) : Prop :=
  0 <= idx /\
  exists instr, bytecode_chunk self !! Z.to_nat idx = Some instr
                /\ jump_op (opcode instr) = true.

(** Every index waiting in a patch list of a loop is a jump instruction. *)
Definition patches_ok (self : Compiler) : Prop :=
  forall l idx,
    l ∈ loop_start_patches self \/ l ∈ loop_end_patches self ->
    idx ∈ l -> is_jump_at self idx.

(** From [self] to [self'], compiling at a scope depth of at least [d]:
    the instructions already emitted keep their opcode, and those that are
    no jumps their operand too; the instructions added write no global
    when [d >= 1]; the constants table is extended. *)
Record extends (d : Z) (self self' : Compiler) : Prop := mkExtends {
  ext_old : forall i instr,
    bytecode_chunk self !! i = Some instr ->
    exists instr', bytecode_chunk self' !! i = Some instr'
                   /\ opcode instr' = opcode instr;
  ext_keeps : forall i instr,
    bytecode_chunk self !! i = Some instr -> jump_op (opcode instr) = false ->
    bytecode_chunk self' !! i = Some instr;
  ext_new : forall i instr,
    (length (bytecode_chunk self) <= i)%nat ->
    bytecode_chunk self' !! i = Some instr ->
    1 <= d -> writes_global (opcode instr) = false;
  ext_constants : exists more, constants self' = constants self ++ more
}.

(** [m] run in [self] raises, or extends [self] at depth [d] to a state
    with sound patch lists that satisfies [R]. *)
Definition runs {A} (d : Z) (m : M A) (self : Compiler)
    (R : A -> Compiler -> Prop) : Prop :=
  wp m (fun a self' => extends d self self' /\ patches_ok self' /\ R a self') self.

(** [m] ends at the scope depth it started at, whatever the state, with
    the instructions it added writing no global inside a scope. *)
Definition keeps_depth (m : M unit) : Prop :=
  forall self, patches_ok self ->
    runs (scope_depth self) m self (fun _ self' => scope_depth self' = scope_depth self).

(** The nodes that [_compile_node] visits from [node]. *)
Definition children (node : ASTNode) : list ASTNode :=
  match node with
  | Block statements _ => statements
  | VarDeclareStmt _ initializer _ _ => option_list initializer
  | AssignStmt _ v _ => [v]
  | IfStmt condition then_branch else_branch _ =>
      condition :: then_branch :: option_list else_branch
  | UnaryOp _ operand _ => [operand]
  | ArrayLiteral elements _ => elements
  | BinaryOp left_ _ right_ _ | LogicalOp left_ _ right_ _
  | ComparisonOp left_ _ right_ _ => [left_; right_]
  | WhileStmt condition body _ => [condition; body]
  | RangeSpecifier start end_ step _ => start :: end_ :: option_list step
  | ForInStmt _ iterable body _ => [iterable; body]
  | FunctionExpr _ body _ | FunctionDefStmt _ _ body _ => [body]
  | CallExpr callee arguments keywords _ =>
      callee :: arguments ++ map snd keywords
  | IndexExpr collection index _ => [collection; index]
  | AssignIndexStmt collection index v _ => [collection; index; v]
  | ReturnStmt v _ => option_list v
  | DotExpr object _ _ => [object]
  | VariableExpr _ _ | Number _ _ | String_ _ _ | Boolean _ _
  | BreakStmt _ | ContinueStmt _ => []
  end.

(** The chunk and the constants table of a new compiler: the prelude that
    [_initialize_builtins] emits, which defines each native function as a
    global. *)
Definition prelude : list Instruction :=
  Eval vm_compute in bytecode_chunk Compiler_new.
Definition prelude_constants : list Const :=
  Eval vm_compute in constants Compiler_new.

(** The state of [Compiler()] after [_compile_node(node)], and the
    instructions that the call added: a new compiler is at scope depth 0. *)
Definition compiled_at_depth_0 (node : ASTNode) : Compiler :=
  match _compile_node node Compiler_new with
  | inr (_, self) => self
  | inl _ => Compiler_new
  end.
Definition added_at_depth_0 (node : ASTNode) : list Instruction :=
  drop (length (bytecode_chunk Compiler_new))
    (bytecode_chunk (compiled_at_depth_0 node)).

Definition const_k_7 : ASTNode := const_ "k" (int_lit 7).

(** A new compiler after it has visited the literal [2]. *)
Definition after_two : Compiler := Eval vm_compute in compiled_at_depth_0 (int_lit 2).
Definition after_const_k_7 : Compiler := Eval vm_compute in compiled_at_depth_0 const_k_7.

(** ** The globals map during a run *)







(** The globals map once the prelude has run: each native function bound
    to its name, not constant. *)
Definition native_globals : VM.Scope :=
  map (fun kv => (VM.VStr (fst kv),
                  VM.mkVariable (VM.VStr (fst kv)) (VM.VFunc (snd kv)) false))
    BUILTINS.

(** The constants of the prelude as the machine loads them. *)
Definition prelude_values : list VM.Value :=
  Eval vm_compute in fst (VM.load_constants prelude_constants []).


(** A new compiler inside one scope, and what it is after visiting
    [const k = 7] there. *)
Definition inside_scope : Compiler := set_scope_depth 1 Compiler_new.
Definition local_const_k_7 : Compiler :=
  Eval vm_compute in
    match _compile_node const_k_7 inside_scope with
    | inr (_, self) => self
    | inl _ => inside_scope
    end.

(** A machine about to divide 7 by 0. *)
Definition dividing_by_zero : VM.PyleVM :=
  VM.mkVM [] [] 0 [VM.VInt 7; VM.VInt 0] [] [] [] [].

(** [fn f(x) { return x }], and a new compiler inside one scope after
    visiting it. *)
Definition fn_f : ASTNode :=
  FunctionDefStmt (tok IDENT "f") [tok IDENT "x"]
    (Block [return_stmt (ident "x")] (Some (tok L_CURLY_BRACE "{")))
    (Some (tok KEYWORD "fn")).
Definition local_fn_f : Compiler :=
  Eval vm_compute in
    match _compile_node fn_f inside_scope with
    | inr (_, self) => self
    | inl _ => inside_scope
    end.

(** ** Further definitions used by the statements *)

(** The number of operands an opcode asks the stack for before it does
    anything else; [None] for the opcodes that make another test first, or
    none. *)
Definition operands_checked (op : OpCode) : option Z :=
  match op with
  | OP_ADD | OP_SUBTRACT | OP_MULTIPLY | OP_DIVIDE | OP_MODULO
  | OP_EQUAL | OP_NOT_EQUAL | OP_GREATER | OP_GREATER_EQUAL | OP_LESS
  | OP_LESS_EQUAL | OP_AND | OP_OR | OP_INDEX_GET => Some 2
  | OP_NEGATE | OP_NOT | OP_ITER_NEW | OP_ITER_NEXT_OR_JUMP | OP_GET_ATTR
  | OP_JUMP_IF_FALSE | OP_POP | OP_RETURN => Some 1
  | OP_BUILD_RANGE | OP_INDEX_SET => Some 3
  | _ => None
  end.

(** A machine with one value on its stack, and a chunk of one instruction. *)
Definition one_operand : VM.PyleVM :=
  VM.mkVM [mkInstruction OP_ADD NoOperand] [] 1 [VM.VInt 7] [] [] [] [].


(** A machine with [x] bound to 1 in an outer scope and to 2, as a
    constant, in the inner one; the name [x] is constant 0, and 5 is on
    the stack. *)
Definition shadowing : VM.PyleVM :=
  VM.mkVM [] [VM.VStr "x"] 0 [VM.VInt 5] []
    [ [(VM.VStr "x", VM.mkVariable (VM.VStr "x") (VM.VInt 1) false)];
      [(VM.VStr "x", VM.mkVariable (VM.VStr "x") (VM.VInt 2) true)] ]
    [] [].

(** The function [f/1] whose code starts at instruction 7, and a machine
    about to call it on 3, with two values below the callee and one scope
    open. *)
Definition f_at_7 : PyleFunction := mkPyleFunction "f" 1 (Some 7) None.
Definition calling : VM.PyleVM :=
  VM.mkVM [] [] 4 [VM.VInt 10; VM.VInt 20; VM.VFunc f_at_7; VM.VInt 3]
    [] [[]] [] [].
(** The same machine inside the call, about to return 9: the argument was
    bound in a scope of the callee and a value was left on the stack. *)
Definition returning : VM.PyleVM :=
  VM.mkVM [] [] 12
    [VM.VInt 10; VM.VInt 20; VM.VFunc f_at_7; VM.VInt 0; VM.VInt 9]
    [] [[]; [(VM.VStr "x", VM.mkVariable (VM.VStr "x") (VM.VInt 3) false)]]
    [VM.mkCallFrame 4 2 1] [].

(** A machine whose heap holds the list [[1, 2, 3]] at address 0, about to
    assign 10 at index -1 of it. *)
Definition assigning : VM.PyleVM :=
  VM.mkVM [] [] 0 [VM.VList 0%nat; VM.VInt (-1); VM.VInt 10] [] [] []
    [VM.OList [VM.VInt 1; VM.VInt 2; VM.VInt 3]].

(** A machine whose heap holds the list [[9]] at address 0, with a
    reference to it under the values 1 and 2 on the operand stack. *)
Definition building : VM.PyleVM :=
  VM.mkVM [] [] 0 [VM.VList 0%nat; VM.VInt 1; VM.VInt 2] [] [] []
    [VM.OList [VM.VInt 9]].



(** A machine about to add the lists at addresses 0 and 1, and one about
    to call [len] on two arguments. *)
Definition adding_lists : VM.PyleVM :=
  VM.mkVM [] [] 0 [VM.VList 0%nat; VM.VList 1%nat] [] [] []
    [VM.OList [VM.VInt 1]; VM.OList [VM.VInt 2; VM.VInt 3]].
Definition len_function : PyleFunction := mkPyleFunction "len" 1 None (Some native_len).
Definition calling_len : VM.PyleVM :=
  VM.mkVM [] [] 0 [VM.VFunc len_function; VM.VInt 1; VM.VInt 2] [] [] [] [].

(** ** Well-formed chunks

    What a compilation leaves behind: jumps that land inside the chunk,
    operands that index the constants table, functions that start inside
    the chunk.  [rel held ps pe self0 self] describes the state [self]
    reached from [self0] in the course of a visit. *)

(** The opcode that pushes a constant, and the opcodes whose operand is the
    index of a name in the constants table. *)
Definition loads_op (op : OpCode) : bool :=
  match op with
  | OP_CONST => true
  | _ => false
  end.
Definition names_op (op : OpCode) : bool :=
  match op with
  | OP_DEF_GLOBAL | OP_GET_GLOBAL | OP_SET_GLOBAL | OP_DEF_CONST_GLOBAL
  | OP_DEF_LOCAL | OP_GET_LOCAL | OP_SET_LOCAL | OP_DEF_CONST_LOCAL
  | OP_GET_ATTR => true
  | _ => false
  end.

(** The operand of [instr] is a target from 0 to [n]. *)
Definition settled (n : Z) (instr : Instruction) : Prop :=
  exists t, operand instr = IntOperand t /\ 0 <= t <= n.

(** Where the machine reads [constants[operand]], the operand of [instr]
    is an index of [pool], and the index of a string where it reads a
    name. *)
Definition operand_ok (pool : list Const) (instr : Instruction) : Prop :=
  (loads_op (opcode instr) = true ->
   exists k c, operand instr = IntOperand k /\ 0 <= k /\ pool !! Z.to_nat k = Some c)
  /\ (names_op (opcode instr) = true ->
      exists k name, operand instr = IntOperand k /\ 0 <= k
                     /\ pool !! Z.to_nat k = Some (CStr name)).

(** A function constant that is not native starts at an index from 0 to
    [n]. *)
Definition func_ok (n : Z) (c : Const) : Prop :=
  match c with
  | CFunc f =>
      native_fn f = None -> exists start, start_ip f = Some start /\ 0 <= start <= n
  | _ => True
  end.

(** [stack[-1]], the patch list of the innermost loop. *)
Definition top (stack : list (list Z)) : list Z := default [] (last stack).

(** [idx] is a jump emitted since the chunk had [n] instructions. *)
Definition new_jump (n : nat) (self : Compiler) (idx : Z) : Prop :=
  Z.of_nat n <= idx /\ is_jump_at self idx.

(** A stack of patch lists is as it was, or its last list has got new
    jumps appended. *)
Definition grows (n : nat) (self : Compiler) (stack0 stack : list (list Z)) : Prop :=
  stack = stack0
  \/ exists init t new,
       stack0 = init ++ [t] /\ stack = init ++ [t ++ new]
       /\ Forall (new_jump n self) new.

(** From [self0] to [self]: the instructions of [self0] are as they were;
    the patch stacks have grown; each jump added is settled, or held in
    [held], or waits in the last list of a patch stack ([ps], [pe]: whether
    the continue and the break lists may still hold unsettled jumps); the
    operands added index the constants table, which is extended by
    functions that start inside the chunk. *)
Record rel (held : list Z) (ps pe : bool) (self0 self : Compiler) : Prop := mkRel {
  rel_old : forall i instr,
    bytecode_chunk self0 !! i = Some instr -> bytecode_chunk self !! i = Some instr;
  rel_start : grows (length (bytecode_chunk self0)) self
                (loop_start_patches self0) (loop_start_patches self);
  rel_end : grows (length (bytecode_chunk self0)) self
              (loop_end_patches self0) (loop_end_patches self);
  rel_jumps : forall i instr,
    (length (bytecode_chunk self0) <= i)%nat ->
    bytecode_chunk self !! i = Some instr -> jump_op (opcode instr) = true ->
    settled (len (bytecode_chunk self)) instr
    \/ Z.of_nat i ∈ held
    \/ (ps = true /\ Z.of_nat i ∈ top (loop_start_patches self))
    \/ (pe = true /\ Z.of_nat i ∈ top (loop_end_patches self));
  rel_operands : forall i instr,
    (length (bytecode_chunk self0) <= i)%nat ->
    bytecode_chunk self !! i = Some instr -> operand_ok (constants self) instr;
  rel_constants : exists more,
    constants self = constants self0 ++ more
    /\ Forall (func_ok (len (bytecode_chunk self))) more
}.

(** What a whole visit does to the state. *)
Definition frame (self0 self : Compiler) : Prop := rel [] true true self0 self.

Definition visits (m : M unit) : Prop :=
  forall self, wp m (fun _ self' => frame self self') self.

(** What every step of the compiler carries over: the jumps stay jumps,
    the constants table and the chunk only get longer. *)
Record carries (self self' : Compiler) : Prop := mkCarries {
  car_jump : forall idx, is_jump_at self idx -> is_jump_at self' idx;
  car_constants : exists more, constants self' = constants self ++ more;
  car_length : len (bytecode_chunk self) <= len (bytecode_chunk self')
}.

(** The constants table holds at [idx] a constant equal to [v]. *)
Definition holds (self : Compiler) (idx : Z) (v : Const) : Prop :=
  0 <= idx
  /\ exists c, constants self !! Z.to_nat idx = Some c /\ (c = v \/ py_eq c v = true).

(** The held jumps without [idx]. *)
Definition drop_held (idx : Z) (held : list Z) : list Z :=
  filter (fun i => i <> idx) held.

(** A program with a function, a loop and a [break]:
    [fn first_over(limit) { let i = 0; while true { if i > limit { break }
    i = i + 1 } return i }  first_over(3)]. *)
Definition first_over : ASTNode :=
  Block
    [ FunctionDefStmt (tok IDENT "first_over") [tok IDENT "limit"]
        (Block
           [ VarDeclareStmt (tok IDENT "i") (Some (int_lit 0)) false None;
             WhileStmt (Boolean true None)
               (Block
                  [ IfStmt (ComparisonOp (ident "i") (tok GT ">") (ident "limit") None)
                      (Block [BreakStmt None] (Some (tok L_CURLY_BRACE "{")))
                      None None;
                    AssignStmt (tok IDENT "i")
                      (BinaryOp (ident "i") (tok PLUS "+") (int_lit 1) None) None ]
                  (Some (tok L_CURLY_BRACE "{")))
               None;
             return_stmt (ident "i") ]
           (Some (tok L_CURLY_BRACE "{")))
        None;
      CallExpr (ident "first_over") [int_lit 3] [] None ]
    None.
Definition first_over_chunk : list Instruction :=
  Eval vm_compute in
    match compile_program first_over with inr (chunk, _) => chunk | inl _ => [] end.
Definition first_over_consts : list Const :=
  Eval vm_compute in pool (compile_program first_over).
Definition first_over_body : Compiler :=
  Eval vm_compute in
    match _compile_node first_over inside_scope with
    | inr (_, self) => self
    | inl _ => inside_scope
    end.

(** ** Straight-line programs

    A reference evaluation of the programs made of [let] declarations and
    assignments of integer expressions over [+], [-], [*] and the unary
    minus, ended by a [return]: the integers are Python's, of any size. *)

Definition Store : Type := string -> option Z.
Definition no_variable : Store := fun _ => None.
Definition bind_variable (x : string) (z : Z) (store : Store) : Store :=
  fun y => if String.eqb x y then Some z else store y.

(** The value of an expression; a name of the native registry is read as a
    global, and is no variable here. *)
Fixpoint int_value (store : Store) (e : ASTNode) : option Z :=
  match e with
  | Number (NumInt z) _ => Some z
  | VariableExpr name _ =>
      if in_BUILTINS (value name) then None else store (value name)
  | UnaryOp op operand _ =>
      if bool_decide (kind op = MINUS) then Z.opp <$> int_value store operand else None
  | BinaryOp left_ op right_ _ =>
      match int_value store left_, int_value store right_ with
      | Some x, Some y =>
          match kind op with
          | PLUS => Some (x + y)
          | MINUS => Some (x - y)
          | MUL => Some (x * y)
          | _ => None
          end
      | _, _ => None
      end
  | _ => None
  end.

(** The expressions that [int_value] reads, whatever the store. *)
Fixpoint plain_expression (e : ASTNode) : bool :=
  match e with
  | Number (NumInt _) _ => true
  | VariableExpr name _ => negb (in_BUILTINS (value name))
  | UnaryOp op operand _ => bool_decide (kind op = MINUS) && plain_expression operand
  | BinaryOp left_ op right_ _ =>
      match kind op with
      | PLUS | MINUS | MUL => plain_expression left_ && plain_expression right_
      | _ => false
      end
  | _ => false
  end.

(** The store after [let x = e] or [x = e]; an assignment needs a variable
    that is declared. *)
Definition after_statement (store : Store) (statement : ASTNode) : option Store :=
  match statement with
  | VarDeclareStmt name (Some e) false _ =>
      match int_value store e with
      | Some z => Some (bind_variable (value name) z store)
      | None => None
      end
  | AssignStmt name e _ =>
      match int_value store e, store (value name) with
      | Some z, Some _ => Some (bind_variable (value name) z store)
      | _, _ => None
      end
  | _ => None
  end.

Fixpoint after_statements (store : Store) (statements : list ASTNode) : option Store :=
  match statements with
  | [] => Some store
  | statement :: rest =>
      match after_statement store statement with
      | Some store' => after_statements store' rest
      | None => None
      end
  end.

(** The statements followed by [return e], as one block of the program. *)
Definition straight_line (statements : list ASTNode) (e : ASTNode) : ASTNode :=
  Block (statements ++ [ReturnStmt (Some e) None]) None.

(** No constant of the pool is a float or a boolean equal to an integer. *)
Definition ints_only (pool : list Const) : Prop :=
  forall k c z, pool !! k = Some c -> py_eq c (CInt z) = true -> c = CInt z.

(** The machine holds the constants of the compiler state [self], maybe
    followed by more, and the instructions added from [self] to [self']. *)
Definition pool_loaded (self : Compiler) (values : list VM.Value) : Prop :=
  (forall k z, constants self !! k = Some (CInt z) -> values !! k = Some (VM.VInt z))
  /\ (forall k x, constants self !! k = Some (CStr x) -> values !! k = Some (VM.VStr x))
  /\ (forall k, constants self !! k = Some CNone -> values !! k = Some VM.VNone).
Definition code_loaded (self self' : Compiler) (chunk : list Instruction) : Prop :=
  forall i instr,
    (length (bytecode_chunk self) <= i)%nat ->
    bytecode_chunk self' !! i = Some instr -> chunk !! i = Some instr.

(** From [self] to [self'] the compiler has added instructions and
    constants, inside a scope, and the patch lists and the loop level are as
    they were. *)
Definition grown (self self' : Compiler) : Prop :=
  (exists code, bytecode_chunk self' = bytecode_chunk self ++ code)
  /\ (exists more, constants self' = constants self ++ more)
  /\ ints_only (constants self')
  /\ scope_depth self' = scope_depth self
  /\ loop_start_patches self' = loop_start_patches self
  /\ loop_end_patches self' = loop_end_patches self
  /\ loop_level self' = loop_level self.

Definition added (self self' : Compiler) : nat :=
  length (bytecode_chunk self') - length (bytecode_chunk self).

(** The binding of an integer variable in a scope of the machine. *)
Definition variable (x : string) (z : Z) : VM.PyleVariable :=
  VM.mkVariable (VM.VStr x) (VM.VInt z) false.

(** The scope of the machine binds the variables of the store, none of
    them constant; the scopes of the machine, searched from the innermost,
    give each variable the value that the store gives it. *)
Definition agrees (store : Store) (scope : VM.Scope) : Prop :=
  forall x, VM.dict_get scope (VM.VStr x) = variable x <$> store x.
Definition reads (store : Store) (envs : list VM.Scope) : Prop :=
  forall x, VM.find_local (rev envs) (VM.VStr x) = VM.PyOk (variable x <$> store x).

(** [let x = 2; let y = x * 5; y = y - x; return -y + 1]. *)
Definition two_variables : list ASTNode :=
  [ VarDeclareStmt (tok IDENT "x") (Some (int_lit 2)) false None;
    VarDeclareStmt (tok IDENT "y")
      (Some (BinaryOp (ident "x") (tok MUL "*") (int_lit 5) None)) false None;
    AssignStmt (tok IDENT "y")
      (BinaryOp (ident "y") (tok MINUS "-") (ident "x") None) None ].
Definition minus_y_plus_1 : ASTNode :=
  BinaryOp (UnaryOp (tok MINUS "-") (ident "y") None) (tok PLUS "+") (int_lit 1) None.

(** ** Structured programs

    Blocks, [if] and [while] over the comparisons of integer expressions.
    The scopes of a running program are listed from the innermost; a
    declaration binds in the innermost scope, an assignment in the first
    scope that binds the name, a block in braces runs in a scope of its
    own. *)

Fixpoint lookup_variable (scopes : list Store) : Store :=
  fun x =>
    match scopes with
    | [] => None
    | scope :: outer =>
        match scope x with
        | Some z => Some z
        | None => lookup_variable outer x
        end
    end.

Definition declare_variable (scopes : list Store) (x : string) (z : Z)
  : option (list Store) :=
  match scopes with
  | [] => None
  | scope :: outer => Some (bind_variable x z scope :: outer)
  end.

Fixpoint assign_variable (scopes : list Store) (x : string) (z : Z)
  : option (list Store) :=
  match scopes with
  | [] => None
  | scope :: outer =>
      match scope x with
      | Some _ => Some (bind_variable x z scope :: outer)
      | None => cons scope <$> assign_variable outer x z
      end
  end.

Definition compare_ints (k : TokenType) : option (Z -> Z -> bool) :=
  match k with
  | GT => Some Z.gtb
  | GTE => Some Z.geb
  | LT => Some Z.ltb
  | LTE => Some Z.leb
  | EQ => Some Z.eqb
  | NEQ => Some (fun x y => negb (x =? y))
  | _ => None
  end.

(** The value of a condition: one comparison of two integer expressions. *)
Definition condition_value (store : Store) (c : ASTNode) : option bool :=
  match c with
  | ComparisonOp left_ op right_ _ =>
      match compare_ints (kind op), int_value store left_, int_value store right_ with
      | Some holds, Some x, Some y => Some (holds x y)
      | _, _, _ => None
      end
  | _ => None
  end.

Definition plain_condition (c : ASTNode) : bool :=
  match c with
  | ComparisonOp left_ op right_ _ =>
      is_not_None (compare_ints (kind op))
      && plain_expression left_ && plain_expression right_
  | _ => false
  end.

(** The statements of the fragment. *)
Fixpoint structured (statement : ASTNode) : bool :=
  match statement with
  | VarDeclareStmt _ (Some e) false _ => plain_expression e
  | AssignStmt _ e _ => plain_expression e
  | Block statements _ => forallb structured statements
  | IfStmt condition then_branch else_branch _ =>
      plain_condition condition && structured then_branch
      && match else_branch with
         | Some else_node => structured else_node
         | None => true
         end
  | WhileStmt condition body _ => plain_condition condition && structured body
  | _ => false
  end.

(** The statements of a list, one after the other. *)
Definition run_each (run : ASTNode -> list Store -> option (list Store))
  : list ASTNode -> list Store -> option (list Store) :=
  fix each (statements : list ASTNode) (scopes : list Store) :=
    match statements with
    | [] => Some scopes
    | statement :: rest =>
        match run statement scopes with
        | Some scopes' => each rest scopes'
        | None => None
        end
    end.

(** The scopes after a statement; [fuel] bounds the nesting of the
    statements plus the number of turns of the loops, and a run that needs
    more has no result. *)
Fixpoint run_statement (fuel : nat) (statement : ASTNode) (scopes : list Store)
  : option (list Store) :=
  match fuel with
  | O => None
  | S fuel =>
      match statement with
      | VarDeclareStmt name (Some e) false _ =>
          match int_value (lookup_variable scopes) e with
          | Some z => declare_variable scopes (value name) z
          | None => None
          end
      | AssignStmt name e _ =>
          match int_value (lookup_variable scopes) e with
          | Some z => assign_variable scopes (value name) z
          | None => None
          end
      | Block statements (Some _) =>
          match run_each (run_statement fuel) statements (no_variable :: scopes) with
          | Some (_ :: outer) => Some outer
          | _ => None
          end
      | Block statements None => run_each (run_statement fuel) statements scopes
      | IfStmt condition then_branch else_branch _ =>
          match condition_value (lookup_variable scopes) condition, else_branch with
          | Some true, _ => run_statement fuel then_branch scopes
          | Some false, Some else_node => run_statement fuel else_node scopes
          | Some false, None => Some scopes
          | None, _ => None
          end
      | WhileStmt condition body _ =>
          match condition_value (lookup_variable scopes) condition with
          | Some true =>
              match run_statement fuel body scopes with
              | Some scopes' => run_statement fuel statement scopes'
              | None => None
              end
          | Some false => Some scopes
          | None => None
          end
      | _ => None
      end
  end.

(** The scopes of the machine, from the innermost, bind what the scopes of
    the program bind. *)
Definition scopes_agree (scopes : list Store) (envs : list VM.Scope) : Prop :=
  Forall2 agrees scopes (rev envs).

(** From [lo] up to [hi] the code is the same. *)
Definition kept (lo hi : nat) (code code' : list Instruction) : Prop :=
  forall i, (lo <= i < hi)%nat -> code' !! i = code !! i.

(** [let i = 0; let total = 0;
     while i < 5 { let square = i * i;
                   if square > 4 { total = total + square } else { total = total - 1 }
                   i = i + 1 }
     return total]. *)
Definition sum_of_squares : list ASTNode :=
  [ VarDeclareStmt (tok IDENT "i") (Some (int_lit 0)) false None;
    VarDeclareStmt (tok IDENT "total") (Some (int_lit 0)) false None;
    WhileStmt (ComparisonOp (ident "i") (tok LT "<") (int_lit 5) None)
      (Block
         [ VarDeclareStmt (tok IDENT "square")
             (Some (BinaryOp (ident "i") (tok MUL "*") (ident "i") None)) false None;
           IfStmt (ComparisonOp (ident "square") (tok GT ">") (int_lit 4) None)
             (Block [ AssignStmt (tok IDENT "total")
                        (BinaryOp (ident "total") (tok PLUS "+") (ident "square") None)
                        None ]
                (Some (tok L_CURLY_BRACE "{")))
             (Some (Block [ AssignStmt (tok IDENT "total")
                              (BinaryOp (ident "total") (tok MINUS "-") (int_lit 1) None)
                              None ]
                      (Some (tok L_CURLY_BRACE "{"))))
             None;
           AssignStmt (tok IDENT "i")
             (BinaryOp (ident "i") (tok PLUS "+") (int_lit 1) None) None ]
         (Some (tok L_CURLY_BRACE "{")))
      None ].

(** The code from [pc] to [pc'] pushes the truth value of [condition]. *)
Definition tests (host : VM.Host) (chunk : list Instruction) (values : list VM.Value)
    (condition : ASTNode) (steps : nat) (pc pc' : Z) : Prop :=
  forall scopes b st g envs fs h n,
    condition_value (lookup_variable scopes) condition = Some b ->
    scopes_agree scopes envs ->
    VM._run host (steps + n) (VM.mkVM chunk values pc st g envs fs h)
    = VM._run host n (VM.mkVM chunk values pc' (st ++ [VM.VBool b]) g envs fs h).

(** The scope of [sum_of_squares] after its run: the loop has turned five
    times, and each assignment has bound in the scope of the program. *)
Definition sum_of_squares_scope : Store :=
  bind_variable "i" 5 (bind_variable "total" 22
  (bind_variable "i" 4 (bind_variable "total" 6
  (bind_variable "i" 3 (bind_variable "total" (-3)
  (bind_variable "i" 2 (bind_variable "total" (-2)
  (bind_variable "i" 1 (bind_variable "total" (-1)
  (bind_variable "total" 0 (bind_variable "i" 0 no_variable))))))))))).

(** ** Programs that leave a loop early

    [break] and [continue] jump out of the statement they are in.  The
    jump skips the [OP_EXIT_SCOPE] of every block in braces between the
    statement and its loop, so the scopes of these blocks stay on the
    machine: the outcome of a statement carries the scopes as they are at
    the jump. *)

Inductive Outcome :=
| Normal (scopes : list Store)
| Broke (scopes : list Store)
| Continued (scopes : list Store).

Definition outcome_scopes (outcome : Outcome) : list Store :=
  match outcome with
  | Normal scopes | Broke scopes | Continued scopes => scopes
  end.

(** Where the machine is after a statement: at the end of its code, or at
    the target of the jump that left it. *)
Definition outcome_pc (pc_end pc_break pc_continue : Z) (outcome : Outcome) : Z :=
  match outcome with
  | Normal _ => pc_end
  | Broke _ => pc_break
  | Continued _ => pc_continue
  end.

(** The statements of the fragment, with [break] and [continue] inside the
    loops. *)
Fixpoint structured_in (in_loop : bool) (statement : ASTNode) : bool :=
  match statement with
  | VarDeclareStmt _ (Some e) false _ => plain_expression e
  | AssignStmt _ e _ => plain_expression e
  | BreakStmt _ | ContinueStmt _ => in_loop
  | Block statements _ => forallb (structured_in in_loop) statements
  | IfStmt condition then_branch else_branch _ =>
      plain_condition condition && structured_in in_loop then_branch
      && match else_branch with
         | Some else_node => structured_in in_loop else_node
         | None => true
         end
  | WhileStmt condition body _ => plain_condition condition && structured_in true body
  | _ => false
  end.

(** The statements of a list, up to the first that leaves the list. *)
Definition run_each_outcome (run : ASTNode -> list Store -> option Outcome)
  : list ASTNode -> list Store -> option Outcome :=
  fix each (statements : list ASTNode) (scopes : list Store) :=
    match statements with
    | [] => Some (Normal scopes)
    | statement :: rest =>
        match run statement scopes with
        | Some (Normal scopes') => each rest scopes'
        | Some (Broke scopes') => Some (Broke scopes')
        | Some (Continued scopes') => Some (Continued scopes')
        | None => None
        end
    end.

(** The outcome of a statement.  A block in braces drops its scope at its
    end only; a loop that is left by [break] ends, one that is left by
    [continue] tests its condition again, in the scopes of the jump. *)
Fixpoint run_outcome (fuel : nat) (statement : ASTNode) (scopes : list Store)
  : option Outcome :=
  match fuel with
  | O => None
  | S fuel =>
      match statement with
      | VarDeclareStmt name (Some e) false _ =>
          match int_value (lookup_variable scopes) e with
          | Some z => Normal <$> declare_variable scopes (value name) z
          | None => None
          end
      | AssignStmt name e _ =>
          match int_value (lookup_variable scopes) e with
          | Some z => Normal <$> assign_variable scopes (value name) z
          | None => None
          end
      | BreakStmt _ => Some (Broke scopes)
      | ContinueStmt _ => Some (Continued scopes)
      | Block statements (Some _) =>
          match run_each_outcome (run_outcome fuel) statements (no_variable :: scopes) with
          | Some (Normal (_ :: outer)) => Some (Normal outer)
          | Some (Normal []) => None
          | Some (Broke scopes') => Some (Broke scopes')
          | Some (Continued scopes') => Some (Continued scopes')
          | None => None
          end
      | Block statements None => run_each_outcome (run_outcome fuel) statements scopes
      | IfStmt condition then_branch else_branch _ =>
          match condition_value (lookup_variable scopes) condition, else_branch with
          | Some true, _ => run_outcome fuel then_branch scopes
          | Some false, Some else_node => run_outcome fuel else_node scopes
          | Some false, None => Some (Normal scopes)
          | None, _ => None
          end
      | WhileStmt condition body _ =>
          match condition_value (lookup_variable scopes) condition with
          | Some true =>
              match run_outcome fuel body scopes with
              | Some (Normal scopes') | Some (Continued scopes') =>
                  run_outcome fuel statement scopes'
              | Some (Broke scopes') => Some (Normal scopes')
              | None => None
              end
          | Some false => Some (Normal scopes)
          | None => None
          end
      | _ => None
      end
  end.

(** The last list of a stack of patch lists has got the indices [new]. *)
Definition pended (stack stack' : list (list Z)) (new : list nat) : Prop :=
  (new = [] /\ stack' = stack)
  \/ exists init top,
       stack = init ++ [top] /\ stack' = init ++ [top ++ (Z.of_nat <$> new)].

(** From [self] to [self'] the compiler has added instructions and
    constants, among them the jumps at [breaks] and [continues], which wait
    for their target in the patch lists of the innermost loop; no jump
    waits in both lists. *)
Definition extended (self self' : Compiler) (breaks continues : list nat) : Prop :=
  (exists code, bytecode_chunk self' = bytecode_chunk self ++ code)
  /\ (exists more, constants self' = constants self ++ more)
  /\ ints_only (constants self')
  /\ scope_depth self' = scope_depth self
  /\ loop_level self' = loop_level self
  /\ pended (loop_start_patches self) (loop_start_patches self') continues
  /\ pended (loop_end_patches self) (loop_end_patches self') breaks
  /\ Forall (fun i => (length (bytecode_chunk self) <= i)%nat
                      /\ bytecode_chunk self' !! i
                         = Some (mkInstruction OP_JUMP placeholder))
       (breaks ++ continues)
  /\ (forall i, i ∈ breaks -> i ∉ continues).

(** The compiler is inside a scope, and inside a loop where [in_loop]. *)
Definition ready (in_loop : bool) (self : Compiler) : Prop :=
  ints_only (constants self)
  /\ 0 < scope_depth self
  /\ 0 <= loop_level self
  /\ (in_loop = true ->
      0 < loop_level self
      /\ (exists init top, loop_start_patches self = init ++ [top])
      /\ (exists init top, loop_end_patches self = init ++ [top])).

(** The instruction at [i] once the loop has patched its jumps. *)
Definition patched (breaks continues : list nat) (pc_break pc_continue : Z) (i : nat)
    (instr : Instruction) : Instruction :=
  if decide (i ∈ breaks) then mkInstruction OP_JUMP (IntOperand pc_break)
  else if decide (i ∈ continues) then mkInstruction OP_JUMP (IntOperand pc_continue)
  else instr.

(** The machine holds the instructions added from [self] to [self'], the
    waiting jumps with their targets. *)
Definition code_pending (self self' : Compiler) (breaks continues : list nat)
    (pc_break pc_continue : Z) (chunk : list Instruction) : Prop :=
  forall i instr,
    (length (bytecode_chunk self) <= i)%nat ->
    bytecode_chunk self' !! i = Some instr ->
    chunk !! i = Some (patched breaks continues pc_break pc_continue i instr).

(** [let x = 0; let i = 0;
     while i < 10 { let x = i * 2;
                    if x == 6 { break }
                    i = i + 1;
                    continue }
     return x]. *)
Definition first_double : list ASTNode :=
  [ VarDeclareStmt (tok IDENT "x") (Some (int_lit 0)) false None;
    VarDeclareStmt (tok IDENT "i") (Some (int_lit 0)) false None;
    WhileStmt (ComparisonOp (ident "i") (tok LT "<") (int_lit 10) None)
      (Block
         [ VarDeclareStmt (tok IDENT "x")
             (Some (BinaryOp (ident "i") (tok MUL "*") (int_lit 2) None)) false None;
           IfStmt (ComparisonOp (ident "x") (tok EQ "==") (int_lit 6) None)
             (Block [ BreakStmt (Some (tok KEYWORD "break")) ]
                (Some (tok L_CURLY_BRACE "{")))
             None None;
           AssignStmt (tok IDENT "i")
             (BinaryOp (ident "i") (tok PLUS "+") (int_lit 1) None) None;
           ContinueStmt (Some (tok KEYWORD "continue")) ]
         (Some (tok L_CURLY_BRACE "{")))
      None ].

(** The scopes of [first_double] after its run, from the innermost: the
    scope of the block of [break], the scopes of the four turns of the
    loop, the scope of the program. *)
Definition first_double_scopes : list Store :=
  [ no_variable;
    bind_variable "x" 6 no_variable;
    bind_variable "x" 4 no_variable;
    bind_variable "x" 2 no_variable;
    bind_variable "x" 0 no_variable;
    bind_variable "i" 3 (bind_variable "i" 2 (bind_variable "i" 1
      (bind_variable "i" 0 (bind_variable "x" 0 no_variable)))) ].

(** ** Loops over ranges

    [for x in start:end] and [for x in start:end:step] over integer
    expressions, added to the statements above: [looping_in] and
    [run_looping] are [structured_in] and [run_outcome] with the [for]
    loop. *)

(** The items of [start:end:step]: what [for] binds its variable to in
    turn. *)
Definition range_items (a b c : Z) : list Z :=
  map (fun k => a + Z.of_nat k * c) (seq 0 (Z.to_nat (VM.range_length a b c))).

(** The items of a range of integer expressions; the step is 1 when the
    range has none, and a step of zero has no items to give. *)
Definition range_value (store : Store) (iterable : ASTNode) : option (list Z) :=
  match iterable with
  | RangeSpecifier start end_ step _ =>
      match int_value store start, int_value store end_,
            match step with
            | Some e => int_value store e
            | None => Some 1
            end with
      | Some a, Some b, Some c => if c =? 0 then None else Some (range_items a b c)
      | _, _, _ => None
      end
  | _ => None
  end.

Definition plain_range (iterable : ASTNode) : bool :=
  match iterable with
  | RangeSpecifier start end_ step _ =>
      plain_expression start && plain_expression end_
      && match step with
         | Some e => plain_expression e
         | None => true
         end
  | _ => false
  end.

(** The statements of the fragment with [for]. *)
Fixpoint looping_in (in_loop : bool) (statement : ASTNode) : bool :=
  match statement with
  | VarDeclareStmt _ (Some e) false _ => plain_expression e
  | AssignStmt _ e _ => plain_expression e
  | BreakStmt _ | ContinueStmt _ => in_loop
  | Block statements _ => forallb (looping_in in_loop) statements
  | IfStmt condition then_branch else_branch _ =>
      plain_condition condition && looping_in in_loop then_branch
      && match else_branch with
         | Some else_node => looping_in in_loop else_node
         | None => true
         end
  | WhileStmt condition body _ => plain_condition condition && looping_in true body
  | ForInStmt _ iterable body _ => plain_range iterable && looping_in true body
  | _ => false
  end.

(** The turns of a [for] loop after the first item is bound, to the scopes
    in which the loop ends: after the body, and after a [continue] in the
    scopes of the jump, the next item is assigned to the variable; [break]
    ends the loop in the scopes of the jump. *)
Definition run_turns_outcome (run_body : list Store -> option Outcome) (x : string)
  : list Z -> list Store -> option (list Store) :=
  fix turn (items : list Z) (scopes : list Store) :=
    match run_body scopes with
    | Some (Normal scopes') =>
        match items with
        | [] => Some scopes'
        | item :: rest =>
            match assign_variable scopes' x item with
            | Some scopes1 => turn rest scopes1
            | None => None
            end
        end
    | Some (Continued scopes') =>
        match items with
        | [] => Some scopes'
        | item :: rest =>
            match assign_variable scopes' x item with
            | Some scopes1 => turn rest scopes1
            | None => None
            end
        end
    | Some (Broke scopes') => Some scopes'
    | None => None
    end.

(** The outcome of a statement, as [run_outcome] gives it, and of a [for]
    loop: the loop runs in a scope of its own, which binds the variable to
    the first item and is dropped when the range has no item; when the
    loop ends, the innermost scope is dropped, which is the scope of the
    loop unless a jump has left a block of the body. *)
Fixpoint run_looping (fuel : nat) (statement : ASTNode) (scopes : list Store)
  : option Outcome :=
  match fuel with
  | O => None
  | S fuel =>
      match statement with
      | VarDeclareStmt name (Some e) false _ =>
          match int_value (lookup_variable scopes) e with
          | Some z => Normal <$> declare_variable scopes (value name) z
          | None => None
          end
      | AssignStmt name e _ =>
          match int_value (lookup_variable scopes) e with
          | Some z => Normal <$> assign_variable scopes (value name) z
          | None => None
          end
      | BreakStmt _ => Some (Broke scopes)
      | ContinueStmt _ => Some (Continued scopes)
      | Block statements (Some _) =>
          match run_each_outcome (run_looping fuel) statements (no_variable :: scopes) with
          | Some (Normal (_ :: outer)) => Some (Normal outer)
          | Some (Normal []) => None
          | Some (Broke scopes') => Some (Broke scopes')
          | Some (Continued scopes') => Some (Continued scopes')
          | None => None
          end
      | Block statements None => run_each_outcome (run_looping fuel) statements scopes
      | IfStmt condition then_branch else_branch _ =>
          match condition_value (lookup_variable scopes) condition, else_branch with
          | Some true, _ => run_looping fuel then_branch scopes
          | Some false, Some else_node => run_looping fuel else_node scopes
          | Some false, None => Some (Normal scopes)
          | None, _ => None
          end
      | WhileStmt condition body _ =>
          match condition_value (lookup_variable scopes) condition with
          | Some true =>
              match run_looping fuel body scopes with
              | Some (Normal scopes') | Some (Continued scopes') =>
                  run_looping fuel statement scopes'
              | Some (Broke scopes') => Some (Normal scopes')
              | None => None
              end
          | Some false => Some (Normal scopes)
          | None => None
          end
      | ForInStmt loop_variable iterable body _ =>
          match range_value (lookup_variable scopes) iterable with
          | Some [] => Some (Normal scopes)
          | Some (first :: rest) =>
              match run_turns_outcome (run_looping fuel body) (value loop_variable) rest
                      (bind_variable (value loop_variable) first no_variable :: scopes)
              with
              | Some (_ :: outer) => Some (Normal outer)
              | _ => None
              end
          | None => None
          end
      | _ => None
      end
  end.

(** The objects of [h] are in [h'] as they were. *)
Definition heap_kept (h h' : VM.Heap) : Prop :=
  forall a o, h !! a = Some o -> h' !! a = Some o.

(** The code from [pc] runs [statement] to its outcome, the stack and the
    objects of the heap as they were. *)
Definition runs_to (host : VM.Host) (chunk : list Instruction) (values : list VM.Value)
    (run : list Store -> option Outcome) (pc pc_end pc_break pc_continue : Z) : Prop :=
  forall scopes outcome st g envs fs h,
    run scopes = Some outcome -> scopes_agree scopes envs ->
    exists envs' h' steps,
      scopes_agree (outcome_scopes outcome) envs'
      /\ heap_kept h h'
      /\ forall n,
           VM._run host (steps + n) (VM.mkVM chunk values pc st g envs fs h)
           = VM._run host n
               (VM.mkVM chunk values (outcome_pc pc_end pc_break pc_continue outcome)
                  st g envs' fs h').

Definition statement_code_in (statement : ASTNode) (s s' : Compiler)
    (breaks continues : list nat) : Prop :=
  forall fuel host chunk values pc_break pc_continue,
    (0 < VM.recursion_limit host)%nat ->
    code_pending s s' breaks continues pc_break pc_continue chunk ->
    pool_loaded s' values ->
    runs_to host chunk values (run_looping fuel statement)
      (len (bytecode_chunk s)) (len (bytecode_chunk s')) pc_break pc_continue.
Definition statements_code_in (statements : list ASTNode) (s s' : Compiler)
    (breaks continues : list nat) : Prop :=
  forall fuel host chunk values pc_break pc_continue,
    (0 < VM.recursion_limit host)%nat ->
    code_pending s s' breaks continues pc_break pc_continue chunk ->
    pool_loaded s' values ->
    runs_to host chunk values (run_each_outcome (run_looping fuel) statements)
      (len (bytecode_chunk s)) (len (bytecode_chunk s')) pc_break pc_continue.

(** A statement of the fragment compiles to code that runs it to its
    outcome. *)
Definition compiles_in (in_loop : bool) (statement : ASTNode) : Prop :=
  looping_in in_loop statement = true ->
  forall s, ready in_loop s ->
    exists s' breaks continues,
      _compile_node statement s = inr (tt, s')
      /\ extended s s' breaks continues
      /\ statement_code_in statement s s' breaks continues.

(** [let total = 0;
     for j in 10:0:-4 { if j < 3 { continue } total = total + j }
     for n in 1:10 { if n * n > total { break } }
     return n]. *)
Definition first_square_over : list ASTNode :=
  [ VarDeclareStmt (tok IDENT "total") (Some (int_lit 0)) false None;
    ForInStmt (tok IDENT "j")
      (RangeSpecifier (int_lit 10) (int_lit 0)
         (Some (UnaryOp (tok MINUS "-") (int_lit 4) None)) None)
      (Block
         [ IfStmt (ComparisonOp (ident "j") (tok LT "<") (int_lit 3) None)
             (Block [ ContinueStmt (Some (tok KEYWORD "continue")) ]
                (Some (tok L_CURLY_BRACE "{")))
             None None;
           AssignStmt (tok IDENT "total")
             (BinaryOp (ident "total") (tok PLUS "+") (ident "j") None) None ]
         (Some (tok L_CURLY_BRACE "{")))
      None;
    ForInStmt (tok IDENT "n")
      (RangeSpecifier (int_lit 1) (int_lit 10) None None)
      (Block
         [ IfStmt (ComparisonOp (BinaryOp (ident "n") (tok MUL "*") (ident "n") None)
                     (tok GT ">") (ident "total") None)
             (Block [ BreakStmt (Some (tok KEYWORD "break")) ]
                (Some (tok L_CURLY_BRACE "{")))
             None None ]
         (Some (tok L_CURLY_BRACE "{")))
      None ].

(** The scopes of [first_square_over] after its run, from the innermost:
    each loop has left the scope of its block, which the jump has not
    dropped, and its own scope with the loop variable; the last is the
    scope of the program. *)
Definition first_square_over_scopes : list Store :=
  [ no_variable;
    bind_variable "n" 5 (bind_variable "n" 4 (bind_variable "n" 3
      (bind_variable "n" 2 (bind_variable "n" 1 no_variable))));
    no_variable;
    bind_variable "j" 2 (bind_variable "j" 6 (bind_variable "j" 10 no_variable));
    bind_variable "total" 16 (bind_variable "total" 10
      (bind_variable "total" 0 no_variable)) ].
(** * Properties *)

(** ** Logical operators *)

(** C2, at the failing input [true or false]: the compiler emits the code
    of the left operand twice before the right operand and [OP_OR], where
    the branch of [and] emits it once; the run ends with the extra copy of
    the left value on the operand stack. *)
Lemma or_compiles_left_operand_twice :
  user_code (compile_program or_program)
  = [ mkInstruction OP_ENTER_SCOPE NoOperand;
      mkInstruction OP_TRUE NoOperand;
      mkInstruction OP_TRUE NoOperand;
      mkInstruction OP_FALSE NoOperand;
      mkInstruction OP_OR NoOperand;
      mkInstruction OP_POP NoOperand;
      mkInstruction OP_EXIT_SCOPE NoOperand;
      mkInstruction OP_CONST (IntOperand 12);
      mkInstruction OP_RETURN NoOperand ]
  /\ user_code (compile_program and_program)
  = [ mkInstruction OP_ENTER_SCOPE NoOperand;
      mkInstruction OP_TRUE NoOperand;
      mkInstruction OP_FALSE NoOperand;
      mkInstruction OP_AND NoOperand;
      mkInstruction OP_POP NoOperand;
      mkInstruction OP_EXIT_SCOPE NoOperand;
      mkInstruction OP_CONST (IntOperand 12);
      mkInstruction OP_RETURN NoOperand ]
  /\ VM.stack <$> machine (compile_and_run silent_host 100 or_program)
     = Some [VM.VBool true]
  /\ VM.stack <$> machine (compile_and_run silent_host 100 and_program)
     = Some [].
Proof. repeat split; vm_compute; reflexivity. Qed.

(** ** The operand stack after a statement *)

(** C3, at the failing input [let a = [1, 2, 3]; a[1] = 10]: no [OP_POP]
    follows the [OP_INDEX_SET] of the index assignment, and [interpret]
    returns [Ok] with the assigned value still on the operand stack. *)
Lemma index_assignment_leaves_value_on_stack :
  user_code (compile_program index_assign_program)
  = [ mkInstruction OP_ENTER_SCOPE NoOperand;
      mkInstruction OP_CONST (IntOperand 12);
      mkInstruction OP_CONST (IntOperand 13);
      mkInstruction OP_CONST (IntOperand 14);
      mkInstruction OP_BUILD_LIST (IntOperand 3);
      mkInstruction OP_DEF_LOCAL (IntOperand 15);
      mkInstruction OP_GET_LOCAL (IntOperand 15);
      mkInstruction OP_CONST (IntOperand 12);
      mkInstruction OP_CONST (IntOperand 16);
      mkInstruction OP_INDEX_SET NoOperand;
      mkInstruction OP_EXIT_SCOPE NoOperand;
      mkInstruction OP_CONST (IntOperand 17);
      mkInstruction OP_RETURN NoOperand ]
  /\ returned (compile_and_run silent_host 100 index_assign_program)
     = Some (VM.Ok VM.VNone)
  /\ VM.stack <$> machine (compile_and_run silent_host 100 index_assign_program)
     = Some [VM.VInt 10].
Proof. repeat split; vm_compute; reflexivity. Qed.

(** ** Arithmetic on operands that are not numbers *)

(** C8, at the failing input ["a" - 1]: [OP_SUBTRACT] does not test its
    operands as [OP_ADD] and [OP_NEGATE] do; the [TypeError] of Python's
    [-] leaves [interpret] as an exception, not as a [Result.err]. *)
Lemma subtract_string_raises_through_host :
  escaped (compile_and_run silent_host 100 subtract_program) = Some VM.TypeError
  /\ returned (compile_and_run silent_host 100 subtract_program) = None.
Proof. split; vm_compute; reflexivity. Qed.

(** ** Lists as stacks *)

Lemma list_pop_app {A} (l : list A) (x : A) : list_pop (l ++ [x]) = Some (l, x).
Proof.
  induction l as [|y l IH]; simpl; [reflexivity|].
  rewrite IH. reflexivity.
Qed.

Lemma list_pop_Some {A} (l r : list A) (x : A) :
  list_pop l = Some (r, x) -> l = r ++ [x].
Proof.
  revert r. induction l as [|y l IH]; simpl; intros r H; [discriminate|].
  destruct (list_pop l) as [[r' z]|] eqn:E.
  - injection H as <- <-. rewrite (IH r' eq_refl). reflexivity.
  - injection H as <- <-. destruct l as [|z l]; [reflexivity|].
    simpl in E. destruct (list_pop l) as [[? ?]|]; discriminate.
Qed.

Lemma list_pop_None {A} (l : list A) : list_pop l = None -> l = [].
Proof.
  destruct l as [|y l]; simpl; [reflexivity|].
  destruct (list_pop l) as [[? ?]|]; discriminate.
Qed.

Lemma len_app {A} (l1 l2 : list A) : len (l1 ++ l2) = len l1 + len l2.
Proof. unfold len. rewrite length_app. lia. Qed.

Lemma len_nonneg {A} (l : list A) : 0 <= len l.
Proof. unfold len. lia. Qed.

Lemma slice_to_length {A} (l : list A) (n : Z) :
  0 <= n <= len l -> len (slice_to l n) = n.
Proof.
  intros [H0 H1]. unfold slice_to.
  destruct (0 <=? n) eqn:E; [|lia].
  unfold len in *. rewrite length_take. lia.
Qed.

(** ** Return from a call *)

(** C6: [OP_RETURN] with a value on the stack and a frame on the call
    stack pops the value, pops the frame, sets [ip] to the frame's
    [return_ip], cuts the environments down to [env_depth] of them, cuts
    the operand stack to [stack_slot] values and pushes the return value;
    the globals, the heap and the chunk are left as they were. *)
Theorem return_restores_frame (host : VM.Host) (vm : VM.PyleVM) (arg : Operand)
    (below : list VM.Value) (return_value : VM.Value)
    (callers : list VM.CallFrame) (frame : VM.CallFrame) :
  VM.stack vm = below ++ [return_value] ->
  VM.frames vm = callers ++ [frame] ->
  0 <= VM.env_depth frame ->
  let envs := take (Z.to_nat (VM.env_depth frame)) (VM.environments vm) in
  let operands := slice_to below (VM.stack_slot frame) in
  VM.execute host OP_RETURN arg vm
  = VM.Next tt (VM.mkVM (VM.bytecode_chunk vm) (VM.constants vm)
                  (VM.return_ip frame) (operands ++ [return_value])
                  (VM.globals vm) envs callers (VM.heap vm))
  /\ (VM.env_depth frame <= len (VM.environments vm) ->
      len envs = VM.env_depth frame)
  /\ (0 <= VM.stack_slot frame <= len below ->
      len operands = VM.stack_slot frame).
Proof.
  intros Hstack Hframes Hdepth envs operands. split; [|split].
  - destruct vm as [chunk consts pc st g scopes fs h]. simpl in *. subst st fs.
    assert (Hneed : (len (below ++ [return_value]) <? 1) = false).
    { rewrite len_app. pose proof (len_nonneg below). apply Z.ltb_ge.
      unfold len at 2. simpl. lia. }
    assert (Henv : VM.pop_environments (VM.env_depth frame) scopes = VM.PyOk envs).
    { unfold VM.pop_environments, envs.
      destruct (len scopes <=? VM.env_depth frame) eqn:E1.
      - apply Z.leb_le in E1. rewrite take_ge; [reflexivity|]. unfold len in E1. lia.
      - destruct (0 <=? VM.env_depth frame) eqn:E2; [reflexivity|]. lia. }
    unfold VM.execute, VM.return_, VM.need, VM.vbind, VM.read, VM.write,
      VM._pop, VM._push, VM.lift, VM.vret,
      VM.set_stack, VM.set_frames, VM.set_ip, VM.set_environments. cbn.
    rewrite Hneed. cbn. rewrite !list_pop_app. cbn. rewrite list_pop_app. cbn.
    rewrite Henv. reflexivity.
  - intros H. unfold envs, len in *. rewrite length_take. lia.
  - intros H. apply slice_to_length. exact H.
Qed.

Lemma return_restores_frame_witness :
  VM.execute silent_host OP_RETURN NoOperand in_call
  = VM.Next tt (VM.mkVM [mkInstruction OP_RETURN NoOperand] [] 5
                  [VM.VInt 0; VM.VInt 42] [] [[]] [] []).
Proof.
  exact (proj1 (return_restores_frame silent_host in_call NoOperand
                  [VM.VInt 0; VM.VNone; VM.VInt 7] (VM.VInt 42) []
                  (VM.mkCallFrame 5 1 1) eq_refl eq_refl ltac:(simpl; lia))).
Defined.

(** ** Iterators *)

(** C4 as stated fails on a string: [OP_ITER_NEW] pushes an iterator over
    the characters of ["ab"] and returns no error, and a [for] loop over
    a string runs. *)
Lemma iter_new_accepts_string :
  VM.execute silent_host OP_ITER_NEW NoOperand on_string
  = VM.Next tt (VM.mkVM [] [] 0 [VM.VIter 0%nat] [] [] []
                  [VM.OIter (VM.ItemsIter [VM.VStr "a"; VM.VStr "b"])])
  /\ returned (compile_and_run silent_host 100 for_string_program)
     = Some (VM.Ok (VM.VStr "ab")).
Proof. split; vm_compute; reflexivity. Qed.

(** C4, amended: [OP_ITER_NEW] pops [v] and pushes a new iterator over it
    when [v] is a list, a string, a dict, or a [Range] whose three fields
    are integers with a step that is not zero; an iterator is pushed back
    as it is; an integer, a float, a boolean, [None], a function and a
    [Range] with a field that is no integer give the runtime error "not
    iterable" with [v] popped.  Nothing is said of a [Range] of integers
    with step zero. *)
Theorem iter_new_cases (host : VM.Host) (vm : VM.PyleVM) (arg : Operand)
    (below : list VM.Value) (v : VM.Value) :
  VM.stack vm = below ++ [v] ->
  let fresh it :=
    VM.execute host OP_ITER_NEW arg vm = VM.Next tt (with_iterator vm below it) in
  let type_error :=
    VM.execute host OP_ITER_NEW arg vm
    = VM.Return_ (VM.Err (VM.NotIterable v)) (VM.set_stack below vm) in
  match v with
  | VM.VList a => fresh (VM.ListIter (Some a) 0)
  | VM.VStr s => fresh (VM.ItemsIter (map VM.VStr (VM.chars s)))
  | VM.VDict d => fresh (VM.ItemsIter (map fst d))
  | VM.VIter a => VM.execute host OP_ITER_NEW arg vm = VM.Next tt vm
  | VM.VRange start end_ step =>
      match VM.as_index start, VM.as_index end_, VM.as_index step with
      | Some a, Some b, Some c =>
          if c =? 0 then True
          else fresh (VM.RangeIter a c (VM.range_length a b c))
      | _, _, _ => type_error
      end
  | VM.VInt _ | VM.VFloat _ | VM.VBool _ | VM.VNone | VM.VFunc _ | VM.VHost _ =>
      type_error
  end.
Proof.
  intros Hstack fresh type_error. subst fresh type_error.
  destruct vm as [chunk consts pc st g scopes fs h]. simpl in Hstack. subst st.
  assert (Hneed : (len (below ++ [v]) <? 1) = false).
  { rewrite len_app. pose proof (len_nonneg below). apply Z.ltb_ge.
    unfold len at 2. simpl. lia. }
  unfold VM.execute, VM.need, VM.vbind, VM.read, VM.write, VM._pop, VM._push,
    VM.err, VM.throw, VM.vret, with_iterator, VM.set_stack, VM.set_heap. cbn.
  rewrite Hneed. cbn. rewrite list_pop_app. cbn.
  destruct v; cbn; try reflexivity.
  destruct (VM.as_index v1), (VM.as_index v2), (VM.as_index v3); cbn;
    try reflexivity.
  destruct (z1 =? 0); [exact I|reflexivity].
Qed.

Lemma iter_new_cases_witness :
  VM.execute silent_host OP_ITER_NEW NoOperand on_string
  = VM.Next tt (with_iterator on_string []
                  (VM.ItemsIter (map VM.VStr (VM.chars "ab")))).
Proof.
  exact (iter_new_cases silent_host on_string NoOperand [] (VM.VStr "ab") eq_refl).
Defined.

(** The case that C4 leaves out: on a [Range] of integers with step zero
    [iter] raises the [ValueError] of [range]; [OP_ITER_NEW] catches
    [TypeError] only, so the exception leaves [_run], where a [Range] with
    a field that is no integer gives a runtime error. *)
Lemma iter_new_step_zero (host : VM.Host) (vm : VM.PyleVM) (arg : Operand)
    (below : list VM.Value) (a b : Z) :
  VM.stack vm = below ++ [VM.VRange (VM.VInt a) (VM.VInt b) (VM.VInt 0)] ->
  VM.execute host OP_ITER_NEW arg vm = VM.Raise VM.ValueError.
Proof.
  intros Hstack.
  destruct vm as [chunk consts pc st g scopes fs h]. simpl in Hstack. subst st.
  assert (Hneed : (len (below ++ [VM.VRange (VM.VInt a) (VM.VInt b) (VM.VInt 0)]) <? 1)
                  = false).
  { rewrite len_app. pose proof (len_nonneg below). apply Z.ltb_ge.
    unfold len at 2. simpl. lia. }
  unfold VM.execute, VM.need, VM.vbind, VM.read, VM.write, VM._pop, VM._push,
    VM.err, VM.throw, VM.vret, VM.set_stack, VM.set_heap. cbn.
  rewrite Hneed. cbn. rewrite list_pop_app. reflexivity.
Qed.

(** ** The constants table *)

Lemma Const_nested_ind (P : Const -> Prop) :
  (forall z, P (CInt z)) -> (forall f, P (CFloat f)) -> (forall b, P (CBool b)) ->
  (forall s, P (CStr s)) -> P CNone -> (forall l, Forall P l -> P (CList l)) ->
  (forall f, P (CFunc f)) -> forall c, P c.
Proof.
  intros HInt HFloat HBool HStr HNone HList HFunc.
  fix IH 1. intros [z|f|b|s| |l|f].
  - apply HInt.
  - apply HFloat.
  - apply HBool.
  - apply HStr.
  - apply HNone.
  - apply HList. induction l as [|c l IHl]; constructor; [apply IH|exact IHl].
  - apply HFunc.
Qed.

Lemma py_eq_list (l1 l2 : list Const) :
  py_eq (CList l1) (CList l2) = list_eqb py_eq l1 l2.
Proof.
  revert l2. induction l1 as [|x l1 IH]; intros [|y l2]; simpl; try reflexivity.
  f_equal. apply IH.
Qed.

Lemma same_number_true (x y : option exact) :
  same_number x y = true <-> exists e, x = Some e /\ y = Some e.
Proof.
  unfold same_number. destruct x as [a|], y as [b|]; split;
    try discriminate; try (intros [e [? ?]]; discriminate).
  - intros H. apply bool_decide_eq_true in H. subst b. eauto.
  - intros [e [[= ->] [= ->]]]. apply bool_decide_eq_true. reflexivity.
Qed.

Lemma same_number_sym (x y : option exact) : same_number x y = same_number y x.
Proof.
  unfold same_number. destruct x as [a|], y as [b|]; try reflexivity.
  apply bool_decide_ext. split; congruence.
Qed.

Lemma same_number_trans (x y z : option exact) :
  same_number x y = true -> same_number y z = true -> same_number x z = true.
Proof.
  rewrite !same_number_true. intros [e [-> ->]] [e' [[= <-] ->]]. eauto.
Qed.

Lemma py_eq_numeric (a b : Const) :
  numeric a = true -> numeric b = true ->
  py_eq a b = same_number (exact_of_Const a) (exact_of_Const b).
Proof. destruct a, b; try discriminate; reflexivity. Qed.

Lemma py_eq_numeric_l (a b : Const) :
  numeric a = true -> py_eq a b = true -> numeric b = true.
Proof.
  destruct a; try discriminate; intros _; destruct b; try reflexivity;
    cbn [py_eq exact_of_Const]; rewrite same_number_true;
    intros [e [? ?]]; discriminate.
Qed.

Lemma py_eq_numeric_r (a b : Const) :
  numeric b = true -> py_eq a b = true -> numeric a = true.
Proof.
  destruct b; try discriminate; intros _; destruct a; try reflexivity;
    cbn [py_eq exact_of_Const]; try discriminate; rewrite same_number_true;
    intros [e [? ?]]; discriminate.
Qed.

Lemma py_eq_sym (a b : Const) : py_eq a b = py_eq b a.
Proof.
  revert b. induction a as [z|f|x|s| |l IH|f] using Const_nested_ind;
    intros [z'|f'|x'|s'| |l'|f']; cbn [py_eq exact_of_Const];
    try reflexivity; try apply same_number_sym.
  - apply String.eqb_sym.
  - change (py_eq (CList l) (CList l') = py_eq (CList l') (CList l)).
    rewrite !py_eq_list. revert l'. induction IH as [|x l Hx _ IHl]; intros [|y l'];
      simpl; try reflexivity.
    rewrite Hx, IHl. reflexivity.
  - apply bool_decide_ext. split; congruence.
Qed.

Lemma list_eqb_trans {A} (eqb : A -> A -> bool) (l1 : list A) :
  Forall (fun a => forall b c, eqb a b = true -> eqb b c = true -> eqb a c = true) l1 ->
  forall l2 l3, list_eqb eqb l1 l2 = true -> list_eqb eqb l2 l3 = true ->
                list_eqb eqb l1 l3 = true.
Proof.
  induction 1 as [|x l1 Hx _ IH]; intros [|y l2] [|z l3]; simpl; try congruence.
  intros [H1 H2]%andb_prop [H3 H4]%andb_prop.
  rewrite (Hx _ _ H1 H3), (IH _ _ H2 H4). reflexivity.
Qed.

Lemma py_eq_trans (a b c : Const) :
  py_eq a b = true -> py_eq b c = true -> py_eq a c = true.
Proof.
  destruct (numeric b) eqn:Hb.
  - intros Hab Hbc.
    pose proof (py_eq_numeric_r a b Hb Hab) as Ha.
    pose proof (py_eq_numeric_l b c Hb Hbc) as Hc.
    rewrite py_eq_numeric in * by assumption.
    eapply same_number_trans; eauto.
  - revert b c Hb. induction a as [z|f|x|s| |l IH|f] using Const_nested_ind;
      intros b c Hb Hab Hbc.
    + rewrite (py_eq_numeric_l (CInt z) b eq_refl Hab) in Hb. discriminate.
    + rewrite (py_eq_numeric_l (CFloat f) b eq_refl Hab) in Hb. discriminate.
    + rewrite (py_eq_numeric_l (CBool x) b eq_refl Hab) in Hb. discriminate.
    + destruct b; try discriminate. destruct c; try discriminate.
      cbn [py_eq] in *. apply String.eqb_eq in Hab, Hbc. apply String.eqb_eq.
      congruence.
    + destruct b; try discriminate. destruct c; try discriminate. reflexivity.
    + destruct b as [| | | | |l'|]; try discriminate.
      destruct c as [| | | | |l''|]; try discriminate.
      rewrite py_eq_list in *. eapply list_eqb_trans; eauto.
      eapply Forall_impl; [exact IH|]. cbn beta. intros a Ha b c Hab' Hbc'.
      destruct (numeric b) eqn:Hnb.
      * pose proof (py_eq_numeric_r a b Hnb Hab') as Hna.
        pose proof (py_eq_numeric_l b c Hnb Hbc') as Hnc.
        rewrite py_eq_numeric in * by assumption.
        eapply same_number_trans; eauto.
      * eapply Ha; eauto.
    + destruct b; try discriminate. destruct c; try discriminate.
      cbn [py_eq] in *. apply bool_decide_eq_true in Hab, Hbc.
      apply bool_decide_eq_true. congruence.
Qed.

Lemma index_of_Some (v : Const) (pool : list Const) (i : nat) :
  index_of v pool = Some i <-> first_equal v pool i.
Proof.
  revert i. induction pool as [|c pool IH]; intros i; simpl.
  - split; [discriminate|]. intros [[c [H _]] _]. discriminate.
  - destruct (py_eq c v) eqn:E.
    + split.
      * intros [= <-]. split; [exists c; auto|]. intros j c' Hj. lia.
      * intros [[c' [Hi Hc']] Hfirst]. destruct i as [|i]; [reflexivity|].
        specialize (Hfirst 0%nat c ltac:(lia) eq_refl). congruence.
    + destruct (index_of v pool) as [k|] eqn:Ek; simpl.
      * split.
        -- intros [= <-]. destruct (proj1 (IH k) eq_refl) as [[c' [Hk Hc']] Hfirst].
           split; [exists c'; auto|]. intros [|j] c'' Hj Hl; simpl in Hl.
           ++ congruence.
           ++ apply (Hfirst j); [lia|exact Hl].
        -- intros [[c' [Hi Hc']] Hfirst]. destruct i as [|i]; simpl in Hi.
           ++ congruence.
           ++ f_equal. assert (Hk : Some k = Some i); [|congruence].
              apply IH. split; [exists c'; auto|].
              intros j c'' Hj Hl. apply (Hfirst (S j)); [lia|exact Hl].
      * split; [discriminate|].
        intros [[c' [Hi Hc']] Hfirst]. destruct i as [|i]; simpl in Hi.
        -- congruence.
        -- assert (Hk : None = Some i); [|discriminate].
           apply IH. split; [exists c'; auto|].
           intros j c'' Hj Hl. apply (Hfirst (S j)); [lia|exact Hl].
Qed.

Lemma index_of_None (v : Const) (pool : list Const) :
  index_of v pool = None <-> none_equal v pool.
Proof.
  induction pool as [|c pool IH]; simpl.
  - split; [|reflexivity]. intros _ j c H. destruct j; discriminate.
  - destruct (py_eq c v) eqn:E.
    + split; [discriminate|]. intros H. specialize (H 0%nat c eq_refl). congruence.
    + destruct (index_of v pool) as [k|] eqn:Ek; simpl.
      * split; [discriminate|]. intros H.
        assert (Hn : Some k = None); [|discriminate].
        apply IH. intros j c' Hj. apply (H (S j)). exact Hj.
      * split; [|reflexivity]. intros _ [|j] c' Hj; simpl in Hj.
        -- congruence.
        -- apply (proj1 IH eq_refl j). exact Hj.
Qed.

Lemma py_eq_list_only (c v : Const) :
  is_list v = true -> py_eq c v = true -> is_list c = true.
Proof.
  destruct v; try discriminate. intros _. destruct c; try reflexivity;
    cbn [py_eq exact_of_Const]; try discriminate;
    rewrite same_number_true; intros [e [? ?]]; discriminate.
Qed.

Lemma index_of_list_eq (v : Const) (pool : list Const) :
  is_list v = true -> index_of_list v pool = index_of v pool.
Proof.
  intros Hv. induction pool as [|c pool IH]; simpl; [reflexivity|].
  rewrite IH. destruct (py_eq c v) eqn:E.
  - rewrite (py_eq_list_only c v Hv E). reflexivity.
  - rewrite andb_false_r. reflexivity.
Qed.

Lemma add_constant_unfold (v : Const) (pool : list Const) :
  add_constant v pool =
  match index_of v pool with
  | Some i => (Z.of_nat i, pool)
  | None => (len pool, pool ++ [v])
  end.
Proof.
  unfold add_constant. destruct (is_list v) eqn:Hv.
  - rewrite (index_of_list_eq v pool Hv).
    destruct (index_of v pool); [reflexivity|].
    f_equal. rewrite len_app. unfold len. simpl. lia.
  - destruct (index_of v pool); [reflexivity|].
    f_equal. rewrite len_app. unfold len. simpl. lia.
Qed.

Lemma add_constant_found (v : Const) (pool : list Const) (i : nat) :
  first_equal v pool i -> add_constant v pool = (Z.of_nat i, pool).
Proof.
  intros H. rewrite add_constant_unfold.
  rewrite (proj2 (index_of_Some v pool i) H). reflexivity.
Qed.

Lemma add_constant_new (v : Const) (pool : list Const) :
  none_equal v pool -> add_constant v pool = (len pool, pool ++ [v]).
Proof.
  intros H. rewrite add_constant_unfold.
  rewrite (proj2 (index_of_None v pool) H). reflexivity.
Qed.

Lemma first_equal_transfer (v v' : Const) (pool : list Const) (i : nat) :
  py_eq v v' = true -> first_equal v pool i -> first_equal v' pool i.
Proof.
  intros Heq [[c [Hi Hc]] Hfirst]. split.
  - exists c. split; [exact Hi|]. eapply py_eq_trans; eauto.
  - intros j c' Hj Hl. destruct (py_eq c' v') eqn:E; [|reflexivity].
    rewrite <- (Hfirst j c' Hj Hl). symmetry.
    eapply py_eq_trans; [exact E|]. rewrite py_eq_sym. exact Heq.
Qed.

(** C7: [add_constant] returns the index of the first entry of the pool
    equal to [v] and leaves the pool as it is when there is one, and
    appends [v] and returns its index when there is none; a second call
    with a value equal to [v] returns the same index and leaves the pool,
    and so its length, unchanged.  Equality is Python's [==]. *)
Theorem add_constant_idempotent (pool : list Const) (v v' : Const) :
  py_eq v v' = true ->
  let i := fst (add_constant v pool) in
  let pool1 := snd (add_constant v pool) in
  (forall k, first_equal v pool k -> i = Z.of_nat k /\ pool1 = pool)
  /\ (none_equal v pool -> i = len pool /\ pool1 = pool ++ [v])
  /\ fst (add_constant v' pool1) = i
  /\ snd (add_constant v' pool1) = pool1
  /\ len (snd (add_constant v' pool1)) = len pool1.
Proof.
  intros Heq i pool1.
  assert (Hfound : forall k, first_equal v pool k -> i = Z.of_nat k /\ pool1 = pool).
  { intros k Hk. unfold i, pool1. rewrite (add_constant_found v pool k Hk). auto. }
  assert (Hnew : none_equal v pool -> i = len pool /\ pool1 = pool ++ [v]).
  { intros Hn. unfold i, pool1. rewrite (add_constant_new v pool Hn). auto. }
  assert (Hsecond : add_constant v' pool1 = (i, pool1)).
  { destruct (index_of v pool) as [k|] eqn:E.
    - apply index_of_Some in E. destruct (Hfound k E) as [-> ->].
      apply add_constant_found. eapply first_equal_transfer; eauto.
    - apply index_of_None in E. destruct (Hnew E) as [Hi ->].
      replace i with (Z.of_nat (length pool)) by (rewrite Hi; reflexivity).
      apply add_constant_found. split.
      + exists v. split; [|exact Heq]. rewrite lookup_app_r by lia.
        rewrite Nat.sub_diag. reflexivity.
      + intros j c Hj Hl. rewrite lookup_app_l in Hl by lia.
        destruct (py_eq c v') eqn:E'; [|reflexivity].
        rewrite <- (E j c Hl). symmetry.
        eapply py_eq_trans; [exact E'|]. rewrite py_eq_sym. exact Heq. }
  rewrite Hsecond. simpl. auto.
Qed.

Lemma add_constant_distinct (v : Const) (pool : list Const) :
  distinct_pool pool -> distinct_pool (snd (add_constant v pool)).
Proof.
  intros Hd. rewrite add_constant_unfold.
  destruct (index_of v pool) as [k|] eqn:E; simpl; [exact Hd|].
  apply index_of_None in E. intros i j a b Hi Hj Hab.
  destruct (decide (i < length pool)%nat) as [Hi'|Hi'];
    destruct (decide (j < length pool)%nat) as [Hj'|Hj'].
  - rewrite lookup_app_l in Hi, Hj by lia. eapply Hd; eauto.
  - rewrite lookup_app_l in Hi by lia. rewrite lookup_app_r in Hj by lia.
    destruct (j - length pool)%nat as [|n] eqn:En; simpl in Hj; [|destruct n; discriminate].
    injection Hj as <-. rewrite (E i a Hi) in Hab. discriminate.
  - rewrite lookup_app_l in Hj by lia. rewrite lookup_app_r in Hi by lia.
    destruct (i - length pool)%nat as [|n] eqn:En; simpl in Hi; [|destruct n; discriminate].
    injection Hi as <-. rewrite py_eq_sym, (E j b Hj) in Hab. discriminate.
  - rewrite lookup_app_r in Hi, Hj by lia.
    destruct (i - length pool)%nat as [|n] eqn:En; simpl in Hi; [|destruct n; discriminate].
    destruct (j - length pool)%nat as [|m] eqn:Em; simpl in Hj; [|destruct m; discriminate].
    lia.
Qed.

Lemma pool_of_distinct (values : list Const) : distinct_pool (pool_of values).
Proof.
  unfold pool_of.
  assert (H : forall pool, distinct_pool pool ->
    distinct_pool (fold_left (fun pool v => snd (add_constant v pool)) values pool)).
  { induction values as [|v values IH]; intros pool Hd; simpl; [exact Hd|].
    apply IH. apply add_constant_distinct. exact Hd. }
  apply H. intros i j a b Hi. destruct i; discriminate.
Qed.

Lemma distinct_first_equal (pool : list Const) (i : nat) (c v : Const) :
  distinct_pool pool -> pool !! i = Some c -> py_eq c v = true ->
  first_equal v pool i.
Proof.
  intros Hd Hi Hc. split; [exists c; auto|].
  intros j c' Hj Hl. destruct (py_eq c' v) eqn:E; [|reflexivity].
  assert (j = i); [|lia].
  eapply Hd; eauto. eapply py_eq_trans; [exact E|]. rewrite py_eq_sym. exact Hc.
Qed.

Lemma add_constant_idempotent_witness :
  fst (add_constant (CList [CStr "a"])
         (snd (add_constant (CList [CStr "a"]) [CInt 1])))
  = fst (add_constant (CList [CStr "a"]) [CInt 1]).
Proof.
  exact (proj1 (proj2 (proj2
    (add_constant_idempotent [CInt 1] (CList [CStr "a"]) (CList [CStr "a"]) eq_refl)))).
Defined.

(** The first entry equal to [v] is the first entry equal to every constant
    that is equal to [v]. *)
Lemma first_equal_same (pool : list Const) (i : nat) (v w : Const) :
  first_equal v pool i -> py_eq v w = true -> first_equal w pool i.
Proof.
  intros [[c [Hi Hc]] Hfirst] Hvw. split.
  - exists c. split; [exact Hi|]. eapply py_eq_trans; eauto.
  - intros j c' Hj Hl. destruct (py_eq c' w) eqn:E; [|reflexivity].
    rewrite <- (Hfirst j c' Hj Hl). symmetry.
    eapply py_eq_trans; [exact E|]. rewrite py_eq_sym. exact Hvw.
Qed.

(** C10: when the integer [z] is in the pool at index [i] and no entry
    before it is equal to [z] (in a pool that [add_constant] has built no
    two entries are equal), a float equal to [z] gets the index [i] and is
    not appended, and so does the boolean equal to [z], [True] for 1 and
    [False] for 0; a float literal equal to [z] compiles to [OP_CONST i],
    the constant of the integer. *)
Theorem equal_numbers_share_one_constant (pool : list Const) (i : nat)
    (z : Z) (f : float) :
  pool !! i = Some (CInt z) ->
  (forall j c, (j < i)%nat -> pool !! j = Some c -> py_eq c (CInt z) = false) ->
  exact_of_float f = Some (exact_of_Z z) ->
  add_constant (CFloat f) pool = (Z.of_nat i, pool)
  /\ (forall b : bool,
        Z.b2z b = z -> add_constant (CBool b) pool = (Z.of_nat i, pool))
  /\ forall (self : Compiler) (token : option Token),
       constants self = pool ->
       exists self',
         _compile_node (Number (NumFloat f) token) self = inr (tt, self')
         /\ bytecode_chunk self'
            = bytecode_chunk self ++ [mkInstruction OP_CONST (IntOperand (Z.of_nat i))]
         /\ constants self' = constants self.
Proof.
  intros Hi Hbefore Hf.
  assert (Hint : first_equal (CInt z) pool i).
  { split; [|exact Hbefore]. exists (CInt z). split; [exact Hi|].
    cbn [py_eq exact_of_Const]. apply same_number_true. eauto. }
  assert (Hfloat : add_constant (CFloat f) pool = (Z.of_nat i, pool)).
  { apply add_constant_found. apply (first_equal_same pool i (CInt z)); [exact Hint|].
    cbn [py_eq exact_of_Const]. rewrite Hf. apply same_number_true. eauto. }
  split; [exact Hfloat|]. split.
  - intros b Hb. apply add_constant_found.
    apply (first_equal_same pool i (CInt z)); [exact Hint|].
    cbn [py_eq exact_of_Const]. rewrite Hb. apply same_number_true. eauto.
  - intros self token Hc. eexists. split; [|split].
    + simpl. unfold bind, Compiler_add_constant, emit, emit_instruction, bind, ret.
      simpl. rewrite Hc, Hfloat. simpl. reflexivity.
    + destruct token; reflexivity.
    + destruct token; simpl; rewrite Hc; reflexivity.
Qed.

Lemma equal_numbers_share_one_constant_witness :
  constants after_two !! 12%nat = Some (CInt 2)
  /\ add_constant (CFloat two) (constants after_two) = (12, constants after_two)
  /\ exists self',
       _compile_node (Number (NumFloat two) None) after_two = inr (tt, self')
       /\ bytecode_chunk self'
          = bytecode_chunk after_two ++ [mkInstruction OP_CONST (IntOperand 12)]
       /\ constants self' = constants after_two.
Proof.
  pose proof (equal_numbers_share_one_constant (constants after_two) 12 2 two
                eq_refl
                ltac:(intros j c Hj Hc;
                      do 12 (destruct j as [|j]; [injection Hc as <-; reflexivity|]);
                      lia)
                eq_refl) as H.
  exact (conj eq_refl (conj (proj1 H) (proj2 (proj2 H) after_two None eq_refl))).
Defined.

(** In a pool that [add_constant] has built, an entry is the first that is
    equal to it, so the integer of C10 has no equal entry before it. *)
Lemma pool_of_first_equal (values : list Const) (i : nat) (c : Const) :
  pool_of values !! i = Some c ->
  forall j c', (j < i)%nat -> pool_of values !! j = Some c' -> py_eq c' c = false.
Proof.
  intros Hi j c' Hj Hc'. destruct (py_eq c' c) eqn:E; [|reflexivity].
  pose proof (pool_of_distinct values j i c' c Hc' Hi E). lia.
Qed.

(** The program [1; 1.0]: both literals load constant 12, the integer. *)
Example one_and_one_point_zero :
  user_code (compile_program one_twice_program)
  = [ mkInstruction OP_ENTER_SCOPE NoOperand;
      mkInstruction OP_CONST (IntOperand 12);
      mkInstruction OP_POP NoOperand;
      mkInstruction OP_CONST (IntOperand 12);
      mkInstruction OP_POP NoOperand;
      mkInstruction OP_EXIT_SCOPE NoOperand;
      mkInstruction OP_CONST (IntOperand 13);
      mkInstruction OP_RETURN NoOperand ]
  /\ pool (compile_program one_twice_program) !! 12%nat = Some (CInt 1)
  /\ pool (compile_program one_twice_program) !! 13%nat = Some CNone.
Proof. repeat split; vm_compute; reflexivity. Qed.

(** The program [2; 2.0]: both literals load constant 12, the integer. *)
Example two_and_two_point_zero :
  user_code (compile_program two_twice_program)
  = [ mkInstruction OP_ENTER_SCOPE NoOperand;
      mkInstruction OP_CONST (IntOperand 12);
      mkInstruction OP_POP NoOperand;
      mkInstruction OP_CONST (IntOperand 12);
      mkInstruction OP_POP NoOperand;
      mkInstruction OP_EXIT_SCOPE NoOperand;
      mkInstruction OP_CONST (IntOperand 13);
      mkInstruction OP_RETURN NoOperand ]
  /\ pool (compile_program two_twice_program) !! 12%nat = Some (CInt 2)
  /\ pool (compile_program two_twice_program) !! 13%nat = Some CNone.
Proof. repeat split; vm_compute; reflexivity. Qed.

(** ** The result of a program *)

(** C1 as stated fails on its own scenario: [let x = 2 + 3 * 4; x]
    returns [Ok(None)]. *)
Lemma S1_returns_None_not_14 :
  returned (compile_and_run silent_host 100 S1) = Some (VM.Ok VM.VNone)
  /\ VM.Ok VM.VNone <> VM.Ok (VM.VInt 14).
Proof. split; [vm_compute; reflexivity|discriminate]. Qed.

Lemma py_eq_None (c : Const) : py_eq c CNone = true -> c = CNone.
Proof.
  destruct c; try reflexivity; cbn [py_eq exact_of_Const]; try discriminate;
    rewrite same_number_true; intros [e [? ?]]; discriminate.
Qed.

Lemma add_constant_None (pool pool' : list Const) (i : Z) :
  add_constant CNone pool = (i, pool') ->
  exists k, i = Z.of_nat k /\ pool' !! k = Some CNone.
Proof.
  rewrite add_constant_unfold. destruct (index_of CNone pool) as [k|] eqn:E.
  - intros [= <- <-]. apply index_of_Some in E. destruct E as [[c [Hk Hc]] _].
    exists k. split; [reflexivity|]. rewrite Hk. f_equal. apply py_eq_None, Hc.
  - intros [= <- <-]. exists (length pool). split; [reflexivity|].
    rewrite lookup_app_r by lia. rewrite Nat.sub_diag. reflexivity.
Qed.

Lemma load_constants_length (cs : list Const) (h : VM.Heap) :
  length (fst (VM.load_constants cs h)) = length cs.
Proof.
  revert h. induction cs as [|c cs IH]; intros h; simpl; [reflexivity|].
  destruct (VM.load_const c h) as [v h1]. specialize (IH h1).
  destruct (VM.load_constants cs h1) as [vs h2]. simpl in *. lia.
Qed.

Lemma load_constants_lookup (cs : list Const) (h : VM.Heap) (k : nat) (c : Const) :
  cs !! k = Some c ->
  exists h', fst (VM.load_constants cs h) !! k = Some (fst (VM.load_const c h')).
Proof.
  revert h k. induction cs as [|c0 cs IH]; intros h k Hk; [destruct k; discriminate|].
  simpl. destruct (VM.load_const c0 h) as [v h1] eqn:E1.
  destruct (VM.load_constants cs h1) as [vs h2] eqn:E2.
  destruct k as [|k]; simpl in *.
  - injection Hk as <-. exists h. rewrite E1. reflexivity.
  - destruct (IH h1 k Hk) as [h' Hh']. rewrite E2 in Hh'. exists h'. exact Hh'.
Qed.

Lemma compile_tail (program : ASTNode) (chunk : list Instruction) (consts : list Const) :
  compile_program program = inr (chunk, consts) ->
  exists body k, chunk = body ++ EXIT_CONST_RETURN k /\ consts !! k = Some CNone.
Proof.
  unfold compile_program, compile. unfold bind at 1. unfold modify at 1.
  unfold bind at 1.
  destruct (_initialize_builtins reset) as [e|[[] s0]]; [discriminate|].
  unfold bind at 1. unfold emit at 1. unfold bind at 1.
  unfold emit_instruction at 1. cbn [ret]. unfold bind at 1. unfold modify at 1.
  unfold bind at 1.
  match goal with |- context [_compile_node program ?s] =>
    destruct (_compile_node program s) as [e|[[] s1]]; [discriminate|] end.
  unfold bind, emit, emit_instruction, modify, Compiler_add_constant, gets, ret.
  cbn.
  destruct (add_constant CNone (constants s1)) as [i pool'] eqn:E. cbn.
  intros [= <- <-].
  destruct (add_constant_None _ _ _ E) as [k [-> Hk]].
  exists (bytecode_chunk s1), k. split; [|exact Hk].
  rewrite <- !app_assoc. reflexivity.
Qed.

Lemma getitem_nat {A} (l : list A) (k : nat) : getitem l (Z.of_nat k) = l !! k.
Proof.
  unfold getitem. destruct (0 <=? Z.of_nat k) eqn:E; [|apply Z.leb_gt in E; lia].
  rewrite Nat2Z.id. reflexivity.
Qed.

Lemma run_tail (host : VM.Host) (body : list Instruction) (k : nat) (vm : VM.PyleVM) :
  VM.bytecode_chunk vm = body ++ EXIT_CONST_RETURN k ->
  VM.constants vm !! k = Some VM.VNone ->
  VM.ip vm = len body + 1 ->
  VM.frames vm = [] ->
  VM._run host 2 vm
  = VM.Return_ (VM.Ok VM.VNone) (VM.set_ip (len (body ++ EXIT_CONST_RETURN k)) vm).
Proof.
  destruct vm as [chunk consts pc st g scopes fs h]. cbn [VM.bytecode_chunk
    VM.constants VM.ip VM.frames]. intros -> Hk -> ->.
  assert (Hlen : len (body ++ EXIT_CONST_RETURN k) = len body + 3).
  { rewrite len_app. reflexivity. }
  pose proof (len_nonneg body) as Hb.
  assert (H1 : (body ++ EXIT_CONST_RETURN k) !! Z.to_nat (len body + 1)
               = Some (mkInstruction OP_CONST (IntOperand (Z.of_nat k)))).
  { replace (Z.to_nat (len body + 1)) with (length body + 1)%nat by (unfold len; lia).
    rewrite lookup_app_r by lia.
    replace (length body + 1 - length body)%nat with 1%nat by lia. reflexivity. }
  assert (H2 : (body ++ EXIT_CONST_RETURN k) !! Z.to_nat (len body + 1 + 1)
               = Some (mkInstruction OP_RETURN NoOperand)).
  { replace (Z.to_nat (len body + 1 + 1)) with (length body + 2)%nat by (unfold len; lia).
    rewrite lookup_app_r by lia.
    replace (length body + 2 - length body)%nat with 2%nat by lia. reflexivity. }
  cbn [VM._run]. unfold VM.iteration at 1, VM._current_instruction.
  cbn [VM.bytecode_chunk VM.ip VM.stack]. rewrite Hlen.
  replace (len body + 3 <=? len body + 1) with false by (symmetry; apply Z.leb_gt; lia).
  replace (0 <=? len body + 1) with true by (symmetry; apply Z.leb_le; lia).
  replace (len body + 1 <? len body + 3) with true by (symmetry; apply Z.ltb_lt; lia).
  cbn [andb]. rewrite H1. cbn [opcode operand VM.execute].
  unfold VM.vbind, VM.constant, VM._push, VM.write, VM.set_ip, VM.set_stack.
  cbn [VM.constants VM.bytecode_chunk VM.ip VM.stack VM.globals VM.environments
         VM.frames VM.heap].
  rewrite getitem_nat, Hk.
  unfold VM.iteration, VM._current_instruction.
  cbn [VM.bytecode_chunk VM.ip VM.stack]. rewrite Hlen.
  replace (len body + 3 <=? len body + 1 + 1) with false
    by (symmetry; apply Z.leb_gt; lia).
  replace (0 <=? len body + 1 + 1) with true by (symmetry; apply Z.leb_le; lia).
  replace (len body + 1 + 1 <? len body + 3) with true
    by (symmetry; apply Z.ltb_lt; lia).
  cbn [andb]. rewrite H2. cbn [opcode operand VM.execute].
  unfold VM.return_, VM.need, VM.vbind, VM.read, VM._pop, VM.vret, VM.ok,
    VM.set_stack, VM.set_ip.
  cbn [VM.constants VM.bytecode_chunk VM.ip VM.stack VM.globals VM.environments
         VM.frames VM.heap].
  rewrite len_app.
  replace (len st + len [VM.VNone] <? 1) with false
    by (symmetry; apply Z.ltb_ge; pose proof (len_nonneg st); unfold len at 2; simpl; lia).
  cbn [VM.constants VM.bytecode_chunk VM.ip VM.stack VM.globals VM.environments
         VM.frames VM.heap].
  rewrite list_pop_app.
  cbn [VM.constants VM.bytecode_chunk VM.ip VM.stack VM.globals VM.environments
         VM.frames VM.heap list_pop].
  do 2 f_equal. lia.
Qed.

(** C1, amended: every chunk that [compile] returns ends with
    [OP_EXIT_SCOPE; OP_CONST k; OP_RETURN] where constant [k] is [None], so a
    run that reaches the [OP_CONST] with no call frame left returns
    [Ok(None)] two instructions later, whatever the statements left on
    the operand stack: the value of a final expression statement is not
    the result.  [let x = 2 + 3 * 4; x] returns [Ok(None)]; with
    [return x] as its last statement it returns [Ok(14)]. *)
Theorem end_of_program_returns_None (host : VM.Host) (program : ASTNode)
    (chunk : list Instruction) (consts : list Const) :
  compile_program program = inr (chunk, consts) ->
  (exists body k,
     chunk = body ++ EXIT_CONST_RETURN k
     /\ consts !! k = Some CNone
     /\ forall vm,
          VM.bytecode_chunk vm = chunk ->
          VM.constants vm = VM.constants (VM.boot chunk consts) ->
          VM.ip vm = len body + 1 ->
          VM.frames vm = [] ->
          VM._run host 2 vm = VM.Return_ (VM.Ok VM.VNone) (VM.set_ip (len chunk) vm))
  /\ returned (compile_and_run host 100 S1) = Some (VM.Ok VM.VNone)
  /\ returned (compile_and_run host 100 S1_return) = Some (VM.Ok (VM.VInt 14)).
Proof.
  intros Hc. split; [|split; vm_compute; reflexivity].
  destruct (compile_tail program chunk consts Hc) as [body [k [-> Hk]]].
  exists body, k. split; [reflexivity|]. split; [exact Hk|].
  intros vm Hchunk Hconsts Hip Hframes.
  apply run_tail; auto.
  rewrite Hconsts. unfold VM.boot.
  destruct (load_constants_lookup consts [] k CNone Hk) as [h' Hh'].
  destruct (VM.load_constants consts []) as [values h0]. exact Hh'.
Qed.

Lemma end_of_program_returns_None_witness :
  returned (compile_and_run silent_host 100 S1) = Some (VM.Ok VM.VNone).
Proof.
  exact (proj1 (proj2 (end_of_program_returns_None silent_host S1 S1_chunk S1_consts
                         ltac:(vm_compute; reflexivity)))).
Defined.
(** ** The compiler, step by step *)

Lemma wp_raise {A} (e : CompileError) (Q : A -> Compiler -> Prop) (s : Compiler) :
  wp (raise e) Q s.
Proof. exact I. Qed.

Lemma wp_bind {A B} (m : M A) (k : A -> M B) (Q : B -> Compiler -> Prop) (s : Compiler) :
  wp m (fun a s' => wp (k a) Q s') s -> wp (bind m k) Q s.
Proof. unfold wp, bind. destruct (m s) as [e|[a s']]; auto. Qed.

Lemma wp_last {A} (m : M A) (Q : A -> Compiler -> Prop) (s : Compiler) :
  wp (bind m ret) Q s -> wp m Q s.
Proof. unfold wp, bind, ret. destruct (m s) as [e|[a s']]; auto. Qed.

Lemma wp_conseq {A} (m : M A) (Q Q' : A -> Compiler -> Prop) (s : Compiler) :
  wp m Q s -> (forall a s', Q a s' -> Q' a s') -> wp m Q' s.
Proof. unfold wp. destruct (m s) as [e|[a s']]; auto. Qed.

Lemma wp_gets {A B} (f : Compiler -> A) (k : A -> M B)
    (Q : B -> Compiler -> Prop) (s : Compiler) :
  wp (k (f s)) Q s -> wp (bind (gets f) k) Q s.
Proof. intros H. exact H. Qed.

Lemma wp_inv {A} (m : M A) (Q : A -> Compiler -> Prop) (s s' : Compiler) (a : A) :
  wp m Q s -> m s = inr (a, s') -> Q a s'.
Proof. unfold wp. intros H E. rewrite E in H. exact H. Qed.

Lemma extends_refl (d : Z) (s : Compiler) : extends d s s.
Proof.
  split.
  - intros i instr H. eauto.
  - intros i instr H _. exact H.
  - intros i instr Hi H. apply lookup_lt_Some in H. lia.
  - exists []. rewrite app_nil_r. reflexivity.
Qed.

Lemma extends_length (d : Z) (s s' : Compiler) :
  extends d s s' -> (length (bytecode_chunk s) <= length (bytecode_chunk s'))%nat.
Proof.
  intros [Hold _ _ _].
  destruct (bytecode_chunk s) as [|x l] eqn:E using rev_ind; [simpl; lia|].
  destruct (Hold (length l) x) as [instr' [H _]].
  { rewrite lookup_app_r by lia. rewrite Nat.sub_diag. reflexivity. }
  apply lookup_lt_Some in H. rewrite length_app. simpl. lia.
Qed.

Lemma extends_trans (d : Z) (s1 s2 s3 : Compiler) :
  extends d s1 s2 -> extends d s2 s3 -> extends d s1 s3.
Proof.
  intros H12 H23. pose proof (extends_length d s1 s2 H12) as Hlen.
  destruct H12 as [Hold1 Hk1 Hnew1 [more1 Hc1]].
  destruct H23 as [Hold2 Hk2 Hnew2 [more2 Hc2]]. split.
  - intros i instr H. destruct (Hold1 i instr H) as [instr1 [H1 E1]].
    destruct (Hold2 i instr1 H1) as [instr2 [H2 E2]]. exists instr2.
    split; [exact H2|congruence].
  - intros i instr H Hj. apply Hk2; [|exact Hj]. apply Hk1; assumption.
  - intros i instr Hi H Hd.
    destruct (decide (i < length (bytecode_chunk s2))%nat) as [Hlt|Hge].
    + destruct (lookup_lt_is_Some_2 _ _ Hlt) as [instr2 H2].
      destruct (Hold2 i instr2 H2) as [instr3 [H3 E3]].
      assert (instr3 = instr) by congruence. subst instr3. rewrite E3.
      apply (Hnew1 i instr2); [exact Hi|exact H2|exact Hd].
    + apply (Hnew2 i instr); [lia|exact H|exact Hd].
  - exists (more1 ++ more2). rewrite Hc2, Hc1, app_assoc. reflexivity.
Qed.

Lemma extends_weaken (d d' : Z) (s s' : Compiler) :
  d <= d' -> extends d' s s' -> extends d s s'.
Proof.
  intros Hd [Hold Hk Hnew Hc]. split; auto.
  intros i instr Hi H Hge. eapply Hnew; eauto. lia.
Qed.

Lemma is_jump_at_ext (d : Z) (s s' : Compiler) (idx : Z) :
  extends d s s' -> is_jump_at s idx -> is_jump_at s' idx.
Proof.
  intros [Hold _ _ _] [H0 [instr [H Hj]]]. split; [exact H0|].
  destruct (Hold _ _ H) as [instr' [H' E]]. exists instr'. split; [exact H'|].
  rewrite E. exact Hj.
Qed.

Lemma patches_ok_ext (d : Z) (s s' : Compiler) :
  extends d s s' ->
  (forall l idx,
     l ∈ loop_start_patches s' \/ l ∈ loop_end_patches s' -> idx ∈ l ->
     is_jump_at s' idx
     \/ exists l', (l' ∈ loop_start_patches s \/ l' ∈ loop_end_patches s) /\ idx ∈ l') ->
  patches_ok s -> patches_ok s'.
Proof.
  intros Hext Hl Hok l idx Hin Hidx.
  destruct (Hl l idx Hin Hidx) as [H|[l' [Hl' Hidx']]]; [exact H|].
  eapply is_jump_at_ext; eauto.
Qed.

(** A step that leaves the chunk as it is. *)
Lemma extends_fields (d : Z) (s s' : Compiler) (more : list Const) :
  bytecode_chunk s' = bytecode_chunk s ->
  constants s' = constants s ++ more ->
  extends d s s'.
Proof.
  intros Hc Hk. split.
  - intros i instr H. rewrite Hc. eauto.
  - intros i instr H _. rewrite Hc. exact H.
  - intros i instr Hi H. rewrite Hc in H. apply lookup_lt_Some in H. lia.
  - eauto.
Qed.

(** A step that appends one instruction. *)
Lemma extends_emit (d : Z) (s s' : Compiler) (instr : Instruction) :
  bytecode_chunk s' = bytecode_chunk s ++ [instr] ->
  constants s' = constants s ->
  (1 <= d -> writes_global (opcode instr) = false) ->
  extends d s s'.
Proof.
  intros Hc Hk Hop. split.
  - intros i x H. rewrite Hc. exists x. split; [|reflexivity].
    apply lookup_app_l_Some. exact H.
  - intros i x H _. rewrite Hc. apply lookup_app_l_Some. exact H.
  - intros i x Hi H Hd. rewrite Hc in H.
    rewrite lookup_app_r in H by lia.
    destruct (i - length (bytecode_chunk s))%nat as [|n]; simpl in H.
    + injection H as <-. auto.
    + destruct n; discriminate.
  - exists []. rewrite app_nil_r. exact Hk.
Qed.

(** A step that overwrites the operand of one jump. *)
Lemma extends_patch (d : Z) (s s' : Compiler) (j : nat) (instr : Instruction)
    (arg : Operand) :
  bytecode_chunk s !! j = Some instr ->
  jump_op (opcode instr) = true ->
  bytecode_chunk s' = <[j := mkInstruction (opcode instr) arg]> (bytecode_chunk s) ->
  constants s' = constants s ->
  extends d s s'.
Proof.
  intros Hj Hop Hc Hk.
  split.
  - intros i x H. rewrite Hc. destruct (decide (i = j)) as [->|Hne].
    + rewrite list_lookup_insert_eq by (eapply lookup_lt_Some; eauto).
      eexists. split; [reflexivity|]. simpl. congruence.
    + rewrite list_lookup_insert_ne by congruence. eauto.
  - intros i x H Hx. rewrite Hc. destruct (decide (i = j)) as [->|Hne].
    + assert (x = instr) by congruence. subst x. rewrite Hop in Hx. discriminate.
    + rewrite list_lookup_insert_ne by congruence. exact H.
  - intros i x Hi H. rewrite Hc in H. apply lookup_lt_Some in H.
    rewrite length_insert in H. lia.
  - exists []. rewrite app_nil_r. exact Hk.
Qed.

(** *** The methods of the compiler *)

Lemma getitem_index {A} (l : list A) (i : Z) :
  0 <= i -> getitem l i = l !! Z.to_nat i.
Proof. intros H. unfold getitem. apply Z.leb_le in H. rewrite H. reflexivity. Qed.

Lemma setitem_index {A} (l : list A) (i : Z) (x y : A) :
  0 <= i -> l !! Z.to_nat i = Some y -> setitem l i x = Some (<[Z.to_nat i := x]> l).
Proof.
  intros H Hy. unfold setitem. apply lookup_lt_Some in Hy.
  assert (E1 : (0 <=? i) = true) by (apply Z.leb_le; lia).
  assert (E2 : (i <? len l) = true) by (apply Z.ltb_lt; unfold len; lia).
  cbv zeta. rewrite E1. cbv iota. rewrite E1, E2. reflexivity.
Qed.

Lemma getitem_last {A} (l : list A) (x : A) :
  getitem l (-1) = Some x -> exists r, l = r ++ [x].
Proof.
  destruct l as [|y r _] using rev_ind; [discriminate|].
  unfold getitem. rewrite len_app. pose proof (len_nonneg r).
  replace (0 <=? -1) with false by reflexivity.
  replace (0 <=? len r + len [y] + -1) with true
    by (symmetry; apply Z.leb_le; unfold len at 2; simpl; lia).
  replace (Z.to_nat (len r + len [y] + -1)) with (length r)
    by (unfold len; simpl; lia).
  rewrite lookup_app_r by lia. rewrite Nat.sub_diag. simpl.
  intros [= ->]. exists r. reflexivity.
Qed.

Lemma setitem_last {A} (r l' : list A) (x y : A) :
  setitem (r ++ [x]) (-1) y = Some l' -> l' = r ++ [y].
Proof.
  unfold setitem. rewrite len_app. pose proof (len_nonneg r).
  replace (0 <=? -1) with false by reflexivity.
  destruct (_ && _); [|discriminate]. intros [= <-].
  replace (Z.to_nat (len r + len [x] + -1)) with (length r + 0)%nat
    by (unfold len; simpl; lia).
  rewrite insert_app_r. reflexivity.
Qed.

Lemma Compiler_add_constant_runs (d : Z) (v : Const) (s : Compiler) :
  patches_ok s ->
  runs d (Compiler_add_constant v) s (fun _ s' => scope_depth s' = scope_depth s).
Proof.
  intros Hok. unfold runs, wp, Compiler_add_constant.
  rewrite add_constant_unfold.
  destruct (index_of v (constants s)) as [i|]; (split; [|split; [exact Hok|reflexivity]]).
  - apply (extends_fields d _ _ []); [reflexivity|]. simpl. rewrite app_nil_r. reflexivity.
  - apply (extends_fields d _ _ [v]); reflexivity.
Qed.

Lemma emit_instruction_state (op : OpCode) (arg : Operand) (token : option Token)
    (s : Compiler) :
  exists s', emit_instruction op arg token s = inr (len (bytecode_chunk s), s')
    /\ bytecode_chunk s' = bytecode_chunk s ++ [mkInstruction op arg]
    /\ constants s' = constants s
    /\ scope_depth s' = scope_depth s
    /\ loop_start_patches s' = loop_start_patches s
    /\ loop_end_patches s' = loop_end_patches s.
Proof.
  unfold emit_instruction. destruct token as [t|]; eexists; (split; [reflexivity|]);
    repeat split.
Qed.

Lemma emit_instruction_runs (d : Z) (op : OpCode) (arg : Operand)
    (token : option Token) (s : Compiler) :
  patches_ok s ->
  (1 <= d -> writes_global op = false) ->
  runs d (emit_instruction op arg token) s (fun a s' =>
    scope_depth s' = scope_depth s /\ (jump_op op = true -> is_jump_at s' a)).
Proof.
  intros Hok Hop. unfold runs, wp.
  destruct (emit_instruction_state op arg token s) as [s' [E [Hc [Hk [Hd [Hs He]]]]]].
  rewrite E.
  assert (Hext : extends d s s') by (eapply extends_emit; eauto).
  split; [exact Hext|]. split; [|split; [exact Hd|]].
  - eapply patches_ok_ext; [exact Hext| |exact Hok].
    intros l idx Hl Hidx. right. exists l. rewrite <- Hs, <- He. auto.
  - intros Hj. split; [apply len_nonneg|]. exists (mkInstruction op arg).
    split; [|exact Hj]. rewrite Hc. unfold len. rewrite Nat2Z.id.
    rewrite lookup_app_r by lia. rewrite Nat.sub_diag. reflexivity.
Qed.

Lemma emit_runs (d : Z) (op : OpCode) (arg : Operand) (token : option Token)
    (s : Compiler) :
  patches_ok s ->
  (1 <= d -> writes_global op = false) ->
  runs d (emit op arg token) s (fun _ s' => scope_depth s' = scope_depth s).
Proof.
  intros Hok Hop. unfold emit. apply wp_bind.
  eapply wp_conseq; [apply (emit_instruction_runs d); eassumption|].
  intros a s' (Hext & Hok' & Hd & _). split; [exact Hext|split; [exact Hok'|exact Hd]].
Qed.

(** A step that changes neither the chunk, nor the constants, nor the
    patch lists. *)
Lemma modify_runs (d : Z) (f : Compiler -> Compiler) (s : Compiler)
    (R : unit -> Compiler -> Prop) :
  patches_ok s ->
  bytecode_chunk (f s) = bytecode_chunk s ->
  constants (f s) = constants s ->
  loop_start_patches (f s) = loop_start_patches s ->
  loop_end_patches (f s) = loop_end_patches s ->
  R tt (f s) ->
  runs d (modify f) s R.
Proof.
  intros Hok Hc Hk Hs He HR. unfold runs, wp, modify.
  assert (Hext : extends d s (f s)).
  { apply (extends_fields d _ _ []); [exact Hc|]. rewrite app_nil_r. exact Hk. }
  split; [exact Hext|]. split; [|exact HR].
  eapply patches_ok_ext; [exact Hext| |exact Hok].
  intros l idx Hl Hidx. right. exists l. rewrite <- Hs, <- He. auto.
Qed.

Lemma add_scope_depth_runs (d k : Z) (s : Compiler) :
  patches_ok s ->
  runs d (add_scope_depth k) s (fun _ s' => scope_depth s' = scope_depth s + k).
Proof. intros Hok. apply modify_runs; auto. Qed.

Lemma set_scope_depth_runs (d x : Z) (s : Compiler) :
  patches_ok s ->
  runs d (modify (set_scope_depth x)) s (fun _ s' => scope_depth s' = x).
Proof. intros Hok. apply modify_runs; auto. Qed.

Lemma add_loop_level_runs (d k : Z) (s : Compiler) :
  patches_ok s ->
  runs d (add_loop_level k) s (fun _ s' => scope_depth s' = scope_depth s).
Proof. intros Hok. apply modify_runs; auto. Qed.

(** A step that changes the patch lists only. *)
Lemma patches_runs (d : Z) (s s' : Compiler) :
  patches_ok s ->
  bytecode_chunk s' = bytecode_chunk s ->
  constants s' = constants s ->
  (forall l idx,
     l ∈ loop_start_patches s' \/ l ∈ loop_end_patches s' -> idx ∈ l ->
     is_jump_at s idx
     \/ exists l', (l' ∈ loop_start_patches s \/ l' ∈ loop_end_patches s) /\ idx ∈ l') ->
  forall R : Prop, R -> extends d s s' /\ patches_ok s' /\ R.
Proof.
  intros Hok Hc Hk Hl R HR.
  assert (Hext : extends d s s').
  { apply (extends_fields d _ _ []); [exact Hc|]. rewrite app_nil_r. exact Hk. }
  split; [exact Hext|]. split; [|exact HR].
  eapply patches_ok_ext; [exact Hext| |exact Hok].
  intros l idx Hin Hidx. destruct (Hl l idx Hin Hidx) as [H|H]; [left|right; exact H].
  eapply is_jump_at_ext; eauto.
Qed.

Lemma push_patches_elem (stack : list (list Z)) (l : list Z) (idx : Z) :
  l ∈ push_patches stack -> idx ∈ l -> l ∈ stack.
Proof.
  unfold push_patches. rewrite elem_of_app, list_elem_of_singleton.
  intros [H| ->] Hidx; [exact H|]. inversion Hidx.
Qed.

Lemma begin_loop_start_runs (d : Z) (s : Compiler) :
  patches_ok s ->
  runs d (modify begin_loop_start) s (fun _ s' => scope_depth s' = scope_depth s).
Proof.
  intros Hok. unfold runs, wp, modify.
  apply patches_runs; [exact Hok|reflexivity|reflexivity| |reflexivity].
  intros l idx [Hl|Hl] Hidx; right; exists l; (split; [|exact Hidx]).
  - left. eapply push_patches_elem; eauto.
  - right. exact Hl.
Qed.

Lemma begin_loop_end_runs (d : Z) (s : Compiler) :
  patches_ok s ->
  runs d (modify begin_loop_end) s (fun _ s' => scope_depth s' = scope_depth s).
Proof.
  intros Hok. unfold runs, wp, modify.
  apply patches_runs; [exact Hok|reflexivity|reflexivity| |reflexivity].
  intros l idx [Hl|Hl] Hidx; right; exists l; (split; [|exact Hidx]).
  - left. exact Hl.
  - right. eapply push_patches_elem; eauto.
Qed.

Lemma pop_patches_elem (stack stack' : list (list Z)) (l : list Z) :
  pop_patches stack = Some stack' -> l ∈ stack' -> l ∈ stack.
Proof.
  unfold pop_patches. destruct (list_pop stack) as [[r x]|] eqn:E; [|discriminate].
  intros [= <-] Hl. apply list_pop_Some in E. subst stack.
  apply elem_of_app. left. exact Hl.
Qed.

Lemma pop_loop_start_runs (d : Z) (s : Compiler) :
  patches_ok s ->
  runs d pop_loop_start s (fun _ s' => scope_depth s' = scope_depth s).
Proof.
  intros Hok. unfold runs, wp, pop_loop_start.
  destruct (pop_patches (loop_start_patches s)) as [st|] eqn:E; [|exact I].
  apply patches_runs; [exact Hok|reflexivity|reflexivity| |reflexivity].
  intros l idx [Hl|Hl] Hidx; right; exists l; (split; [|exact Hidx]).
  - left. eapply pop_patches_elem; eauto.
  - right. exact Hl.
Qed.

Lemma pop_loop_end_runs (d : Z) (s : Compiler) :
  patches_ok s ->
  runs d pop_loop_end s (fun _ s' => scope_depth s' = scope_depth s).
Proof.
  intros Hok. unfold runs, wp, pop_loop_end.
  destruct (pop_patches (loop_end_patches s)) as [st|] eqn:E; [|exact I].
  apply patches_runs; [exact Hok|reflexivity|reflexivity| |reflexivity].
  intros l idx [Hl|Hl] Hidx; right; exists l; (split; [|exact Hidx]).
  - left. exact Hl.
  - right. eapply pop_patches_elem; eauto.
Qed.

Lemma append_to_last_elem (stack stack' : list (list Z)) (jump_idx : Z)
    (l : list Z) (idx : Z) :
  append_to_last stack jump_idx = Some stack' -> l ∈ stack' -> idx ∈ l ->
  idx = jump_idx \/ exists l', l' ∈ stack /\ idx ∈ l'.
Proof.
  unfold append_to_last. destruct (getitem stack (-1)) as [l0|] eqn:E; [|discriminate].
  destruct (getitem_last _ _ E) as [r ->]. intros H Hl Hidx.
  apply setitem_last in H. subst stack'.
  apply elem_of_app in Hl. destruct Hl as [Hl|Hl].
  - right. exists l. split; [|exact Hidx]. apply elem_of_app. left. exact Hl.
  - apply list_elem_of_singleton in Hl. subst l.
    apply elem_of_app in Hidx. destruct Hidx as [Hidx|Hidx].
    + right. exists l0. split; [|exact Hidx]. apply elem_of_app. right.
      apply list_elem_of_singleton. reflexivity.
    + left. apply list_elem_of_singleton in Hidx. exact Hidx.
Qed.

Lemma record_break_runs (d : Z) (jump_idx : Z) (s : Compiler) :
  patches_ok s -> is_jump_at s jump_idx ->
  runs d (record_break jump_idx) s (fun _ s' => scope_depth s' = scope_depth s).
Proof.
  intros Hok Hj. unfold runs, wp, record_break.
  destruct (append_to_last (loop_end_patches s) jump_idx) as [st|] eqn:E; [|exact I].
  apply patches_runs; [exact Hok|reflexivity|reflexivity| |reflexivity].
  intros l idx [Hl|Hl] Hidx.
  - right. exists l. split; [left; exact Hl|exact Hidx].
  - destruct (append_to_last_elem _ _ _ _ _ E Hl Hidx) as [-> |[l' [Hl' Hidx']]].
    + left. exact Hj.
    + right. exists l'. split; [right; exact Hl'|exact Hidx'].
Qed.

Lemma record_continue_runs (d : Z) (jump_idx : Z) (s : Compiler) :
  patches_ok s -> is_jump_at s jump_idx ->
  runs d (record_continue jump_idx) s (fun _ s' => scope_depth s' = scope_depth s).
Proof.
  intros Hok Hj. unfold runs, wp, record_continue.
  destruct (append_to_last (loop_start_patches s) jump_idx) as [st|] eqn:E; [|exact I].
  apply patches_runs; [exact Hok|reflexivity|reflexivity| |reflexivity].
  intros l idx [Hl|Hl] Hidx.
  - destruct (append_to_last_elem _ _ _ _ _ E Hl Hidx) as [-> |[l' [Hl' Hidx']]].
    + left. exact Hj.
    + right. exists l'. split; [left; exact Hl'|exact Hidx'].
  - right. exists l. split; [right; exact Hl|exact Hidx].
Qed.

Lemma set_operand_runs (d : Z) (idx : Z) (target : Operand) (s : Compiler) :
  patches_ok s -> is_jump_at s idx ->
  runs d (set_operand idx target) s (fun _ s' => scope_depth s' = scope_depth s).
Proof.
  intros Hok [H0 [instr [Hi Hj]]]. unfold runs, wp, set_operand.
  rewrite getitem_index by exact H0. rewrite Hi.
  rewrite (setitem_index _ _ _ instr) by assumption.
  assert (Hext : extends d s
            (set_bytecode_chunk
               (<[Z.to_nat idx := mkInstruction (opcode instr) target]> (bytecode_chunk s)) s)).
  { eapply extends_patch; eauto. }
  split; [exact Hext|]. split; [|reflexivity].
  eapply patches_ok_ext; [exact Hext| |exact Hok].
  intros l i Hl Hidx. right. exists l. auto.
Qed.

Lemma patch_jump_runs (d : Z) (idx : Z) (target : option Z) (s : Compiler) :
  patches_ok s -> is_jump_at s idx ->
  runs d (patch_jump idx target) s (fun _ s' => scope_depth s' = scope_depth s).
Proof.
  intros Hok Hj. unfold patch_jump. apply wp_gets.
  destruct (negb _); [apply wp_raise|]. apply set_operand_runs; assumption.
Qed.

Lemma patch_all_runs (d : Z) (patches : list Z) (target : Operand) (s : Compiler) :
  patches_ok s -> Forall (is_jump_at s) patches ->
  runs d (patch_all patches target) s (fun _ s' => scope_depth s' = scope_depth s).
Proof.
  revert s. induction patches as [|idx rest IH]; intros s Hok Hall.
  - simpl. split; [apply extends_refl|split; [exact Hok|reflexivity]].
  - inversion Hall as [|? ? Hidx Hrest]; subst. simpl. apply wp_bind.
    eapply wp_conseq; [apply (set_operand_runs d); eassumption|].
    intros [] s1 (Hext & Hok1 & Hd1).
    eapply wp_conseq; [apply (IH s1 Hok1)|].
    + eapply Forall_impl; [exact Hrest|]. intros i. apply (is_jump_at_ext d); exact Hext.
    + intros [] s2 (Hext2 & Hok2 & Hd2). split; [|split; [exact Hok2|congruence]].
      eapply extends_trans; eauto.
Qed.

Lemma last_patches_elem (f : Compiler -> list (list Z)) (s : Compiler)
    (Q : list Z -> Compiler -> Prop) :
  (forall l, l ∈ f s -> Q l s) -> wp (last_patches f) Q s.
Proof.
  intros H. unfold last_patches. apply wp_gets.
  destruct (getitem (f s) (-1)) as [l|] eqn:E; [|apply wp_raise].
  apply H. destruct (getitem_last _ _ E) as [r ->]. apply elem_of_app. right.
  apply list_elem_of_singleton. reflexivity.
Qed.

Lemma last_start_patches_runs (d : Z) (s : Compiler) :
  patches_ok s ->
  runs d (last_patches loop_start_patches) s (fun l s' =>
    scope_depth s' = scope_depth s /\ Forall (is_jump_at s') l).
Proof.
  intros Hok. apply last_patches_elem. intros l Hl.
  split; [apply extends_refl|]. split; [exact Hok|]. split; [reflexivity|].
  apply Forall_forall. intros idx Hidx. apply (Hok l idx); auto.
Qed.

Lemma last_end_patches_runs (d : Z) (s : Compiler) :
  patches_ok s ->
  runs d (last_patches loop_end_patches) s (fun l s' =>
    scope_depth s' = scope_depth s /\ Forall (is_jump_at s') l).
Proof.
  intros Hok. apply last_patches_elem. intros l Hl.
  split; [apply extends_refl|]. split; [exact Hok|]. split; [reflexivity|].
  apply Forall_forall. intros idx Hidx. apply (Hok l idx); auto.
Qed.

Lemma operand_at_runs (d : Z) (idx : Z) (s : Compiler) :
  patches_ok s ->
  runs d (operand_at idx) s (fun _ s' => scope_depth s' = scope_depth s).
Proof.
  intros Hok. unfold runs, wp, operand_at.
  destruct (getitem (bytecode_chunk s) idx); [|exact I].
  split; [apply extends_refl|split; [exact Hok|reflexivity]].
Qed.

Lemma define_params_runs (d : Z) (params : list Token) (s : Compiler) :
  patches_ok s ->
  runs d (define_params params) s (fun _ s' => scope_depth s' = scope_depth s).
Proof.
  revert s. induction params as [|p rest IH]; intros s Hok.
  - simpl. split; [apply extends_refl|split; [exact Hok|reflexivity]].
  - simpl. apply wp_bind.
    eapply wp_conseq; [apply (Compiler_add_constant_runs d); exact Hok|].
    intros i s1 (Hext1 & Hok1 & Hd1). apply wp_bind.
    eapply wp_conseq; [apply (emit_runs d); [exact Hok1|reflexivity]|].
    intros [] s2 (Hext2 & Hok2 & Hd2).
    eapply wp_conseq; [apply (IH s2 Hok2)|].
    intros [] s3 (Hext3 & Hok3 & Hd3). split; [|split; [exact Hok3|congruence]].
    eapply extends_trans; [|exact Hext3]. eapply extends_trans; eauto.
Qed.

Lemma OPERATION_INTS_get_writes_no_global (key : string) (op : OpCode) :
  OPERATION_INTS_get key = Some op -> writes_global op = false.
Proof.
  unfold OPERATION_INTS_get, OPERATION_INTS. cbn [find fst snd].
  repeat (destruct (String.eqb _ key); [cbn; intros [= <-]; reflexivity|]).
  discriminate.
Qed.

Lemma ret_runs (d : Z) (s : Compiler) :
  patches_ok s -> runs d (ret tt) s (fun _ s' => scope_depth s' = scope_depth s).
Proof. intros Hok. split; [apply extends_refl|split; [exact Hok|reflexivity]]. Qed.

Lemma for_each_keeps_depth {A} (l : list A) (body : A -> M unit) :
  Forall (fun x => keeps_depth (body x)) l -> keeps_depth (for_each l body).
Proof.
  induction 1 as [|x l Hx Hl IH]; intros s Hok.
  - apply ret_runs. exact Hok.
  - change (for_each (x :: l) body) with (bind (body x) (fun _ => for_each l body)).
    apply wp_bind. eapply wp_conseq; [apply (Hx s Hok)|].
    intros [] s1 (Hext1 & Hok1 & Hd1).
    eapply wp_conseq; [apply (IH s1 Hok1)|].
    intros [] s2 (Hext2 & Hok2 & Hd2). split; [|split; [exact Hok2|congruence]].
    eapply extends_trans; [exact Hext1|]. rewrite <- Hd1. exact Hext2.
Qed.

Lemma ASTNode_children_ind (P : ASTNode -> Prop) :
  (forall node, Forall P (children node) -> P node) -> forall node, P node.
Proof.
  intros H. fix IH 1. intros node. apply H.
  assert (Hlist : forall l : list ASTNode,
            (fix all (l : list ASTNode) : Prop :=
               match l with [] => True | x :: r => P x /\ all r end) l -> Forall P l).
  { induction l as [|x r IHr]; intros Hall; constructor; [apply Hall|apply IHr, Hall]. }
  destruct node as [statements t|name initializer c t|name v t|name t
    |condition then_branch else_branch t|v t|v t|op operand t|elements t|v t
    |l op r t|l op r t|l op r t|condition body t|t|t|start end_ step t
    |x iterable body t|params body t|name params body t
    |callee arguments keywords t|collection index t|collection index v t|v t
    |object attr t]; simpl.
  - induction statements as [|x r IHr]; constructor; [apply IH|exact IHr].
  - destruct initializer as [x|]; repeat constructor. apply IH.
  - repeat constructor. apply IH.
  - constructor.
  - constructor; [apply IH|]. constructor; [apply IH|].
    destruct else_branch as [x|]; repeat constructor. apply IH.
  - constructor.
  - constructor.
  - repeat constructor. apply IH.
  - induction elements as [|x r IHr]; constructor; [apply IH|exact IHr].
  - constructor.
  - constructor; [apply IH|]. constructor; [apply IH|]. constructor.
  - constructor; [apply IH|]. constructor; [apply IH|]. constructor.
  - constructor; [apply IH|]. constructor; [apply IH|]. constructor.
  - constructor; [apply IH|]. constructor; [apply IH|]. constructor.
  - constructor.
  - constructor.
  - constructor; [apply IH|]. constructor; [apply IH|].
    destruct step as [x|]; repeat constructor. apply IH.
  - constructor; [apply IH|]. constructor; [apply IH|]. constructor.
  - repeat constructor. apply IH.
  - repeat constructor. apply IH.
  - constructor; [apply IH|]. apply Forall_app. split.
    + induction arguments as [|x r IHr]; constructor; [apply IH|exact IHr].
    + induction keywords as [|[k x] r IHr]; constructor; [apply IH|exact IHr].
  - constructor; [apply IH|]. constructor; [apply IH|]. constructor.
  - constructor; [apply IH|]. constructor; [apply IH|]. constructor; [apply IH|].
    constructor.
  - destruct v as [x|]; repeat constructor. apply IH.
  - repeat constructor. apply IH.
Qed.

Lemma wp_bind_assoc {A B C} (m : M A) (k : A -> M B) (k' : B -> M C)
    (Q : C -> Compiler -> Prop) (s : Compiler) :
  wp (bind m (fun a => bind (k a) k')) Q s -> wp (bind (bind m k) k') Q s.
Proof. unfold wp, bind. destruct (m s) as [e|[a s']]; auto. Qed.

Lemma wp_ret_bind {A B} (a : A) (k : A -> M B) (Q : B -> Compiler -> Prop)
    (s : Compiler) :
  wp (k a) Q s -> wp (bind (ret a) k) Q s.
Proof. intros H. exact H. Qed.

Lemma statement_keeps_depth (m : M unit) (b : bool) :
  keeps_depth m -> keeps_depth (bind m (fun _ => when b (emit OP_POP NoOperand None))).
Proof.
  intros Hm s Hok. apply wp_bind. eapply wp_conseq; [apply (Hm s Hok)|].
  intros [] s1 (Hext1 & Hok1 & Hd1). destruct b; simpl.
  - eapply wp_conseq; [apply (emit_runs (scope_depth s)); [exact Hok1|reflexivity]|].
    intros [] s2 (Hext2 & Hok2 & Hd2). split; [|split; [exact Hok2|congruence]].
    eapply extends_trans; eauto.
  - split; [exact Hext1|split; [exact Hok1|exact Hd1]].
Qed.

(** The steps of a proof that follows a method of the compiler: the
    context holds [extends d s0 s] for the state [s] reached so far. *)
Ltac cumulate Hstep :=
  lazymatch type of Hstep with
  | extends ?d ?s ?s' =>
      repeat match goal with
             | H : is_jump_at s _ |- _ => apply (is_jump_at_ext d s s' _ Hstep) in H
             end;
      match goal with
      | Hcum : extends d ?s0 s |- _ =>
          let H := fresh "Hcum" in
          pose proof (extends_trans d s0 s s' Hcum Hstep) as H; clear Hcum Hstep
      end
  end.

Ltac side :=
  lazymatch goal with
  | |- patches_ok _ => assumption
  | |- is_jump_at _ _ => assumption
  | |- Forall _ _ => assumption
  | |- _ -> writes_global _ = false =>
      intros ?;
      first [ reflexivity
            | eapply OPERATION_INTS_get_writes_no_global; eassumption
            | exfalso; lia ]
  | |- _ => idtac
  end.

Ltac after_step :=
  let Hext := fresh "Hext" in
  let HR := fresh "HR" in
  intros ? ? (Hext & ? & HR);
  cumulate Hext;
  repeat match goal with
         | H : _ /\ _ |- _ => destruct H
         | H : jump_op _ = true -> _ |- _ => specialize (H eq_refl)
         end.

Ltac step_spec lem :=
  lazymatch goal with
  | Hcum : extends ?d _ ?s |- wp (bind _ _) _ ?s =>
      apply wp_bind; eapply wp_conseq; [eapply (lem d); side | cbv beta; after_step]
  end.

Ltac step_child m :=
  lazymatch goal with
  | IHm : keeps_depth m, Hcum : extends ?d _ ?s |- wp (bind _ _) _ ?s =>
      apply wp_bind; eapply wp_conseq; [apply (IHm s); assumption | cbv beta];
      let Hext := fresh "Hext" in
      intros ? ? (Hext & ? & ?);
      apply (extends_weaken d) in Hext; [cumulate Hext | lia]
  end.

Ltac finish :=
  lazymatch goal with
  | |- wp (ret _) _ _ => split; [assumption | split; [assumption | lia]]
  end.

Ltac step :=
  lazymatch goal with
  | |- wp (bind (gets _) _) _ _ => apply wp_gets; cbv beta
  | |- wp (bind (ret _) _) _ _ => apply wp_ret_bind; cbv beta
  | |- wp (bind (bind _ _) _) _ _ => apply wp_bind_assoc
  | |- wp (bind (Compiler_add_constant _) _) _ _ => step_spec Compiler_add_constant_runs
  | |- wp (bind (emit_instruction _ _ _) _) _ _ => step_spec emit_instruction_runs
  | |- wp (bind (emit _ _ _) _) _ _ => step_spec emit_runs
  | |- wp (bind (add_scope_depth _) _) _ _ => step_spec add_scope_depth_runs
  | |- wp (bind (modify (set_scope_depth _)) _) _ _ => step_spec set_scope_depth_runs
  | |- wp (bind (add_loop_level _) _) _ _ => step_spec add_loop_level_runs
  | |- wp (bind (modify begin_loop_start) _) _ _ => step_spec begin_loop_start_runs
  | |- wp (bind (modify begin_loop_end) _) _ _ => step_spec begin_loop_end_runs
  | |- wp (bind pop_loop_start _) _ _ => step_spec pop_loop_start_runs
  | |- wp (bind pop_loop_end _) _ _ => step_spec pop_loop_end_runs
  | |- wp (bind (record_break _) _) _ _ => step_spec record_break_runs
  | |- wp (bind (record_continue _) _) _ _ => step_spec record_continue_runs
  | |- wp (bind (patch_jump _ _) _) _ _ => step_spec patch_jump_runs
  | |- wp (bind (patch_all _ _) _) _ _ => step_spec patch_all_runs
  | |- wp (bind (last_patches loop_start_patches) _) _ _ =>
      step_spec last_start_patches_runs
  | |- wp (bind (last_patches loop_end_patches) _) _ _ =>
      step_spec last_end_patches_runs
  | |- wp (bind (operand_at _) _) _ _ => step_spec operand_at_runs
  | |- wp (bind (define_params _) _) _ _ => step_spec define_params_runs
  | |- wp (bind (_compile_node ?n) _) _ _ => step_child (_compile_node n)
  | |- wp (bind (for_each ?l ?body) _) _ _ => step_child (for_each l body)
  | |- wp (bind (when ?b _) _) _ _ => unfold when at 1
  | |- wp (bind (if ?b then _ else _) _) _ _ => destruct b eqn:?
  | |- wp (bind (match ?o with Some _ => _ | None => _ end) _) _ _ => destruct o eqn:?
  | |- wp (bind _ _) _ _ => fail "no rule"
  | |- wp (raise _) _ _ => apply wp_raise
  | |- wp (ret _) _ _ => finish
  | |- wp (if ?b then _ else _) _ _ => destruct b eqn:?
  | |- wp (match ?o with Some _ => _ | None => _ end) _ _ => destruct o eqn:?
  | |- wp (match ?l with [] => _ | _ :: _ => _ end) _ _ => destruct l
  | |- wp _ _ _ => apply wp_last
  end.

Ltac bools :=
  repeat match goal with
         | H : (_ <? _) = true |- _ => apply Z.ltb_lt in H
         | H : (_ <? _) = false |- _ => apply Z.ltb_ge in H
         | H : (_ && _) = true |- _ => apply andb_true_iff in H; destruct H
         end.

Lemma _compile_node_keeps_depth (node : ASTNode) : keeps_depth (_compile_node node).
Proof.
  induction node as [node IH] using ASTNode_children_ind.
  intros s0 Hok0. pose proof (extends_refl (scope_depth s0) s0) as Hcum.
  unfold runs.
  destruct node as [statements t|name initializer c t|name v t|name t
    |condition then_branch else_branch t|v t|v t|op operand t|elements t|v t
    |l op r t|l op r t|l op r t|condition body t|t|t|start end_ step t
    |x iterable body t|params body t|name params body t
    |callee arguments keywords t|collection index t|collection index v t|v t
    |object attr t]; cbn [children] in IH;
    repeat match goal with
           | o : option ASTNode |- _ => destruct o; cbn [option_list option_rect] in IH
           end;
    repeat match goal with
           | H : Forall _ (_ :: _) |- _ =>
               apply Forall_cons in H; destruct H
           | H : Forall _ [] |- _ => clear H
           end;
    try destruct c;
    cbn [_compile_node is_not_None].
  all: try solve [repeat (step; bools)].
  - assert (Hloop : keeps_depth (for_each statements (fun statement_node =>
              bind (_compile_node statement_node) (fun _ =>
                when (is_Expr statement_node) (emit OP_POP NoOperand None))))).
    { apply for_each_keeps_depth. eapply Forall_impl; [exact IH|].
      intros x Hx. apply statement_keeps_depth. exact Hx. }
    destruct t; cbn [is_not_None when]; repeat (step; bools).
  - assert (Hloop : keeps_depth (for_each elements (fun element_expr =>
              _compile_node element_expr))).
    { apply for_each_keeps_depth. exact IH. }
    repeat (step; bools).
  - apply Forall_app in H0. destruct H0 as [Hargs Hkws].
    assert (Hloop1 : keeps_depth (for_each arguments (fun arg => _compile_node arg))).
    { apply for_each_keeps_depth. exact Hargs. }
    assert (Hloop2 : keeps_depth (for_each keywords (fun '(_, kw_value) =>
              _compile_node kw_value))).
    { apply for_each_keeps_depth. clear -Hkws.
      induction keywords as [|[k x] rest IHrest]; [constructor|].
      simpl in Hkws. apply Forall_cons in Hkws. destruct Hkws as [Hx Hrest].
      constructor; [exact Hx|apply IHrest; exact Hrest]. }
    repeat (step; bools).
Qed.

(** ** Variable declarations at scope depth 0 *)

(** C5, at the failing input [const k = 7] visited by [_compile_node] of a
    new compiler, which is at scope depth 0 ([compile] enters a scope
    before it visits the program): after [OP_DEF_CONST_GLOBAL] the branch
    emits [OP_DEF_GLOBAL] on the same name, where the same declaration
    inside a scope has [OP_DEF_CONST_LOCAL] as its only defining
    instruction; in a run the second instruction finds the value already
    popped and ends the chunk with a stack underflow. *)
Lemma const_declaration_emits_DEF_GLOBAL_too :
  scope_depth Compiler_new = 0
  /\ added_at_depth_0 const_k_7
     = [ mkInstruction OP_CONST (IntOperand 12);
         mkInstruction OP_DEF_CONST_GLOBAL (IntOperand 13);
         mkInstruction OP_DEF_GLOBAL (IntOperand 13) ]
  /\ constants (compiled_at_depth_0 const_k_7) !! 13%nat = Some (CStr "k")
  /\ drop (length prelude) (bytecode_chunk local_const_k_7)
     = [ mkInstruction OP_CONST (IntOperand 12);
         mkInstruction OP_DEF_CONST_LOCAL (IntOperand 13) ]
  /\ returned (Some (VM.interpret silent_host 100
                       (bytecode_chunk (compiled_at_depth_0 const_k_7))
                       (constants (compiled_at_depth_0 const_k_7))))
     = Some (VM.Err (VM.StackUnderflow OP_DEF_GLOBAL)).
Proof. repeat split; vm_compute; reflexivity. Qed.

Lemma patches_ok_nil (s : Compiler) :
  loop_start_patches s = [] -> loop_end_patches s = [] -> patches_ok s.
Proof.
  intros Hs He l idx [H|H]; [rewrite Hs in H|rewrite He in H]; inversion H.
Qed.

Lemma patches_ok_new : patches_ok Compiler_new.
Proof. apply patches_ok_nil; reflexivity. Qed.

Lemma py_eq_Str (c : Const) (s : string) : py_eq c (CStr s) = true -> c = CStr s.
Proof.
  destruct c; cbn [py_eq exact_of_Const]; try discriminate;
    try (rewrite same_number_true; intros [e [? ?]]; discriminate).
  intros H. apply String.eqb_eq in H. congruence.
Qed.

Lemma add_constant_Str (s : string) (pool pool' : list Const) (i : Z) :
  add_constant (CStr s) pool = (i, pool') -> getitem pool' i = Some (CStr s).
Proof.
  rewrite add_constant_unfold. destruct (index_of (CStr s) pool) as [k|] eqn:E.
  - intros [= <- <-]. apply index_of_Some in E. destruct E as [[c [Hk Hc]] _].
    rewrite getitem_nat, Hk. f_equal. apply py_eq_Str, Hc.
  - intros [= <- <-]. unfold len. rewrite getitem_nat.
    rewrite lookup_app_r by lia. rewrite Nat.sub_diag. reflexivity.
Qed.

Lemma initializer_keeps_depth (name : Token) (initializer : option ASTNode) :
  keeps_depth
    match initializer with
    | Some init => _compile_node init
    | None =>
        bind (Compiler_add_constant CNone) (fun idx =>
          emit OP_CONST (IntOperand idx) (Some name))
    end.
Proof.
  intros s0 Hok0. pose proof (extends_refl (scope_depth s0) s0) as Hcum.
  unfold runs. destruct initializer as [init|].
  - pose proof (_compile_node_keeps_depth init). repeat step.
  - repeat step.
Qed.

(** The same on every declaration: compiled at a scope depth that is not
    positive it ends with two defining instructions on the index of the
    name of the variable, the second the [OP_DEF_GLOBAL] that the branch
    emits whatever the declaration is. *)
Lemma global_declaration_defines_twice (name : Token)
    (initializer : option ASTNode) (is_const : bool) (token : option Token)
    (self self' : Compiler) :
  patches_ok self ->
  scope_depth self <= 0 ->
  _compile_node (VarDeclareStmt name initializer is_const token) self
  = inr (tt, self') ->
  exists front name_idx,
    bytecode_chunk self'
    = front ++ [ mkInstruction
                   (if is_const then OP_DEF_CONST_GLOBAL else OP_DEF_GLOBAL)
                   (IntOperand name_idx);
                 mkInstruction OP_DEF_GLOBAL (IntOperand name_idx) ]
    /\ getitem (constants self') name_idx = Some (CStr (value name)).
Proof.
  intros Hok Hdepth. cbn [_compile_node]. unfold bind at 1.
  pose proof (initializer_keeps_depth name initializer self Hok) as Hinit.
  unfold runs, wp in Hinit.
  match goal with
  | Hinit : match ?m self with _ => _ end |- _ =>
      destruct (m self) as [e|[[] s1]]; [discriminate|]
  end.
  destruct Hinit as (_ & _ & Hd1).
  unfold bind at 1. unfold Compiler_add_constant at 1.
  destruct (add_constant (CStr (value name)) (constants s1)) as [i pool'] eqn:Ea.
  apply add_constant_Str in Ea.
  unfold bind at 1. unfold gets at 1.
  replace (0 <? scope_depth (set_constants pool' s1)) with false
    by (symmetry; apply Z.ltb_ge; simpl; lia).
  unfold bind, emit, emit_instruction, ret. cbn.
  intros [= <-]. cbn.
  eexists _, i. split; [|exact Ea]. rewrite <- app_assoc. reflexivity.
Qed.

Lemma global_declaration_defines_twice_witness :
  exists front name_idx,
    bytecode_chunk after_const_k_7
    = front ++ [ mkInstruction OP_DEF_CONST_GLOBAL (IntOperand name_idx);
                 mkInstruction OP_DEF_GLOBAL (IntOperand name_idx) ]
    /\ getitem (constants after_const_k_7) name_idx = Some (CStr "k").
Proof.
  exact (global_declaration_defines_twice (tok IDENT "k") (Some (int_lit 7)) true
           (Some (tok KEYWORD "const")) Compiler_new after_const_k_7
           patches_ok_new ltac:(vm_compute; discriminate)
           ltac:(vm_compute; reflexivity)).
Defined.

(** ** The chunk of a program writes no global *)

Lemma wp_modify {B} (f : Compiler -> Compiler) (k : unit -> M B)
    (Q : B -> Compiler -> Prop) (s : Compiler) :
  wp (k tt) Q (f s) -> wp (bind (modify f) k) Q s.
Proof. intros H. exact H. Qed.




(** ** The globals map during a run *)




























(** *** The prelude *)

Lemma boot_prelude (body : list Instruction) (more : list Const) :
  exists vs h,
    VM.boot (prelude ++ body) (prelude_constants ++ more)
    = VM.mkVM (prelude ++ body) (prelude_values ++ vs) 0 [] [] [] [] h.
Proof.
  unfold VM.boot, prelude_constants. cbn [app VM.load_constants VM.load_const].
  destruct (VM.load_constants more []) as [vs h]. exists vs, h. reflexivity.
Qed.

Lemma iteration_fetch (host : VM.Host) (vm : VM.PyleVM) (instr : Instruction) :
  0 <= VM.ip vm ->
  VM.bytecode_chunk vm !! Z.to_nat (VM.ip vm) = Some instr ->
  VM.iteration host vm
  = VM.execute host (opcode instr) (operand instr) (VM.set_ip (VM.ip vm + 1) vm).
Proof.
  intros H0 Hinstr. unfold VM.iteration, VM._current_instruction.
  pose proof (lookup_lt_Some _ _ _ Hinstr) as Hlt.
  replace (len (VM.bytecode_chunk vm) <=? VM.ip vm) with false
    by (symmetry; apply Z.leb_gt; unfold len; lia).
  replace (0 <=? VM.ip vm) with true by (symmetry; apply Z.leb_le; lia).
  replace (VM.ip vm <? len (VM.bytecode_chunk vm)) with true
    by (symmetry; apply Z.ltb_lt; unfold len; lia).
  cbn [andb]. rewrite Hinstr. reflexivity.
Qed.

Lemma run_CONST (host : VM.Host) (n : nat) (chunk : list Instruction)
    (values : list VM.Value) (pc : Z) (st : list VM.Value) (g : VM.Scope)
    (envs : list VM.Scope) (fs : list VM.CallFrame) (h : VM.Heap)
    (i : Z) (c : VM.Value) :
  0 <= pc ->
  chunk !! Z.to_nat pc = Some (mkInstruction OP_CONST (IntOperand i)) ->
  getitem values i = Some c ->
  VM._run host (S n) (VM.mkVM chunk values pc st g envs fs h)
  = VM._run host n (VM.mkVM chunk values (pc + 1) (st ++ [c]) g envs fs h).
Proof.
  intros H0 Hinstr Hc. cbn [VM._run].
  erewrite iteration_fetch; [|exact H0|exact Hinstr].
  unfold VM.execute, VM.vbind, VM.constant, VM._push, VM.write, VM.set_ip,
    VM.set_stack.
  cbn [opcode operand VM.bytecode_chunk VM.constants VM.ip VM.stack VM.globals
       VM.environments VM.frames VM.heap].
  rewrite Hc. reflexivity.
Qed.

Lemma run_DEF_GLOBAL (host : VM.Host) (n : nat) (chunk : list Instruction)
    (values : list VM.Value) (pc : Z) (st : list VM.Value) (v : VM.Value)
    (g : VM.Scope) (envs : list VM.Scope) (fs : list VM.CallFrame) (h : VM.Heap)
    (i : Z) (name : string) :
  0 <= pc ->
  chunk !! Z.to_nat pc = Some (mkInstruction OP_DEF_GLOBAL (IntOperand i)) ->
  getitem values i = Some (VM.VStr name) ->
  VM._run host (S n) (VM.mkVM chunk values pc (st ++ [v]) g envs fs h)
  = VM._run host n
      (VM.mkVM chunk values (pc + 1) st
         (VM.dict_set g (VM.VStr name) (VM.mkVariable (VM.VStr name) v false))
         envs fs h).
Proof.
  intros H0 Hinstr Hc. cbn [VM._run].
  erewrite iteration_fetch; [|exact H0|exact Hinstr].
  unfold VM.execute, VM.need. unfold VM.vbind, VM.constant, VM.read, VM._pop,
    VM.lift, VM._set_variable, VM.write, VM.vret, VM.set_ip, VM.set_stack,
    VM.set_globals.
  cbn [opcode operand VM.bytecode_chunk VM.constants VM.ip VM.stack VM.globals
       VM.environments VM.frames VM.heap].
  rewrite Hc.
  assert (Hneed : (len (st ++ [v]) <? 1) = false).
  { apply Z.ltb_ge. rewrite len_app. pose proof (len_nonneg st).
    unfold len at 2. simpl. lia. }
  cbn [VM.bytecode_chunk VM.constants VM.ip VM.stack VM.globals
       VM.environments VM.frames VM.heap].
  rewrite Hneed.
  cbn [VM.bytecode_chunk VM.constants VM.ip VM.stack VM.globals
       VM.environments VM.frames VM.heap].
  rewrite list_pop_app. reflexivity.
Qed.

(** The first twelve passes of a run execute the prelude and leave the
    native functions in the globals map. *)
Lemma run_prelude (host : VM.Host) (n : nat) (body : list Instruction)
    (vs : list VM.Value) (h : VM.Heap) :
  VM._run host (12 + n) (VM.mkVM (prelude ++ body) (prelude_values ++ vs) 0 [] [] [] [] h)
  = VM._run host n
      (VM.mkVM (prelude ++ body) (prelude_values ++ vs) 12 [] native_globals [] [] h).
Proof.
  change (12 + n)%nat with (S (S (S (S (S (S (S (S (S (S (S (S n)))))))))))).
  do 6 (erewrite run_CONST; [|lia|reflexivity|reflexivity];
        erewrite (run_DEF_GLOBAL _ _ _ _ _ []); [|lia|reflexivity|reflexivity]).
  reflexivity.
Qed.






(** ** Further properties *)

(** X1: visiting a node leaves the compiler at the scope depth it had, with
    sound patch lists; the instructions emitted before keep their opcode,
    and none of the instructions added writes a global when the depth is
    at least 1. *)
Theorem compile_node_restores_scope_depth (node : ASTNode) (self self' : Compiler) :
  patches_ok self ->
  _compile_node node self = inr (tt, self') ->
  scope_depth self' = scope_depth self
  /\ patches_ok self'
  /\ extends (scope_depth self) self self'.
Proof.
  intros Hok E.
  pose proof (wp_inv _ _ _ _ _ (_compile_node_keeps_depth node self Hok) E)
    as (Hext & Hok' & Hd).
  auto.
Qed.

Lemma compile_node_restores_scope_depth_witness :
  scope_depth after_const_k_7 = scope_depth Compiler_new
  /\ patches_ok after_const_k_7
  /\ extends (scope_depth Compiler_new) Compiler_new after_const_k_7.
Proof.
  exact (compile_node_restores_scope_depth const_k_7 Compiler_new after_const_k_7
           patches_ok_new ltac:(vm_compute; reflexivity)).
Defined.

(** X2: inside a scope a variable declaration adds exactly one instruction
    to the code of its initializer ([OP_CONST] of [None] when it has
    none): the local definition on the index that [add_constant] gives
    the name of the variable, [OP_DEF_CONST_LOCAL] for a [const] and
    [OP_DEF_LOCAL] otherwise. *)
Theorem local_declaration_defines_once (name : Token)
    (initializer : option ASTNode) (is_const : bool) (token : option Token)
    (self self' : Compiler) :
  patches_ok self ->
  1 <= scope_depth self ->
  _compile_node (VarDeclareStmt name initializer is_const token) self
  = inr (tt, self') ->
  exists after_initializer name_idx,
    match initializer with
    | Some init => _compile_node init
    | None =>
        bind (Compiler_add_constant CNone) (fun idx =>
          emit OP_CONST (IntOperand idx) (Some name))
    end self = inr (tt, after_initializer)
    /\ add_constant (CStr (value name)) (constants after_initializer)
       = (name_idx, constants self')
    /\ getitem (constants self') name_idx = Some (CStr (value name))
    /\ bytecode_chunk self'
       = bytecode_chunk after_initializer
         ++ [ mkInstruction
                (if is_const then OP_DEF_CONST_LOCAL else OP_DEF_LOCAL)
                (IntOperand name_idx) ].
Proof.
  intros Hok Hdepth. cbn [_compile_node]. unfold bind at 1.
  pose proof (initializer_keeps_depth name initializer self Hok) as Hinit.
  unfold runs, wp in Hinit.
  match goal with
  | Hinit : match ?m self with _ => _ end |- _ =>
      destruct (m self) as [e|[[] s1]]; [discriminate|]
  end.
  destruct Hinit as (_ & _ & Hd1).
  unfold bind at 1. unfold Compiler_add_constant at 1.
  destruct (add_constant (CStr (value name)) (constants s1)) as [i pool'] eqn:Ea.
  pose proof (add_constant_Str _ _ _ _ Ea) as Hname.
  unfold bind at 1. unfold gets at 1.
  replace (0 <? scope_depth (set_constants pool' s1)) with true
    by (symmetry; apply Z.ltb_lt; simpl; lia).
  unfold bind, emit, emit_instruction, ret. cbn.
  intros [= <-]. cbn.
  exists s1, i. split; [reflexivity|]. split; [exact Ea|]. split; [exact Hname|].
  reflexivity.
Qed.

Lemma local_declaration_defines_once_witness :
  exists after_initializer name_idx,
    _compile_node (int_lit 7) inside_scope = inr (tt, after_initializer)
    /\ add_constant (CStr "k") (constants after_initializer)
       = (name_idx, constants local_const_k_7)
    /\ getitem (constants local_const_k_7) name_idx = Some (CStr "k")
    /\ bytecode_chunk local_const_k_7
       = bytecode_chunk after_initializer
         ++ [ mkInstruction OP_DEF_CONST_LOCAL (IntOperand name_idx) ].
Proof.
  exact (local_declaration_defines_once (tok IDENT "k") (Some (int_lit 7)) true
           (Some (tok KEYWORD "const")) inside_scope local_const_k_7
           ltac:(apply patches_ok_nil; reflexivity) ltac:(vm_compute; discriminate)
           ltac:(vm_compute; reflexivity)).
Defined.

(** X3: [OP_DIVIDE] and [OP_MODULO] with a right operand equal to zero pop both
    operands and return the runtime errors "Division by zero" and "Modulo
    by zero". *)
Theorem zero_divisor_is_a_runtime_error (host : VM.Host) (vm : VM.PyleVM)
    (arg : Operand) (below : list VM.Value) (left_ right_ : VM.Value) :
  VM.stack vm = below ++ [left_; right_] ->
  VM.eq_zero right_ = true ->
  VM.execute host OP_DIVIDE arg vm
  = VM.Return_ (VM.Err VM.DivisionByZero) (VM.set_stack below vm)
  /\ VM.execute host OP_MODULO arg vm
     = VM.Return_ (VM.Err VM.ModuloByZero) (VM.set_stack below vm).
Proof.
  intros Hstack Hzero.
  destruct vm as [chunk consts pc st g scopes fs h]. simpl in Hstack. subst st.
  assert (Hneed : (len (below ++ [left_; right_]) <? 2) = false).
  { rewrite len_app. pose proof (len_nonneg below). apply Z.ltb_ge.
    unfold len at 2. simpl. lia. }
  assert (Hpop : list_pop (below ++ [left_; right_])
                 = Some (below ++ [left_], right_)).
  { change [left_; right_] with ([left_] ++ [right_]). rewrite app_assoc.
    apply list_pop_app. }
  unfold VM.execute, VM.binary, VM.need. unfold VM.vbind, VM.read, VM._pop,
    VM.err, VM.vret, VM.set_stack.
  cbn [VM.bytecode_chunk VM.constants VM.ip VM.stack VM.globals
       VM.environments VM.frames VM.heap].
  rewrite Hneed.
  cbn [VM.bytecode_chunk VM.constants VM.ip VM.stack VM.globals
       VM.environments VM.frames VM.heap].
  rewrite Hpop.
  cbn [VM.bytecode_chunk VM.constants VM.ip VM.stack VM.globals
       VM.environments VM.frames VM.heap].
  rewrite list_pop_app, Hzero. split; reflexivity.
Qed.

Lemma zero_divisor_is_a_runtime_error_witness :
  VM.execute silent_host OP_DIVIDE NoOperand dividing_by_zero
  = VM.Return_ (VM.Err VM.DivisionByZero) (VM.set_stack [] dividing_by_zero)
  /\ VM.execute silent_host OP_MODULO NoOperand dividing_by_zero
     = VM.Return_ (VM.Err VM.ModuloByZero) (VM.set_stack [] dividing_by_zero).
Proof.
  exact (zero_divisor_is_a_runtime_error silent_host dividing_by_zero NoOperand []
           (VM.VInt 7) (VM.VInt 0) eq_refl ltac:(vm_compute; reflexivity)).
Defined.

Lemma Compiler_add_constant_Str_runs (d : Z) (v : string) (s : Compiler) :
  patches_ok s ->
  runs d (Compiler_add_constant (CStr v)) s (fun i s' =>
    scope_depth s' = scope_depth s /\ getitem (constants s') i = Some (CStr v)).
Proof.
  intros Hok.
  pose proof (Compiler_add_constant_runs d (CStr v) s Hok) as H.
  unfold runs, wp, Compiler_add_constant in *.
  destruct (add_constant (CStr v) (constants s)) as [i pool'] eqn:Ea.
  destruct H as (Hext & Hok' & Hd). apply add_constant_Str in Ea. auto.
Qed.

(** X4: inside a scope a named function ends with [OP_DEF_LOCAL] on the
    index of its name, at the scope depth the declaration started at. *)
Theorem named_function_defines_locally (name : Token) (params : list Token)
    (body : ASTNode) (token : option Token) (self self' : Compiler) :
  patches_ok self ->
  1 <= scope_depth self ->
  _compile_node (FunctionDefStmt name params body token) self = inr (tt, self') ->
  exists front name_idx,
    bytecode_chunk self'
    = front ++ [ mkInstruction OP_DEF_LOCAL (IntOperand name_idx) ]
    /\ getitem (constants self') name_idx = Some (CStr (value name))
    /\ scope_depth self' = scope_depth self.
Proof.
  intros Hok0 Hdepth E.
  pose proof (extends_refl (scope_depth self) self) as Hcum.
  pose proof (_compile_node_keeps_depth body) as Hbody.
  refine (wp_inv _ (fun _ s' => _) _ _ _ _ E).
  cbn [_compile_node].
  do 16 step. step_spec Compiler_add_constant_Str_runs.
  step; bools; [|exfalso; lia].
  match goal with
  | |- wp (emit ?op ?arg ?t) _ ?s =>
      destruct (emit_instruction_state op arg t s) as (s13 & E13 & Hc & Hk & Hd & _)
  end.
  unfold wp, emit, bind. rewrite E13. cbn [ret].
  eexists _, _. split; [exact Hc|]. split; [rewrite Hk; eassumption|lia].
Qed.

Lemma named_function_defines_locally_witness :
  exists front name_idx,
    bytecode_chunk local_fn_f
    = front ++ [ mkInstruction OP_DEF_LOCAL (IntOperand name_idx) ]
    /\ getitem (constants local_fn_f) name_idx = Some (CStr "f")
    /\ scope_depth local_fn_f = scope_depth inside_scope.
Proof.
  exact (named_function_defines_locally (tok IDENT "f") [tok IDENT "x"]
           (Block [return_stmt (ident "x")] (Some (tok L_CURLY_BRACE "{")))
           (Some (tok KEYWORD "fn")) inside_scope local_fn_f
           ltac:(apply patches_ok_nil; reflexivity) ltac:(vm_compute; discriminate)
           ltac:(vm_compute; reflexivity)).
Defined.

(** * Further properties of the machine and of the compiler *)

(** ** Operands that are missing *)

(** X5: an opcode that starts by counting its operands and finds too few
    returns the runtime error "Stack underflow" for that opcode and leaves
    the machine as it is, whatever the operand of the instruction. *)
Theorem missing_operands_are_a_stack_underflow (host : VM.Host) (op : OpCode)
    (arg : Operand) (vm : VM.PyleVM) (k : Z) :
  operands_checked op = Some k ->
  len (VM.stack vm) < k ->
  VM.execute host op arg vm = VM.Return_ (VM.Err (VM.StackUnderflow op)) vm.
Proof.
  intros Hk Hlen.
  destruct op; simpl in Hk; try discriminate; injection Hk as <-;
    apply Z.ltb_lt in Hlen;
    unfold VM.execute, VM.compare, VM.equal, VM.return_, VM.binary, VM.need,
      VM.vbind, VM.read, VM.err;
    cbv beta iota; rewrite Hlen; reflexivity.
Qed.

Lemma missing_operands_are_a_stack_underflow_witness :
  VM.execute silent_host OP_ADD NoOperand one_operand
  = VM.Return_ (VM.Err (VM.StackUnderflow OP_ADD)) one_operand.
Proof.
  exact (missing_operands_are_a_stack_underflow silent_host OP_ADD NoOperand
           one_operand 2 eq_refl ltac:(vm_compute; reflexivity)).
Defined.

(** ** The program of a run *)





(** ** Variables *)

Lemma key_eq_refl (k : VM.Value) : VM.hashable k = true -> VM.key_eq k k = true.
Proof.
  destruct k; simpl; try discriminate; intros _;
    first [ apply String.eqb_refl | apply bool_decide_eq_true; reflexivity
          | reflexivity ].
Qed.

Lemma key_eq_sym (a b : VM.Value) : VM.key_eq a b = VM.key_eq b a.
Proof.
  destruct a, b; simpl; try reflexivity;
    first [ apply String.eqb_sym
          | apply bool_decide_ext; split; intros H; symmetry; exact H ].
Qed.

Lemma key_eq_trans (a b c : VM.Value) :
  VM.key_eq a b = true -> VM.key_eq b c = true -> VM.key_eq a c = true.
Proof.
  destruct a, b; simpl; try discriminate; destruct c; simpl; try discriminate;
    rewrite ?bool_decide_eq_true, ?String.eqb_eq; congruence.
Qed.

Lemma dict_get_set_same {V} (d : list (VM.Value * V)) (k : VM.Value) (v : V) :
  VM.key_eq k k = true -> VM.dict_get (VM.dict_set d k v) k = Some v.
Proof.
  intros Hk. induction d as [|[k' v'] d IH]; simpl.
  - rewrite Hk. reflexivity.
  - destruct (VM.key_eq k' k) eqn:E; simpl; rewrite E; [reflexivity|exact IH].
Qed.

Lemma dict_get_set_other {V} (d : list (VM.Value * V)) (k k' : VM.Value) (v : V) :
  VM.key_eq k k' = false -> VM.dict_get (VM.dict_set d k v) k' = VM.dict_get d k'.
Proof.
  intros Hk. induction d as [|[k0 v0] d IH]; simpl.
  - rewrite Hk. reflexivity.
  - destruct (VM.key_eq k0 k) eqn:E; simpl.
    + destruct (VM.key_eq k0 k') eqn:E'; [|reflexivity].
      rewrite key_eq_sym in E. rewrite (key_eq_trans _ _ _ E E') in Hk. discriminate.
    + destruct (VM.key_eq k0 k'); [reflexivity|exact IH].
Qed.

Lemma contains_get (store : VM.Scope) (var : VM.Value) :
  VM.hashable var = true ->
  VM.contains store var = VM.PyOk (is_not_None (VM.dict_get store var)).
Proof. intros H. unfold VM.contains. rewrite H. reflexivity. Qed.

(** The search of [OP_GET_LOCAL] stops at the innermost scope that binds
    the name. *)
Lemma find_local_innermost (outer inner : list VM.Scope) (scope : VM.Scope)
    (var : VM.Value) (x : VM.PyleVariable) :
  VM.hashable var = true ->
  Forall (fun sc => VM.dict_get sc var = None) inner ->
  VM.dict_get scope var = Some x ->
  VM.find_local (rev (outer ++ [scope] ++ inner)) var = VM.PyOk (Some x).
Proof.
  intros Hh Hinner Hx. rewrite !rev_app_distr. simpl.
  induction inner as [|sc inner IH] using rev_ind; simpl.
  - rewrite (contains_get _ _ Hh), Hx. reflexivity.
  - apply Forall_app in Hinner. destruct Hinner as [Hinner Hsc].
    apply Forall_cons in Hsc. destruct Hsc as [Hsc _].
    rewrite rev_app_distr. simpl. rewrite (contains_get _ _ Hh), Hsc. simpl.
    apply IH. exact Hinner.
Qed.

Lemma find_local_unbound (envs : list VM.Scope) (var : VM.Value) :
  VM.hashable var = true ->
  Forall (fun sc => VM.dict_get sc var = None) envs ->
  VM.find_local (rev envs) var = VM.PyOk None.
Proof.
  intros Hh H. induction envs as [|sc envs IH] using rev_ind; simpl.
  - reflexivity.
  - apply Forall_app in H. destruct H as [H Hsc].
    apply Forall_cons in Hsc. destruct Hsc as [Hsc _].
    rewrite rev_app_distr. simpl. rewrite (contains_get _ _ Hh), Hsc. simpl.
    apply IH. exact H.
Qed.

Lemma get_local_found (host : VM.Host) (vm : VM.PyleVM) (i : Z) (var : VM.Value)
    (outer inner : list VM.Scope) (scope : VM.Scope) (x : VM.PyleVariable) :
  getitem (VM.constants vm) i = Some var ->
  VM.hashable var = true ->
  VM.environments vm = outer ++ [scope] ++ inner ->
  Forall (fun sc => VM.dict_get sc var = None) inner ->
  VM.dict_get scope var = Some x ->
  VM.execute host OP_GET_LOCAL (IntOperand i) vm
  = VM.Next tt (VM.set_stack (VM.stack vm ++ [VM.value x]) vm).
Proof.
  intros Hvar Hh Henvs Hinner Hx.
  unfold VM.execute, VM.vbind, VM.constant, VM.read. rewrite Hvar, Henvs.
  rewrite (find_local_innermost _ _ _ _ _ Hh Hinner Hx). reflexivity.
Qed.

(** X7: [OP_GET_LOCAL] pushes the value that the innermost scope binding
    the name gives it, whatever the scopes outside bind; when no scope
    binds the name it returns the runtime error "Undefined local
    variable" and leaves the machine as it is. *)
Theorem get_local_reads_the_innermost_binding (host : VM.Host) (vm : VM.PyleVM)
    (i : Z) (var : VM.Value) :
  getitem (VM.constants vm) i = Some var ->
  VM.hashable var = true ->
  (forall outer scope inner x,
     VM.environments vm = outer ++ [scope] ++ inner ->
     Forall (fun sc => VM.dict_get sc var = None) inner ->
     VM.dict_get scope var = Some x ->
     VM.execute host OP_GET_LOCAL (IntOperand i) vm
     = VM.Next tt (VM.set_stack (VM.stack vm ++ [VM.value x]) vm))
  /\ (Forall (fun sc => VM.dict_get sc var = None) (VM.environments vm) ->
      VM.execute host OP_GET_LOCAL (IntOperand i) vm
      = VM.Return_ (VM.Err (VM.UndefinedLocal var)) vm).
Proof.
  intros Hvar Hh. split.
  - intros outer scope inner x. apply get_local_found; assumption.
  - intros Hnone.
    unfold VM.execute, VM.vbind, VM.constant, VM.read. rewrite Hvar.
    rewrite (find_local_unbound _ _ Hh Hnone). reflexivity.
Qed.

Lemma get_local_reads_the_innermost_binding_witness :
  VM.execute silent_host OP_GET_LOCAL (IntOperand 0) shadowing
  = VM.Next tt (VM.set_stack [VM.VInt 5; VM.VInt 2] shadowing).
Proof.
  exact (proj1 (get_local_reads_the_innermost_binding silent_host shadowing 0
                  (VM.VStr "x") eq_refl eq_refl)
           [[(VM.VStr "x", VM.mkVariable (VM.VStr "x") (VM.VInt 1) false)]]
           [(VM.VStr "x", VM.mkVariable (VM.VStr "x") (VM.VInt 2) true)]
           [] (VM.mkVariable (VM.VStr "x") (VM.VInt 2) true)
           eq_refl ltac:(constructor) eq_refl).
Defined.

Lemma assign_local_innermost (outer inner : list VM.Scope) (scope : VM.Scope)
    (var w : VM.Value) (old : VM.PyleVariable) :
  VM.hashable var = true ->
  Forall (fun sc => VM.dict_get sc var = None) inner ->
  VM.dict_get scope var = Some old ->
  VM.assign_local (rev (outer ++ [scope] ++ inner)) var w
  = VM.PyOk
      (if VM.is_const old then VM.ConstBinding
       else VM.Assigned
              (rev (outer
                    ++ [VM.dict_set scope var (VM.mkVariable var w false)]
                    ++ inner))).
Proof.
  intros Hh Hinner Hx. rewrite !rev_app_distr. simpl.
  induction inner as [|sc inner IH] using rev_ind; simpl.
  - rewrite (contains_get _ _ Hh), Hx. simpl.
    destruct old as [n v c]. destruct c; simpl; [reflexivity|].
    unfold VM._set_variable. rewrite Hh. reflexivity.
  - apply Forall_app in Hinner. destruct Hinner as [Hinner Hsc].
    apply Forall_cons in Hsc. destruct Hsc as [Hsc _].
    rewrite !rev_app_distr. simpl. rewrite (contains_get _ _ Hh), Hsc. simpl.
    rewrite (IH Hinner). destruct (VM.is_const old); reflexivity.
Qed.

Lemma assign_local_unbound (envs : list VM.Scope) (var w : VM.Value) :
  VM.hashable var = true ->
  Forall (fun sc => VM.dict_get sc var = None) envs ->
  VM.assign_local (rev envs) var w = VM.PyOk VM.Unbound.
Proof.
  intros Hh H. induction envs as [|sc envs IH] using rev_ind; simpl.
  - reflexivity.
  - apply Forall_app in H. destruct H as [H Hsc].
    apply Forall_cons in Hsc. destruct Hsc as [Hsc _].
    rewrite rev_app_distr. simpl. rewrite (contains_get _ _ Hh), Hsc. simpl.
    rewrite (IH H). reflexivity.
Qed.

Lemma need_one (e : VM.PyleRuntimeError) (vm : VM.PyleVM) (below : list VM.Value)
    (v : VM.Value) :
  VM.stack vm = below ++ [v] -> VM.need 1 e vm = VM.Next tt vm.
Proof.
  intros H. unfold VM.need, VM.vbind, VM.read. rewrite H.
  replace (len (below ++ [v]) <? 1) with false; [reflexivity|].
  symmetry. apply Z.ltb_ge. rewrite len_app. pose proof (len_nonneg below).
  unfold len at 2. simpl. lia.
Qed.

Lemma pop_top (vm : VM.PyleVM) (below : list VM.Value) (v : VM.Value) :
  VM.stack vm = below ++ [v] -> VM._pop vm = VM.Next v (VM.set_stack below vm).
Proof. intros H. unfold VM._pop. rewrite H, list_pop_app. reflexivity. Qed.

(** X8: [OP_SET_LOCAL] pops the value and assigns it in the innermost scope
    that binds the name, leaving every other scope as it is; when that
    binding is a constant it returns the runtime error "Cannot Assign
    const local variable" and the binding stays; when no scope binds the
    name it returns "Cannot assign to undefined local variable".  The
    value is popped in each case. *)
Theorem set_local_assigns_the_innermost_binding (host : VM.Host) (vm : VM.PyleVM)
    (i : Z) (var w : VM.Value) (below : list VM.Value) :
  getitem (VM.constants vm) i = Some var ->
  VM.hashable var = true ->
  VM.stack vm = below ++ [w] ->
  (forall outer scope inner old,
     VM.environments vm = outer ++ [scope] ++ inner ->
     Forall (fun sc => VM.dict_get sc var = None) inner ->
     VM.dict_get scope var = Some old ->
     VM.execute host OP_SET_LOCAL (IntOperand i) vm
     = if VM.is_const old
       then VM.Return_ (VM.Err (VM.AssignConstLocal var)) (VM.set_stack below vm)
       else VM.Next tt
              (VM.set_environments
                 (outer ++ [VM.dict_set scope var (VM.mkVariable var w false)]
                  ++ inner)
                 (VM.set_stack below vm)))
  /\ (Forall (fun sc => VM.dict_get sc var = None) (VM.environments vm) ->
      VM.execute host OP_SET_LOCAL (IntOperand i) vm
      = VM.Return_ (VM.Err (VM.AssignUndefinedLocal var)) (VM.set_stack below vm)).
Proof.
  intros Hvar Hh Hstack.
  assert (Hstart : forall k : VM.V unit,
            VM.execute host OP_SET_LOCAL (IntOperand i) vm
            = VM.vbind (VM.lift (VM.assign_local (rev (VM.environments vm)) var w))
                (fun r =>
                   match r with
                   | VM.Assigned rev_envs => VM.write (VM.set_environments (rev rev_envs))
                   | VM.ConstBinding => VM.err (VM.AssignConstLocal var)
                   | VM.Unbound => VM.err (VM.AssignUndefinedLocal var)
                   end) (VM.set_stack below vm)).
  { intros _. unfold VM.execute.
    unfold VM.vbind at 1. unfold VM.constant. rewrite Hvar.
    unfold VM.vbind at 1. rewrite (need_one _ _ _ _ Hstack).
    unfold VM.vbind at 1. rewrite (pop_top _ _ _ Hstack).
    unfold VM.vbind at 1. unfold VM.read at 1. reflexivity. }
  rewrite (Hstart (VM.vret tt)). clear Hstart. split.
  - intros outer scope inner old Henvs Hinner Hold. rewrite Henvs.
    rewrite (assign_local_innermost _ _ _ _ _ _ Hh Hinner Hold).
    unfold VM.vbind, VM.lift, VM.vret. destruct (VM.is_const old); [reflexivity|].
    unfold VM.write. rewrite rev_involutive. reflexivity.
  - intros Hnone. rewrite (assign_local_unbound _ _ _ Hh Hnone). reflexivity.
Qed.

Lemma set_local_assigns_the_innermost_binding_witness :
  VM.execute silent_host OP_SET_LOCAL (IntOperand 0) shadowing
  = VM.Return_ (VM.Err (VM.AssignConstLocal (VM.VStr "x")))
      (VM.set_stack [] shadowing).
Proof.
  exact (proj1 (set_local_assigns_the_innermost_binding silent_host shadowing 0
                  (VM.VStr "x") (VM.VInt 5) [] eq_refl eq_refl eq_refl)
           [[(VM.VStr "x", VM.mkVariable (VM.VStr "x") (VM.VInt 1) false)]]
           [(VM.VStr "x", VM.mkVariable (VM.VStr "x") (VM.VInt 2) true)]
           [] (VM.mkVariable (VM.VStr "x") (VM.VInt 2) true)
           eq_refl ltac:(constructor) eq_refl).
Defined.

(** X9: [OP_DEF_LOCAL] and [OP_DEF_CONST_LOCAL] pop the value and bind the
    name in the innermost scope, and [OP_GET_LOCAL] on the same name then
    pushes that value back, whatever the scope or the scopes outside bound
    before: a declaration shadows, and replaces a binding of the same
    scope, a constant one too. *)
Theorem defined_local_is_read_back (host : VM.Host) (vm : VM.PyleVM) (i : Z)
    (var v : VM.Value) (below : list VM.Value) (outer : list VM.Scope)
    (current : VM.Scope) (const : bool) :
  getitem (VM.constants vm) i = Some var ->
  VM.hashable var = true ->
  VM.stack vm = below ++ [v] ->
  VM.environments vm = outer ++ [current] ->
  let defined :=
    VM.set_environments
      (outer ++ [VM.dict_set current var (VM.mkVariable var v const)])
      (VM.set_stack below vm) in
  VM.execute host (if const then OP_DEF_CONST_LOCAL else OP_DEF_LOCAL)
    (IntOperand i) vm
  = VM.Next tt defined
  /\ VM.execute host OP_GET_LOCAL (IntOperand i) defined
     = VM.Next tt (VM.set_stack (below ++ [v]) defined).
Proof.
  intros Hvar Hh Hstack Henvs defined. split.
  - assert (H : VM.def_local (IntOperand i) const vm = VM.Next tt defined).
    { unfold VM.def_local. unfold VM.vbind at 1. unfold VM.constant. rewrite Hvar.
      unfold VM.vbind at 1. unfold VM.read at 1. rewrite Henvs, list_pop_app.
      unfold VM.vbind at 1. rewrite (need_one _ _ _ _ Hstack).
      unfold VM.vbind at 1. rewrite (pop_top _ _ _ Hstack).
      unfold VM.vbind, VM.lift, VM._set_variable. rewrite Hh. reflexivity. }
    destruct const; exact H.
  - apply (get_local_found host defined i var outer []
             (VM.dict_set current var (VM.mkVariable var v const))
             (VM.mkVariable var v const)).
    + exact Hvar.
    + exact Hh.
    + reflexivity.
    + constructor.
    + apply dict_get_set_same, key_eq_refl, Hh.
Qed.

Lemma defined_local_is_read_back_witness :
  VM.execute silent_host OP_DEF_LOCAL (IntOperand 0) shadowing
  = VM.Next tt
      (VM.set_environments
         [ [(VM.VStr "x", VM.mkVariable (VM.VStr "x") (VM.VInt 1) false)];
           [(VM.VStr "x", VM.mkVariable (VM.VStr "x") (VM.VInt 5) false)] ]
         (VM.set_stack [] shadowing)).
Proof.
  exact (proj1 (defined_local_is_read_back silent_host shadowing 0 (VM.VStr "x")
                  (VM.VInt 5) []
                  [[(VM.VStr "x", VM.mkVariable (VM.VStr "x") (VM.VInt 1) false)]]
                  [(VM.VStr "x", VM.mkVariable (VM.VStr "x") (VM.VInt 2) true)]
                  false eq_refl eq_refl eq_refl eq_refl)).
Defined.

(** ** Calls *)

Lemma getitem_app_middle {A} (l1 l2 : list A) (x : A) :
  getitem (l1 ++ [x] ++ l2) (len l1) = Some x.
Proof.
  unfold len. rewrite getitem_nat. rewrite lookup_app_r by lia.
  rewrite Nat.sub_diag. reflexivity.
Qed.

(** X10: [OP_CALL] on a function of the program with as many arguments as
    its arity leaves the callee and the arguments on the stack, pushes a
    frame that records the instruction after the call, the stack slot of
    the callee and the number of open scopes, and jumps to the start of
    the function; another number of arguments is the runtime error of the
    arity, with the machine as it was.  An [OP_RETURN] that finds this
    frame on top, whatever the callee left on the stack and whatever
    scopes it opened, puts the returned value in the place of the callee
    and its arguments, closes those scopes and goes on after the call. *)
Theorem call_and_return_are_balanced (host : VM.Host) (vm : VM.PyleVM)
    (f : PyleFunction) (start : Z) (below args : list VM.Value) :
  VM.stack vm = below ++ [VM.VFunc f] ++ args ->
  native_fn f = None ->
  start_ip f = Some start ->
  let frame := VM.mkCallFrame (VM.ip vm) (len below) (len (VM.environments vm)) in
  VM.execute host OP_CALL (IntOperand (len args)) vm
  = (if len args =? arity f
     then VM.Next tt (VM.set_ip start (VM.set_frames (VM.frames vm ++ [frame]) vm))
     else VM.Return_ (VM.Err (VM.FunctionArity f (len args))) vm)
  /\ forall (inside : VM.PyleVM) (left_ : list VM.Value) (opened : list VM.Scope)
       (result : VM.Value) (arg : Operand),
       VM.frames inside = VM.frames vm ++ [frame] ->
       VM.stack inside = below ++ left_ ++ [result] ->
       VM.environments inside = VM.environments vm ++ opened ->
       VM.execute host OP_RETURN arg inside
       = VM.Next tt
           (VM.set_stack (below ++ [result])
              (VM.set_environments (VM.environments vm)
                 (VM.set_ip (VM.ip vm) (VM.set_frames (VM.frames vm) inside)))).
Proof.
  intros Hstack Hnative Hstart frame. split.
  - unfold VM.execute, VM.call, VM.int_operand.
    unfold VM.vbind at 1. unfold VM.vret at 1.
    unfold VM.vbind at 1. unfold VM.read at 1. rewrite Hstack.
    assert (Hlen : len (below ++ [VM.VFunc f] ++ args) = len below + 1 + len args).
    { rewrite !len_app. unfold len at 2. simpl. lia. }
    rewrite Hlen.
    replace (len below + 1 + len args <? len args + 1) with false
      by (symmetry; apply Z.ltb_ge; pose proof (len_nonneg below); lia).
    replace (len below + 1 + len args - 1 - len args) with (len below) by lia.
    rewrite getitem_app_middle, Hnative, Hstart.
    destruct (len args =? arity f); [|reflexivity]. reflexivity.
  - intros inside left_ opened result arg Hframes Hst Henvs.
    destruct inside as [chunk consts pc st g scopes fs h]. simpl in *.
    subst st fs scopes.
    assert (Hneed : (len (below ++ left_ ++ [result]) <? 1) = false).
    { rewrite !len_app. pose proof (len_nonneg below). pose proof (len_nonneg left_).
      apply Z.ltb_ge. unfold len at 3. simpl. lia. }
    assert (Hpop : list_pop (below ++ left_ ++ [result]) = Some (below ++ left_, result)).
    { rewrite app_assoc. apply list_pop_app. }
    assert (Henv : VM.pop_environments (len (VM.environments vm))
                     (VM.environments vm ++ opened)
                   = VM.PyOk (VM.environments vm)).
    { unfold VM.pop_environments. pose proof (len_nonneg (VM.environments vm)).
      destruct (len (VM.environments vm ++ opened) <=? len (VM.environments vm)) eqn:E1.
      - apply Z.leb_le in E1. rewrite len_app in E1. pose proof (len_nonneg opened).
        assert (opened = []) as ->.
        { destruct opened; [reflexivity|]. unfold len in E1. simpl in E1. lia. }
        rewrite app_nil_r. reflexivity.
      - replace (0 <=? len (VM.environments vm)) with true
          by (symmetry; apply Z.leb_le; lia).
        unfold len. rewrite Nat2Z.id, take_app_length. reflexivity. }
    assert (Hslice : slice_to (below ++ left_) (len below) = below).
    { unfold slice_to. pose proof (len_nonneg below).
      replace (0 <=? len below) with true by (symmetry; apply Z.leb_le; lia).
      unfold len. rewrite Nat2Z.id, take_app_length. reflexivity. }
    unfold VM.execute, VM.return_, VM.need, VM.vbind, VM.read, VM.write,
      VM._pop, VM._push, VM.lift, VM.vret,
      VM.set_stack, VM.set_frames, VM.set_ip, VM.set_environments. cbn.
    rewrite Hneed. cbn. rewrite Hpop. cbn. rewrite list_pop_app. cbn.
    rewrite Henv. cbn. rewrite Hslice. reflexivity.
Qed.

Lemma call_and_return_are_balanced_witness :
  VM.execute silent_host OP_CALL (IntOperand 1) calling
  = VM.Next tt (VM.set_ip 7 (VM.set_frames [VM.mkCallFrame 4 2 1] calling))
  /\ VM.execute silent_host OP_RETURN NoOperand returning
     = VM.Next tt
         (VM.set_stack [VM.VInt 10; VM.VInt 20; VM.VInt 9]
            (VM.set_environments [[]]
               (VM.set_ip 4 (VM.set_frames [] returning)))).
Proof.
  pose proof (call_and_return_are_balanced silent_host calling f_at_7 7
                [VM.VInt 10; VM.VInt 20] [VM.VInt 3] eq_refl eq_refl eq_refl)
    as [Hcall Hreturn].
  split; [exact Hcall|].
  exact (Hreturn returning [VM.VFunc f_at_7; VM.VInt 0]
           [[(VM.VStr "x", VM.mkVariable (VM.VStr "x") (VM.VInt 3) false)]]
           (VM.VInt 9) NoOperand eq_refl eq_refl eq_refl).
Defined.

(** ** Lists *)

Lemma pop_many_app (items below : list VM.Value) (vm : VM.PyleVM) :
  VM.stack vm = below ++ items ->
  VM.pop_many (length items) vm = VM.Next items (VM.set_stack below vm).
Proof.
  revert vm. induction items as [|x items IH] using rev_ind; intros vm Hstack.
  - simpl. rewrite app_nil_r in Hstack. unfold VM.vret. f_equal.
    destruct vm; simpl in *; subst; reflexivity.
  - rewrite length_app. simpl. rewrite Nat.add_1_r. simpl.
    rewrite app_assoc in Hstack.
    unfold VM.vbind at 1. rewrite (pop_top _ _ _ Hstack).
    unfold VM.vbind at 1. rewrite (IH (VM.set_stack (below ++ items) vm) eq_refl).
    reflexivity.
Qed.

Lemma heap_list_new (h : VM.Heap) (items : list VM.Value) :
  VM.heap_list (h ++ [VM.OList items]) (length h) = Some items.
Proof.
  unfold VM.heap_list.
  assert (E : (h ++ [VM.OList items]) !! length h = Some (VM.OList items)).
  { apply list_lookup_middle. reflexivity. }
  match goal with |- match ?x with _ => _ end = _ => change x with ((h ++ [VM.OList items]) !! length h) end.
  rewrite E. reflexivity.
Qed.

Lemma heap_list_insert (h : VM.Heap) (a : VM.addr) (old items : list VM.Value) :
  VM.heap_list h a = Some old ->
  VM.heap_list (<[a := VM.OList items]> h) a = Some items.
Proof.
  unfold VM.heap_list. intros H.
  assert (E : (<[a := VM.OList items]> h) !! a = Some (VM.OList items)).
  { apply list_lookup_insert_eq.
    match type of H with match ?x with _ => _ end = _ => destruct x eqn:E end;
      [|discriminate].
    eapply lookup_lt_Some; eauto. }
  match goal with |- match ?x with _ => _ end = _ => change x with ((<[a := VM.OList items]> h) !! a) end.
  rewrite E. reflexivity.
Qed.

(** X11: [OP_BUILD_LIST n] pops the [n] values on top of the stack and
    pushes a new list that holds them in the order they were pushed.  The
    list is a new object at the end of the heap: every object that exists
    has another address and is kept as it was, so no list that exists
    changes or becomes the new one.  With fewer values on the stack than
    its operand the instruction returns the runtime error of a stack
    underflow and leaves the machine as it is. *)
Theorem build_list_makes_a_new_list (host : VM.Host) (vm : VM.PyleVM)
    (below items : list VM.Value) :
  VM.stack vm = below ++ items ->
  VM.execute host OP_BUILD_LIST (IntOperand (len items)) vm
  = VM.Next tt
      (VM.mkVM (VM.bytecode_chunk vm) (VM.constants vm) (VM.ip vm)
         (below ++ [VM.VList (length (VM.heap vm))]) (VM.globals vm)
         (VM.environments vm) (VM.frames vm)
         (VM.heap vm ++ [VM.OList items]))
  /\ VM.heap_list (VM.heap vm ++ [VM.OList items]) (length (VM.heap vm)) = Some items
  /\ (forall a o,
        VM.heap vm !! a = Some o ->
        a <> length (VM.heap vm) /\ (VM.heap vm ++ [VM.OList items]) !! a = Some o)
  /\ (forall n,
        len (VM.stack vm) < n ->
        VM.execute host OP_BUILD_LIST (IntOperand n) vm
        = VM.Return_ (VM.Err (VM.StackUnderflow OP_BUILD_LIST)) vm).
Proof.
  intros Hstack. split; [|split; [|split]].
  - unfold VM.execute, VM.int_operand.
    unfold VM.vbind at 1. unfold VM.vret at 1.
    unfold VM.vbind at 1. unfold VM.need, VM.vbind, VM.read. rewrite Hstack.
    replace (len (below ++ items) <? len items) with false
      by (symmetry; apply Z.ltb_ge; rewrite len_app; pose proof (len_nonneg below); lia).
    cbv beta iota. unfold VM.vret at 1. unfold len at 1. rewrite Nat2Z.id.
    rewrite (pop_many_app items below vm Hstack). reflexivity.
  - apply heap_list_new.
  - intros a o Ha. pose proof (lookup_lt_Some _ _ _ Ha) as Hlt.
    split; [lia|]. apply lookup_app_l_Some. exact Ha.
  - intros n Hn. apply Z.ltb_lt in Hn.
    unfold VM.execute, VM.int_operand, VM.need, VM.vbind, VM.vret, VM.read, VM.err.
    cbv beta iota. rewrite Hn. reflexivity.
Qed.

Lemma build_list_makes_a_new_list_witness :
  VM.execute silent_host OP_BUILD_LIST (IntOperand 2) building
  = VM.Next tt
      (VM.mkVM [] [] 0 [VM.VList 0%nat; VM.VList 1%nat] [] [] []
         [VM.OList [VM.VInt 9]; VM.OList [VM.VInt 1; VM.VInt 2]])
  /\ VM.heap_list (VM.heap building ++ [VM.OList [VM.VInt 1; VM.VInt 2]]) 1%nat
     = Some [VM.VInt 1; VM.VInt 2].
Proof.
  pose proof (build_list_makes_a_new_list silent_host building [VM.VList 0%nat]
                [VM.VInt 1; VM.VInt 2] eq_refl) as H.
  exact (conj (proj1 H) (proj1 (proj2 H))).
Defined.

(** *** Indexing *)

Lemma getitem_mod {A} (l : list A) (i : Z) :
  - len l <= i < len l -> getitem l i = l !! Z.to_nat (i mod len l).
Proof.
  intros H. unfold getitem. destruct (0 <=? i) eqn:E.
  - apply Z.leb_le in E. rewrite Z.mod_small by lia. reflexivity.
  - apply Z.leb_gt in E.
    replace (0 <=? len l + i) with true by (symmetry; apply Z.leb_le; lia).
    replace (i mod len l) with (len l + i); [reflexivity|].
    symmetry. rewrite <- (Z.mod_add i 1 (len l)) by lia.
    rewrite Z.mod_small by lia. lia.
Qed.

Lemma setitem_mod {A} (l : list A) (i : Z) (x : A) :
  - len l <= i < len l ->
  setitem l i x = Some (<[Z.to_nat (i mod len l) := x]> l).
Proof.
  intros H. unfold setitem. cbv zeta. destruct (Z.leb_spec 0 i) as [E|E].
  - rewrite Z.mod_small by lia.
    assert (E1 : (0 <=? i) = true) by (apply Z.leb_le; lia).
    assert (E2 : (i <? len l) = true) by (apply Z.ltb_lt; lia).
    rewrite E1, E2. reflexivity.
  - assert (E1 : (0 <=? len l + i) = true) by (apply Z.leb_le; lia).
    assert (E2 : (len l + i <? len l) = true) by (apply Z.ltb_lt; lia).
    rewrite E1, E2.
    replace (i mod len l) with (len l + i); [reflexivity|].
    symmetry. rewrite <- (Z.mod_add i 1 (len l)) by lia.
    rewrite Z.mod_small by lia. lia.
Qed.

Lemma setitem_out_of_range {A} (l : list A) (i : Z) (x : A) :
  i < - len l \/ len l <= i -> setitem l i x = None.
Proof.
  intros H. unfold setitem. cbv zeta. pose proof (len_nonneg l).
  destruct (Z.leb_spec 0 i) as [E|E].
  - assert (E1 : (0 <=? i) = true) by (apply Z.leb_le; lia).
    assert (E2 : (i <? len l) = false) by (apply Z.ltb_ge; lia).
    rewrite E1, E2. reflexivity.
  - assert (E1 : (0 <=? len l + i) = false) by (apply Z.leb_gt; lia).
    rewrite E1. reflexivity.
Qed.

(** X12: [OP_INDEX_SET] on a list with an integer index between [-len]
    and [len - 1] replaces, in place, the item at that index counted from
    the end when it is negative, and pushes the value back; every value
    that is this list sees the change, and [OP_INDEX_GET] with the same
    index then pushes the value assigned.  Any other integer index is the
    runtime error "Index assignment error" with the list as it was; the
    three operands are popped in each case. *)
Theorem index_set_then_get (host : VM.Host) (vm : VM.PyleVM)
    (below : list VM.Value) (a : VM.addr) (index v : VM.Value)
    (items : list VM.Value) (i : Z) :
  VM.stack vm = below ++ [VM.VList a; index; v] ->
  VM.heap_list (VM.heap vm) a = Some items ->
  VM.as_index index = Some i ->
  let items' := <[Z.to_nat (i mod len items) := v]> items in
  let heap' := <[a := VM.OList items']> (VM.heap vm) in
  (- len items <= i < len items ->
   VM.execute host OP_INDEX_SET NoOperand vm
   = VM.Next tt (VM.set_stack (below ++ [v]) (VM.set_heap heap' vm))
   /\ VM.heap_list heap' a = Some items'
   /\ forall (later : VM.PyleVM) (below' : list VM.Value),
        VM.heap later = heap' ->
        VM.stack later = below' ++ [VM.VList a; index] ->
        VM.execute host OP_INDEX_GET NoOperand later
        = VM.Next tt (VM.set_stack (below' ++ [v]) later))
  /\ (i < - len items \/ len items <= i ->
      VM.execute host OP_INDEX_SET NoOperand vm
      = VM.Return_ (VM.Err (VM.IndexAssignmentError VM.IndexError))
          (VM.set_stack below vm)).
Proof.
  intros Hstack Hlist Hindex items' heap'.
  assert (Hneed : (len (below ++ [VM.VList a; index; v]) <? 3) = false).
  { rewrite len_app. pose proof (len_nonneg below). apply Z.ltb_ge.
    unfold len at 2. simpl. lia. }
  assert (Hstart :
    VM.execute host OP_INDEX_SET NoOperand vm
    = match VM.setindex (VM.heap vm) a index v with
      | VM.PyOk h' =>
          VM.Next tt (VM.set_stack (below ++ [v]) (VM.set_heap h' vm))
      | VM.PyRaise VM.TypeError =>
          VM.Return_ (VM.Err (VM.IndexAssignmentError VM.TypeError))
            (VM.set_stack below vm)
      | VM.PyRaise VM.IndexError =>
          VM.Return_ (VM.Err (VM.IndexAssignmentError VM.IndexError))
            (VM.set_stack below vm)
      | VM.PyRaise e => VM.Raise e
      end).
  { destruct vm as [chunk consts pc st g scopes fs h]. simpl in Hstack. subst st.
    unfold VM.execute, VM.need, VM.vbind, VM.read, VM._pop, VM.write, VM._push,
      VM.err, VM.throw, VM.vret, VM.set_stack, VM.set_heap. cbn.
    rewrite Hneed. cbn.
    change (below ++ [VM.VList a; index; v])
      with (below ++ [VM.VList a; index] ++ [v]).
    rewrite app_assoc, list_pop_app. cbn.
    change (below ++ [VM.VList a; index]) with (below ++ [VM.VList a] ++ [index]).
    rewrite app_assoc, list_pop_app. cbn. rewrite list_pop_app. cbn.
    destruct (VM.setindex h a index v) as [h'|e]; cbn; [reflexivity|].
    destruct e; reflexivity. }
  pose proof (len_nonneg items) as Hlen.
  split.
  - intros Hrange.
    assert (Hk : (Z.to_nat (i mod len items) < length items)%nat).
    { pose proof (Z.mod_pos_bound i (len items) ltac:(lia)). unfold len in *. lia. }
    split; [|split].
    + rewrite Hstart. unfold VM.setindex. rewrite Hlist, Hindex.
      rewrite (setitem_mod _ _ _ Hrange). reflexivity.
    + eapply heap_list_insert. exact Hlist.
    + intros later below' Hheap Hst.
      destruct later as [chunk consts pc st g scopes fs h]. simpl in Hheap, Hst.
      subst st h.
      assert (Hneed2 : (len (below' ++ [VM.VList a; index]) <? 2) = false).
      { rewrite len_app. pose proof (len_nonneg below'). apply Z.ltb_ge.
        unfold len at 2. simpl. lia. }
      assert (Hget : VM.getindex heap' (VM.VList a) index = VM.PyOk v).
      { unfold VM.getindex, heap'. rewrite (heap_list_insert _ _ _ items' Hlist).
        rewrite Hindex.
        assert (Hlen' : len items' = len items).
        { unfold items', len. rewrite length_insert. reflexivity. }
        rewrite getitem_mod by (rewrite Hlen'; exact Hrange).
        rewrite Hlen'. unfold items'.
        rewrite list_lookup_insert_eq by exact Hk. reflexivity. }
      unfold VM.execute, VM.need, VM.vbind, VM.read, VM._pop, VM.write, VM._push,
        VM.err, VM.throw, VM.vret, VM.set_stack, VM.set_heap.
      cbn -[VM.getindex VM.getslice].
      rewrite Hneed2. cbn -[VM.getindex VM.getslice].
      change (below' ++ [VM.VList a; index]) with (below' ++ [VM.VList a] ++ [index]).
      rewrite app_assoc, list_pop_app. cbn -[VM.getindex VM.getslice].
      rewrite list_pop_app. cbn -[VM.getindex VM.getslice].
      destruct index; try discriminate Hindex;
        rewrite Hget; reflexivity.
  - intros Hrange. rewrite Hstart. unfold VM.setindex. rewrite Hlist, Hindex.
    rewrite (setitem_out_of_range _ _ _ Hrange). reflexivity.
Qed.

Lemma index_set_then_get_witness :
  VM.execute silent_host OP_INDEX_SET NoOperand assigning
  = VM.Next tt
      (VM.set_stack [VM.VInt 10]
         (VM.set_heap [VM.OList [VM.VInt 1; VM.VInt 2; VM.VInt 10]] assigning)).
Proof.
  exact (proj1 (proj1 (index_set_then_get silent_host assigning [] 0%nat (VM.VInt (-1))
                         (VM.VInt 10) [VM.VInt 1; VM.VInt 2; VM.VInt 3] (-1)
                         eq_refl eq_refl eq_refl)
                  ltac:(unfold len; simpl; lia))).
Defined.

(** ** Iteration *)








(** ** Addition *)

Lemma pop_two (vm : VM.PyleVM) (below : list VM.Value) (left_ right_ : VM.Value)
    (e : VM.PyleRuntimeError) (k : VM.Value -> VM.Value -> VM.V unit) :
  VM.stack vm = below ++ [left_; right_] ->
  VM.vbind (VM.need 2 e) (fun _ =>
    VM.vbind VM._pop (fun r => VM.vbind VM._pop (fun l => k l r))) vm
  = k left_ right_ (VM.set_stack below vm).
Proof.
  intros Hstack.
  assert (Hneed : VM.need 2 e vm = VM.Next tt vm).
  { unfold VM.need, VM.vbind, VM.read. rewrite Hstack.
    replace (len (below ++ [left_; right_]) <? 2) with false; [reflexivity|].
    symmetry. apply Z.ltb_ge. rewrite len_app. pose proof (len_nonneg below).
    unfold len at 2. simpl. lia. }
  unfold VM.vbind at 1. rewrite Hneed.
  change (below ++ [left_; right_]) with (below ++ [left_] ++ [right_]) in Hstack.
  rewrite app_assoc in Hstack.
  unfold VM.vbind at 1. rewrite (pop_top _ _ _ Hstack).
  unfold VM.vbind at 1. rewrite (pop_top (VM.set_stack (below ++ [left_]) vm) below left_ eq_refl).
  reflexivity.
Qed.


Lemma heap_list_app_l (h : VM.Heap) (a : VM.addr) (items : list VM.Value) (o : VM.Obj) :
  VM.heap_list h a = Some items -> VM.heap_list (h ++ [o]) a = Some items.
Proof.
  unfold VM.heap_list. intros H.
  match type of H with match ?x with _ => _ end = _ => destruct x as [o'|] eqn:E end;
    [|discriminate].
  assert (E' : (h ++ [o]) !! a = Some o').
  { apply lookup_app_l_Some. exact E. }
  match goal with |- match ?x with _ => _ end = _ => change x with ((h ++ [o]) !! a) end.
  rewrite E'. exact H.
Qed.

(** X14: [OP_ADD] on two integers (a boolean counts as 0 or 1) pushes
    their exact sum; on two lists it pushes a new list, the items of the
    left one followed by those of the right one, and leaves both operands
    as they are; on two operands that are neither two numbers, nor two
    strings, nor two lists it returns the runtime error "Unsupported
    operand types" with both operands popped. *)
Theorem add_of_integers_lists_and_mixed_operands (host : VM.Host) (vm : VM.PyleVM)
    (arg : Operand) (below : list VM.Value) (left_ right_ : VM.Value) :
  VM.stack vm = below ++ [left_; right_] ->
  (forall x y,
     VM.as_index left_ = Some x -> VM.as_index right_ = Some y ->
     VM.execute host OP_ADD arg vm
     = VM.Next tt (VM.set_stack (below ++ [VM.VInt (x + y)]) vm))
  /\ (forall a b l1 l2,
        left_ = VM.VList a -> right_ = VM.VList b ->
        VM.heap_list (VM.heap vm) a = Some l1 ->
        VM.heap_list (VM.heap vm) b = Some l2 ->
        VM.execute host OP_ADD arg vm
        = VM.Next tt
            (VM.mkVM (VM.bytecode_chunk vm) (VM.constants vm) (VM.ip vm)
               (below ++ [VM.VList (length (VM.heap vm))]) (VM.globals vm)
               (VM.environments vm) (VM.frames vm)
               (VM.heap vm ++ [VM.OList (l1 ++ l2)]))
        /\ VM.heap_list (VM.heap vm ++ [VM.OList (l1 ++ l2)]) a = Some l1
        /\ VM.heap_list (VM.heap vm ++ [VM.OList (l1 ++ l2)]) b = Some l2
        /\ VM.heap_list (VM.heap vm ++ [VM.OList (l1 ++ l2)]) (length (VM.heap vm))
           = Some (l1 ++ l2))
  /\ ((VM.is_number left_ && VM.is_number right_ = false) ->
      (forall s t, left_ = VM.VStr s -> right_ <> VM.VStr t) ->
      (forall a b, left_ = VM.VList a -> right_ <> VM.VList b) ->
      VM.execute host OP_ADD arg vm
      = VM.Return_ (VM.Err (VM.UnsupportedOperandTypes left_ right_))
          (VM.set_stack below vm)).
Proof.
  intros Hstack.
  assert (Hstart : forall k,
    VM.binary OP_ADD k vm = k left_ right_ (VM.set_stack below vm)).
  { intros k. unfold VM.binary. apply pop_two. exact Hstack. }
  unfold VM.execute. rewrite Hstart. clear Hstart. split; [|split].
  - intros x y Hx Hy.
    assert (Hl : VM.as_num left_ = Some (VM.NumZ x)).
    { destruct left_; try discriminate; injection Hx as <-; reflexivity. }
    assert (Hr : VM.as_num right_ = Some (VM.NumZ y)).
    { destruct right_; try discriminate; injection Hy as <-; reflexivity. }
    rewrite Hl, Hr. reflexivity.
  - intros a b l1 l2 -> -> H1 H2. split; [|split; [|split]].
    + simpl. unfold VM.vbind at 1. unfold VM.read at 1.
      change (VM.heap (VM.set_stack below vm)) with (VM.heap vm).
      rewrite H1, H2. destruct vm; reflexivity.
    + eapply heap_list_app_l. exact H1.
    + eapply heap_list_app_l. exact H2.
    + apply heap_list_new.
  - intros Hnum Hstr Hlist. unfold VM.is_number in Hnum.
    destruct (VM.as_num left_) as [x|] eqn:El;
      destruct (VM.as_num right_) as [y|] eqn:Er; try discriminate Hnum;
      destruct left_; try discriminate El; try reflexivity;
      destruct right_; try discriminate Er; try reflexivity;
      exfalso; first [ eapply Hstr; reflexivity | eapply Hlist; reflexivity ].
Qed.

Lemma add_of_integers_lists_and_mixed_operands_witness :
  VM.execute silent_host OP_ADD NoOperand adding_lists
  = VM.Next tt
      (VM.mkVM [] [] 0 [VM.VList 2%nat] [] [] []
         [VM.OList [VM.VInt 1]; VM.OList [VM.VInt 2; VM.VInt 3];
          VM.OList [VM.VInt 1; VM.VInt 2; VM.VInt 3]]).
Proof.
  exact (proj1 (proj1 (proj2 (add_of_integers_lists_and_mixed_operands silent_host
                                adding_lists NoOperand [] (VM.VList 0%nat)
                                (VM.VList 1%nat) eq_refl))
                  0%nat 1%nat [VM.VInt 1] [VM.VInt 2; VM.VInt 3]
                  eq_refl eq_refl eq_refl eq_refl)).
Defined.

(** ** Calls of native functions *)

(** X15: [OP_CALL] on a native function checks the number of arguments
    only when the arity of the function is not negative: another number is
    the runtime error of the arity, with the machine as it was.  Otherwise
    the arguments are handed over in the order they were pushed; the
    callee and the arguments are popped, and the result is pushed in their
    place; an [Exception] of the function is the runtime error "Error in
    native function", with callee and arguments popped. *)
Theorem native_call_checks_arity_and_passes_arguments (host : VM.Host)
    (vm : VM.PyleVM) (f : PyleFunction) (fn : NativeFn)
    (below args : list VM.Value) :
  native_fn f = Some fn ->
  VM.stack vm = below ++ [VM.VFunc f] ++ args ->
  (0 <= arity f -> arity f <> len args ->
   VM.execute host OP_CALL (IntOperand (len args)) vm
   = VM.Return_ (VM.Err (VM.NativeArity f (len args))) vm)
  /\ (arity f < 0 \/ arity f = len args ->
      VM.execute host OP_CALL (IntOperand (len args)) vm
      = match VM.host_native host fn args (VM.heap vm) with
        | VM.HostReturn v h =>
            VM.Next tt (VM.set_stack (below ++ [v]) (VM.set_heap h vm))
        | VM.HostRaise false =>
            VM.Return_ (VM.Err (VM.NativeFunctionError f)) (VM.set_stack below vm)
        | VM.HostRaise true => VM.Raise VM.HostAbort
        end).
Proof.
  intros Hnative Hstack.
  assert (Hstart : VM.execute host OP_CALL (IntOperand (len args)) vm
    = if (0 <=? arity f) && negb (len args =? arity f)
      then VM.Return_ (VM.Err (VM.NativeArity f (len args))) vm
      else VM.vbind (VM.pop_many (Z.to_nat (len args))) (fun args' =>
             VM.vbind VM._pop (fun _ =>
               VM.vbind (VM.read VM.heap) (fun h =>
                 VM.host_answer (VM.host_native host fn args' h)
                   (VM.NativeFunctionError f)))) vm).
  { unfold VM.execute, VM.call, VM.int_operand.
    unfold VM.vbind at 1. unfold VM.vret at 1.
    unfold VM.vbind at 1. unfold VM.read at 1. rewrite Hstack.
    assert (Hlen : len (below ++ [VM.VFunc f] ++ args) = len below + 1 + len args).
    { rewrite !len_app. unfold len at 2. simpl. lia. }
    rewrite Hlen.
    replace (len below + 1 + len args <? len args + 1) with false
      by (symmetry; apply Z.ltb_ge; pose proof (len_nonneg below); lia).
    replace (len below + 1 + len args - 1 - len args) with (len below) by lia.
    rewrite getitem_app_middle, Hnative.
    destruct ((0 <=? arity f) && negb (len args =? arity f)); reflexivity. }
  rewrite Hstart. clear Hstart. split.
  - intros H0 Hne.
    replace (0 <=? arity f) with true by (symmetry; apply Z.leb_le; exact H0).
    replace (len args =? arity f) with false by (symmetry; apply Z.eqb_neq; lia).
    reflexivity.
  - intros Har.
    assert (E : (0 <=? arity f) && negb (len args =? arity f) = false).
    { destruct Har as [Hneg|Heq].
      - replace (0 <=? arity f) with false by (symmetry; apply Z.leb_gt; exact Hneg).
        reflexivity.
      - rewrite Heq, Z.eqb_refl. apply andb_false_r. }
    rewrite E. unfold len. rewrite Nat2Z.id.
    rewrite app_assoc in Hstack.
    unfold VM.vbind at 1. rewrite (pop_many_app args (below ++ [VM.VFunc f]) vm Hstack).
    unfold VM.vbind at 1.
    rewrite (pop_top (VM.set_stack (below ++ [VM.VFunc f]) vm) below (VM.VFunc f) eq_refl).
    unfold VM.vbind at 1. unfold VM.read at 1.
    change (VM.heap (VM.set_stack below (VM.set_stack (below ++ [VM.VFunc f]) vm)))
      with (VM.heap vm).
    destruct (VM.host_native host fn args (VM.heap vm)) as [v h|[|]];
      try reflexivity.
Qed.

Lemma native_call_checks_arity_and_passes_arguments_witness :
  VM.execute silent_host OP_CALL (IntOperand 2) calling_len
  = VM.Return_ (VM.Err (VM.NativeArity len_function 2)) calling_len.
Proof.
  exact (proj1 (native_call_checks_arity_and_passes_arguments silent_host calling_len
                  len_function native_len [] [VM.VInt 1; VM.VInt 2] eq_refl eq_refl)
           ltac:(simpl; lia) ltac:(unfold len; simpl; lia)).
Defined.

(** ** Well-formed chunks *)

Lemma carries_refl (s : Compiler) : carries s s.
Proof.
  split; [auto| |lia]. exists []. rewrite app_nil_r. reflexivity.
Qed.

Lemma carries_trans (s1 s2 s3 : Compiler) :
  carries s1 s2 -> carries s2 s3 -> carries s1 s3.
Proof.
  intros [Hj1 [m1 Hc1] Hl1] [Hj2 [m2 Hc2] Hl2]. split; [auto| |lia].
  exists (m1 ++ m2). rewrite Hc2, Hc1, app_assoc. reflexivity.
Qed.

Lemma holds_carries (s s' : Compiler) (idx : Z) (v : Const) :
  carries s s' -> holds s idx v -> holds s' idx v.
Proof.
  intros [_ [more Hc] _] [H0 [c [Hk Heq]]]. split; [exact H0|]. exists c.
  split; [|exact Heq]. rewrite Hc. apply lookup_app_l_Some. exact Hk.
Qed.

Lemma settled_mono (n n' : Z) (instr : Instruction) :
  n <= n' -> settled n instr -> settled n' instr.
Proof. intros Hn [t [Ht Hr]]. exists t. split; [exact Ht|lia]. Qed.

Lemma operand_ok_mono (pool more : list Const) (instr : Instruction) :
  operand_ok pool instr -> operand_ok (pool ++ more) instr.
Proof.
  intros [Hl Hn]. split; intros Hop.
  - destruct (Hl Hop) as [k [c [E [H0 Hk]]]]. exists k, c.
    split; [exact E|split; [exact H0|]]. apply lookup_app_l_Some. exact Hk.
  - destruct (Hn Hop) as [k [name [E [H0 Hk]]]]. exists k, name.
    split; [exact E|split; [exact H0|]]. apply lookup_app_l_Some. exact Hk.
Qed.

Lemma func_ok_mono (n n' : Z) (c : Const) : n <= n' -> func_ok n c -> func_ok n' c.
Proof.
  intros Hn. destruct c; simpl; auto. intros H Hnat.
  destruct (H Hnat) as [start [E Hr]]. exists start. split; [exact E|lia].
Qed.

Lemma top_snoc (stack : list (list Z)) (l : list Z) : top (stack ++ [l]) = l.
Proof. unfold top. rewrite last_snoc. reflexivity. Qed.

Lemma new_jump_mono (n n' : nat) (s s' : Compiler) (idx : Z) :
  (n' <= n)%nat -> (forall i, is_jump_at s i -> is_jump_at s' i) ->
  new_jump n s idx -> new_jump n' s' idx.
Proof. intros Hn Hj [H1 H2]. split; [lia|auto]. Qed.

Lemma grows_refl (n : nat) (s : Compiler) (stack : list (list Z)) : grows n s stack stack.
Proof. left. reflexivity. Qed.

Lemma grows_mono (n : nat) (s s' : Compiler) (stack0 stack : list (list Z)) :
  (forall i, is_jump_at s i -> is_jump_at s' i) ->
  grows n s stack0 stack -> grows n s' stack0 stack.
Proof.
  intros Hj [->|(init & t & new & E0 & E & Hnew)]; [left; reflexivity|].
  right. exists init, t, new. split; [exact E0|split; [exact E|]].
  eapply Forall_impl; [exact Hnew|]. intros i. apply new_jump_mono; [lia|exact Hj].
Qed.

Lemma grows_trans (n n' : nat) (s : Compiler) (stack0 stack1 stack2 : list (list Z)) :
  (n <= n')%nat ->
  grows n s stack0 stack1 -> grows n' s stack1 stack2 -> grows n s stack0 stack2.
Proof.
  intros Hn [->|(init & t & new & E0 & E & Hnew)].
  - intros [->|(init' & t' & new' & E0' & E' & Hnew')]; [left; reflexivity|].
    right. exists init', t', new'. split; [exact E0'|split; [exact E'|]].
    eapply Forall_impl; [exact Hnew'|]. intros i. apply new_jump_mono; [lia|auto].
  - intros [->|(init' & t' & new' & E0' & E' & Hnew')].
    + right. exists init, t, new. auto.
    + rewrite E in E0'. apply app_inj_tail in E0'. destruct E0' as [<- <-].
      right. exists init, t, (new ++ new'). split; [exact E0|].
      split; [rewrite app_assoc; exact E'|]. apply Forall_app. split; [exact Hnew|].
      eapply Forall_impl; [exact Hnew'|]. intros i. apply new_jump_mono; [lia|auto].
Qed.

Lemma grows_top (n : nat) (s : Compiler) (stack0 stack : list (list Z)) (i : Z) :
  grows n s stack0 stack -> i ∈ top stack0 -> i ∈ top stack.
Proof.
  intros [->|(init & t & new & -> & -> & _)]; [auto|].
  rewrite !top_snoc. intros H. apply elem_of_app. left. exact H.
Qed.

(** The last list of a stack that started with an empty last list holds
    new jumps only. *)
Lemma grows_top_new (n : nat) (s : Compiler) (stack0 stack : list (list Z)) :
  top stack0 = [] -> grows n s stack0 stack -> Forall (new_jump n s) (top stack).
Proof.
  intros H0 [->|(init & t & new & -> & -> & Hnew)].
  - rewrite H0. constructor.
  - rewrite top_snoc in H0. subst t. rewrite top_snoc. exact Hnew.
Qed.

Lemma rel_length (H : list Z) (ps pe : bool) (s0 s : Compiler) :
  rel H ps pe s0 s -> len (bytecode_chunk s0) <= len (bytecode_chunk s).
Proof.
  intros [Hold _ _ _ _ _]. unfold len.
  destruct (bytecode_chunk s0) as [|x l _] using rev_ind; [simpl; lia|].
  specialize (Hold (length l) x).
  rewrite lookup_app_r in Hold by lia. rewrite Nat.sub_diag in Hold.
  specialize (Hold eq_refl). apply lookup_lt_Some in Hold.
  rewrite length_app. simpl. lia.
Qed.

Lemma rel_refl (H : list Z) (ps pe : bool) (s : Compiler) : rel H ps pe s s.
Proof.
  split.
  - auto.
  - apply grows_refl.
  - apply grows_refl.
  - intros i instr Hi Hl. apply lookup_lt_Some in Hl. lia.
  - intros i instr Hi Hl. apply lookup_lt_Some in Hl. lia.
  - exists []. rewrite app_nil_r. split; [reflexivity|constructor].
Qed.

Lemma jump_op_plain (op : OpCode) :
  jump_op op = true -> loads_op op = false /\ names_op op = false.
Proof. destruct op; simpl; intros H; try discriminate H; split; reflexivity. Qed.

Lemma operand_ok_jump (pool : list Const) (instr : Instruction) :
  jump_op (opcode instr) = true -> operand_ok pool instr.
Proof.
  intros Hj. destruct (jump_op_plain _ Hj) as [Hl Hn].
  split; intros H; congruence.
Qed.

(** The disjunction of [rel_jumps] may be replaced by one that it implies. *)
Lemma rel_allow (H H' : list Z) (ps pe ps' pe' : bool) (s0 s : Compiler) :
  rel H ps pe s0 s ->
  (forall i instr,
     (length (bytecode_chunk s0) <= i)%nat ->
     bytecode_chunk s !! i = Some instr -> jump_op (opcode instr) = true ->
     Z.of_nat i ∈ H
     \/ (ps = true /\ Z.of_nat i ∈ top (loop_start_patches s))
     \/ (pe = true /\ Z.of_nat i ∈ top (loop_end_patches s)) ->
     settled (len (bytecode_chunk s)) instr
     \/ Z.of_nat i ∈ H'
     \/ (ps' = true /\ Z.of_nat i ∈ top (loop_start_patches s))
     \/ (pe' = true /\ Z.of_nat i ∈ top (loop_end_patches s))) ->
  rel H' ps' pe' s0 s.
Proof.
  intros [Hold Hs He Hj Hop Hc] Himp. split; try assumption.
  intros i instr Hi Hl Hjump.
  destruct (Hj i instr Hi Hl Hjump) as [Hset|Hrest]; [left; exact Hset|].
  apply (Himp i instr Hi Hl Hjump Hrest).
Qed.

Lemma is_jump_at_app (s s' : Compiler) (more : list Instruction) (idx : Z) :
  bytecode_chunk s' = bytecode_chunk s ++ more -> is_jump_at s idx -> is_jump_at s' idx.
Proof.
  intros Hc [H0 [instr [Hl Hj]]]. split; [exact H0|]. exists instr.
  split; [|exact Hj]. rewrite Hc. apply lookup_app_l_Some. exact Hl.
Qed.

Lemma is_jump_at_same (s s' : Compiler) (idx : Z) :
  bytecode_chunk s' = bytecode_chunk s -> is_jump_at s idx -> is_jump_at s' idx.
Proof. intros Hc. unfold is_jump_at. rewrite Hc. auto. Qed.

(** A step that leaves the chunk and the patch stacks as they are. *)
Lemma rel_fields (H : list Z) (ps pe : bool) (s0 s s' : Compiler) (more : list Const) :
  rel H ps pe s0 s ->
  bytecode_chunk s' = bytecode_chunk s ->
  constants s' = constants s ++ more ->
  Forall (func_ok (len (bytecode_chunk s))) more ->
  loop_start_patches s' = loop_start_patches s ->
  loop_end_patches s' = loop_end_patches s ->
  rel H ps pe s0 s' /\ carries s s'.
Proof.
  intros [Hold Hs He Hj Hop [more0 [Hc Hf]]] Ec Ek Hmore Es Ee. split.
  - split.
    + rewrite Ec. exact Hold.
    + rewrite Es. eapply grows_mono; [|exact Hs]. intros i. apply is_jump_at_same, Ec.
    + rewrite Ee. eapply grows_mono; [|exact He]. intros i. apply is_jump_at_same, Ec.
    + rewrite Ec, Es, Ee. exact Hj.
    + rewrite Ec, Ek. intros i instr Hi Hl. apply operand_ok_mono. eapply Hop; eauto.
    + exists (more0 ++ more). rewrite Ek, Hc, app_assoc. split; [reflexivity|].
      rewrite Ec. apply Forall_app. split; assumption.
  - split.
    + intros idx. apply is_jump_at_same, Ec.
    + exists more. exact Ek.
    + rewrite Ec. lia.
Qed.

(** A step that appends one instruction. *)
Lemma rel_emit (H : list Z) (ps pe : bool) (s0 s s' : Compiler) (instr : Instruction) :
  rel H ps pe s0 s ->
  bytecode_chunk s' = bytecode_chunk s ++ [instr] ->
  constants s' = constants s ->
  loop_start_patches s' = loop_start_patches s ->
  loop_end_patches s' = loop_end_patches s ->
  (jump_op (opcode instr) = true ->
   settled (len (bytecode_chunk s) + 1) instr \/ len (bytecode_chunk s) ∈ H) ->
  operand_ok (constants s) instr ->
  rel H ps pe s0 s' /\ carries s s'.
Proof.
  intros Hrel Ec Ek Es Ee Hjump Hoper.
  pose proof (rel_length _ _ _ _ _ Hrel) as Hlen0.
  destruct Hrel as [Hold Hs He Hj Hop [more0 [Hc Hf]]].
  assert (Hlen : len (bytecode_chunk s') = len (bytecode_chunk s) + 1).
  { rewrite Ec, len_app. reflexivity. }
  assert (Hcase : forall i x, bytecode_chunk s' !! i = Some x ->
            bytecode_chunk s !! i = Some x
            \/ i = length (bytecode_chunk s) /\ x = instr).
  { intros i x Hl. rewrite Ec in Hl. apply lookup_app_Some in Hl.
    destruct Hl as [Hl|[Hge Hl]]; [left; exact Hl|right].
    destruct (i - length (bytecode_chunk s))%nat as [|k] eqn:Ei; simpl in Hl.
    - split; [lia|congruence].
    - destruct k; discriminate. }
  split.
  - split.
    + intros i x Hl. rewrite Ec. apply lookup_app_l_Some. apply Hold. exact Hl.
    + rewrite Es. eapply grows_mono; [|exact Hs]. intros i. eapply is_jump_at_app, Ec.
    + rewrite Ee. eapply grows_mono; [|exact He]. intros i. eapply is_jump_at_app, Ec.
    + intros i x Hi Hl Hx. rewrite Es, Ee, Hlen.
      destruct (Hcase i x Hl) as [Hin|[-> ->]].
      * destruct (Hj i x Hi Hin Hx) as [Hset|Hrest]; [left|right; exact Hrest].
        eapply settled_mono; [|exact Hset]. lia.
      * destruct (Hjump Hx) as [Hset|Hheld]; [left; exact Hset|right; left; exact Hheld].
    + intros i x Hi Hl. rewrite Ek.
      destruct (Hcase i x Hl) as [Hin|[-> ->]]; [eapply Hop; eauto|exact Hoper].
    + exists more0. rewrite Ek. split; [exact Hc|].
      eapply Forall_impl; [exact Hf|]. intros c. apply func_ok_mono. lia.
  - split.
    + intros idx. eapply is_jump_at_app, Ec.
    + exists []. rewrite app_nil_r. exact Ek.
    + lia.
Qed.

(** A step that settles jumps added since [s0], and leaves the other
    instructions as they are. *)
Lemma rel_rewrite (H : list Z) (ps pe : bool) (s0 s s' : Compiler) :
  rel H ps pe s0 s ->
  length (bytecode_chunk s') = length (bytecode_chunk s) ->
  constants s' = constants s ->
  loop_start_patches s' = loop_start_patches s ->
  loop_end_patches s' = loop_end_patches s ->
  (forall i instr', bytecode_chunk s' !! i = Some instr' ->
     exists instr, bytecode_chunk s !! i = Some instr
       /\ (instr' = instr
           \/ (length (bytecode_chunk s0) <= i)%nat
              /\ jump_op (opcode instr) = true
              /\ opcode instr' = opcode instr
              /\ settled (len (bytecode_chunk s)) instr')) ->
  rel H ps pe s0 s' /\ carries s s'.
Proof.
  intros [Hold Hs He Hj Hop [more0 [Hc Hf]]] El Ek Es Ee Hchunk.
  assert (Hlen : len (bytecode_chunk s') = len (bytecode_chunk s)).
  { unfold len. rewrite El. reflexivity. }
  assert (Hjumps : forall idx, is_jump_at s idx -> is_jump_at s' idx).
  { intros idx [H0 [instr [Hl Hjump]]]. split; [exact H0|].
    assert (Hlt : (Z.to_nat idx < length (bytecode_chunk s'))%nat).
    { rewrite El. eapply lookup_lt_Some. exact Hl. }
    destruct (lookup_lt_is_Some_2 _ _ Hlt) as [instr' Hl'].
    exists instr'. split; [exact Hl'|].
    destruct (Hchunk _ _ Hl') as [x [Hx [->|(_ & _ & Eop & _)]]].
    - congruence.
    - rewrite Eop. congruence. }
  split.
  - split.
    + intros i instr Hl. specialize (Hold i instr Hl).
      assert (Hlt : (i < length (bytecode_chunk s'))%nat).
      { rewrite El. eapply lookup_lt_Some. exact Hold. }
      destruct (lookup_lt_is_Some_2 _ _ Hlt) as [instr' Hl'].
      destruct (Hchunk _ _ Hl') as [x [Hx [->|(Hge & _)]]]; [congruence|].
      apply lookup_lt_Some in Hl. lia.
    + rewrite Es. eapply grows_mono; [exact Hjumps|exact Hs].
    + rewrite Ee. eapply grows_mono; [exact Hjumps|exact He].
    + intros i instr' Hi Hl' Hjump. rewrite Es, Ee, Hlen.
      destruct (Hchunk _ _ Hl') as [x [Hx [->|(_ & _ & _ & Hset)]]].
      * eapply Hj; eauto.
      * left. exact Hset.
    + intros i instr' Hi Hl'. rewrite Ek.
      destruct (Hchunk _ _ Hl') as [x [Hx [->|(_ & Hjump & Eop & _)]]].
      * eapply Hop; eauto.
      * apply operand_ok_jump. rewrite Eop. exact Hjump.
    + exists more0. rewrite Ek, Hlen. auto.
  - split; [exact Hjumps| |lia]. exists []. rewrite app_nil_r. exact Ek.
Qed.

Lemma carries_of_rel (H : list Z) (ps pe : bool) (s0 s : Compiler) :
  rel H ps pe s0 s -> carries s0 s.
Proof.
  intros Hrel. pose proof (rel_length _ _ _ _ _ Hrel) as Hlen.
  destruct Hrel as [Hold _ _ _ _ [more [Hc _]]]. split; [|eauto|exact Hlen].
  intros idx [H0 [instr [Hl Hj]]]. split; [exact H0|]. exists instr. auto.
Qed.

(** A whole visit, after the steps from [s0] to [s]. *)
Lemma rel_child (H : list Z) (s0 s s' : Compiler) :
  rel H true true s0 s -> frame s s' -> rel H true true s0 s' /\ carries s s'.
Proof.
  intros Hrel Hframe. split; [|eapply carries_of_rel; exact Hframe].
  pose proof (rel_length _ _ _ _ _ Hrel) as Hlen0.
  pose proof (rel_length _ _ _ _ _ Hframe) as Hlen1.
  pose proof (carries_of_rel _ _ _ _ _ Hframe) as [Hcar _ _].
  destruct Hrel as [Hold Hs He Hj Hop [more0 [Hc Hf]]].
  destruct Hframe as [Hold' Hs' He' Hj' Hop' [more1 [Hc' Hf']]].
  unfold len in Hlen0, Hlen1.
  split.
  - auto.
  - eapply grows_trans; [|eapply grows_mono; [exact Hcar|exact Hs]|exact Hs']. lia.
  - eapply grows_trans; [|eapply grows_mono; [exact Hcar|exact He]|exact He']. lia.
  - intros i instr Hi Hl Hjump.
    destruct (decide (i < length (bytecode_chunk s))%nat) as [Hlt|Hge].
    + destruct (lookup_lt_is_Some_2 _ _ Hlt) as [x Hx].
      pose proof (Hold' _ _ Hx) as Hx'. assert (x = instr) by congruence. subst x.
      destruct (Hj i instr Hi Hx Hjump) as [Hset|[Hh|[[Hp Hin]|[Hp Hin]]]].
      * left. eapply settled_mono; [|exact Hset]. unfold len. lia.
      * right. left. exact Hh.
      * right. right. left. split; [exact Hp|]. eapply grows_top; eauto.
      * right. right. right. split; [exact Hp|]. eapply grows_top; eauto.
    + destruct (Hj' i instr ltac:(lia) Hl Hjump) as [Hset|[Hh|Hrest]].
      * left. exact Hset.
      * inversion Hh.
      * right. right. exact Hrest.
  - intros i instr Hi Hl.
    destruct (decide (i < length (bytecode_chunk s))%nat) as [Hlt|Hge].
    + destruct (lookup_lt_is_Some_2 _ _ Hlt) as [x Hx].
      pose proof (Hold' _ _ Hx) as Hx'. assert (x = instr) by congruence. subst x.
      rewrite Hc'. apply operand_ok_mono. eapply Hop; eauto.
    + eapply Hop'; [|exact Hl]. lia.
  - exists (more0 ++ more1). rewrite Hc', Hc, app_assoc. split; [reflexivity|].
    apply Forall_app. split; [|exact Hf'].
    eapply Forall_impl; [exact Hf|]. intros c. apply func_ok_mono. unfold len. lia.
Qed.

(** *** The methods of the compiler, one step each *)

Lemma elem_of_drop_held (idx i : Z) (H : list Z) :
  i ∈ drop_held idx H <-> i <> idx /\ i ∈ H.
Proof. unfold drop_held. rewrite list_elem_of_filter. reflexivity. Qed.

Lemma add_constant_rel (H : list Z) (ps pe : bool) (s0 s : Compiler) (v : Const) :
  rel H ps pe s0 s -> func_ok (len (bytecode_chunk s)) v ->
  wp (Compiler_add_constant v)
     (fun idx s' => rel H ps pe s0 s' /\ carries s s' /\ holds s' idx v) s.
Proof.
  intros Hrel Hf. unfold wp, Compiler_add_constant. rewrite add_constant_unfold.
  destruct (index_of v (constants s)) as [i|] eqn:E.
  - destruct (rel_fields H ps pe s0 s (set_constants (constants s) s) [] Hrel)
      as [Hr Hc]; try reflexivity.
    { simpl. rewrite app_nil_r. reflexivity. }
    { constructor. }
    split; [exact Hr|split; [exact Hc|]].
    apply index_of_Some in E. destruct E as [[c [Hi Hc']] _].
    split; [lia|]. exists c. rewrite Nat2Z.id. simpl. auto.
  - destruct (rel_fields H ps pe s0 s (set_constants (constants s ++ [v]) s) [v] Hrel)
      as [Hr Hc]; try reflexivity.
    { constructor; [exact Hf|constructor]. }
    split; [exact Hr|split; [exact Hc|]].
    split; [apply len_nonneg|]. exists v. unfold len. rewrite Nat2Z.id. simpl.
    split; [|left; reflexivity].
    rewrite lookup_app_r by lia. rewrite Nat.sub_diag. reflexivity.
Qed.

Lemma emit_rel (H : list Z) (ps pe : bool) (s0 s : Compiler) (op : OpCode)
    (arg : Operand) (token : option Token) :
  rel H ps pe s0 s ->
  (jump_op op = true -> settled (len (bytecode_chunk s) + 1) (mkInstruction op arg)) ->
  operand_ok (constants s) (mkInstruction op arg) ->
  wp (emit op arg token) (fun _ s' => rel H ps pe s0 s' /\ carries s s') s.
Proof.
  intros Hrel Hj Hop. unfold wp, emit, bind.
  destruct (emit_instruction_state op arg token s) as [s' [E [Hc [Hk [_ [Hs He]]]]]].
  rewrite E. simpl.
  eapply rel_emit; eauto.
Qed.

Lemma emit_instruction_rel (H : list Z) (ps pe : bool) (s0 s : Compiler) (op : OpCode)
    (arg : Operand) (token : option Token) :
  rel H ps pe s0 s -> jump_op op = true ->
  wp (emit_instruction op arg token)
     (fun a s' => rel (a :: H) ps pe s0 s' /\ carries s s'
                  /\ a = len (bytecode_chunk s)
                  /\ new_jump (length (bytecode_chunk s0)) s' a) s.
Proof.
  intros Hrel Hj. unfold wp.
  pose proof (rel_length _ _ _ _ _ Hrel) as Hlen.
  destruct (emit_instruction_state op arg token s) as [s' [E [Hc [Hk [_ [Hs He]]]]]].
  rewrite E.
  assert (Hrel' : rel (len (bytecode_chunk s) :: H) ps pe s0 s).
  { eapply rel_allow; [exact Hrel|]. intros i instr _ _ _ [Hh|Hrest].
    - right. left. apply elem_of_cons. right. exact Hh.
    - right. right. exact Hrest. }
  destruct (rel_emit _ ps pe s0 s s' (mkInstruction op arg) Hrel' Hc Hk Hs He) as [Hr Hcar].
  { intros _. right. apply elem_of_cons. left. reflexivity. }
  { apply operand_ok_jump. exact Hj. }
  split; [exact Hr|split; [exact Hcar|split; [reflexivity|]]].
  split; [unfold len in *; lia|]. split; [apply len_nonneg|].
  exists (mkInstruction op arg). split; [|exact Hj].
  rewrite Hc. unfold len. rewrite Nat2Z.id.
  rewrite lookup_app_r by lia. rewrite Nat.sub_diag. reflexivity.
Qed.

Lemma modify_rel (H : list Z) (ps pe : bool) (s0 s : Compiler) (f : Compiler -> Compiler) :
  rel H ps pe s0 s ->
  bytecode_chunk (f s) = bytecode_chunk s ->
  constants (f s) = constants s ->
  loop_start_patches (f s) = loop_start_patches s ->
  loop_end_patches (f s) = loop_end_patches s ->
  wp (modify f) (fun _ s' => rel H ps pe s0 s' /\ carries s s') s.
Proof.
  intros Hrel Hc Hk Hs He. unfold wp, modify.
  apply (rel_fields H ps pe s0 s (f s) []); auto.
  rewrite app_nil_r. exact Hk.
Qed.


(** [self.bytecode_chunk[idx].operand = t] on a jump added since [s0]. *)
Lemma set_operand_rel (H : list Z) (ps pe : bool) (s0 s : Compiler) (idx t : Z) :
  rel H ps pe s0 s -> new_jump (length (bytecode_chunk s0)) s idx ->
  0 <= t <= len (bytecode_chunk s) ->
  wp (set_operand idx (IntOperand t))
     (fun _ s' =>
        rel H ps pe s0 s' /\ carries s s'
        /\ len (bytecode_chunk s') = len (bytecode_chunk s)
        /\ loop_start_patches s' = loop_start_patches s
        /\ loop_end_patches s' = loop_end_patches s
        /\ (exists instr, bytecode_chunk s' !! Z.to_nat idx = Some instr
                          /\ operand instr = IntOperand t)
        /\ (forall i instr, bytecode_chunk s !! i = Some instr ->
              operand instr = IntOperand t ->
              exists instr', bytecode_chunk s' !! i = Some instr'
                             /\ operand instr' = IntOperand t)) s.
Proof.
  intros Hrel [Hnew [H0 [instr [Hl Hj]]]] Ht. unfold wp, set_operand.
  rewrite getitem_index by exact H0. rewrite Hl.
  rewrite (setitem_index _ _ _ instr) by assumption.
  set (patched := mkInstruction (opcode instr) (IntOperand t)).
  set (s' := set_bytecode_chunk (<[Z.to_nat idx := patched]> (bytecode_chunk s)) s).
  assert (Hlt : (Z.to_nat idx < length (bytecode_chunk s))%nat).
  { eapply lookup_lt_Some. exact Hl. }
  assert (Hcase : forall i x, bytecode_chunk s' !! i = Some x ->
            i = Z.to_nat idx /\ x = patched
            \/ i <> Z.to_nat idx /\ bytecode_chunk s !! i = Some x).
  { intros i x Hx. simpl in Hx. destruct (decide (i = Z.to_nat idx)) as [->|Hne].
    - rewrite list_lookup_insert_eq in Hx by exact Hlt. left. split; congruence.
    - rewrite list_lookup_insert_ne in Hx by congruence. right. auto. }
  destruct (rel_rewrite H ps pe s0 s s' Hrel) as [Hr Hcar]; try reflexivity.
  { simpl. apply length_insert. }
  { intros i x Hx. destruct (Hcase i x Hx) as [[-> ->]|[Hne Hin]].
    - exists instr. split; [exact Hl|]. right. split; [lia|]. split; [exact Hj|].
      split; [reflexivity|]. exists t. split; [reflexivity|exact Ht].
    - exists x. auto. }
  split; [exact Hr|]. split; [exact Hcar|].
  split; [unfold len; simpl; rewrite length_insert; reflexivity|].
  split; [reflexivity|]. split; [reflexivity|]. split.
  - exists patched. split; [|reflexivity]. simpl.
    apply list_lookup_insert_eq. exact Hlt.
  - intros i x Hx Hop. simpl. destruct (decide (i = Z.to_nat idx)) as [->|Hne].
    + exists patched. split; [|reflexivity]. apply list_lookup_insert_eq. exact Hlt.
    + exists x. split; [|exact Hop]. rewrite list_lookup_insert_ne by congruence. exact Hx.
Qed.

Lemma patch_jump_rel (H : list Z) (ps pe : bool) (s0 s : Compiler) (idx : Z)
    (target : option Z) :
  rel H ps pe s0 s -> new_jump (length (bytecode_chunk s0)) s idx ->
  match target with Some t => 0 <= t <= len (bytecode_chunk s) | None => True end ->
  wp (patch_jump idx target)
     (fun _ s' =>
        rel (drop_held idx H) ps pe s0 s' /\ carries s s'
        /\ exists instr, bytecode_chunk s' !! Z.to_nat idx = Some instr
             /\ operand instr
                = IntOperand (match target with
                              | Some t => t
                              | None => len (bytecode_chunk s)
                              end)) s.
Proof.
  intros Hrel Hnew Ht. unfold patch_jump. apply wp_gets.
  destruct (negb _); [apply wp_raise|].
  set (t := match target with Some t => t | None => len (bytecode_chunk s) end).
  assert (Hrange : 0 <= t <= len (bytecode_chunk s)).
  { unfold t. destruct target; [exact Ht|]. pose proof (len_nonneg (bytecode_chunk s)). lia. }
  eapply wp_conseq; [apply (set_operand_rel H ps pe s0 s idx t); assumption|].
  intros [] s' (Hr & Hcar & Hlen & Hs & He & [instr [Hl Hop]] & _).
  split; [|split; [exact Hcar|exists instr; auto]].
  eapply rel_allow; [exact Hr|]. intros i x Hi Hx Hjx [Hh|Hrest].
  - destruct (decide (Z.of_nat i = idx)) as [E|Hne].
    + left. subst idx. rewrite Nat2Z.id in Hl. assert (x = instr) by congruence. subst x.
      exists t. split; [exact Hop|]. lia.
    + right. left. apply elem_of_drop_held. auto.
  - right. right. exact Hrest.
Qed.

Lemma patch_all_rel (H : list Z) (ps pe : bool) (s0 : Compiler) (t : Z) (l : list Z) :
  forall s,
  rel H ps pe s0 s -> Forall (new_jump (length (bytecode_chunk s0)) s) l ->
  0 <= t <= len (bytecode_chunk s) ->
  wp (patch_all l (IntOperand t))
     (fun _ s' =>
        rel H ps pe s0 s' /\ carries s s'
        /\ len (bytecode_chunk s') = len (bytecode_chunk s)
        /\ loop_start_patches s' = loop_start_patches s
        /\ loop_end_patches s' = loop_end_patches s
        /\ (forall idx, idx ∈ l ->
              exists instr, bytecode_chunk s' !! Z.to_nat idx = Some instr
                            /\ operand instr = IntOperand t)
        /\ (forall i instr, bytecode_chunk s !! i = Some instr ->
              operand instr = IntOperand t ->
              exists instr', bytecode_chunk s' !! i = Some instr'
                             /\ operand instr' = IntOperand t)) s.
Proof.
  induction l as [|idx rest IH]; intros s Hrel Hall Ht.
  - simpl. split; [exact Hrel|]. split; [apply carries_refl|].
    repeat (split; [reflexivity|]). split; [intros idx Hin; inversion Hin|eauto].
  - apply Forall_cons in Hall. destruct Hall as [Hidx Hrest]. simpl. apply wp_bind.
    eapply wp_conseq; [apply (set_operand_rel H ps pe s0 s idx t); assumption|].
    intros [] s1 (Hr1 & Hcar1 & Hlen1 & Hs1 & He1 & [instr [Hl1 Hop1]] & Hkeep1).
    eapply wp_conseq; [apply (IH s1 Hr1)|].
    + eapply Forall_impl; [exact Hrest|]. intros i [Hn Hj]. split; [exact Hn|].
      apply (car_jump _ _ Hcar1). exact Hj.
    + lia.
    + intros [] s2 (Hr2 & Hcar2 & Hlen2 & Hs2 & He2 & Hall2 & Hkeep2).
      split; [exact Hr2|]. split; [eapply carries_trans; eauto|].
      split; [lia|]. split; [congruence|]. split; [congruence|]. split.
      * intros i Hin. apply elem_of_cons in Hin. destruct Hin as [->|Hin].
        -- eapply Hkeep2; eauto.
        -- apply Hall2. exact Hin.
      * intros i x Hx Hop. destruct (Hkeep1 i x Hx Hop) as [x1 [Hx1 Hop1']].
        eapply Hkeep2; eauto.
Qed.

Lemma patch_all_start_rel (H : list Z) (pe : bool) (s0 s : Compiler) (t : Z) :
  rel H true pe s0 s -> top (loop_start_patches s0) = [] ->
  0 <= t <= len (bytecode_chunk s) ->
  wp (patch_all (top (loop_start_patches s)) (IntOperand t))
     (fun _ s' => rel H false pe s0 s' /\ carries s s') s.
Proof.
  intros Hrel Htop Ht.
  eapply wp_conseq; [apply (patch_all_rel H true pe s0 t _ s Hrel)|].
  - eapply grows_top_new; [exact Htop|]. apply (rel_start _ _ _ _ _ Hrel).
  - exact Ht.
  - intros [] s' (Hr & Hcar & Hlen & Hs & He & Hall & _). split; [|exact Hcar].
    eapply rel_allow; [exact Hr|]. intros i x Hi Hx Hjx [Hh|[[_ Hin]|Hrest]].
    + right. left. exact Hh.
    + left. rewrite Hs in Hin. destruct (Hall _ Hin) as [instr [Hl Hop]].
      rewrite Nat2Z.id in Hl. assert (x = instr) by congruence. subst x.
      exists t. split; [exact Hop|]. lia.
    + right. right. right. exact Hrest.
Qed.

Lemma patch_all_end_rel (H : list Z) (ps : bool) (s0 s : Compiler) (t : Z) :
  rel H ps true s0 s -> top (loop_end_patches s0) = [] ->
  0 <= t <= len (bytecode_chunk s) ->
  wp (patch_all (top (loop_end_patches s)) (IntOperand t))
     (fun _ s' => rel H ps false s0 s' /\ carries s s') s.
Proof.
  intros Hrel Htop Ht.
  eapply wp_conseq; [apply (patch_all_rel H ps true s0 t _ s Hrel)|].
  - eapply grows_top_new; [exact Htop|]. apply (rel_end _ _ _ _ _ Hrel).
  - exact Ht.
  - intros [] s' (Hr & Hcar & Hlen & Hs & He & Hall & _). split; [|exact Hcar].
    eapply rel_allow; [exact Hr|]. intros i x Hi Hx Hjx [Hh|[Hrest|[_ Hin]]].
    + right. left. exact Hh.
    + right. right. left. exact Hrest.
    + left. rewrite He in Hin. destruct (Hall _ Hin) as [instr [Hl Hop]].
      rewrite Nat2Z.id in Hl. assert (x = instr) by congruence. subst x.
      exists t. split; [exact Hop|]. lia.
Qed.

Lemma last_patches_top (f : Compiler -> list (list Z)) (s : Compiler) :
  wp (last_patches f) (fun l s' => s' = s /\ l = top (f s)) s.
Proof.
  unfold last_patches. apply wp_gets.
  destruct (getitem (f s) (-1)) as [l|] eqn:E; [|apply wp_raise].
  destruct (getitem_last _ _ E) as [r Hr]. split; [reflexivity|].
  rewrite Hr, top_snoc. reflexivity.
Qed.

Lemma operand_at_rel (s : Compiler) (idx t : Z) :
  0 <= idx ->
  (exists instr, bytecode_chunk s !! Z.to_nat idx = Some instr
                 /\ operand instr = IntOperand t) ->
  wp (operand_at idx) (fun o s' => s' = s /\ o = IntOperand t) s.
Proof.
  intros H0 [instr [Hl Hop]]. unfold wp, operand_at.
  rewrite getitem_index by exact H0. rewrite Hl. auto.
Qed.

Lemma new_jump_carries (n : nat) (s s' : Compiler) (idx : Z) :
  carries s s' -> new_jump n s idx -> new_jump n s' idx.
Proof. intros Hcar [Hn Hj]. split; [exact Hn|]. apply (car_jump _ _ Hcar). exact Hj. Qed.

Lemma grows_append (n : nat) (s : Compiler) (stack0 r : list (list Z)) (l0 : list Z)
    (a : Z) :
  grows n s stack0 (r ++ [l0]) -> new_jump n s a -> grows n s stack0 (r ++ [l0 ++ [a]]).
Proof.
  intros [E|(init & t & new & E0 & E & Hnew)] Ha.
  - right. exists r, l0, [a]. split; [symmetry; exact E|]. split; [reflexivity|].
    constructor; [exact Ha|constructor].
  - apply app_inj_tail in E. destruct E as [-> ->]. right.
    exists init, t, (new ++ [a]). split; [exact E0|].
    split; [rewrite app_assoc; reflexivity|]. apply Forall_app. split; [exact Hnew|].
    constructor; [exact Ha|constructor].
Qed.

(** [break]: the jump held goes to the break list of the innermost loop. *)
Lemma record_break_rel (H : list Z) (ps : bool) (s0 s : Compiler) (a : Z) :
  rel H ps true s0 s -> new_jump (length (bytecode_chunk s0)) s a ->
  wp (record_break a)
     (fun _ s' => rel (drop_held a H) ps true s0 s' /\ carries s s') s.
Proof.
  intros [Hold Hs He Hj Hop Hc] Ha. unfold wp, record_break, append_to_last.
  destruct (getitem (loop_end_patches s) (-1)) as [l0|] eqn:E; [|exact I].
  destruct (getitem_last _ _ E) as [r Hr].
  destruct (setitem (loop_end_patches s) (-1) (l0 ++ [a])) as [st|] eqn:Est; [|exact I].
  rewrite Hr in Est. apply setitem_last in Est. subst st.
  split; [split; simpl|split; simpl].
  - exact Hold.
  - eapply grows_mono; [|exact Hs]. intros i Hi. exact Hi.
  - rewrite Hr in He. apply grows_append; [|exact Ha].
    eapply grows_mono; [|exact He]. intros i Hi. exact Hi.
  - intros i instr Hi Hl Hjump. rewrite top_snoc.
    destruct (Hj i instr Hi Hl Hjump) as [Hset|[Hh|[Hp|[_ Hin]]]].
    + left. exact Hset.
    + destruct (decide (Z.of_nat i = a)) as [Ea|Hne].
      * right. right. right. split; [reflexivity|]. apply elem_of_app. right.
        apply list_elem_of_singleton. exact Ea.
      * right. left. apply elem_of_drop_held. auto.
    + right. right. left. exact Hp.
    + right. right. right. split; [reflexivity|]. rewrite Hr, top_snoc in Hin.
      apply elem_of_app. left. exact Hin.
  - exact Hop.
  - exact Hc.
  - auto.
  - exists []. rewrite app_nil_r. reflexivity.
  - lia.
Qed.

(** [continue]: the same with the continue list. *)
Lemma record_continue_rel (H : list Z) (pe : bool) (s0 s : Compiler) (a : Z) :
  rel H true pe s0 s -> new_jump (length (bytecode_chunk s0)) s a ->
  wp (record_continue a)
     (fun _ s' => rel (drop_held a H) true pe s0 s' /\ carries s s') s.
Proof.
  intros [Hold Hs He Hj Hop Hc] Ha. unfold wp, record_continue, append_to_last.
  destruct (getitem (loop_start_patches s) (-1)) as [l0|] eqn:E; [|exact I].
  destruct (getitem_last _ _ E) as [r Hr].
  destruct (setitem (loop_start_patches s) (-1) (l0 ++ [a])) as [st|] eqn:Est; [|exact I].
  rewrite Hr in Est. apply setitem_last in Est. subst st.
  split; [split; simpl|split; simpl].
  - exact Hold.
  - rewrite Hr in Hs. apply grows_append; [|exact Ha].
    eapply grows_mono; [|exact Hs]. intros i Hi. exact Hi.
  - eapply grows_mono; [|exact He]. intros i Hi. exact Hi.
  - intros i instr Hi Hl Hjump. rewrite top_snoc.
    destruct (Hj i instr Hi Hl Hjump) as [Hset|[Hh|[[_ Hin]|Hp]]].
    + left. exact Hset.
    + destruct (decide (Z.of_nat i = a)) as [Ea|Hne].
      * right. right. left. split; [reflexivity|]. apply elem_of_app. right.
        apply list_elem_of_singleton. exact Ea.
      * right. left. apply elem_of_drop_held. auto.
    + right. right. left. split; [reflexivity|]. rewrite Hr, top_snoc in Hin.
      apply elem_of_app. left. exact Hin.
    + right. right. right. exact Hp.
  - exact Hop.
  - exact Hc.
  - auto.
  - exists []. rewrite app_nil_r. reflexivity.
  - lia.
Qed.

Lemma rel_no_held (H : list Z) (ps pe : bool) (s0 s : Compiler) :
  rel H ps pe s0 s -> (forall i, i ∈ H -> False) -> rel [] ps pe s0 s.
Proof.
  intros Hrel Hnone. eapply rel_allow; [exact Hrel|].
  intros i instr _ _ _ [Hh|Hrest]; [destruct (Hnone _ Hh)|right; right; exact Hrest].
Qed.

(** The end of a loop: both patch lists of the loop are settled and popped. *)
Lemma loop_exit (H : list Z) (s0 s1 s : Compiler) (k : Z) :
  rel H false false s1 s -> (forall i, i ∈ H -> False) ->
  bytecode_chunk s1 = bytecode_chunk s0 -> constants s1 = constants s0 ->
  loop_start_patches s1 = loop_start_patches s0 ++ [[]] ->
  loop_end_patches s1 = loop_end_patches s0 ++ [[]] ->
  wp (bind pop_loop_start (fun _ => bind pop_loop_end (fun _ => add_loop_level k)))
     (fun _ s' => frame s0 s') s.
Proof.
  intros Hrel Hnone Ec Ek Es Ee.
  assert (Hs : exists x, loop_start_patches s = loop_start_patches s0 ++ [x]).
  { destruct (rel_start _ _ _ _ _ Hrel) as [E|(init & t & new & E0 & E & _)].
    - rewrite E, Es. eauto.
    - rewrite Es in E0. apply app_inj_tail in E0. destruct E0 as [<- _].
      rewrite E. eauto. }
  assert (He : exists y, loop_end_patches s = loop_end_patches s0 ++ [y]).
  { destruct (rel_end _ _ _ _ _ Hrel) as [E|(init & t & new & E0 & E & _)].
    - rewrite E, Ee. eauto.
    - rewrite Ee in E0. apply app_inj_tail in E0. destruct E0 as [<- _].
      rewrite E. eauto. }
  destruct Hs as [x Hs]. destruct He as [y He].
  destruct Hrel as [Hold _ _ Hj Hop Hc]. rewrite Ec in Hold, Hj, Hop. rewrite Ek in Hc.
  unfold wp, bind, pop_loop_start, pop_loop_end, pop_patches, add_loop_level, modify.
  rewrite Hs, list_pop_app. simpl. rewrite He, list_pop_app. simpl.
  split; simpl.
  - exact Hold.
  - left. reflexivity.
  - left. reflexivity.
  - intros i instr Hi Hl Hjump.
    destruct (Hj i instr Hi Hl Hjump) as [Hset|[Hh|[[Hp _]|[Hp _]]]].
    + left. exact Hset.
    + destruct (Hnone _ Hh).
    + discriminate Hp.
    + discriminate Hp.
  - exact Hop.
  - exact Hc.
Qed.

Lemma frame_refl (s : Compiler) : frame s s.
Proof. apply rel_refl. Qed.

Lemma frame_trans (s1 s2 s3 : Compiler) : frame s1 s2 -> frame s2 s3 -> frame s1 s3.
Proof. intros H12 H23. apply (rel_child [] s1 s2 s3 H12 H23). Qed.

Lemma holds_loads (s : Compiler) (op : OpCode) (idx : Z) (v : Const) :
  holds s idx v ->
  exists k c, operand (mkInstruction op (IntOperand idx)) = IntOperand k /\ 0 <= k
              /\ constants s !! Z.to_nat k = Some c.
Proof. intros [H0 [c [Hc _]]]. exists idx, c. auto. Qed.

Lemma holds_names (s : Compiler) (op : OpCode) (idx : Z) (x : string) :
  holds s idx (CStr x) ->
  exists k name, operand (mkInstruction op (IntOperand idx)) = IntOperand k /\ 0 <= k
                 /\ constants s !! Z.to_nat k = Some (CStr name).
Proof.
  intros [H0 [c [Hc Heq]]]. exists idx, x. split; [reflexivity|split; [exact H0|]].
  rewrite Hc. f_equal. destruct Heq as [->|Heq]; [reflexivity|]. apply py_eq_Str, Heq.
Qed.

Lemma OPERATION_INTS_get_plain (key : string) (op : OpCode) :
  OPERATION_INTS_get key = Some op ->
  jump_op op = false /\ loads_op op = false /\ names_op op = false.
Proof.
  unfold OPERATION_INTS_get, OPERATION_INTS. cbn [find fst snd].
  repeat (destruct (String.eqb _ key); [cbn; intros [= <-]; repeat split|]).
  discriminate.
Qed.


Lemma define_params_visits (params : list Token) : visits (define_params params).
Proof.
  induction params as [|p rest IH]; intros s.
  - apply frame_refl.
  - simpl. apply wp_bind.
    eapply wp_conseq;
      [apply (add_constant_rel [] true true s s _ (rel_refl _ _ _ _)); exact I|].
    intros idx s1 (Hr1 & _ & Hh). apply wp_bind.
    eapply wp_conseq; [apply (emit_rel _ _ _ _ _ _ _ _ Hr1)|].
    + discriminate.
    + split; intros Hop; [discriminate Hop|]. eapply holds_names. exact Hh.
    + intros [] s2 [Hr2 _]. eapply wp_conseq; [apply IH|].
      intros [] s3 Hf. eapply frame_trans; eauto.
Qed.

Lemma for_each_visits {A} (l : list A) (body : A -> M unit) :
  Forall (fun x => visits (body x)) l -> visits (for_each l body).
Proof.
  induction 1 as [|x l Hx Hl IH]; intros s.
  - apply frame_refl.
  - change (for_each (x :: l) body) with (bind (body x) (fun _ => for_each l body)).
    apply wp_bind. eapply wp_conseq; [apply (Hx s)|].
    intros [] s1 Hf1. eapply wp_conseq; [apply (IH s1)|].
    intros [] s2 Hf2. eapply frame_trans; eauto.
Qed.

Lemma statement_visits (m : M unit) (b : bool) :
  visits m -> visits (bind m (fun _ => when b (emit OP_POP NoOperand None))).
Proof.
  intros Hm s. apply wp_bind. eapply wp_conseq; [apply (Hm s)|].
  intros [] s1 Hf1. destruct b; simpl; [|exact Hf1].
  eapply wp_conseq; [apply (emit_rel _ _ _ _ _ _ _ _ Hf1)|].
  - discriminate.
  - split; discriminate.
  - intros [] s2 [Hf2 _]. exact Hf2.
Qed.

Lemma child_rel (H : list Z) (s0 s : Compiler) (m : M unit) :
  rel H true true s0 s -> visits m ->
  wp m (fun _ s' => rel H true true s0 s' /\ carries s s') s.
Proof.
  intros Hrel Hm. eapply wp_conseq; [apply (Hm s)|].
  intros [] s' Hframe. eapply rel_child; eauto.
Qed.
(** The steps of a proof that follows a method of the compiler: the
    context holds [rel held ps pe s0 s] for the state [s] reached so far. *)
Ltac carry Hcar :=
  lazymatch type of Hcar with
  | carries ?s ?s' =>
      repeat match goal with
             | H : new_jump _ s _ |- _ => apply (new_jump_carries _ s s' _ Hcar) in H
             | H : holds s _ _ |- _ => apply (holds_carries s s' _ _ Hcar) in H
             end;
      let Hlen := fresh "Hlen" in
      pose proof (car_length _ _ Hcar) as Hlen; clear Hcar
  end.

Ltac lengths :=
  repeat match goal with
         | |- context [len ?l] =>
             lazymatch goal with
             | _ : 0 <= len l |- _ => fail
             | _ => pose proof (len_nonneg l)
             end
         end;
  lia.

Ltac solve_operand_ok :=
  split; intros Hop; simpl in Hop;
  first [ discriminate Hop
        | congruence
        | eapply holds_names; eassumption
        | eapply holds_loads; eassumption ].

Ltac solve_settled :=
  intros Hjump;
  first [ discriminate Hjump
        | congruence
        | eexists; split; [reflexivity | simpl; lengths] ].

Ltac solve_func_ok :=
  lazymatch goal with
  | |- func_ok _ (Const_of_number ?v) => destruct v; exact I
  | |- func_ok _ (CFunc _) =>
      let Hn := fresh "Hn" in
      simpl; intros Hn;
      first [discriminate Hn | eexists; split; [reflexivity | lengths]]
  | |- func_ok _ _ => exact I
  end.

Ltac wside :=
  lazymatch goal with
  | |- True => exact I
  | |- new_jump _ _ _ => eassumption
  | |- func_ok _ _ => solve_func_ok
  | |- operand_ok _ _ => solve_operand_ok
  | |- jump_op _ = true -> settled _ _ => solve_settled
  | |- jump_op _ = true => reflexivity
  | |- top _ = [] => assumption
  | |- @eq _ _ _ => reflexivity
  | |- visits _ => first [assumption | apply define_params_visits]
  | |- _ <= _ <= _ => lengths
  | |- 0 <= _ => lengths
  | |- match _ with Some _ => _ | None => True end => first [exact I | simpl; lengths]
  | |- exists instr, _ !! _ = Some instr /\ _ => eassumption
  | |- _ => idtac
  end.

Ltac wafter :=
  let Hcar := fresh "Hcar" in
  first [ intros ? ? (? & Hcar & ?) | intros ? ? (? & Hcar) ];
  carry Hcar;
  repeat match goal with
         | H : _ /\ _ |- _ => destruct H
         end;
  subst.

Ltac held_empty :=
  let i := fresh "i" in
  let Hi := fresh "Hi" in
  intros i Hi;
  repeat match goal with
         | H : _ ∈ drop_held _ _ |- _ => apply elem_of_drop_held in H; destruct H
         | H : _ ∈ _ :: _ |- _ => apply elem_of_cons in H; destruct H
         | H : _ ∈ [] |- _ => inversion H
         end;
  congruence.

Ltac wstep_with lem :=
  lazymatch goal with
  | Hcum : rel _ _ _ _ ?s |- wp (bind _ _) _ ?s =>
      apply wp_bind; eapply wp_conseq;
      [ eapply lem; [exact Hcum | wside ..] | cbv beta; wafter; clear Hcum ]
  end.

Ltac wfinish :=
  lazymatch goal with
  | Hcum : rel _ true true ?s0 ?s |- wp (ret _) _ ?s =>
      exact (rel_no_held _ _ _ _ _ Hcum ltac:(held_empty))
  end.

Ltac wstep :=
  lazymatch goal with
  | |- wp (bind (gets _) _) _ _ => apply wp_gets; cbv beta
  | |- wp (bind (ret _) _) _ _ => apply wp_ret_bind; cbv beta
  | |- wp (bind (bind _ _) _) _ _ => apply wp_bind_assoc
  | |- wp (bind (Compiler_add_constant _) _) _ _ => wstep_with add_constant_rel
  | |- wp (bind (emit_instruction _ _ _) _) _ _ => wstep_with emit_instruction_rel
  | |- wp (bind (emit _ _ _) _) _ _ => wstep_with emit_rel
  | |- wp (bind (add_scope_depth _) _) _ _ =>
      unfold add_scope_depth at 1; wstep_with modify_rel
  | |- wp (bind (modify (set_scope_depth _)) _) _ _ => wstep_with modify_rel
  | |- wp (bind (record_break _) _) _ _ => wstep_with record_break_rel
  | |- wp (bind (record_continue _) _) _ _ => wstep_with record_continue_rel
  | |- wp (bind (patch_jump _ _) _) _ _ => wstep_with patch_jump_rel
  | |- wp (bind (patch_all (top (loop_start_patches _)) _) _) _ _ =>
      wstep_with patch_all_start_rel
  | |- wp (bind (patch_all (top (loop_end_patches _)) _) _) _ _ =>
      wstep_with patch_all_end_rel
  | |- wp (bind (last_patches _) _) _ _ =>
      apply wp_bind; eapply wp_conseq;
      [apply last_patches_top | cbv beta; intros ? ? [-> ->]]
  | |- wp (bind (operand_at _) _) _ _ =>
      apply wp_bind; eapply wp_conseq;
      [eapply operand_at_rel; wside | cbv beta; intros ? ? [-> ->]]
  | |- wp (bind (define_params _) _) _ _ => wstep_with child_rel
  | |- wp (bind (_compile_node _) _) _ _ => wstep_with child_rel
  | |- wp (bind (for_each _ _) _) _ _ => wstep_with child_rel
  | |- wp (bind pop_loop_start _) _ _ =>
      eapply loop_exit; [eassumption | held_empty | assumption ..]
  | |- wp (bind (when ?b _) _) _ _ => unfold when at 1
  | |- wp (bind (if ?b then _ else _) _) _ _ => destruct b eqn:?
  | |- wp (bind (match ?o with Some _ => _ | None => _ end) _) _ _ => destruct o eqn:?
  | |- wp (bind _ _) _ _ => fail "no rule"
  | |- wp (raise _) _ _ => apply wp_raise
  | |- wp (ret _) _ _ => wfinish
  | |- wp (if ?b then _ else _) _ _ => destruct b eqn:?
  | |- wp (match ?o with Some _ => _ | None => _ end) _ _ => destruct o eqn:?
  | |- wp (match ?l with [] => _ | _ :: _ => _ end) _ _ => destruct l
  | |- wp _ _ _ => apply wp_last
  end.

Ltac plain_ops :=
  repeat match goal with
         | H : OPERATION_INTS_get _ = Some _ |- _ =>
             apply OPERATION_INTS_get_plain in H; destruct H as (? & ? & ?)
         end.

Lemma _compile_node_visits (node : ASTNode) : visits (_compile_node node).
Proof.
  induction node as [node IH] using ASTNode_children_ind.
  intros s0. pose proof (rel_refl [] true true s0) as Hcum.
  destruct node as [statements t|name initializer c t|name v t|name t
    |condition then_branch else_branch t|v t|v t|op operand t|elements t|v t
    |l op r t|l op r t|l op r t|condition body t|t|t|start end_ step t
    |x iterable body t|params body t|name params body t
    |callee arguments keywords t|collection index t|collection index v t|v t
    |object attr t]; cbn [children] in IH;
    repeat match goal with
           | o : option ASTNode |- _ => destruct o; cbn [option_list option_rect] in IH
           end;
    repeat match goal with
           | H : Forall _ (_ :: _) |- _ =>
               apply Forall_cons in H; destruct H
           | H : Forall _ [] |- _ => clear H
           end;
    try destruct c;
    cbn [_compile_node is_not_None].
  all: try solve [repeat (wstep; plain_ops)].
  - assert (Hloop : visits (for_each statements (fun statement_node =>
              bind (_compile_node statement_node) (fun _ =>
                when (is_Expr statement_node) (emit OP_POP NoOperand None))))).
    { apply for_each_visits. eapply Forall_impl; [exact IH|].
      intros x Hx. apply statement_visits. exact Hx. }
    destruct t; cbn [is_not_None when]; repeat wstep.
  - assert (Hloop : visits (for_each elements (fun element_expr =>
              _compile_node element_expr))).
    { apply for_each_visits. exact IH. }
    repeat wstep.
  - unfold add_loop_level at 1. do 3 apply wp_modify.
    match goal with |- wp _ _ ?s => remember s as s1 eqn:Es1 end.
    assert (Ec : bytecode_chunk s1 = bytecode_chunk s0) by (subst s1; reflexivity).
    assert (Ek : constants s1 = constants s0) by (subst s1; reflexivity).
    assert (Es : loop_start_patches s1 = loop_start_patches s0 ++ [[]])
      by (subst s1; reflexivity).
    assert (Ee : loop_end_patches s1 = loop_end_patches s0 ++ [[]])
      by (subst s1; reflexivity).
    assert (Hts : top (loop_start_patches s1) = []) by (rewrite Es; apply top_snoc).
    assert (Hte : top (loop_end_patches s1) = []) by (rewrite Ee; apply top_snoc).
    clear Es1 Hcum. pose proof (rel_refl [] true true s1) as Hcum.
    repeat wstep.
  - unfold add_loop_level at 1. do 3 apply wp_modify.
    match goal with |- wp _ _ ?s => remember s as s1 eqn:Es1 end.
    assert (Ec : bytecode_chunk s1 = bytecode_chunk s0) by (subst s1; reflexivity).
    assert (Ek : constants s1 = constants s0) by (subst s1; reflexivity).
    assert (Es : loop_start_patches s1 = loop_start_patches s0 ++ [[]])
      by (subst s1; reflexivity).
    assert (Ee : loop_end_patches s1 = loop_end_patches s0 ++ [[]])
      by (subst s1; reflexivity).
    assert (Hts : top (loop_start_patches s1) = []) by (rewrite Es; apply top_snoc).
    assert (Hte : top (loop_end_patches s1) = []) by (rewrite Ee; apply top_snoc).
    clear Es1 Hcum. pose proof (rel_refl [] true true s1) as Hcum.
    repeat wstep.
  - apply Forall_app in H0. destruct H0 as [Hargs Hkws].
    assert (Hloop1 : visits (for_each arguments (fun arg => _compile_node arg))).
    { apply for_each_visits. exact Hargs. }
    assert (Hloop2 : visits (for_each keywords (fun '(_, kw_value) =>
              _compile_node kw_value))).
    { apply for_each_visits. clear -Hkws.
      induction keywords as [|[k x] rest IHrest]; [constructor|].
      simpl in Hkws. apply Forall_cons in Hkws. destruct Hkws as [Hx Hrest].
      constructor; [exact Hx|apply IHrest; exact Hrest]. }
    repeat wstep.
Qed.

(** *** A whole compilation *)

Ltac wsteps_to_return :=
  repeat lazymatch goal with
         | |- wp (bind (emit OP_RETURN _ _) (fun _ => gets _)) _ _ => fail
         | |- _ => wstep
         end.

(** [compile] returns the chunk of a state reached by whole steps from the
    empty compiler, with [OP_RETURN] appended. *)
Lemma compile_frame (program : ASTNode) (chunk : list Instruction) (consts : list Const) :
  compile_program program = inr (chunk, consts) ->
  exists s, frame reset s
    /\ chunk = bytecode_chunk s ++ [mkInstruction OP_RETURN NoOperand]
    /\ consts = constants s.
Proof.
  unfold compile_program.
  destruct (compile program Compiler_new) as [e|[r s]] eqn:E; [discriminate|].
  intros [= ->].
  assert (Hwp : wp (compile program)
            (fun r _ => exists s, frame reset s
               /\ r.1 = bytecode_chunk s ++ [mkInstruction OP_RETURN NoOperand]
               /\ r.2 = constants s)
            Compiler_new).
  { unfold compile. apply wp_modify.
    pose proof (rel_refl [] true true reset) as Hcum.
    pose proof (_compile_node_visits program) as Hprogram.
    cbn [_initialize_builtins initialize_from BUILTINS].
    wsteps_to_return.
    lazymatch goal with
    | Hfin : rel _ true true reset ?s |- wp _ _ ?s =>
        let last := fresh "last" in
        let Elast := fresh "Elast" in
        let Hc := fresh "Hc" in
        let Hk := fresh "Hk" in
        destruct (emit_instruction_state OP_RETURN NoOperand None s)
          as [last [Elast [Hc [Hk _]]]];
        unfold wp, emit, bind, gets; rewrite Elast; simpl; rewrite Hc, Hk;
        exists s; split; [exact (rel_no_held _ _ _ _ _ Hfin ltac:(held_empty))|];
        split; reflexivity
    end. }
  exact (wp_inv _ _ _ _ _ Hwp E).
Qed.

Lemma lookup_kept_prefix {A} (l l' : list A) :
  (forall i x, l !! i = Some x -> l' !! i = Some x) -> exists body, l' = l ++ body.
Proof.
  intros Hkept. exists (drop (length l) l').
  rewrite <- (take_drop (length l) l') at 1. f_equal. apply list_eq. intros i.
  destruct (decide (i < length l)%nat) as [Hi|Hi].
  - rewrite lookup_take_lt by exact Hi.
    destruct (lookup_lt_is_Some_2 _ _ Hi) as [x Hx]. rewrite Hx. apply Hkept. exact Hx.
  - rewrite lookup_take_ge by lia. symmetry. apply lookup_ge_None. lia.
Qed.

Lemma grows_length (n : nat) (s : Compiler) (stack0 stack : list (list Z)) :
  grows n s stack0 stack -> length stack = length stack0.
Proof.
  intros [->|(init & t & new & -> & -> & _)]; [reflexivity|].
  rewrite !length_app. reflexivity.
Qed.

Lemma grows_nil (n : nat) (s : Compiler) (stack : list (list Z)) :
  grows n s [] stack -> stack = [].
Proof.
  intros [->|(init & t & new & E & _)]; [reflexivity|].
  destruct init; discriminate E.
Qed.

(** X16: every jump of a compiled program lands inside the chunk: the
    operand of each [OP_JUMP], [OP_JUMP_IF_FALSE] and
    [OP_ITER_NEXT_OR_JUMP] that [compile] returns is the index of an
    instruction of the chunk. *)
Theorem jumps_land_inside_the_chunk (program : ASTNode) (chunk : list Instruction)
    (consts : list Const) (i : nat) (instr : Instruction) :
  compile_program program = inr (chunk, consts) ->
  chunk !! i = Some instr -> jump_op (opcode instr) = true ->
  exists t, operand instr = IntOperand t /\ 0 <= t < len chunk.
Proof.
  intros Hcompile Hi Hjump.
  destruct (compile_frame _ _ _ Hcompile) as [s [Hframe [-> _]]].
  destruct Hframe as [_ Hs He Hj _ _].
  apply grows_nil in Hs. apply grows_nil in He.
  apply lookup_app_Some in Hi. destruct Hi as [Hi|[Hge Hi]].
  - destruct (Hj i instr ltac:(simpl; lia) Hi Hjump)
      as [[t [Ht Hr]]|[Hh|[[_ Hin]|[_ Hin]]]].
    + exists t. split; [exact Ht|]. rewrite len_app. unfold len at 2. simpl. lia.
    + inversion Hh.
    + rewrite Hs in Hin. inversion Hin.
    + rewrite He in Hin. inversion Hin.
  - destruct (i - length (bytecode_chunk s))%nat as [|k]; simpl in Hi.
    + injection Hi as <-. discriminate Hjump.
    + destruct k; discriminate Hi.
Qed.

Lemma jumps_land_inside_the_chunk_witness :
  exists t, operand (mkInstruction OP_JUMP (IntOperand 35)) = IntOperand t
            /\ 0 <= t < len first_over_chunk.
Proof.
  exact (jumps_land_inside_the_chunk first_over first_over_chunk first_over_consts
           27%nat (mkInstruction OP_JUMP (IntOperand 35))
           ltac:(vm_compute; reflexivity) eq_refl eq_refl).
Defined.

(** X17: in a compiled program each instruction that makes the machine
    read the constants table has the index of a constant as its operand:
    [OP_CONST] an index of the table, and the instructions that define,
    read or assign a variable or read an attribute the index of a string. *)
Theorem operands_index_the_constants (program : ASTNode) (chunk : list Instruction)
    (consts : list Const) (i : nat) (instr : Instruction) :
  compile_program program = inr (chunk, consts) ->
  chunk !! i = Some instr ->
  (opcode instr = OP_CONST ->
   exists k c, operand instr = IntOperand k /\ getitem consts k = Some c)
  /\ (names_op (opcode instr) = true ->
      exists k name, operand instr = IntOperand k
                     /\ getitem consts k = Some (CStr name)).
Proof.
  intros Hcompile Hi.
  destruct (compile_frame _ _ _ Hcompile) as [s [Hframe [-> ->]]].
  destruct Hframe as [_ _ _ _ Hop _].
  assert (Hok : operand_ok (constants s) instr).
  { apply lookup_app_Some in Hi. destruct Hi as [Hi|[Hge Hi]].
    - apply (Hop i instr); [simpl; lia|exact Hi].
    - destruct (i - length (bytecode_chunk s))%nat as [|k]; simpl in Hi.
      + injection Hi as <-. split; discriminate.
      + destruct k; discriminate Hi. }
  destruct Hok as [Hl Hn]. split.
  - intros E. destruct (Hl ltac:(rewrite E; reflexivity)) as [k [c [Hk [H0 Hc]]]].
    exists k, c. split; [exact Hk|]. rewrite getitem_index by exact H0. exact Hc.
  - intros E. destruct (Hn E) as [k [name [Hk [H0 Hc]]]].
    exists k, name. split; [exact Hk|]. rewrite getitem_index by exact H0. exact Hc.
Qed.

Lemma operands_index_the_constants_witness :
  exists k name, operand (mkInstruction OP_SET_LOCAL (IntOperand 14)) = IntOperand k
                 /\ getitem first_over_consts k = Some (CStr name).
Proof.
  exact (proj2 (operands_index_the_constants first_over first_over_chunk
                  first_over_consts 32%nat (mkInstruction OP_SET_LOCAL (IntOperand 14))
                  ltac:(vm_compute; reflexivity) eq_refl) eq_refl).
Defined.

(** X18: every function that a compiled program defines starts inside the
    chunk: a function constant of the table that is not native has a
    [start_ip], the index of an instruction of the chunk. *)
Theorem functions_start_inside_the_chunk (program : ASTNode)
    (chunk : list Instruction) (consts : list Const) (f : PyleFunction) :
  compile_program program = inr (chunk, consts) ->
  CFunc f ∈ consts -> native_fn f = None ->
  exists start, start_ip f = Some start /\ 0 <= start < len chunk.
Proof.
  intros Hcompile Hin Hnative.
  destruct (compile_frame _ _ _ Hcompile) as [s [Hframe [-> ->]]].
  destruct Hframe as [_ _ _ _ _ [more [Hc Hf]]]. simpl in Hc. rewrite Hc in Hin.
  rewrite Forall_forall in Hf. destruct (Hf _ Hin Hnative) as [start [Hs Hr]].
  exists start. split; [exact Hs|]. rewrite len_app. unfold len at 2. simpl. lia.
Qed.

Lemma functions_start_inside_the_chunk_witness :
  exists start,
    start_ip (mkPyleFunction "first_over" 1 (Some 14) None) = Some start
    /\ 0 <= start < len first_over_chunk.
Proof.
  exact (functions_start_inside_the_chunk first_over first_over_chunk first_over_consts
           (mkPyleFunction "first_over" 1 (Some 14) None)
           ltac:(vm_compute; reflexivity)
           ltac:(unfold first_over_consts; repeat constructor) eq_refl).
Defined.

(** X19: a visit only appends: the chunk after [_compile_node] is the
    chunk before followed by new instructions, whatever jumps the visit
    patches, the constants table is the table before followed by new
    constants, and both stacks of patch lists have the height they had. *)
Theorem compile_node_only_appends (node : ASTNode) (self self' : Compiler) :
  _compile_node node self = inr (tt, self') ->
  (exists body, bytecode_chunk self' = bytecode_chunk self ++ body)
  /\ (exists more, constants self' = constants self ++ more)
  /\ length (loop_start_patches self') = length (loop_start_patches self)
  /\ length (loop_end_patches self') = length (loop_end_patches self).
Proof.
  intros E. pose proof (wp_inv _ _ _ _ _ (_compile_node_visits node self) E) as Hframe.
  destruct Hframe as [Hold Hs He _ _ [more [Hc _]]].
  split; [apply lookup_kept_prefix; exact Hold|]. split; [eauto|].
  split; eapply grows_length; eauto.
Qed.

Lemma compile_node_only_appends_witness :
  (exists body, bytecode_chunk first_over_body = bytecode_chunk inside_scope ++ body)
  /\ (exists more, constants first_over_body = constants inside_scope ++ more)
  /\ length (loop_start_patches first_over_body) = length (loop_start_patches inside_scope)
  /\ length (loop_end_patches first_over_body) = length (loop_end_patches inside_scope).
Proof.
  exact (compile_node_only_appends first_over inside_scope first_over_body
           ltac:(vm_compute; reflexivity)).
Defined.

(** *** Integers as exact numbers *)

Lemma odd_part_value (p : positive) :
  forall e0, 0 <= e0 ->
    Z.pos p * 2 ^ e0 = Z.pos (odd_part p e0).1 * 2 ^ (odd_part p e0).2
    /\ 0 <= (odd_part p e0).2.
Proof.
  induction p as [p IH|p IH|]; intros e0 He0; simpl; try (split; [reflexivity|exact He0]).
  destruct (IH (e0 + 1) ltac:(lia)) as [Hv Hnn]. split; [|exact Hnn].
  rewrite <- Hv. rewrite Z.pow_add_r by lia. lia.
Qed.

Lemma exact_of_Z_value (x : Z) :
  x = 0 /\ exact_of_Z x = ExZero
  \/ exists s m e, exact_of_Z x = ExFin s m e /\ 0 <= e
                   /\ x = cond_Zopp s (Z.pos m * 2 ^ e).
Proof.
  destruct x as [|p|p]; [left; auto|right|right]; unfold exact_of_Z;
    destruct (odd_part_value p 0 ltac:(lia)) as [Hv Hnn];
    destruct (odd_part p 0) as [m e]; simpl in *.
  - exists false, m, e. split; [reflexivity|]. split; [exact Hnn|]. simpl. lia.
  - exists true, m, e. split; [reflexivity|]. split; [exact Hnn|]. simpl. lia.
Qed.

Lemma exact_of_Z_inj (a b : Z) : exact_of_Z a = exact_of_Z b -> a = b.
Proof.
  intros E.
  destruct (exact_of_Z_value a) as [[-> Ha]|(sa & ma & ea & Ha & _ & Hva)];
    destruct (exact_of_Z_value b) as [[-> Hb]|(sb & mb & eb & Hb & _ & Hvb)];
    try reflexivity; congruence.
Qed.

Lemma mul_compare_r (n m p : Z) : 0 < p -> (n * p ?= m * p) = (n ?= m).
Proof.
  intros Hp. destruct (Z.compare_spec n m) as [->|Hlt|Hgt].
  - apply Z.compare_refl.
  - apply Z.compare_lt_iff. nia.
  - apply Z.compare_gt_iff. nia.
Qed.

(** The order of two integers as exact numbers is their order. *)
Lemma exact_compare_Z (x y : Z) :
  VM.exact_compare (exact_of_Z x) (exact_of_Z y) = (x ?= y).
Proof.
  assert (Hscale : forall s m e e0, 0 <= e0 <= e ->
    cond_Zopp s (Z.pos m * 2 ^ e) = cond_Zopp s (Z.pos m * 2 ^ (e - e0)) * 2 ^ e0).
  { intros s m e e0 He. replace e with ((e - e0) + e0) at 1 by lia.
    rewrite Z.pow_add_r by lia. destruct s; simpl; lia. }
  destruct (exact_of_Z_value x) as [[-> Hx]|(sx & mx & ex & Hx & Hex & Hvx)];
    destruct (exact_of_Z_value y) as [[-> Hy]|(sy & my & ey & Hy & Hey & Hvy)];
    rewrite ?Hx, ?Hy; unfold VM.exact_compare.
  - reflexivity.
  - rewrite Z.min_id, Hvy, (Hscale sy my ey ey) by lia.
    rewrite <- (mul_compare_r 0 (cond_Zopp sy (Z.pos my * 2 ^ (ey - ey))) (2 ^ ey))
      by (apply Z.pow_pos_nonneg; lia).
    reflexivity.
  - rewrite Z.min_id, Hvx, (Hscale sx mx ex ex) by lia.
    rewrite <- (mul_compare_r (cond_Zopp sx (Z.pos mx * 2 ^ (ex - ex))) 0 (2 ^ ex))
      by (apply Z.pow_pos_nonneg; lia).
    reflexivity.
  - set (e0 := Z.min ex ey).
    rewrite Hvx, Hvy, (Hscale sx mx ex e0), (Hscale sy my ey e0) by (unfold e0; lia).
    symmetry. apply mul_compare_r. apply Z.pow_pos_nonneg; unfold e0; lia.
Qed.

Lemma num_compare_Z (c : VM.CompareOp) (x y : Z) :
  VM.num_compare c (VM.NumZ x) (VM.NumZ y) = VM.holds c (x ?= y).
Proof. unfold VM.num_compare. simpl. rewrite exact_compare_Z. reflexivity. Qed.

Lemma num_eq_Z (x y : Z) : VM.num_eq (VM.NumZ x) (VM.NumZ y) = (x =? y).
Proof.
  unfold VM.num_eq. simpl. destruct (x =? y) eqn:E.
  - apply Z.eqb_eq in E. subst y. apply same_number_true. eauto.
  - destruct (same_number _ _) eqn:Es; [|reflexivity].
    apply same_number_true in Es. destruct Es as [e [[= <-] [= Ey]]].
    symmetry in Ey. apply exact_of_Z_inj in Ey. apply Z.eqb_neq in E. congruence.
Qed.

(** ** Straight-line programs run as written *)

Lemma run_step (host : VM.Host) (n : nat) (vm vm' : VM.PyleVM) (instr : Instruction) :
  0 <= VM.ip vm ->
  VM.bytecode_chunk vm !! Z.to_nat (VM.ip vm) = Some instr ->
  VM.execute host (opcode instr) (operand instr) (VM.set_ip (VM.ip vm + 1) vm)
  = VM.Next tt vm' ->
  VM._run host (S n) vm = VM._run host n vm'.
Proof.
  intros H0 Hinstr Hexec. cbn [VM._run].
  erewrite iteration_fetch; [|exact H0|exact Hinstr]. rewrite Hexec. reflexivity.
Qed.

(** A run that has returned returns the same with more fuel. *)
Lemma run_more (host : VM.Host) (n k : nat) (vm vm' : VM.PyleVM) (r : VM.Result) :
  VM._run host n vm = VM.Return_ r vm' -> VM._run host (n + k) vm = VM.Return_ r vm'.
Proof.
  revert vm. induction n as [|n IH]; intros vm H; [discriminate H|].
  simpl in *. destruct (VM.iteration host vm) as [[] vm1|r1 vm1|e].
  - apply IH. exact H.
  - exact H.
  - exact H.
Qed.

Ltac fetch_step pc_nonneg Hinstr :=
  eapply run_step; [exact pc_nonneg | exact Hinstr |];
  unfold VM.set_ip;
  cbn [opcode operand VM.execute VM.bytecode_chunk VM.constants VM.ip VM.stack
       VM.globals VM.environments VM.frames VM.heap].

Section Steps.

Context (host : VM.Host) (n : nat) (chunk : list Instruction)
  (values : list VM.Value) (pc : Z) (g : VM.Scope) (fs : list VM.CallFrame)
  (h : VM.Heap).
Hypothesis pc_nonneg : 0 <= pc.

Lemma run_ENTER_SCOPE (st : list VM.Value) (envs : list VM.Scope) :
  chunk !! Z.to_nat pc = Some (mkInstruction OP_ENTER_SCOPE NoOperand) ->
  VM._run host (S n) (VM.mkVM chunk values pc st g envs fs h)
  = VM._run host n (VM.mkVM chunk values (pc + 1) st g (envs ++ [[]]) fs h).
Proof.
  intros Hinstr. fetch_step pc_nonneg Hinstr. reflexivity.
Qed.

Lemma run_GET_LOCAL (st : list VM.Value) (envs : list VM.Scope) (i : Z) (x : string)
    (var : VM.PyleVariable) :
  chunk !! Z.to_nat pc = Some (mkInstruction OP_GET_LOCAL (IntOperand i)) ->
  getitem values i = Some (VM.VStr x) ->
  VM.find_local (rev envs) (VM.VStr x) = VM.PyOk (Some var) ->
  VM._run host (S n) (VM.mkVM chunk values pc st g envs fs h)
  = VM._run host n (VM.mkVM chunk values (pc + 1) (st ++ [VM.value var]) g envs fs h).
Proof.
  intros Hinstr Hc Hvar. fetch_step pc_nonneg Hinstr.
  unfold VM.vbind, VM.constant, VM.read, VM.lift.
  cbn [VM.constants]. rewrite Hc. cbn [VM.environments].
  rewrite Hvar. reflexivity.
Qed.

Lemma run_DEF_LOCAL (st : list VM.Value) (outer : list VM.Scope) (scope : VM.Scope)
    (i : Z) (x : string) (v : VM.Value) :
  chunk !! Z.to_nat pc = Some (mkInstruction OP_DEF_LOCAL (IntOperand i)) ->
  getitem values i = Some (VM.VStr x) ->
  VM._run host (S n) (VM.mkVM chunk values pc (st ++ [v]) g (outer ++ [scope]) fs h)
  = VM._run host n
      (VM.mkVM chunk values (pc + 1) st g
         (outer ++ [VM.dict_set scope (VM.VStr x) (VM.mkVariable (VM.VStr x) v false)])
         fs h).
Proof.
  intros Hinstr Hc. fetch_step pc_nonneg Hinstr.
  unfold VM.def_local.
  unfold VM.vbind at 1. unfold VM.constant at 1.
  cbn [VM.constants]. rewrite Hc.
  unfold VM.vbind at 1. unfold VM.read at 1. cbn [VM.environments].
  rewrite list_pop_app.
  unfold VM.vbind at 1. erewrite need_one by reflexivity.
  unfold VM.vbind at 1. erewrite pop_top by reflexivity.
  reflexivity.
Qed.

Lemma run_SET_LOCAL (st : list VM.Value) (envs : list VM.Scope) (i : Z) (x : string)
    (v : VM.Value) (rev_envs' : list VM.Scope) :
  chunk !! Z.to_nat pc = Some (mkInstruction OP_SET_LOCAL (IntOperand i)) ->
  getitem values i = Some (VM.VStr x) ->
  VM.assign_local (rev envs) (VM.VStr x) v = VM.PyOk (VM.Assigned rev_envs') ->
  VM._run host (S n) (VM.mkVM chunk values pc (st ++ [v]) g envs fs h)
  = VM._run host n (VM.mkVM chunk values (pc + 1) st g (rev rev_envs') fs h).
Proof.
  intros Hinstr Hc Hassign. fetch_step pc_nonneg Hinstr.
  unfold VM.vbind at 1. unfold VM.constant at 1.
  cbn [VM.constants]. rewrite Hc.
  unfold VM.vbind at 1. erewrite need_one by reflexivity.
  unfold VM.vbind at 1. erewrite pop_top by reflexivity.
  unfold VM.vbind at 1. unfold VM.read at 1.
  cbn [VM.environments VM.set_stack]. unfold VM.vbind at 1.
  rewrite Hassign. reflexivity.
Qed.

Lemma run_EXIT_SCOPE (st : list VM.Value) (outer : list VM.Scope) (scope : VM.Scope) :
  chunk !! Z.to_nat pc = Some (mkInstruction OP_EXIT_SCOPE NoOperand) ->
  VM._run host (S n) (VM.mkVM chunk values pc st g (outer ++ [scope]) fs h)
  = VM._run host n (VM.mkVM chunk values (pc + 1) st g outer fs h).
Proof.
  intros Hinstr. fetch_step pc_nonneg Hinstr.
  unfold VM.vbind at 1. unfold VM.read at 1. cbn [VM.environments].
  rewrite list_pop_app. reflexivity.
Qed.

Lemma run_JUMP (st : list VM.Value) (envs : list VM.Scope) (target : Z) :
  chunk !! Z.to_nat pc = Some (mkInstruction OP_JUMP (IntOperand target)) ->
  VM._run host (S n) (VM.mkVM chunk values pc st g envs fs h)
  = VM._run host n (VM.mkVM chunk values target st g envs fs h).
Proof. intros Hinstr. fetch_step pc_nonneg Hinstr. reflexivity. Qed.

Lemma run_JUMP_IF_FALSE (st : list VM.Value) (envs : list VM.Scope) (target : Z)
    (b : bool) :
  chunk !! Z.to_nat pc = Some (mkInstruction OP_JUMP_IF_FALSE (IntOperand target)) ->
  VM._run host (S n) (VM.mkVM chunk values pc (st ++ [VM.VBool b]) g envs fs h)
  = VM._run host n
      (VM.mkVM chunk values (if b then pc + 1 else target) st g envs fs h).
Proof.
  intros Hinstr. fetch_step pc_nonneg Hinstr.
  unfold VM.vbind at 1. erewrite need_one by reflexivity.
  unfold VM.vbind at 1. erewrite pop_top by reflexivity.
  destruct b; reflexivity.
Qed.

Lemma run_NEGATE (st : list VM.Value) (envs : list VM.Scope) (x : Z) :
  chunk !! Z.to_nat pc = Some (mkInstruction OP_NEGATE NoOperand) ->
  VM._run host (S n) (VM.mkVM chunk values pc (st ++ [VM.VInt x]) g envs fs h)
  = VM._run host n (VM.mkVM chunk values (pc + 1) (st ++ [VM.VInt (- x)]) g envs fs h).
Proof.
  intros Hinstr. fetch_step pc_nonneg Hinstr.
  cbn [opcode operand VM.execute].
  unfold VM.vbind at 1. erewrite need_one by reflexivity.
  unfold VM.vbind at 1. erewrite pop_top by reflexivity.
  reflexivity.
Qed.

Lemma run_ADD (st : list VM.Value) (envs : list VM.Scope) (x y : Z) :
  chunk !! Z.to_nat pc = Some (mkInstruction OP_ADD NoOperand) ->
  VM._run host (S n) (VM.mkVM chunk values pc (st ++ [VM.VInt x; VM.VInt y]) g envs fs h)
  = VM._run host n (VM.mkVM chunk values (pc + 1) (st ++ [VM.VInt (x + y)]) g envs fs h).
Proof.
  intros Hinstr. fetch_step pc_nonneg Hinstr.
  unfold VM.binary.
  erewrite pop_two by reflexivity. reflexivity.
Qed.

Lemma run_SUBTRACT (st : list VM.Value) (envs : list VM.Scope) (x y : Z) :
  chunk !! Z.to_nat pc = Some (mkInstruction OP_SUBTRACT NoOperand) ->
  VM._run host (S n) (VM.mkVM chunk values pc (st ++ [VM.VInt x; VM.VInt y]) g envs fs h)
  = VM._run host n (VM.mkVM chunk values (pc + 1) (st ++ [VM.VInt (x - y)]) g envs fs h).
Proof.
  intros Hinstr. fetch_step pc_nonneg Hinstr.
  unfold VM.binary.
  erewrite pop_two by reflexivity. reflexivity.
Qed.

Lemma run_MULTIPLY (st : list VM.Value) (envs : list VM.Scope) (x y : Z) :
  chunk !! Z.to_nat pc = Some (mkInstruction OP_MULTIPLY NoOperand) ->
  VM._run host (S n) (VM.mkVM chunk values pc (st ++ [VM.VInt x; VM.VInt y]) g envs fs h)
  = VM._run host n (VM.mkVM chunk values (pc + 1) (st ++ [VM.VInt (x * y)]) g envs fs h).
Proof.
  intros Hinstr. fetch_step pc_nonneg Hinstr.
  unfold VM.binary.
  erewrite pop_two by reflexivity. reflexivity.
Qed.

(** [OP_RETURN] outside every call ends the run with the top of the stack. *)
Lemma run_RETURN (st : list VM.Value) (envs : list VM.Scope) (v : VM.Value) :
  chunk !! Z.to_nat pc = Some (mkInstruction OP_RETURN NoOperand) ->
  VM._run host (S n) (VM.mkVM chunk values pc (st ++ [v]) g envs [] h)
  = VM.Return_ (VM.Ok v) (VM.mkVM chunk values (pc + 1) st g envs [] h).
Proof.
  intros Hinstr. cbn [VM._run].
  erewrite iteration_fetch; [|exact pc_nonneg|exact Hinstr].
  unfold VM.set_ip.
  cbn [opcode operand VM.execute VM.bytecode_chunk VM.constants VM.ip VM.stack
       VM.globals VM.environments VM.frames VM.heap].
  unfold VM.return_.
  unfold VM.vbind at 1. erewrite need_one by reflexivity.
  unfold VM.vbind at 1. erewrite pop_top by reflexivity.
  reflexivity.
Qed.

Hypothesis host_compares : (0 < VM.recursion_limit host)%nat.

Lemma run_compare (op : OpCode) (c : VM.CompareOp) (st : list VM.Value)
    (envs : list VM.Scope) (x y : Z) :
  VM.execute host op NoOperand = VM.compare host op c ->
  chunk !! Z.to_nat pc = Some (mkInstruction op NoOperand) ->
  VM._run host (S n) (VM.mkVM chunk values pc (st ++ [VM.VInt x; VM.VInt y]) g envs fs h)
  = VM._run host n
      (VM.mkVM chunk values (pc + 1)
         (st ++ [VM.VBool (VM.holds c (Z.compare x y))]) g envs fs h).
Proof.
  intros Hop Hinstr. eapply run_step; [exact pc_nonneg|exact Hinstr|].
  cbn [opcode operand]. rewrite Hop. unfold VM.set_ip.
  cbn [VM.bytecode_chunk VM.constants VM.ip VM.stack VM.globals VM.environments
       VM.frames VM.heap].
  unfold VM.compare, VM.binary. erewrite pop_two by reflexivity.
  unfold VM.vbind at 1. unfold VM.read at 1.
  destruct (VM.recursion_limit host) as [|depth]; [lia|].
  cbn [VM.heap VM.set_stack VM.py_compare VM.as_num VM.lift].
  rewrite num_compare_Z. reflexivity.
Qed.

Lemma run_equal (op : OpCode) (negate : bool) (st : list VM.Value)
    (envs : list VM.Scope) (x y : Z) :
  VM.execute host op NoOperand = VM.equal host op negate ->
  chunk !! Z.to_nat pc = Some (mkInstruction op NoOperand) ->
  VM._run host (S n) (VM.mkVM chunk values pc (st ++ [VM.VInt x; VM.VInt y]) g envs fs h)
  = VM._run host n
      (VM.mkVM chunk values (pc + 1)
         (st ++ [VM.VBool (xorb negate (x =? y))]) g envs fs h).
Proof.
  intros Hop Hinstr. eapply run_step; [exact pc_nonneg|exact Hinstr|].
  cbn [opcode operand]. rewrite Hop. unfold VM.set_ip.
  cbn [VM.bytecode_chunk VM.constants VM.ip VM.stack VM.globals VM.environments
       VM.frames VM.heap].
  unfold VM.equal, VM.binary. erewrite pop_two by reflexivity.
  unfold VM.vbind at 1. unfold VM.read at 1.
  destruct (VM.recursion_limit host) as [|depth]; [lia|].
  cbn [VM.heap VM.set_stack VM.py_eq VM.as_num]. rewrite num_eq_Z. reflexivity.
Qed.

End Steps.

(** *** The constants of a program *)

Lemma py_eq_Int (a z : Z) : py_eq (CInt a) (CInt z) = true -> a = z.
Proof.
  cbn [py_eq exact_of_Const]. rewrite same_number_true.
  intros [e [[= <-] [= E]]]. symmetry. apply exact_of_Z_inj. exact E.
Qed.

Lemma ints_only_app (pool : list Const) (c : Const) :
  ints_only pool -> (forall z, py_eq c (CInt z) = true -> c = CInt z) ->
  ints_only (pool ++ [c]).
Proof.
  intros Hpool Hc k x z Hk Hx. apply lookup_app_Some in Hk.
  destruct Hk as [Hk|[_ Hk]]; [eapply Hpool; eauto|].
  destruct (k - length pool)%nat as [|j]; simpl in Hk; [|destruct j; discriminate].
  injection Hk as <-. apply Hc. exact Hx.
Qed.

Lemma not_an_int (c : Const) (z : Z) :
  exact_of_Const c = None -> is_list c = false ->
  py_eq c (CInt z) = true -> c = CInt z.
Proof.
  intros He Hl. destruct c; try discriminate; cbn [py_eq exact_of_Const];
    rewrite same_number_true; intros [e [E _]]; try discriminate E.
  cbn [exact_of_Const] in He. congruence.
Qed.

(** [add_constant] on an integer, a string or [None], in a pool without
    floats and booleans: the index returned holds the constant itself. *)
Lemma add_plain_constant (v : Const) (pool : list Const) :
  ints_only pool ->
  (exists z, v = CInt z) \/ (exists x, v = CStr x) \/ v = CNone ->
  exists k more,
    add_constant v pool = (Z.of_nat k, pool ++ more)
    /\ (pool ++ more) !! k = Some v
    /\ ints_only (pool ++ more).
Proof.
  intros Hpool Hv. rewrite add_constant_unfold.
  destruct (index_of v pool) as [k|] eqn:E.
  - exists k, []. rewrite app_nil_r. split; [reflexivity|]. split; [|exact Hpool].
    apply index_of_Some in E. destruct E as [[c [Hk Hc]] _]. rewrite Hk. f_equal.
    destruct Hv as [[z ->]|[[x ->]| ->]].
    + eapply Hpool; eauto.
    + apply py_eq_Str. exact Hc.
    + apply py_eq_None. exact Hc.
  - exists (length pool), [v]. split; [reflexivity|]. split.
    + rewrite lookup_app_r by lia. rewrite Nat.sub_diag. reflexivity.
    + apply ints_only_app; [exact Hpool|]. intros z Hz.
      destruct Hv as [[a ->]|[[x ->]| ->]].
      * f_equal. apply py_eq_Int. exact Hz.
      * apply not_an_int; [reflexivity|reflexivity|exact Hz].
      * apply not_an_int; [reflexivity|reflexivity|exact Hz].
Qed.

Lemma grown_refl (s : Compiler) : ints_only (constants s) -> grown s s.
Proof.
  intros H. split; [exists []; rewrite app_nil_r; reflexivity|].
  split; [exists []; rewrite app_nil_r; reflexivity|]. split; [exact H|].
  repeat split.
Qed.

Lemma grown_trans (s1 s2 s3 : Compiler) : grown s1 s2 -> grown s2 s3 -> grown s1 s3.
Proof.
  intros ([c1 H1] & [m1 K1] & _ & D1 & S1 & E1 & L1)
    ([c2 H2] & [m2 K2] & I2 & D2 & S2 & E2 & L2).
  split; [exists (c1 ++ c2); rewrite H2, H1, app_assoc; reflexivity|].
  split; [exists (m1 ++ m2); rewrite K2, K1, app_assoc; reflexivity|].
  split; [exact I2|]. repeat split; congruence.
Qed.

Lemma grown_depth (s s' : Compiler) :
  grown s s' -> 0 < scope_depth s -> 0 < scope_depth s'.
Proof. intros (_ & _ & _ & D & _) H. rewrite D. exact H. Qed.

Lemma grown_length (s s' : Compiler) :
  grown s s' -> (length (bytecode_chunk s) <= length (bytecode_chunk s'))%nat.
Proof. intros ([code Hc] & _). rewrite Hc, length_app. lia. Qed.

Lemma pool_loaded_grown (s s' : Compiler) (values : list VM.Value) :
  grown s s' -> pool_loaded s' values -> pool_loaded s values.
Proof.
  intros (_ & [more Hk] & _) (Hint & Hstr & Hnone). split; [|split].
  - intros k z Hz. apply Hint. rewrite Hk. apply lookup_app_l_Some. exact Hz.
  - intros k x Hx. apply Hstr. rewrite Hk. apply lookup_app_l_Some. exact Hx.
  - intros k Hx. apply Hnone. rewrite Hk. apply lookup_app_l_Some. exact Hx.
Qed.

(** The code of the first of two steps, and of the second. *)
Lemma code_loaded_left (s s1 s2 : Compiler) (chunk : list Instruction) :
  grown s1 s2 -> code_loaded s s2 chunk -> code_loaded s s1 chunk.
Proof.
  intros ([code Hc] & _) Hl i instr Hi Hinstr. apply Hl; [exact Hi|].
  rewrite Hc. apply lookup_app_l_Some. exact Hinstr.
Qed.

Lemma code_loaded_right (s s1 s2 : Compiler) (chunk : list Instruction) :
  grown s s1 -> code_loaded s s2 chunk -> code_loaded s1 s2 chunk.
Proof.
  intros Hg Hl i instr Hi Hinstr. apply Hl; [|exact Hinstr].
  pose proof (grown_length _ _ Hg). lia.
Qed.

Lemma added_grown (s1 s2 s3 : Compiler) :
  grown s1 s2 -> grown s2 s3 -> added s1 s3 = (added s1 s2 + added s2 s3)%nat.
Proof.
  intros ([c1 H1] & _) ([c2 H2] & _). unfold added.
  rewrite H2, H1, !length_app. lia.
Qed.

Lemma len_grown (s s' : Compiler) :
  grown s s' ->
  len (bytecode_chunk s') = len (bytecode_chunk s) + Z.of_nat (added s s').
Proof.
  intros ([code Hc] & _). unfold len, added. rewrite Hc, length_app. lia.
Qed.

(** [emit_instruction] appends one instruction, returns its index and
    leaves the other fields that the visits read. *)
Lemma emit_instruction_fields (op : OpCode) (arg : Operand) (token : option Token)
    (s : Compiler) :
  exists s', emit_instruction op arg token s = inr (len (bytecode_chunk s), s')
    /\ bytecode_chunk s' = bytecode_chunk s ++ [mkInstruction op arg]
    /\ constants s' = constants s
    /\ scope_depth s' = scope_depth s
    /\ loop_start_patches s' = loop_start_patches s
    /\ loop_end_patches s' = loop_end_patches s
    /\ loop_level s' = loop_level s.
Proof.
  unfold emit_instruction. destruct token; eexists; repeat split.
Qed.

(** [emit] appends one instruction. *)
Lemma emit_state (op : OpCode) (arg : Operand) (token : option Token) (s : Compiler) :
  exists s', emit op arg token s = inr (tt, s')
    /\ bytecode_chunk s' = bytecode_chunk s ++ [mkInstruction op arg]
    /\ constants s' = constants s
    /\ scope_depth s' = scope_depth s
    /\ loop_start_patches s' = loop_start_patches s
    /\ loop_end_patches s' = loop_end_patches s
    /\ loop_level s' = loop_level s.
Proof.
  destruct (emit_instruction_fields op arg token s) as [s' [E H]].
  exists s'. unfold emit, bind. rewrite E. auto.
Qed.

Lemma emit_grown (op : OpCode) (arg : Operand) (token : option Token) (s : Compiler) :
  ints_only (constants s) ->
  exists s', emit op arg token s = inr (tt, s')
    /\ grown s s' /\ added s s' = 1%nat
    /\ bytecode_chunk s' !! length (bytecode_chunk s) = Some (mkInstruction op arg).
Proof.
  intros Hpool.
  destruct (emit_state op arg token s) as (s' & E & Hc & Hk & Hd & Hs & He & Hl).
  exists s'. split; [exact E|]. split; [|split].
  - split; [eauto|]. split; [exists []; rewrite app_nil_r; exact Hk|].
    split; [rewrite Hk; exact Hpool|]. auto.
  - unfold added. rewrite Hc, length_app. simpl. lia.
  - rewrite Hc, lookup_app_r by lia. rewrite Nat.sub_diag. reflexivity.
Qed.

(** [add_constant] on an integer, a string or [None]. *)
Lemma constant_grown (v : Const) (s : Compiler) :
  ints_only (constants s) ->
  (exists z, v = CInt z) \/ (exists x, v = CStr x) \/ v = CNone ->
  exists k s', Compiler_add_constant v s = inr (Z.of_nat k, s')
    /\ grown s s' /\ added s s' = 0%nat
    /\ bytecode_chunk s' = bytecode_chunk s
    /\ constants s' !! k = Some v.
Proof.
  intros Hpool Hv. destruct (add_plain_constant v (constants s) Hpool Hv)
    as [k [more [E [Hk Hints]]]].
  exists k, (set_constants (constants s ++ more) s).
  unfold Compiler_add_constant. rewrite E. split; [reflexivity|].
  split; [|split; [|split]].
  - split; [exists []; rewrite app_nil_r; reflexivity|].
    split; [exists more; reflexivity|]. split; [exact Hints|]. repeat split.
  - unfold added. simpl. lia.
  - reflexivity.
  - exact Hk.
Qed.

(** The instruction that [emit] appended to [s], in the machine. *)
Lemma code_at (s0 s s' s'' : Compiler) (chunk : list Instruction) (instr : Instruction) :
  code_loaded s0 s'' chunk ->
  (length (bytecode_chunk s0) <= length (bytecode_chunk s))%nat ->
  bytecode_chunk s' !! length (bytecode_chunk s) = Some instr ->
  grown s' s'' ->
  chunk !! Z.to_nat (len (bytecode_chunk s)) = Some instr.
Proof.
  intros Hl Hlen Hi ([code Hc] & _). unfold len. rewrite Nat2Z.id.
  apply Hl; [exact Hlen|]. rewrite Hc. apply lookup_app_l_Some. exact Hi.
Qed.

Lemma pool_int (s s' : Compiler) (values : list VM.Value) (k : nat) (z : Z) :
  constants s !! k = Some (CInt z) -> grown s s' -> pool_loaded s' values ->
  getitem values (Z.of_nat k) = Some (VM.VInt z).
Proof.
  intros Hk Hg Hl. destruct (pool_loaded_grown _ _ _ Hg Hl) as (Hint & _).
  rewrite getitem_nat. apply Hint. exact Hk.
Qed.

Lemma pool_str (s s' : Compiler) (values : list VM.Value) (k : nat) (x : string) :
  constants s !! k = Some (CStr x) -> grown s s' -> pool_loaded s' values ->
  getitem values (Z.of_nat k) = Some (VM.VStr x).
Proof.
  intros Hk Hg Hl. destruct (pool_loaded_grown _ _ _ Hg Hl) as (_ & Hstr & _).
  rewrite getitem_nat. apply Hstr. exact Hk.
Qed.

Lemma pool_none (s s' : Compiler) (values : list VM.Value) (k : nat) :
  constants s !! k = Some CNone -> grown s s' -> pool_loaded s' values ->
  getitem values (Z.of_nat k) = Some VM.VNone.
Proof.
  intros Hk Hg Hl. destruct (pool_loaded_grown _ _ _ Hg Hl) as (_ & _ & Hnone).
  rewrite getitem_nat. apply Hnone. exact Hk.
Qed.

Lemma int_value_plain (store : Store) (e : ASTNode) (z : Z) :
  int_value store e = Some z -> plain_expression e = true.
Proof.
  revert z. induction e as [e IH] using ASTNode_children_ind. intros z Hz.
  destruct e as [| | |name t| |v t| |op operand t| | |l op r t| | | | | | | | | | | | | |];
    try discriminate Hz; cbn [children] in IH; cbn [int_value plain_expression] in *.
  - destruct (in_BUILTINS (value name)); [discriminate Hz|reflexivity].
  - destruct v; [reflexivity|discriminate Hz].
  - destruct (bool_decide (kind op = MINUS)); [|discriminate Hz].
    destruct (int_value store operand) as [x|] eqn:Ex; [|discriminate Hz].
    apply Forall_cons in IH. destruct IH as [IHoperand _]. apply (IHoperand x Ex).
  - destruct (int_value store l) as [x|] eqn:Ex; [|discriminate Hz].
    destruct (int_value store r) as [y|] eqn:Ey; [|discriminate Hz].
    apply Forall_cons in IH. destruct IH as [IHl IH].
    apply Forall_cons in IH. destruct IH as [IHr _].
    rewrite (IHl x Ex), (IHr y Ey). destruct (kind op); try discriminate Hz; reflexivity.
Qed.

(** An expression compiles to code that pushes its value. *)
Lemma expression_runs (e : ASTNode) :
  forall s,
    plain_expression e = true -> ints_only (constants s) -> 0 < scope_depth s ->
    exists s', _compile_node e s = inr (tt, s') /\ grown s s'
      /\ forall store z host n chunk values st g envs fs h,
           int_value store e = Some z ->
           code_loaded s s' chunk -> pool_loaded s' values -> reads store envs ->
           VM._run host (added s s' + n)
             (VM.mkVM chunk values (len (bytecode_chunk s)) st g envs fs h)
           = VM._run host n
               (VM.mkVM chunk values (len (bytecode_chunk s')) (st ++ [VM.VInt z]) g
                  envs fs h).
Proof.
  induction e as [e IH] using ASTNode_children_ind.
  intros s Hplain Hpool Hdepth.
  destruct e as [| | |name t| |v t| |op operand t| | |l op r t| | | | | | | | | | | | | |];
    try discriminate Hplain; cbn [children] in IH; cbn [plain_expression] in Hplain.
  - (* a variable *)
    apply negb_true_iff in Hplain.
    cbn [_compile_node]. unfold bind at 1.
    destruct (constant_grown (CStr (value name)) s Hpool ltac:(eauto))
      as [k [s1 [E1 [G1 [A1 [C1 K1]]]]]].
    rewrite E1. unfold bind at 1. unfold gets at 1.
    replace (0 <? scope_depth s1) with true
      by (symmetry; apply Z.ltb_lt; eapply grown_depth; eauto).
    rewrite Hplain. cbn [negb andb].
    destruct (emit_grown OP_GET_LOCAL (IntOperand (Z.of_nat k)) (Some name) s1
                ltac:(apply G1)) as [s2 [E2 [G2 [A2 L2]]]].
    rewrite E2. exists s2. split; [reflexivity|].
    split; [eapply grown_trans; eauto|].
    intros store z host n chunk values st g envs fs h Hvalue Hcode Hvalues Hreads.
    cbn [int_value] in Hvalue. rewrite Hplain in Hvalue.
    rewrite (added_grown s s1 s2 G1 G2), A1, A2.
    rewrite (len_grown s1 s2 G2), A2, C1.
    change (0 + 1 + n)%nat with (S n).
    pose proof (Hreads (value name)) as Hvar. rewrite Hvalue in Hvar. simpl in Hvar.
    assert (Hinstr : chunk !! Z.to_nat (len (bytecode_chunk s))
                     = Some (mkInstruction OP_GET_LOCAL (IntOperand (Z.of_nat k)))).
    { eapply (code_at s s s2 s2); [exact Hcode|lia| |apply grown_refl; apply G2].
      rewrite <- C1. exact L2. }
    assert (Hname : getitem values (Z.of_nat k) = Some (VM.VStr (value name))).
    { eapply pool_str; [exact K1|exact G2|exact Hvalues]. }
    rewrite (run_GET_LOCAL host n chunk values _ g fs h (len_nonneg _) st envs _ _ _
               Hinstr Hname Hvar).
    reflexivity.
  - (* an integer *)
    destruct v as [z'|]; [|discriminate Hplain].
    cbn [_compile_node Const_of_number]. unfold bind at 1.
    destruct (constant_grown (CInt z') s Hpool ltac:(eauto))
      as [k [s1 [E1 [G1 [A1 [C1 K1]]]]]].
    rewrite E1.
    destruct (emit_grown OP_CONST (IntOperand (Z.of_nat k)) t s1 ltac:(apply G1))
      as [s2 [E2 [G2 [A2 L2]]]].
    rewrite E2. exists s2. split; [reflexivity|].
    split; [eapply grown_trans; eauto|].
    intros store z host n chunk values st g envs fs h Hvalue Hcode Hvalues Hreads.
    cbn [int_value] in Hvalue. injection Hvalue as <-.
    rewrite (added_grown s s1 s2 G1 G2), A1, A2.
    rewrite (len_grown s1 s2 G2), A2, C1.
    change (0 + 1 + n)%nat with (S n).
    assert (Hinstr : chunk !! Z.to_nat (len (bytecode_chunk s))
                     = Some (mkInstruction OP_CONST (IntOperand (Z.of_nat k)))).
    { eapply (code_at s s s2 s2); [exact Hcode|lia| |apply grown_refl; apply G2].
      rewrite <- C1. exact L2. }
    assert (Hconst : getitem values (Z.of_nat k) = Some (VM.VInt z')).
    { eapply pool_int; [exact K1|exact G2|exact Hvalues]. }
    rewrite (run_CONST host n chunk values _ st g envs fs h _ _
               (len_nonneg _) Hinstr Hconst).
    reflexivity.
  - (* a unary minus *)
    apply andb_true_iff in Hplain. destruct Hplain as [Hop Hplain].
    apply Forall_cons in IH. destruct IH as [IHoperand _].
    destruct (IHoperand s Hplain Hpool Hdepth) as [s1 [E1 [G1 R1]]].
    cbn [_compile_node]. unfold bind at 1. rewrite E1, Hop.
    destruct (emit_grown OP_NEGATE NoOperand (Some op) s1 ltac:(apply G1))
      as [s2 [E2 [G2 [A2 L2]]]].
    rewrite E2. exists s2. split; [reflexivity|].
    split; [eapply grown_trans; eauto|].
    intros store z host n chunk values st g envs fs h Hvalue Hcode Hvalues Hreads.
    cbn [int_value] in Hvalue. rewrite Hop in Hvalue.
    destruct (int_value store operand) as [x|] eqn:Ex; [|discriminate Hvalue].
    injection Hvalue as <-.
    rewrite (added_grown s s1 s2 G1 G2), A2, <- Nat.add_assoc.
    rewrite (R1 store x host _ chunk values st g envs fs h Ex
               (code_loaded_left _ _ _ _ G2 Hcode) (pool_loaded_grown _ _ _ G2 Hvalues)
               Hreads).
    rewrite (len_grown s1 s2 G2), A2. change (1 + n)%nat with (S n).
    assert (Hinstr : chunk !! Z.to_nat (len (bytecode_chunk s1))
                     = Some (mkInstruction OP_NEGATE NoOperand)).
    { eapply (code_at s s1 s2 s2); [exact Hcode|apply grown_length; exact G1|exact L2|].
      apply grown_refl. apply G2. }
    rewrite (run_NEGATE host n chunk values _ g fs h (len_nonneg _) st envs x Hinstr).
    reflexivity.
  - (* a binary operator *)
    apply Forall_cons in IH. destruct IH as [IHl IH].
    apply Forall_cons in IH. destruct IH as [IHr _].
    assert (Hlr : plain_expression l = true /\ plain_expression r = true).
    { destruct (kind op); try discriminate Hplain; apply andb_true_iff; exact Hplain. }
    destruct Hlr as [Hl Hr].
    destruct (IHl s Hl Hpool Hdepth) as [s1 [E1 [G1 R1]]].
    destruct (IHr s1 Hr ltac:(apply G1) ltac:(eapply grown_depth; eauto))
      as [s2 [E2 [G2 R2]]].
    cbn [_compile_node]. unfold bind at 1. rewrite E1. unfold bind at 1. rewrite E2.
    assert (Hrun : forall opcode (f : Z -> Z -> Z),
      (forall host n chunk values pc g fs h, 0 <= pc -> forall st envs x y,
         chunk !! Z.to_nat pc = Some (mkInstruction opcode NoOperand) ->
         VM._run host (S n)
           (VM.mkVM chunk values pc (st ++ [VM.VInt x; VM.VInt y]) g envs fs h)
         = VM._run host n
             (VM.mkVM chunk values (pc + 1) (st ++ [VM.VInt (f x y)]) g envs fs h)) ->
      (forall store z, int_value store (BinaryOp l op r t) = Some z ->
         exists x y, int_value store l = Some x /\ int_value store r = Some y
                     /\ z = f x y) ->
      exists s', emit opcode NoOperand t s2 = inr (tt, s') /\ grown s s'
        /\ forall store z host n chunk values st g envs fs h,
             int_value store (BinaryOp l op r t) = Some z ->
             code_loaded s s' chunk -> pool_loaded s' values -> reads store envs ->
             VM._run host (added s s' + n)
               (VM.mkVM chunk values (len (bytecode_chunk s)) st g envs fs h)
             = VM._run host n
                 (VM.mkVM chunk values (len (bytecode_chunk s')) (st ++ [VM.VInt z]) g
                    envs fs h)).
    { intros opcode f Hstep Hf.
      destruct (emit_grown opcode NoOperand t s2 ltac:(apply G2))
        as [s3 [E3 [G3 [A3 L3]]]].
      exists s3. split; [exact E3|].
      pose proof (grown_trans _ _ _ G1 G2) as G12.
      pose proof (grown_trans _ _ _ G2 G3) as G23.
      split; [eapply grown_trans; eauto|].
      intros store z host n chunk values st g envs fs h Hvalue Hcode Hvalues Hreads.
      destruct (Hf store z Hvalue) as (x & y & Ex & Ey & ->).
      rewrite (added_grown s s1 s3 G1 G23), (added_grown s1 s2 s3 G2 G3), A3.
      rewrite <- !Nat.add_assoc.
      rewrite (R1 store x host _ chunk values st g envs fs h Ex
                 (code_loaded_left _ _ _ _ G23 Hcode)
                 (pool_loaded_grown _ _ _ G23 Hvalues) Hreads).
      rewrite (R2 store y host _ chunk values _ g envs fs h Ey
                 (code_loaded_left _ _ _ _ G3 (code_loaded_right _ _ _ _ G1 Hcode))
                 (pool_loaded_grown _ _ _ G3 Hvalues) Hreads).
      rewrite (len_grown s2 s3 G3), A3. change (1 + n)%nat with (S n).
      rewrite <- app_assoc. cbn [app].
      rewrite (Hstep host n chunk values _ g fs h (len_nonneg _) st envs x y);
        [reflexivity|].
      eapply (code_at s s2 s3 s3); [exact Hcode|apply grown_length; exact G12|exact L3|].
      apply grown_refl. apply G3. }
    destruct (kind op) eqn:Hkind; try discriminate Hplain; clear Hplain; cbn [kind_name];
      match goal with
      | |- context [OPERATION_INTS_get ?key] =>
          let r := eval vm_compute in (OPERATION_INTS_get key) in
          change (OPERATION_INTS_get key) with r
      end;
      cbn iota.
    all: [> apply (Hrun OP_ADD Z.add) | apply (Hrun OP_SUBTRACT Z.sub)
          | apply (Hrun OP_MULTIPLY Z.mul) ].
    all: try (intros; first [apply run_ADD|apply run_SUBTRACT|apply run_MULTIPLY];
              assumption).
    all: intros store z Hvalue; cbn [int_value] in Hvalue; rewrite Hkind in Hvalue;
      destruct (int_value store l) as [x|]; [|discriminate Hvalue];
      destruct (int_value store r) as [y|]; [|discriminate Hvalue];
      injection Hvalue as <-; eauto.
Qed.

(** *** The scopes of the machine *)

Lemma agrees_bind (store : Store) (scope : VM.Scope) (x : string) (z : Z) :
  agrees store scope ->
  agrees (bind_variable x z store) (VM.dict_set scope (VM.VStr x) (variable x z)).
Proof.
  intros Hagree y. unfold bind_variable. destruct (String.eqb x y) eqn:E.
  - apply String.eqb_eq in E. subst y. simpl.
    apply dict_get_set_same. apply key_eq_refl. reflexivity.
  - rewrite dict_get_set_other by exact E. apply Hagree.
Qed.

Lemma agrees_empty : agrees no_variable [].
Proof. intros x. reflexivity. Qed.

Lemma reads_one (store : Store) (scope : VM.Scope) :
  agrees store scope -> reads store [scope].
Proof.
  intros Hagree x. cbn [rev app VM.find_local]. unfold VM.contains. cbn [VM.hashable].
  rewrite (Hagree x). destruct (store x); reflexivity.
Qed.

Lemma find_local_agrees (scopes : list Store) (renvs : list VM.Scope) (x : string) :
  Forall2 agrees scopes renvs ->
  VM.find_local renvs (VM.VStr x) = VM.PyOk (variable x <$> lookup_variable scopes x).
Proof.
  induction 1 as [|store scope outer renvs Hagree _ IH]; [reflexivity|].
  cbn [VM.find_local lookup_variable]. unfold VM.contains. cbn [VM.hashable].
  rewrite (Hagree x). destruct (store x); [reflexivity|]. exact IH.
Qed.

Lemma reads_scopes (scopes : list Store) (envs : list VM.Scope) :
  scopes_agree scopes envs -> reads (lookup_variable scopes) envs.
Proof. intros H x. apply find_local_agrees. exact H. Qed.

Lemma assign_local_agrees (scopes scopes' : list Store) (renvs : list VM.Scope)
    (x : string) (z : Z) :
  Forall2 agrees scopes renvs ->
  assign_variable scopes x z = Some scopes' ->
  exists renvs',
    VM.assign_local renvs (VM.VStr x) (VM.VInt z) = VM.PyOk (VM.Assigned renvs')
    /\ Forall2 agrees scopes' renvs'.
Proof.
  intros H. revert scopes'.
  induction H as [|store scope outer renvs Hagree Houter IH]; intros scopes' Hassign;
    [discriminate Hassign|].
  cbn [assign_variable] in Hassign. cbn [VM.assign_local].
  unfold VM.contains. cbn [VM.hashable]. rewrite (Hagree x).
  destruct (store x) as [old|] eqn:Eold.
  - injection Hassign as <-. simpl. eexists. split; [reflexivity|].
    constructor; [apply agrees_bind; exact Hagree|exact Houter].
  - destruct (assign_variable outer x z) as [outer'|] eqn:E; [|discriminate Hassign].
    injection Hassign as <-. destruct (IH outer' eq_refl) as [renvs' [Hr Ha]].
    simpl. rewrite Hr. simpl. eexists. split; [reflexivity|].
    constructor; assumption.
Qed.

(** *** Code that is kept while the compiler goes on *)

Lemma kept_refl (lo hi : nat) (code : list Instruction) : kept lo hi code code.
Proof. intros i _. reflexivity. Qed.

Lemma kept_app (lo hi : nat) (code more : list Instruction) :
  (hi <= length code)%nat -> kept lo hi code (code ++ more).
Proof. intros H i Hi. apply lookup_app_l. lia. Qed.

Lemma kept_grown (lo hi : nat) (s s' : Compiler) :
  grown s s' -> (hi <= length (bytecode_chunk s))%nat ->
  kept lo hi (bytecode_chunk s) (bytecode_chunk s').
Proof. intros ([code Hc] & _) H. rewrite Hc. apply kept_app. exact H. Qed.

(** [patch_jump] with the default target writes the length of the chunk
    into the instruction. *)
Lemma patch_jump_state (s : Compiler) (idx : nat) (instr : Instruction) :
  bytecode_chunk s !! idx = Some instr ->
  patch_jump (Z.of_nat idx) None s
  = inr (tt, set_bytecode_chunk
               (<[idx := mkInstruction (opcode instr) (IntOperand (len (bytecode_chunk s)))]>
                  (bytecode_chunk s)) s).
Proof.
  intros Hinstr. pose proof (lookup_lt_Some _ _ _ Hinstr) as Hlt.
  unfold patch_jump, bind, gets.
  replace (0 <=? Z.of_nat idx) with true by (symmetry; apply Z.leb_le; lia).
  replace (Z.of_nat idx <? len (bytecode_chunk s)) with true
    by (symmetry; apply Z.ltb_lt; unfold len; lia).
  cbn [andb negb]. unfold set_operand. rewrite getitem_nat, Hinstr.
  erewrite setitem_index; [|lia|rewrite Nat2Z.id; exact Hinstr].
  rewrite Nat2Z.id. reflexivity.
Qed.


(** *** Declarations, assignments and conditions *)

(** [let x = e] binds [x] in the innermost scope and leaves the stack as it
    was. *)
Lemma declaration_runs (name : Token) (e : ASTNode) (t : option Token) (s : Compiler) :
  plain_expression e = true -> ints_only (constants s) -> 0 < scope_depth s ->
  exists s', _compile_node (VarDeclareStmt name (Some e) false t) s = inr (tt, s')
    /\ grown s s'
    /\ forall store z host n chunk values st g outer scope fs h,
         int_value store e = Some z ->
         code_loaded s s' chunk -> pool_loaded s' values ->
         reads store (outer ++ [scope]) ->
         VM._run host (added s s' + n)
           (VM.mkVM chunk values (len (bytecode_chunk s)) st g (outer ++ [scope]) fs h)
         = VM._run host n
             (VM.mkVM chunk values (len (bytecode_chunk s')) st g
                (outer ++ [VM.dict_set scope (VM.VStr (value name))
                             (variable (value name) z)]) fs h).
Proof.
  intros Hplain Hpool Hdepth.
  destruct (expression_runs e s Hplain Hpool Hdepth) as [s1 [E1 [G1 R1]]].
  cbn [_compile_node]. unfold bind at 1. rewrite E1. unfold bind at 1.
  destruct (constant_grown (CStr (value name)) s1 ltac:(apply G1) ltac:(eauto))
    as [k [s2 [E2 [G2 [A2 [C2 K2]]]]]].
  rewrite E2. unfold bind at 1. unfold gets at 1.
  pose proof (grown_trans _ _ _ G1 G2) as G12.
  replace (0 <? scope_depth s2) with true
    by (symmetry; apply Z.ltb_lt; eapply grown_depth; eauto).
  destruct (emit_grown OP_DEF_LOCAL (IntOperand (Z.of_nat k)) (Some name) s2
              ltac:(apply G2)) as [s3 [E3 [G3 [A3 L3]]]].
  rewrite E3. exists s3. split; [reflexivity|].
  pose proof (grown_trans _ _ _ G2 G3) as G23.
  split; [eapply grown_trans; eauto|].
  intros store z host n chunk values st g outer scope fs h Hz Hcode Hvalues Hreads.
  rewrite (added_grown s s1 s3 G1 G23), (added_grown s1 s2 s3 G2 G3), A2, A3.
  rewrite <- !Nat.add_assoc.
  rewrite (R1 store z host _ chunk values st g _ fs h Hz
             (code_loaded_left _ _ _ _ G23 Hcode) (pool_loaded_grown _ _ _ G23 Hvalues)
             Hreads).
  rewrite (len_grown s2 s3 G3), A3, C2. change (0 + (1 + n))%nat with (S n).
  assert (Hinstr : chunk !! Z.to_nat (len (bytecode_chunk s1))
                   = Some (mkInstruction OP_DEF_LOCAL (IntOperand (Z.of_nat k)))).
  { eapply (code_at s s1 s3 s3); [exact Hcode|apply grown_length; exact G1| |].
    - rewrite <- C2. exact L3.
    - apply grown_refl. apply G3. }
  assert (Hname : getitem values (Z.of_nat k) = Some (VM.VStr (value name))).
  { eapply pool_str; [exact K2|exact G3|exact Hvalues]. }
  rewrite (run_DEF_LOCAL host n chunk values _ g fs h (len_nonneg _) st outer scope _ _ _
             Hinstr Hname).
  reflexivity.
Qed.

(** [x = e] assigns in the scope that the search of the machine finds. *)
Lemma assignment_runs (name : Token) (e : ASTNode) (t : option Token) (s : Compiler) :
  plain_expression e = true -> ints_only (constants s) -> 0 < scope_depth s ->
  exists s', _compile_node (AssignStmt name e t) s = inr (tt, s')
    /\ grown s s'
    /\ forall store z host n chunk values st g envs renvs' fs h,
         int_value store e = Some z ->
         code_loaded s s' chunk -> pool_loaded s' values -> reads store envs ->
         VM.assign_local (rev envs) (VM.VStr (value name)) (VM.VInt z)
         = VM.PyOk (VM.Assigned renvs') ->
         VM._run host (added s s' + n)
           (VM.mkVM chunk values (len (bytecode_chunk s)) st g envs fs h)
         = VM._run host n
             (VM.mkVM chunk values (len (bytecode_chunk s')) st g (rev renvs') fs h).
Proof.
  intros Hplain Hpool Hdepth.
  destruct (expression_runs e s Hplain Hpool Hdepth) as [s1 [E1 [G1 R1]]].
  cbn [_compile_node]. unfold bind at 1. rewrite E1. unfold bind at 1.
  destruct (constant_grown (CStr (value name)) s1 ltac:(apply G1) ltac:(eauto))
    as [k [s2 [E2 [G2 [A2 [C2 K2]]]]]].
  rewrite E2. unfold bind at 1. unfold gets at 1.
  pose proof (grown_trans _ _ _ G1 G2) as G12.
  replace (0 <? scope_depth s2) with true
    by (symmetry; apply Z.ltb_lt; eapply grown_depth; eauto).
  destruct (emit_grown OP_SET_LOCAL (IntOperand (Z.of_nat k)) (Some name) s2
              ltac:(apply G2)) as [s3 [E3 [G3 [A3 L3]]]].
  rewrite E3. exists s3. split; [reflexivity|].
  pose proof (grown_trans _ _ _ G2 G3) as G23.
  split; [eapply grown_trans; eauto|].
  intros store z host n chunk values st g envs renvs' fs h Hz Hcode Hvalues Hreads
    Hassign.
  rewrite (added_grown s s1 s3 G1 G23), (added_grown s1 s2 s3 G2 G3), A2, A3.
  rewrite <- !Nat.add_assoc.
  rewrite (R1 store z host _ chunk values st g _ fs h Hz
             (code_loaded_left _ _ _ _ G23 Hcode) (pool_loaded_grown _ _ _ G23 Hvalues)
             Hreads).
  rewrite (len_grown s2 s3 G3), A3, C2. change (0 + (1 + n))%nat with (S n).
  assert (Hinstr : chunk !! Z.to_nat (len (bytecode_chunk s1))
                   = Some (mkInstruction OP_SET_LOCAL (IntOperand (Z.of_nat k)))).
  { eapply (code_at s s1 s3 s3); [exact Hcode|apply grown_length; exact G1| |].
    - rewrite <- C2. exact L3.
    - apply grown_refl. apply G3. }
  assert (Hname : getitem values (Z.of_nat k) = Some (VM.VStr (value name))).
  { eapply pool_str; [exact K2|exact G3|exact Hvalues]. }
  rewrite (run_SET_LOCAL host n chunk values _ g fs h (len_nonneg _) st envs _ _ _ _
             Hinstr Hname Hassign).
  reflexivity.
Qed.

Lemma compare_ints_holds (k : TokenType) (holds : Z -> Z -> bool) :
  compare_ints k = Some holds ->
  exists op,
    OPERATION_INTS_get (kind_name k) = Some op
    /\ ((exists c, (forall host, VM.execute host op NoOperand = VM.compare host op c)
                   /\ forall x y, VM.holds c (x ?= y) = holds x y)
        \/ (exists negate,
              (forall host, VM.execute host op NoOperand = VM.equal host op negate)
              /\ forall x y, xorb negate (x =? y) = holds x y)).
Proof.
  destruct k; try discriminate; intros [= <-]; eexists; (split; [reflexivity|]).
  - left. exists VM.CmpGt. split; [reflexivity|].
    intros x y. unfold Z.gtb. destruct (x ?= y); reflexivity.
  - left. exists VM.CmpGe. split; [reflexivity|].
    intros x y. unfold Z.geb. destruct (x ?= y); reflexivity.
  - left. exists VM.CmpLt. split; [reflexivity|].
    intros x y. unfold Z.ltb. destruct (x ?= y); reflexivity.
  - left. exists VM.CmpLe. split; [reflexivity|].
    intros x y. unfold Z.leb. destruct (x ?= y); reflexivity.
  - right. exists false. split; [reflexivity|]. intros x y. reflexivity.
  - right. exists true. split; [reflexivity|]. intros x y. reflexivity.
Qed.

(** A comparison compiles to code that pushes its truth value. *)
Lemma condition_runs (c : ASTNode) (s : Compiler) :
  plain_condition c = true -> ints_only (constants s) -> 0 < scope_depth s ->
  exists s', _compile_node c s = inr (tt, s') /\ grown s s'
    /\ forall store b host n chunk values st g envs fs h,
         (0 < VM.recursion_limit host)%nat ->
         condition_value store c = Some b ->
         code_loaded s s' chunk -> pool_loaded s' values -> reads store envs ->
         VM._run host (added s s' + n)
           (VM.mkVM chunk values (len (bytecode_chunk s)) st g envs fs h)
         = VM._run host n
             (VM.mkVM chunk values (len (bytecode_chunk s')) (st ++ [VM.VBool b]) g
                envs fs h).
Proof.
  intros Hplain Hpool Hdepth.
  destruct c as [| | | | | | | | | | | |l op r t| | | | | | | | | | | |];
    try discriminate Hplain.
  cbn [plain_condition] in Hplain.
  apply andb_true_iff in Hplain. destruct Hplain as [Hplain Hr].
  apply andb_true_iff in Hplain. destruct Hplain as [Hop Hl].
  destruct (compare_ints (kind op)) as [holds|] eqn:Eholds; [|discriminate Hop].
  destruct (compare_ints_holds _ _ Eholds) as [opcode [Eop Hexec]].
  destruct (expression_runs l s Hl Hpool Hdepth) as [s1 [E1 [G1 R1]]].
  destruct (expression_runs r s1 Hr ltac:(apply G1) ltac:(eapply grown_depth; eauto))
    as [s2 [E2 [G2 R2]]].
  cbn [_compile_node]. unfold bind at 1. rewrite E1. unfold bind at 1. rewrite E2, Eop.
  destruct (emit_grown opcode NoOperand t s2 ltac:(apply G2)) as [s3 [E3 [G3 [A3 L3]]]].
  exists s3. split; [exact E3|].
  pose proof (grown_trans _ _ _ G1 G2) as G12.
  pose proof (grown_trans _ _ _ G2 G3) as G23.
  split; [eapply grown_trans; eauto|].
  intros store b host n chunk values st g envs fs h Hhost Hb Hcode Hvalues Hreads.
  cbn [condition_value] in Hb. rewrite Eholds in Hb.
  destruct (int_value store l) as [x|] eqn:Ex; [|discriminate Hb].
  destruct (int_value store r) as [y|] eqn:Ey; [|discriminate Hb].
  injection Hb as <-.
  rewrite (added_grown s s1 s3 G1 G23), (added_grown s1 s2 s3 G2 G3), A3.
  rewrite <- !Nat.add_assoc.
  rewrite (R1 store x host _ chunk values st g envs fs h Ex
             (code_loaded_left _ _ _ _ G23 Hcode)
             (pool_loaded_grown _ _ _ G23 Hvalues) Hreads).
  rewrite (R2 store y host _ chunk values _ g envs fs h Ey
             (code_loaded_left _ _ _ _ G3 (code_loaded_right _ _ _ _ G1 Hcode))
             (pool_loaded_grown _ _ _ G3 Hvalues) Hreads).
  rewrite (len_grown s2 s3 G3), A3. change (1 + n)%nat with (S n).
  rewrite <- app_assoc. cbn [app].
  assert (Hinstr : chunk !! Z.to_nat (len (bytecode_chunk s2))
                   = Some (mkInstruction opcode NoOperand)).
  { eapply (code_at s s2 s3 s3); [exact Hcode|apply grown_length; exact G12|exact L3|].
    apply grown_refl. apply G3. }
  destruct Hexec as [[cmp [Hexec Hholds]]|[negate [Hexec Hholds]]].
  - rewrite (run_compare host n chunk values _ g fs h (len_nonneg _) Hhost opcode cmp
               st envs x y (Hexec host) Hinstr).
    rewrite Hholds. reflexivity.
  - rewrite (run_equal host n chunk values _ g fs h (len_nonneg _) Hhost opcode negate
               st envs x y (Hexec host) Hinstr).
    rewrite Hholds. reflexivity.
Qed.

(** *** The program around the block *)

Lemma ints_only_prelude : ints_only prelude_constants.
Proof.
  intros k c z Hk Hz. unfold prelude_constants in Hk.
  repeat (destruct k as [|k];
          [injection Hk as <-; apply not_an_int; [reflexivity|reflexivity|exact Hz]|]).
  discriminate Hk.
Qed.

Lemma load_constants_plain (cs : list Const) (h : VM.Heap) (k : nat) :
  (forall z, cs !! k = Some (CInt z) ->
     fst (VM.load_constants cs h) !! k = Some (VM.VInt z))
  /\ (forall x, cs !! k = Some (CStr x) ->
        fst (VM.load_constants cs h) !! k = Some (VM.VStr x))
  /\ (cs !! k = Some CNone -> fst (VM.load_constants cs h) !! k = Some VM.VNone).
Proof.
  split; [|split]; [intros v Hk|intros v Hk|intros Hk];
    destruct (load_constants_lookup cs h k _ Hk) as [h' Hh']; exact Hh'.
Qed.

(** A top-level block whose code returns [z] from the first scope, when it
    is compiled outside every loop: the program compiles, and its run
    returns [z] after the prelude and [OP_ENTER_SCOPE], with the scopes
    that the code of the block has left. *)
Lemma block_returns (host : VM.Host) (body : list ASTNode) (z : Z)
    (left_scopes : list VM.Scope -> Prop) :
  (forall s, ints_only (constants s) -> 0 < scope_depth s ->
     loop_level s = 0 -> loop_start_patches s = [] -> loop_end_patches s = [] ->
     exists s',
       for_each body (fun statement_node =>
         bind (_compile_node statement_node) (fun _ =>
           when (is_Expr statement_node) (emit OP_POP NoOperand None))) s
       = inr (tt, s')
       /\ grown s s'
       /\ forall chunk values g h,
            code_loaded s s' chunk -> pool_loaded s' values ->
            exists steps vm',
              VM._run host steps
                (VM.mkVM chunk values (len (bytecode_chunk s)) [] g [[]] [] h)
              = VM.Return_ (VM.Ok (VM.VInt z)) vm'
              /\ left_scopes (VM.environments vm')) ->
  exists n, forall fuel, (n <= fuel)%nat ->
    exists vm',
      compile_and_run host fuel (Block body None)
      = Some (VM.Return_ (VM.Ok (VM.VInt z)) vm')
      /\ left_scopes (VM.environments vm').
Proof.
  intros Hbody.
  destruct (emit_state OP_ENTER_SCOPE NoOperand None Compiler_new)
    as (s0 & E0 & C0 & K0 & D0 & S0 & P0 & L0).
  set (s1 := set_scope_depth 1 s0).
  assert (Hpool1 : ints_only (constants s1)).
  { unfold s1. simpl. rewrite K0. apply ints_only_prelude. }
  destruct (Hbody s1 Hpool1 ltac:(reflexivity) L0 S0 P0) as [s2 [E2 [G2 R2]]].
  destruct (emit_state OP_EXIT_SCOPE NoOperand None s2) as (s3 & E3 & C3 & K3 & D3 & _).
  set (s4 := set_scope_depth 0 s3).
  destruct (constant_grown CNone s4 ltac:(unfold s4; simpl; rewrite K3; apply G2)
              ltac:(auto)) as [k [s5 [E5 [G5 [A5 [C5 K5]]]]]].
  destruct (emit_state OP_CONST (IntOperand (Z.of_nat k)) None s5)
    as (s6 & E6 & C6 & K6 & D6 & _).
  destruct (emit_state OP_RETURN NoOperand None s6) as (s7 & E7 & C7 & K7 & D7 & _).
  assert (Hcompile : compile_program (Block body None)
                     = inr (bytecode_chunk s7, constants s7)).
  { unfold compile_program, compile.
    unfold bind at 1. unfold modify at 1. unfold bind at 1.
    replace (_initialize_builtins reset) with (@inr CompileError _ (tt, Compiler_new))
      by (vm_compute; reflexivity).
    unfold bind at 1. rewrite E0. unfold bind at 1. unfold modify at 1.
    fold s1. unfold bind at 1.
    cbn [_compile_node is_not_None when]. unfold bind at 1. unfold ret at 1.
    unfold bind at 1. rewrite E2. unfold ret at 1.
    unfold bind at 1. rewrite E3. unfold bind at 1. unfold modify at 1. fold s4.
    unfold bind at 1. rewrite E5. unfold bind at 1. rewrite E6.
    unfold bind at 1. rewrite E7. reflexivity. }
  destruct G2 as ([code Hcode] & [more Hmore] & Hints2 & Hd2).
  destruct G5 as (_ & [more5 Hmore5] & _ & _).
  assert (Hchunk : bytecode_chunk s7
                   = prelude
                     ++ (mkInstruction OP_ENTER_SCOPE NoOperand :: code
                         ++ [ mkInstruction OP_EXIT_SCOPE NoOperand;
                              mkInstruction OP_CONST (IntOperand (Z.of_nat k));
                              mkInstruction OP_RETURN NoOperand ])).
  { rewrite C7, C6, C5. unfold s4. simpl. rewrite C3, Hcode. unfold s1. simpl.
    rewrite C0. change (bytecode_chunk Compiler_new) with prelude.
    rewrite <- !app_assoc. reflexivity. }
  assert (Hconsts : constants s7 = prelude_constants ++ (more ++ more5)).
  { rewrite K7, K6, Hmore5. unfold s4. simpl. rewrite K3, Hmore. unfold s1. simpl.
    rewrite K0. change (constants Compiler_new) with prelude_constants.
    rewrite <- app_assoc. reflexivity. }
  destruct (boot_prelude
              (mkInstruction OP_ENTER_SCOPE NoOperand :: code
               ++ [ mkInstruction OP_EXIT_SCOPE NoOperand;
                    mkInstruction OP_CONST (IntOperand (Z.of_nat k));
                    mkInstruction OP_RETURN NoOperand ]) (more ++ more5))
    as [vs [h Hboot]].
  rewrite <- Hchunk, <- Hconsts in Hboot.
  assert (Hvalues : forall j,
    (forall x, constants s7 !! j = Some (CInt x) ->
       VM.constants (VM.boot (bytecode_chunk s7) (constants s7)) !! j = Some (VM.VInt x))
    /\ (forall x, constants s7 !! j = Some (CStr x) ->
          VM.constants (VM.boot (bytecode_chunk s7) (constants s7)) !! j
          = Some (VM.VStr x))
    /\ (constants s7 !! j = Some CNone ->
        VM.constants (VM.boot (bytecode_chunk s7) (constants s7)) !! j
        = Some VM.VNone)).
  { intros j. pose proof (load_constants_plain (constants s7) [] j) as Hplain.
    unfold VM.boot. destruct (VM.load_constants (constants s7) []) as [values h0].
    exact Hplain. }
  rewrite Hboot in Hvalues. cbn [VM.constants] in Hvalues.
  assert (Hloaded : code_loaded s1 s2 (bytecode_chunk s7)).
  { intros i instr _ Hi. rewrite C7, C6, C5. unfold s4. simpl. rewrite C3.
    do 3 apply lookup_app_l_Some. exact Hi. }
  assert (Hpool : pool_loaded s2 (prelude_values ++ vs)).
  { split; [|split].
    - intros j x Hj. apply (Hvalues j). rewrite K7, K6, Hmore5. unfold s4. simpl.
      rewrite K3. apply lookup_app_l_Some. exact Hj.
    - intros j x Hj. apply (Hvalues j). rewrite K7, K6, Hmore5. unfold s4. simpl.
      rewrite K3. apply lookup_app_l_Some. exact Hj.
    - intros j Hj. apply (Hvalues j). rewrite K7, K6, Hmore5. unfold s4. simpl.
      rewrite K3. apply lookup_app_l_Some. exact Hj. }
  destruct (R2 (bytecode_chunk s7) (prelude_values ++ vs) native_globals h Hloaded Hpool)
    as [steps [vm' [Hrun Hleft]]].
  exists (12 + S steps)%nat. intros fuel Hfuel. exists vm'. split; [|exact Hleft].
  unfold compile_and_run. rewrite Hcompile. f_equal.
  replace fuel with ((12 + S steps) + (fuel - (12 + S steps)))%nat by lia.
  unfold VM.interpret. apply run_more.
  rewrite Hboot. rewrite Hchunk at 1.
  rewrite run_prelude. rewrite <- Hchunk.
  rewrite (run_ENTER_SCOPE host _ (bytecode_chunk s7) _ 12 native_globals [] h
             ltac:(lia) [] []); [|rewrite Hchunk; reflexivity].
  replace (len (bytecode_chunk s1)) with (12 + 1) in Hrun
    by (unfold s1; simpl; rewrite C0; reflexivity).
  exact Hrun.
Qed.

(** *** Straight-line programs *)

(** A declaration or an assignment compiles to code that updates the scope
    and leaves the stack as it was. *)
Lemma statement_runs (statement : ASTNode) :
  forall store store' s,
    after_statement store statement = Some store' ->
    ints_only (constants s) -> 0 < scope_depth s ->
    is_Expr statement = false
    /\ exists s', _compile_node statement s = inr (tt, s') /\ grown s s'
      /\ forall host n chunk values st g scope fs h,
           code_loaded s s' chunk -> pool_loaded s' values -> agrees store scope ->
           exists scope', agrees store' scope'
             /\ VM._run host (added s s' + n)
                  (VM.mkVM chunk values (len (bytecode_chunk s)) st g [scope] fs h)
                = VM._run host n
                    (VM.mkVM chunk values (len (bytecode_chunk s')) st g [scope'] fs h).
Proof.
  intros store store' s Hafter Hpool Hdepth.
  destruct statement as [|name initializer c t|name e t| | | | | | | | | | | | | | | | | | | | | |];
    try discriminate Hafter; cbn [after_statement] in Hafter.
  - (* let *)
    destruct initializer as [e|]; [|discriminate Hafter].
    destruct c; [discriminate Hafter|].
    destruct (int_value store e) as [z|] eqn:Ez; [|discriminate Hafter].
    injection Hafter as <-. split; [reflexivity|].
    destruct (declaration_runs name e t s (int_value_plain _ _ _ Ez) Hpool Hdepth)
      as [s' [E [G R]]].
    exists s'. split; [exact E|]. split; [exact G|].
    intros host n chunk values st g scope fs h Hcode Hvalues Hagree.
    eexists. split; [apply agrees_bind; exact Hagree|].
    apply (R store z host n chunk values st g [] scope fs h Ez Hcode Hvalues).
    apply reads_one. exact Hagree.
  - (* assignment *)
    destruct (int_value store e) as [z|] eqn:Ez; [|discriminate Hafter].
    destruct (store (value name)) as [old|] eqn:Eold; [|discriminate Hafter].
    injection Hafter as <-. split; [reflexivity|].
    destruct (assignment_runs name e t s (int_value_plain _ _ _ Ez) Hpool Hdepth)
      as [s' [E [G R]]].
    exists s'. split; [exact E|]. split; [exact G|].
    intros host n chunk values st g scope fs h Hcode Hvalues Hagree.
    exists (VM.dict_set scope (VM.VStr (value name)) (variable (value name) z)).
    split; [apply agrees_bind; exact Hagree|].
    apply (R store z host n chunk values st g [scope]
             [VM.dict_set scope (VM.VStr (value name)) (variable (value name) z)] fs h
             Ez Hcode Hvalues (reads_one _ _ Hagree)).
    cbn [rev app VM.assign_local]. unfold VM.contains. cbn [VM.hashable].
    rewrite (Hagree (value name)), Eold. reflexivity.
Qed.

(** The statements of a block and the final [return], outside every call:
    the run returns the value of the returned expression. *)
Lemma statements_run (e : ASTNode) (statements : list ASTNode) :
  forall store store' z s,
    after_statements store statements = Some store' -> int_value store' e = Some z ->
    ints_only (constants s) -> 0 < scope_depth s ->
    exists s',
      for_each (statements ++ [ReturnStmt (Some e) None]) (fun statement_node =>
        bind (_compile_node statement_node) (fun _ =>
          when (is_Expr statement_node) (emit OP_POP NoOperand None))) s
      = inr (tt, s')
      /\ grown s s'
      /\ forall host chunk values st g scope h,
           code_loaded s s' chunk -> pool_loaded s' values -> agrees store scope ->
           exists vm',
             VM._run host (added s s')
               (VM.mkVM chunk values (len (bytecode_chunk s)) st g [scope] [] h)
             = VM.Return_ (VM.Ok (VM.VInt z)) vm'.
Proof.
  induction statements as [|statement rest IH]; intros store store' z s Hafter Hz Hpool Hdepth.
  - injection Hafter as <-.
    destruct (expression_runs e s (int_value_plain _ _ _ Hz) Hpool Hdepth)
      as [s1 [E1 [G1 R1]]].
    destruct (emit_grown OP_RETURN NoOperand None s1 ltac:(apply G1))
      as [s2 [E2 [G2 [A2 L2]]]].
    exists s2. split; [|split; [eapply grown_trans; eauto|]].
    + cbn [app for_each _compile_node is_Expr when]. unfold bind. rewrite E1, E2.
      reflexivity.
    + intros host chunk values st g scope h Hcode Hvalues Hagree.
      rewrite (added_grown s s1 s2 G1 G2), A2.
      rewrite (R1 store z host _ chunk values st g [scope] [] h Hz
                 (code_loaded_left _ _ _ _ G2 Hcode) (pool_loaded_grown _ _ _ G2 Hvalues)
                 (reads_one _ _ Hagree)).
      assert (Hinstr : chunk !! Z.to_nat (len (bytecode_chunk s1))
                       = Some (mkInstruction OP_RETURN NoOperand)).
      { eapply (code_at s s1 s2 s2); [exact Hcode|apply grown_length; exact G1|exact L2|].
        apply grown_refl. apply G2. }
      rewrite (run_RETURN host 0 chunk values _ g h (len_nonneg _) st [scope] _ Hinstr).
      eauto.
  - cbn [after_statements] in Hafter.
    destruct (after_statement store statement) as [store1|] eqn:E; [|discriminate Hafter].
    destruct (statement_runs statement store store1 s E Hpool Hdepth)
      as [Hexpr [s1 [E1 [G1 R1]]]].
    destruct (IH store1 store' z s1 Hafter Hz ltac:(apply G1)
                ltac:(eapply grown_depth; eauto))
      as [s2 [E2 [G2 R2]]].
    exists s2. split; [|split; [eapply grown_trans; eauto|]].
    + change ((statement :: rest) ++ [ReturnStmt (Some e) None])
        with (statement :: (rest ++ [ReturnStmt (Some e) None])).
      cbn [for_each]. unfold bind at 1. unfold bind at 1. rewrite E1, Hexpr.
      cbn [when ret]. exact E2.
    + intros host chunk values st g scope h Hcode Hvalues Hagree.
      rewrite (added_grown s s1 s2 G1 G2).
      destruct (R1 host (added s1 s2) chunk values st g scope [] h
                  (code_loaded_left _ _ _ _ G2 Hcode)
                  (pool_loaded_grown _ _ _ G2 Hvalues) Hagree) as [scope1 [Hagree1 Hrun1]].
      rewrite Hrun1.
      apply (R2 host chunk values st g scope1 h (code_loaded_right _ _ _ _ G1 Hcode)
               Hvalues Hagree1).
Qed.

(** X20: a program of [let] declarations and assignments of integer
    expressions, ended by [return e], compiles, and with enough fuel its
    run returns [Result.ok] of the value that the expression has after the
    statements: the compiler and the machine keep the order of the
    operands, the nesting of the expressions and the latest value of each
    variable. *)
Theorem straight_line_programs_run_as_written (host : VM.Host)
    (statements : list ASTNode) (e : ASTNode) (store : Store) (z : Z) :
  after_statements no_variable statements = Some store ->
  int_value store e = Some z ->
  exists n, forall fuel, (n <= fuel)%nat ->
    returned (compile_and_run host fuel (straight_line statements e))
    = Some (VM.Ok (VM.VInt z)).
Proof.
  intros Hafter Hz.
  destruct (block_returns host (statements ++ [ReturnStmt (Some e) None]) z
              (fun _ => True)) as [n Hn].
  { intros s Hpool Hdepth _ _ _.
    destruct (statements_run e statements no_variable store z s Hafter Hz Hpool Hdepth)
      as [s' [E [G R]]].
    exists s'. split; [exact E|]. split; [exact G|].
    intros chunk values g h Hcode Hvalues. exists (added s s').
    destruct (R host chunk values [] g [] h Hcode Hvalues agrees_empty) as [vm' Hrun].
    exists vm'. auto. }
  exists n. intros fuel Hfuel. destruct (Hn fuel Hfuel) as [vm' [Hrun _]].
  unfold straight_line. rewrite Hrun. reflexivity.
Qed.

Lemma straight_line_programs_run_as_written_witness :
  exists n, forall fuel, (n <= fuel)%nat ->
    returned (compile_and_run silent_host fuel (straight_line two_variables minus_y_plus_1))
    = Some (VM.Ok (VM.VInt (-7))).
Proof.
  exact (straight_line_programs_run_as_written silent_host two_variables minus_y_plus_1
           (bind_variable "y" 8 (bind_variable "y" 10 (bind_variable "x" 2 no_variable)))
           (-7) eq_refl eq_refl).
Defined.

(** ** Structured programs run as written *)

(** *** Steps of the compiler *)

Lemma lookup_insert_same {A} (l : list A) (i : nat) (x : A) :
  (i < length l)%nat -> <[i := x]> l !! i = Some x.
Proof. intros H. rewrite list_lookup_insert, decide_True; [reflexivity|]. split; [reflexivity|exact H]. Qed.

Lemma getitem_last_app {A} (l : list A) (x : A) : getitem (l ++ [x]) (-1) = Some x.
Proof.
  unfold getitem. rewrite len_app. pose proof (len_nonneg l).
  replace (0 <=? -1) with false by reflexivity.
  replace (0 <=? len l + len [x] + -1) with true
    by (symmetry; apply Z.leb_le; unfold len at 2; simpl; lia).
  replace (Z.to_nat (len l + len [x] + -1)) with (length l)
    by (unfold len; simpl; lia).
  rewrite lookup_app_r by lia. rewrite Nat.sub_diag. reflexivity.
Qed.

Lemma for_each_app {A} (l1 l2 : list A) (body : A -> M unit) (s : Compiler) :
  for_each (l1 ++ l2) body s = bind (for_each l1 body) (fun _ => for_each l2 body) s.
Proof.
  revert s. induction l1 as [|x l1 IH]; intros s; [reflexivity|].
  cbn [app for_each]. unfold bind at 1. unfold bind at 2. unfold bind at 2.
  destruct (body x s) as [err|[[] s1]]; [reflexivity|]. apply IH.
Qed.

Lemma pool_loaded_same (s s' : Compiler) (values : list VM.Value) :
  constants s' = constants s -> pool_loaded s' values -> pool_loaded s values.
Proof. intros E H. unfold pool_loaded in *. rewrite <- E. exact H. Qed.

Lemma len_length {A} (l : list A) : Z.to_nat (len l) = length l.
Proof. unfold len. apply Nat2Z.id. Qed.

(** [emit_instruction] appends one instruction and returns its index. *)
Lemma emit_instruction_grown (op : OpCode) (arg : Operand) (token : option Token)
    (s : Compiler) :
  ints_only (constants s) ->
  exists s', emit_instruction op arg token s = inr (len (bytecode_chunk s), s')
    /\ grown s s'
    /\ bytecode_chunk s' = bytecode_chunk s ++ [mkInstruction op arg].
Proof.
  intros Hpool.
  destruct (emit_instruction_fields op arg token s)
    as (s' & E & Hc & Hk & Hd & Hs & He & Hl).
  exists s'. split; [exact E|]. split; [|exact Hc].
  split; [eauto|]. split; [exists []; rewrite app_nil_r; exact Hk|].
  split; [rewrite Hk; exact Hpool|]. auto.
Qed.

Lemma last_patches_pushed (f : Compiler -> list (list Z)) (s : Compiler)
    (stack : list (list Z)) (l : list Z) :
  f s = stack ++ [l] -> last_patches f s = inr (l, s).
Proof.
  intros H. unfold last_patches, bind, gets. rewrite H, getitem_last_app. reflexivity.
Qed.

Lemma operand_at_state (s : Compiler) (idx : nat) (instr : Instruction) :
  bytecode_chunk s !! idx = Some instr ->
  operand_at (Z.of_nat idx) s = inr (operand instr, s).
Proof. intros H. unfold operand_at. rewrite getitem_nat, H. reflexivity. Qed.

Lemma pop_loop_start_pushed (s : Compiler) (stack : list (list Z)) (l : list Z) :
  loop_start_patches s = stack ++ [l] ->
  pop_loop_start s = inr (tt, set_loop_start_patches stack s).
Proof.
  intros H. unfold pop_loop_start, pop_patches. rewrite H, list_pop_app. reflexivity.
Qed.

Lemma pop_loop_end_pushed (s : Compiler) (stack : list (list Z)) (l : list Z) :
  loop_end_patches s = stack ++ [l] ->
  pop_loop_end s = inr (tt, set_loop_end_patches stack s).
Proof.
  intros H. unfold pop_loop_end, pop_patches. rewrite H, list_pop_app. reflexivity.
Qed.

(** The condition of an [if] or a [while], in the scopes of the program. *)
Lemma condition_tests (condition : ASTNode) (s s' : Compiler) (host : VM.Host)
    (chunk : list Instruction) (values : list VM.Value) :
  (forall store b host n chunk values st g envs fs h,
     (0 < VM.recursion_limit host)%nat ->
     condition_value store condition = Some b ->
     code_loaded s s' chunk -> pool_loaded s' values -> reads store envs ->
     VM._run host (added s s' + n)
       (VM.mkVM chunk values (len (bytecode_chunk s)) st g envs fs h)
     = VM._run host n
         (VM.mkVM chunk values (len (bytecode_chunk s')) (st ++ [VM.VBool b]) g envs fs
            h)) ->
  (0 < VM.recursion_limit host)%nat ->
  code_loaded s s' chunk -> pool_loaded s' values ->
  tests host chunk values condition (added s s') (len (bytecode_chunk s))
    (len (bytecode_chunk s')).
Proof.
  intros R Hhost Hcode Hvalues scopes b st g envs fs h n Hb Hagree.
  apply (R _ b host n chunk values st g envs fs h Hhost Hb Hcode Hvalues).
  apply reads_scopes. exact Hagree.
Qed.


(** *** Jumps that wait for their target *)

Lemma pended_refl (stack : list (list Z)) : pended stack stack [].
Proof. left. auto. Qed.

Lemma pended_trans (a b c : list (list Z)) (x y : list nat) :
  pended a b x -> pended b c y -> pended a c (x ++ y).
Proof.
  intros [[-> ->]|(init & top & -> & ->)] [[-> ->]|(init' & top' & E & ->)].
  - left. auto.
  - right. eauto.
  - right. exists init, top. rewrite app_nil_r. auto.
  - right. apply app_inj_tail in E. destruct E as [<- <-].
    exists init, top. split; [reflexivity|].
    rewrite fmap_app, app_assoc. reflexivity.
Qed.

Lemma pended_none (stack : list (list Z)) (new : list nat) :
  pended [] stack new -> new = [] /\ stack = [].
Proof.
  intros [[-> ->]|(init & top & E & _)]; [auto|].
  destruct init; discriminate E.
Qed.

Lemma pended_pushed (stack stack' : list (list Z)) (new : list nat) :
  pended (stack ++ [[]]) stack' new -> stack' = stack ++ [Z.of_nat <$> new].
Proof.
  intros [[-> ->]|(init & top & E & ->)]; [reflexivity|].
  apply app_inj_tail in E. destruct E as [<- <-]. reflexivity.
Qed.

Lemma pended_nonempty (stack stack' : list (list Z)) (new : list nat) :
  pended stack stack' new ->
  (exists init top, stack = init ++ [top]) -> exists init top, stack' = init ++ [top].
Proof.
  intros [[-> ->]|(init & top & -> & ->)] H; [exact H|eauto].
Qed.

Lemma grown_extended (s s' : Compiler) : grown s s' -> extended s s' [] [].
Proof.
  intros (Hc & Hk & Hi & Hd & Hs & He & Hl).
  split; [exact Hc|]. split; [exact Hk|]. split; [exact Hi|]. split; [exact Hd|].
  split; [exact Hl|]. split; [left; auto|]. split; [left; auto|].
  split; [constructor|]. intros j _. apply not_elem_of_nil.
Qed.

Lemma pended_nil (stack stack' : list (list Z)) : pended stack stack' [] -> stack' = stack.
Proof.
  intros [[_ ->]|(init & top & -> & ->)]; [reflexivity|].
  cbn [fmap list_fmap]. rewrite app_nil_r. reflexivity.
Qed.

Lemma extended_grown (s s' : Compiler) : extended s s' [] [] -> grown s s'.
Proof.
  intros (Hc & Hk & Hi & Hd & Hl & Hs & He & _).
  split; [exact Hc|]. split; [exact Hk|]. split; [exact Hi|]. split; [exact Hd|].
  split; [apply pended_nil; exact Hs|]. split; [apply pended_nil; exact He|]. exact Hl.
Qed.

Lemma extended_length (s s' : Compiler) (breaks continues : list nat) :
  extended s s' breaks continues ->
  (length (bytecode_chunk s) <= length (bytecode_chunk s'))%nat.
Proof. intros ([code Hc] & _). rewrite Hc, length_app. lia. Qed.

Lemma extended_within (s s' : Compiler) (breaks continues : list nat) (i : nat) :
  extended s s' breaks continues -> i ∈ breaks ++ continues ->
  (length (bytecode_chunk s) <= i < length (bytecode_chunk s'))%nat.
Proof.
  intros (_ & _ & _ & _ & _ & _ & _ & H & _) Hi.
  rewrite Forall_forall in H. destruct (H i Hi) as [Hle Hl].
  apply lookup_lt_Some in Hl. lia.
Qed.

Lemma extended_trans (s s1 s2 : Compiler) (b1 k1 b2 k2 : list nat) :
  extended s s1 b1 k1 -> extended s1 s2 b2 k2 ->
  extended s s2 (b1 ++ b2) (k1 ++ k2).
Proof.
  intros H1 H2. pose proof (extended_length _ _ _ _ H1) as N1.
  pose proof (fun i => extended_within _ _ _ _ i H1) as W1.
  pose proof (fun i => extended_within _ _ _ _ i H2) as W2.
  destruct H1 as ([c1 C1] & [m1 K1] & _ & D1 & L1 & S1 & E1 & F1 & X1).
  destruct H2 as ([c2 C2] & [m2 K2] & I2 & D2 & L2 & S2 & E2 & F2 & X2).
  split; [exists (c1 ++ c2); rewrite C2, C1, app_assoc; reflexivity|].
  split; [exists (m1 ++ m2); rewrite K2, K1, app_assoc; reflexivity|].
  split; [exact I2|]. split; [congruence|]. split; [congruence|].
  split; [eapply pended_trans; eauto|]. split; [eapply pended_trans; eauto|].
  split.
  - rewrite Forall_forall in *. intros i Hi.
    assert (Hcases : i ∈ b1 ++ k1 \/ i ∈ b2 ++ k2).
    { rewrite !elem_of_app in *. tauto. }
    destruct Hcases as [H|H].
    + destruct (F1 i H) as [Hle Hl]. split; [exact Hle|].
      rewrite C2. apply lookup_app_l_Some. exact Hl.
    + destruct (F2 i H) as [Hle Hl]. split; [lia|exact Hl].
  - intros i Hb Hk. apply elem_of_app in Hb. apply elem_of_app in Hk.
    destruct Hb as [Hb|Hb], Hk as [Hk|Hk].
    + exact (X1 i Hb Hk).
    + pose proof (W1 i ltac:(apply elem_of_app; left; exact Hb)).
      pose proof (W2 i ltac:(apply elem_of_app; right; exact Hk)). lia.
    + pose proof (W2 i ltac:(apply elem_of_app; left; exact Hb)).
      pose proof (W1 i ltac:(apply elem_of_app; right; exact Hk)). lia.
    + exact (X2 i Hb Hk).
Qed.

Lemma extended_grown_l (s s1 s2 : Compiler) (b k : list nat) :
  grown s s1 -> extended s1 s2 b k -> extended s s2 b k.
Proof.
  intros H1 H2.
  exact (extended_trans s s1 s2 [] [] b k (grown_extended _ _ H1) H2).
Qed.

Lemma extended_grown_r (s s1 s2 : Compiler) (b k : list nat) :
  extended s s1 b k -> grown s1 s2 -> extended s s2 b k.
Proof.
  intros H1 H2.
  pose proof (extended_trans s s1 s2 b k [] [] H1 (grown_extended _ _ H2)) as H.
  rewrite !app_nil_r in H. exact H.
Qed.

(** A patch of an instruction that is not a waiting jump. *)
Lemma extended_patch (s0 s : Compiler) (b k : list nat) (idx : nat) (instr : Instruction) :
  extended s0 s b k -> (length (bytecode_chunk s0) <= idx)%nat ->
  idx ∉ b ++ k ->
  extended s0 (set_bytecode_chunk (<[idx := instr]> (bytecode_chunk s)) s) b k.
Proof.
  intros ([code Hc] & Hk & Hi & Hd & Hl & Hs & He & Hf & Hx) Hidx Hnot.
  split.
  { exists (<[(idx - length (bytecode_chunk s0))%nat := instr]> code).
    cbn [bytecode_chunk set_bytecode_chunk]. rewrite Hc.
    apply insert_app_r_alt. exact Hidx. }
  do 6 (split; [assumption|]). split; [|exact Hx].
  rewrite Forall_forall in *. intros i Hin. destruct (Hf i Hin) as [Hle Hlook].
  split; [exact Hle|]. cbn [bytecode_chunk set_bytecode_chunk].
  rewrite list_lookup_insert_ne; [exact Hlook|]. intros ->. contradiction.
Qed.

Lemma ready_extended (in_loop : bool) (s s' : Compiler) (b k : list nat) :
  ready in_loop s -> extended s s' b k -> ready in_loop s'.
Proof.
  intros (_ & Hd & Hl & Hloop) (_ & _ & Hi & Hd' & Hl' & Hs & He & _).
  split; [exact Hi|]. split; [rewrite Hd'; exact Hd|]. split; [rewrite Hl'; exact Hl|].
  intros Hin. destruct (Hloop Hin) as (H1 & H2 & H3).
  split; [rewrite Hl'; exact H1|].
  split; eapply pended_nonempty; eauto.
Qed.

Lemma ready_grown (in_loop : bool) (s s' : Compiler) :
  ready in_loop s -> grown s s' -> ready in_loop s'.
Proof. intros H G. exact (ready_extended _ _ _ _ _ H (grown_extended _ _ G)). Qed.

Lemma pool_loaded_extended (s s' : Compiler) (b k : list nat) (values : list VM.Value) :
  extended s s' b k -> pool_loaded s' values -> pool_loaded s values.
Proof.
  intros (_ & [more Hk] & _) (Hint & Hstr & Hnone). split; [|split].
  - intros j z Hz. apply Hint. rewrite Hk. apply lookup_app_l_Some. exact Hz.
  - intros j x Hx. apply Hstr. rewrite Hk. apply lookup_app_l_Some. exact Hx.
  - intros j Hx. apply Hnone. rewrite Hk. apply lookup_app_l_Some. exact Hx.
Qed.

(** *** The code with the targets of the waiting jumps *)

Lemma patched_same (b k b' k' : list nat) (pc_break pc_continue : Z) (i : nat)
    (instr : Instruction) :
  (i ∈ b <-> i ∈ b') -> (i ∈ k <-> i ∈ k') ->
  patched b k pc_break pc_continue i instr = patched b' k' pc_break pc_continue i instr.
Proof.
  intros Hb Hk. unfold patched.
  destruct (decide (i ∈ b)), (decide (i ∈ b')); try tauto;
    destruct (decide (i ∈ k)), (decide (i ∈ k')); tauto.
Qed.

Lemma code_pending_loaded (s s' : Compiler) (pc_break pc_continue : Z)
    (chunk : list Instruction) :
  code_pending s s' [] [] pc_break pc_continue chunk -> code_loaded s s' chunk.
Proof. intros H i instr Hi Hinstr. exact (H i instr Hi Hinstr). Qed.

Lemma code_loaded_pending (s s' : Compiler) (pc_break pc_continue : Z)
    (chunk : list Instruction) :
  code_loaded s s' chunk -> code_pending s s' [] [] pc_break pc_continue chunk.
Proof. intros H i instr Hi Hinstr. exact (H i instr Hi Hinstr). Qed.

(** The code of a part [a], [b] of the visit from [s] to [s']. *)
Lemma code_pending_part (s s' a b : Compiler) (bs ks bs' ks' : list nat)
    (pc_break pc_continue : Z) (chunk : list Instruction) :
  code_pending s s' bs ks pc_break pc_continue chunk ->
  (length (bytecode_chunk s) <= length (bytecode_chunk a))%nat ->
  kept (length (bytecode_chunk a)) (length (bytecode_chunk b)) (bytecode_chunk b)
    (bytecode_chunk s') ->
  (forall i, (length (bytecode_chunk a) <= i < length (bytecode_chunk b))%nat ->
     (i ∈ bs <-> i ∈ bs') /\ (i ∈ ks <-> i ∈ ks')) ->
  code_pending a b bs' ks' pc_break pc_continue chunk.
Proof.
  intros Hl Hlen Hk Hsame i instr Hi Hinstr.
  pose proof (lookup_lt_Some _ _ _ Hinstr) as Hlt.
  destruct (Hsame i ltac:(lia)) as [Hb Hc].
  rewrite <- (patched_same bs ks bs' ks' _ _ i instr Hb Hc).
  apply Hl; [lia|]. rewrite Hk; [exact Hinstr|lia].
Qed.

(** One instruction of the visit that is not a waiting jump. *)
Lemma code_pending_at (s s' : Compiler) (bs ks : list nat) (pc_break pc_continue : Z)
    (chunk : list Instruction) (i : nat) (instr : Instruction) :
  code_pending s s' bs ks pc_break pc_continue chunk ->
  (length (bytecode_chunk s) <= i)%nat ->
  bytecode_chunk s' !! i = Some instr -> i ∉ bs -> i ∉ ks ->
  chunk !! Z.to_nat (Z.of_nat i) = Some instr.
Proof.
  intros Hl Hi Hinstr Hb Hk. rewrite Nat2Z.id.
  rewrite (Hl i instr Hi Hinstr). unfold patched.
  rewrite !decide_False by assumption. reflexivity.
Qed.

(** *** Control flow with early exits *)

Lemma heap_kept_refl (h : VM.Heap) : heap_kept h h.
Proof. intros a o H. exact H. Qed.

Lemma heap_kept_trans (h1 h2 h3 : VM.Heap) :
  heap_kept h1 h2 -> heap_kept h2 h3 -> heap_kept h1 h3.
Proof. intros H1 H2 a o H. apply H2, H1, H. Qed.

Section Exits.

Context (host : VM.Host) (chunk : list Instruction) (values : list VM.Value).

Lemma runs_to_refl (pc pc_break pc_continue : Z) :
  runs_to host chunk values (fun scopes => Some (Normal scopes)) pc pc pc_break
    pc_continue.
Proof.
  intros scopes outcome st g envs fs h [= <-] Hagree.
  exists envs, h, 0%nat. split; [exact Hagree|]. split; [apply heap_kept_refl|].
  intros n. reflexivity.
Qed.

(** One statement after the other: the second runs when the first leaves by
    its end. *)
Lemma runs_to_seq (run1 run2 : list Store -> option Outcome)
    (pc1 pc2 pc3 pc_break pc_continue : Z) :
  runs_to host chunk values run1 pc1 pc2 pc_break pc_continue ->
  runs_to host chunk values run2 pc2 pc3 pc_break pc_continue ->
  runs_to host chunk values
    (fun scopes => match run1 scopes with
                   | Some (Normal scopes') => run2 scopes'
                   | Some (Broke scopes') => Some (Broke scopes')
                   | Some (Continued scopes') => Some (Continued scopes')
                   | None => None
                   end) pc1 pc3 pc_break pc_continue.
Proof.
  intros H1 H2 scopes outcome st g envs fs h Hrun Hagree.
  destruct (run1 scopes) as [[scopes1|scopes1|scopes1]|] eqn:E1; [| | |discriminate Hrun].
  - destruct (H1 scopes _ st g envs fs h E1 Hagree)
      as (envs1 & h1 & k1 & Hagree1 & Hh1 & Hrun1).
    destruct (H2 scopes1 outcome st g envs1 fs h1 Hrun Hagree1)
      as (envs2 & h2 & k2 & Hagree2 & Hh2 & Hrun2).
    exists envs2, h2, (k1 + k2)%nat. split; [exact Hagree2|].
    split; [eapply heap_kept_trans; eauto|]. intros n.
    rewrite <- Nat.add_assoc, Hrun1. apply Hrun2.
  - injection Hrun as <-. exact (H1 scopes _ st g envs fs h E1 Hagree).
  - injection Hrun as <-. exact (H1 scopes _ st g envs fs h E1 Hagree).
Qed.

(** A block in braces: its scope is dropped at the end of the block, and
    stays when a jump leaves the block. *)
Lemma scope_to (run : list Store -> option Outcome) (pc pc' pc_break pc_continue : Z) :
  0 <= pc -> 0 <= pc' ->
  chunk !! Z.to_nat pc = Some (mkInstruction OP_ENTER_SCOPE NoOperand) ->
  chunk !! Z.to_nat pc' = Some (mkInstruction OP_EXIT_SCOPE NoOperand) ->
  runs_to host chunk values run (pc + 1) pc' pc_break pc_continue ->
  runs_to host chunk values
    (fun scopes => match run (no_variable :: scopes) with
                   | Some (Normal (_ :: outer)) => Some (Normal outer)
                   | Some (Normal []) => None
                   | Some (Broke scopes') => Some (Broke scopes')
                   | Some (Continued scopes') => Some (Continued scopes')
                   | None => None
                   end) pc (pc' + 1) pc_break pc_continue.
Proof.
  intros Hpc Hpc' Henter Hexit Hbody scopes outcome st g envs fs h Hrun Hagree.
  assert (Hagree0 : scopes_agree (no_variable :: scopes) (envs ++ [[]])).
  { unfold scopes_agree. rewrite rev_app_distr. constructor; [apply agrees_empty|].
    exact Hagree. }
  destruct (run (no_variable :: scopes)) as [[[|inner outer]|scopes1|scopes1]|] eqn:E;
    try discriminate Hrun; injection Hrun as <-;
    destruct (Hbody _ _ st g _ fs h E Hagree0)
      as (envs1 & h1 & k & Hagree1 & Hh1 & Hrun1);
    cbn [outcome_scopes outcome_pc] in *.
  - unfold scopes_agree in Hagree1.
    destruct (rev envs1) as [|scope renvs] eqn:Erev; [inversion Hagree1|].
    apply Forall2_cons in Hagree1. destruct Hagree1 as [_ Houter].
    assert (Eenvs : envs1 = rev renvs ++ [scope]).
    { rewrite <- (rev_involutive envs1), Erev. reflexivity. }
    exists (rev renvs), h1, (1 + (k + 1))%nat. split; [|split; [exact Hh1|]].
    + unfold scopes_agree. rewrite rev_involutive. exact Houter.
    + intros n. cbn [Nat.add].
      rewrite (run_ENTER_SCOPE host _ chunk values pc g fs h Hpc st envs Henter).
      rewrite <- Nat.add_assoc, Hrun1, Eenvs. cbn [Nat.add].
      apply (run_EXIT_SCOPE host n chunk values pc' g fs h1 Hpc' st (rev renvs) scope
               Hexit).
  - exists envs1, h1, (1 + k)%nat. split; [exact Hagree1|]. split; [exact Hh1|].
    intros n. cbn [Nat.add].
    rewrite (run_ENTER_SCOPE host _ chunk values pc g fs h Hpc st envs Henter).
    apply Hrun1.
  - exists envs1, h1, (1 + k)%nat. split; [exact Hagree1|]. split; [exact Hh1|].
    intros n. cbn [Nat.add].
    rewrite (run_ENTER_SCOPE host _ chunk values pc g fs h Hpc st envs Henter).
    apply Hrun1.
Qed.

(** [break] and [continue]: the jump, once the loop has patched it. *)
Lemma break_to (pc pc_end pc_break pc_continue : Z) :
  0 <= pc ->
  chunk !! Z.to_nat pc = Some (mkInstruction OP_JUMP (IntOperand pc_break)) ->
  runs_to host chunk values (fun scopes => Some (Broke scopes)) pc pc_end pc_break
    pc_continue.
Proof.
  intros Hpc Hjump scopes outcome st g envs fs h [= <-] Hagree.
  exists envs, h, 1%nat. split; [exact Hagree|]. split; [apply heap_kept_refl|].
  intros n.
  apply (run_JUMP host n chunk values pc g fs h Hpc st envs pc_break Hjump).
Qed.

Lemma continue_to (pc pc_end pc_break pc_continue : Z) :
  0 <= pc ->
  chunk !! Z.to_nat pc = Some (mkInstruction OP_JUMP (IntOperand pc_continue)) ->
  runs_to host chunk values (fun scopes => Some (Continued scopes)) pc pc_end pc_break
    pc_continue.
Proof.
  intros Hpc Hjump scopes outcome st g envs fs h [= <-] Hagree.
  exists envs, h, 1%nat. split; [exact Hagree|]. split; [apply heap_kept_refl|].
  intros n.
  apply (run_JUMP host n chunk values pc g fs h Hpc st envs pc_continue Hjump).
Qed.

Lemma if_else_to (condition : ASTNode) (k : nat)
    (run_then run_else : list Store -> option Outcome)
    (pc pc_test pc_jump pc_end pc_break pc_continue : Z) :
  0 <= pc_test -> 0 <= pc_jump ->
  tests host chunk values condition k pc pc_test ->
  chunk !! Z.to_nat pc_test
  = Some (mkInstruction OP_JUMP_IF_FALSE (IntOperand (pc_jump + 1))) ->
  runs_to host chunk values run_then (pc_test + 1) pc_jump pc_break pc_continue ->
  chunk !! Z.to_nat pc_jump = Some (mkInstruction OP_JUMP (IntOperand pc_end)) ->
  runs_to host chunk values run_else (pc_jump + 1) pc_end pc_break pc_continue ->
  runs_to host chunk values
    (fun scopes => match condition_value (lookup_variable scopes) condition with
                   | Some true => run_then scopes
                   | Some false => run_else scopes
                   | None => None
                   end) pc pc_end pc_break pc_continue.
Proof.
  intros Hpc1 Hpc2 Htest Hjif Hthen Hjump Helse scopes outcome st g envs fs h Hrun
    Hagree.
  destruct (condition_value (lookup_variable scopes) condition) as [[|]|] eqn:Eb;
    [| |discriminate Hrun].
  - destruct (Hthen scopes outcome st g envs fs h Hrun Hagree)
      as (envs1 & h1 & k1 & Hagree1 & Hh1 & Hrun1).
    destruct outcome as [scopes1|scopes1|scopes1]; cbn [outcome_pc outcome_scopes] in *.
    + exists envs1, h1, (k + (1 + (k1 + 1)))%nat. split; [exact Hagree1|].
      split; [exact Hh1|]. intros n.
      rewrite <- Nat.add_assoc, (Htest scopes true st g envs fs h _ Eb Hagree).
      cbn [Nat.add].
      rewrite (run_JUMP_IF_FALSE host _ chunk values pc_test g fs h Hpc1 st envs _ true
                 Hjif).
      rewrite <- Nat.add_assoc, Hrun1. cbn [Nat.add].
      apply (run_JUMP host n chunk values pc_jump g fs h1 Hpc2 st envs1 pc_end Hjump).
    + exists envs1, h1, (k + (1 + k1))%nat. split; [exact Hagree1|].
      split; [exact Hh1|]. intros n.
      rewrite <- Nat.add_assoc, (Htest scopes true st g envs fs h _ Eb Hagree).
      cbn [Nat.add].
      rewrite (run_JUMP_IF_FALSE host _ chunk values pc_test g fs h Hpc1 st envs _ true
                 Hjif).
      apply Hrun1.
    + exists envs1, h1, (k + (1 + k1))%nat. split; [exact Hagree1|].
      split; [exact Hh1|]. intros n.
      rewrite <- Nat.add_assoc, (Htest scopes true st g envs fs h _ Eb Hagree).
      cbn [Nat.add].
      rewrite (run_JUMP_IF_FALSE host _ chunk values pc_test g fs h Hpc1 st envs _ true
                 Hjif).
      apply Hrun1.
  - destruct (Helse scopes outcome st g envs fs h Hrun Hagree)
      as (envs1 & h1 & k1 & Hagree1 & Hh1 & Hrun1).
    exists envs1, h1, (k + (1 + k1))%nat. split; [exact Hagree1|].
    split; [exact Hh1|]. intros n.
    rewrite <- Nat.add_assoc, (Htest scopes false st g envs fs h _ Eb Hagree).
    cbn [Nat.add].
    rewrite (run_JUMP_IF_FALSE host _ chunk values pc_test g fs h Hpc1 st envs _ false
               Hjif).
    apply Hrun1.
Qed.

Lemma if_to (condition : ASTNode) (k : nat) (run_then : list Store -> option Outcome)
    (pc pc_test pc_end pc_break pc_continue : Z) :
  0 <= pc_test ->
  tests host chunk values condition k pc pc_test ->
  chunk !! Z.to_nat pc_test = Some (mkInstruction OP_JUMP_IF_FALSE (IntOperand pc_end)) ->
  runs_to host chunk values run_then (pc_test + 1) pc_end pc_break pc_continue ->
  runs_to host chunk values
    (fun scopes => match condition_value (lookup_variable scopes) condition with
                   | Some true => run_then scopes
                   | Some false => Some (Normal scopes)
                   | None => None
                   end) pc pc_end pc_break pc_continue.
Proof.
  intros Hpc1 Htest Hjif Hthen scopes outcome st g envs fs h Hrun Hagree.
  destruct (condition_value (lookup_variable scopes) condition) as [[|]|] eqn:Eb;
    [| |discriminate Hrun].
  - destruct (Hthen scopes outcome st g envs fs h Hrun Hagree)
      as (envs1 & h1 & k1 & Hagree1 & Hh1 & Hrun1).
    exists envs1, h1, (k + (1 + k1))%nat. split; [exact Hagree1|].
    split; [exact Hh1|]. intros n.
    rewrite <- Nat.add_assoc, (Htest scopes true st g envs fs h _ Eb Hagree).
    cbn [Nat.add].
    rewrite (run_JUMP_IF_FALSE host _ chunk values pc_test g fs h Hpc1 st envs _ true
               Hjif).
    apply Hrun1.
  - injection Hrun as <-.
    exists envs, h, (k + 1)%nat. split; [exact Hagree|].
    split; [apply heap_kept_refl|]. intros n.
    rewrite <- Nat.add_assoc, (Htest scopes false st g envs fs h _ Eb Hagree).
    cbn [Nat.add].
    apply (run_JUMP_IF_FALSE host n chunk values pc_test g fs h Hpc1 st envs _ false
             Hjif).
Qed.

(** [while]: a [break] of the body lands after the loop, a [continue] on
    the condition, both in the scopes of the jump. *)
Lemma while_to (condition body : ASTNode) (t : option Token) (k : nat)
    (pc pc_test pc_jump pc_break pc_continue : Z) :
  0 <= pc_test -> 0 <= pc_jump ->
  tests host chunk values condition k pc pc_test ->
  chunk !! Z.to_nat pc_test
  = Some (mkInstruction OP_JUMP_IF_FALSE (IntOperand (pc_jump + 1))) ->
  (forall fuel,
     runs_to host chunk values (run_looping fuel body) (pc_test + 1) pc_jump
       (pc_jump + 1) pc) ->
  chunk !! Z.to_nat pc_jump = Some (mkInstruction OP_JUMP (IntOperand pc)) ->
  forall fuel,
    runs_to host chunk values (run_looping fuel (WhileStmt condition body t))
      pc (pc_jump + 1) pc_break pc_continue.
Proof.
  intros Hpc1 Hpc2 Htest Hjif Hbody Hjump fuel.
  induction fuel as [|fuel IH]; intros scopes outcome st g envs fs h Hrun Hagree;
    [discriminate Hrun|].
  cbn [run_looping] in Hrun.
  destruct (condition_value (lookup_variable scopes) condition) as [[|]|] eqn:Eb;
    [| |discriminate Hrun].
  - destruct (run_looping fuel body scopes) as [[scopes1|scopes1|scopes1]|] eqn:E1;
      [| | |discriminate Hrun];
      destruct (Hbody fuel scopes _ st g envs fs h E1 Hagree)
        as (envs1 & h1 & k1 & Hagree1 & Hh1 & Hrun1);
      cbn [outcome_scopes outcome_pc] in *.
    + destruct (IH scopes1 outcome st g envs1 fs h1 Hrun Hagree1)
        as (envs2 & h2 & k2 & Hagree2 & Hh2 & Hrun2).
      exists envs2, h2, (k + (1 + (k1 + (1 + k2))))%nat. split; [exact Hagree2|].
      split; [eapply heap_kept_trans; eauto|]. intros n.
      rewrite <- Nat.add_assoc, (Htest scopes true st g envs fs h _ Eb Hagree).
      cbn [Nat.add].
      rewrite (run_JUMP_IF_FALSE host _ chunk values pc_test g fs h Hpc1 st envs _ true
                 Hjif).
      rewrite <- Nat.add_assoc, Hrun1. cbn [Nat.add].
      rewrite (run_JUMP host _ chunk values pc_jump g fs h1 Hpc2 st envs1 pc Hjump).
      apply Hrun2.
    + injection Hrun as <-. cbn [outcome_scopes outcome_pc].
      exists envs1, h1, (k + (1 + k1))%nat. split; [exact Hagree1|].
      split; [exact Hh1|]. intros n.
      rewrite <- Nat.add_assoc, (Htest scopes true st g envs fs h _ Eb Hagree).
      cbn [Nat.add].
      rewrite (run_JUMP_IF_FALSE host _ chunk values pc_test g fs h Hpc1 st envs _ true
                 Hjif).
      apply Hrun1.
    + destruct (IH scopes1 outcome st g envs1 fs h1 Hrun Hagree1)
        as (envs2 & h2 & k2 & Hagree2 & Hh2 & Hrun2).
      exists envs2, h2, (k + (1 + (k1 + k2)))%nat. split; [exact Hagree2|].
      split; [eapply heap_kept_trans; eauto|]. intros n.
      rewrite <- Nat.add_assoc, (Htest scopes true st g envs fs h _ Eb Hagree).
      cbn [Nat.add].
      rewrite (run_JUMP_IF_FALSE host _ chunk values pc_test g fs h Hpc1 st envs _ true
                 Hjif).
      rewrite <- Nat.add_assoc, Hrun1. apply Hrun2.
  - injection Hrun as <-. cbn [outcome_scopes outcome_pc].
    exists envs, h, (k + 1)%nat. split; [exact Hagree|].
    split; [apply heap_kept_refl|]. intros n.
    rewrite <- Nat.add_assoc, (Htest scopes false st g envs fs h _ Eb Hagree).
    cbn [Nat.add].
    apply (run_JUMP_IF_FALSE host n chunk values pc_test g fs h Hpc1 st envs _ false
             Hjif).
Qed.

End Exits.

(** *** What the compiler adds for a statement *)

Lemma looping_in_statement (in_loop : bool) (statement : ASTNode) :
  looping_in in_loop statement = true -> is_Expr statement = false.
Proof. destruct statement; try discriminate; reflexivity. Qed.

Lemma setitem_last_app {A} (l : list A) (x y : A) :
  setitem (l ++ [x]) (-1) y = Some (l ++ [y]).
Proof.
  unfold setitem. rewrite len_app. pose proof (len_nonneg l).
  replace (0 <=? -1) with false by reflexivity.
  replace (0 <=? len l + len [x] + -1) with true
    by (symmetry; apply Z.leb_le; unfold len at 2; simpl; lia).
  replace (len l + len [x] + -1 <? len l + len [x]) with true
    by (symmetry; apply Z.ltb_lt; lia).
  cbn [andb].
  replace (Z.to_nat (len l + len [x] + -1)) with (length l + 0)%nat
    by (unfold len; simpl; lia).
  rewrite insert_app_r. reflexivity.
Qed.

Lemma kept_extended (lo hi : nat) (s s' : Compiler) (b k : list nat) :
  extended s s' b k -> (hi <= length (bytecode_chunk s))%nat ->
  kept lo hi (bytecode_chunk s) (bytecode_chunk s').
Proof. intros ([code Hc] & _) H. rewrite Hc. apply kept_app. exact H. Qed.

(** The waiting jumps of the first of two parts, and of the second. *)
Lemma pending_left (s s1 s2 : Compiler) (b1 k1 b2 k2 : list nat) (i : nat) :
  extended s1 s2 b2 k2 -> (i < length (bytecode_chunk s1))%nat ->
  (i ∈ b1 ++ b2 <-> i ∈ b1) /\ (i ∈ k1 ++ k2 <-> i ∈ k1).
Proof.
  intros H2 Hi. rewrite !elem_of_app.
  split; (split; [intros [H|H]; [exact H|]|tauto]);
    (assert (Hin : i ∈ b2 ++ k2) by (rewrite elem_of_app; tauto));
    pose proof (extended_within _ _ _ _ _ H2 Hin); lia.
Qed.

Lemma pending_right (s s1 s2 : Compiler) (b1 k1 b2 k2 : list nat) (i : nat) :
  extended s s1 b1 k1 -> (length (bytecode_chunk s1) <= i)%nat ->
  (i ∈ b1 ++ b2 <-> i ∈ b2) /\ (i ∈ k1 ++ k2 <-> i ∈ k2).
Proof.
  intros H1 Hi. rewrite !elem_of_app.
  split; (split; [intros [H|H]; [|exact H]|tauto]);
    (assert (Hin : i ∈ b1 ++ k1) by (rewrite elem_of_app; tauto));
    pose proof (extended_within _ _ _ _ _ H1 Hin); lia.
Qed.

Lemma code_pending_left (s s1 s2 : Compiler) (b1 k1 b2 k2 : list nat)
    (pc_break pc_continue : Z) (chunk : list Instruction) :
  extended s1 s2 b2 k2 ->
  code_pending s s2 (b1 ++ b2) (k1 ++ k2) pc_break pc_continue chunk ->
  code_pending s s1 b1 k1 pc_break pc_continue chunk.
Proof.
  intros H2 Hcode.
  apply (code_pending_part s s2 s s1 _ _ b1 k1 _ _ chunk Hcode); [lia| |].
  - eapply kept_extended; [exact H2|lia].
  - intros i Hi. apply (pending_left s s1 s2 b1 k1 b2 k2 i H2). lia.
Qed.

Lemma code_pending_right (s s1 s2 : Compiler) (b1 k1 b2 k2 : list nat)
    (pc_break pc_continue : Z) (chunk : list Instruction) :
  extended s s1 b1 k1 ->
  code_pending s s2 (b1 ++ b2) (k1 ++ k2) pc_break pc_continue chunk ->
  code_pending s1 s2 b2 k2 pc_break pc_continue chunk.
Proof.
  intros H1 Hcode.
  apply (code_pending_part s s2 s1 s2 _ _ b2 k2 _ _ chunk Hcode).
  - eapply extended_length; eauto.
  - apply kept_refl.
  - intros i Hi. apply (pending_right s s1 s2 b1 k1 b2 k2 i H1). lia.
Qed.

(** [let x = e] in the scopes of the program. *)
Lemma declaration_in (in_loop : bool) (name : Token) (initializer : option ASTNode)
    (c : bool) (t : option Token) :
  compiles_in in_loop (VarDeclareStmt name initializer c t).
Proof.
  intros Hs s (Hpool & Hdepth & _). cbn [looping_in] in Hs.
  destruct initializer as [e|]; [|discriminate Hs]. destruct c; [discriminate Hs|].
  destruct (declaration_runs name e t s Hs Hpool Hdepth) as [s' [E [G R]]].
  exists s', [], []. split; [exact E|]. split; [apply grown_extended; exact G|].
  intros fuel host chunk values pc_break pc_continue Hhost Hcode Hvalues scopes outcome
    st g envs fs h Hrun Hagree.
  destruct fuel as [|fuel]; [discriminate Hrun|]. cbn [run_looping] in Hrun.
  destruct (int_value (lookup_variable scopes) e) as [z|] eqn:Ez; [|discriminate Hrun].
  destruct scopes as [|scope outer]; [discriminate Hrun|]. injection Hrun as <-.
  cbn [outcome_scopes outcome_pc].
  pose proof (reads_scopes _ _ Hagree) as Hreads.
  unfold scopes_agree in Hagree.
  destruct (rev envs) as [|scope_e renvs] eqn:Erev; [inversion Hagree|].
  apply Forall2_cons in Hagree. destruct Hagree as [Hscope Houter].
  assert (Eenvs : envs = rev renvs ++ [scope_e]).
  { rewrite <- (rev_involutive envs), Erev. reflexivity. }
  subst envs.
  exists (rev renvs ++ [VM.dict_set scope_e (VM.VStr (value name))
                          (variable (value name) z)]), h, (added s s').
  split; [|split; [apply heap_kept_refl|]].
  - unfold scopes_agree. rewrite rev_app_distr, rev_involutive. cbn [rev app].
    constructor; [apply agrees_bind; exact Hscope|exact Houter].
  - intros n.
    apply (R _ z host n chunk values st g (rev renvs) scope_e fs h Ez
             (code_pending_loaded _ _ _ _ _ Hcode) Hvalues Hreads).
Qed.

(** [x = e] in the scopes of the program. *)
Lemma assignment_in (in_loop : bool) (name : Token) (e : ASTNode) (t : option Token) :
  compiles_in in_loop (AssignStmt name e t).
Proof.
  intros Hs s (Hpool & Hdepth & _). cbn [looping_in] in Hs.
  destruct (assignment_runs name e t s Hs Hpool Hdepth) as [s' [E [G R]]].
  exists s', [], []. split; [exact E|]. split; [apply grown_extended; exact G|].
  intros fuel host chunk values pc_break pc_continue Hhost Hcode Hvalues scopes outcome
    st g envs fs h Hrun Hagree.
  destruct fuel as [|fuel]; [discriminate Hrun|]. cbn [run_looping] in Hrun.
  destruct (int_value (lookup_variable scopes) e) as [z|] eqn:Ez; [|discriminate Hrun].
  destruct (assign_variable scopes (value name) z) as [scopes'|] eqn:Eassign;
    [|discriminate Hrun].
  injection Hrun as <-. cbn [outcome_scopes outcome_pc].
  pose proof (reads_scopes _ _ Hagree) as Hreads.
  destruct (assign_local_agrees _ _ _ _ _ Hagree Eassign) as [renvs' [Hassign Hagree']].
  exists (rev renvs'), h, (added s s'). split; [|split; [apply heap_kept_refl|]].
  - unfold scopes_agree. rewrite rev_involutive. exact Hagree'.
  - intros n.
    apply (R _ z host n chunk values st g envs renvs' fs h Ez
             (code_pending_loaded _ _ _ _ _ Hcode) Hvalues Hreads Hassign).
Qed.

(** [break]: a jump that waits in the last list of the break patches. *)
Lemma break_in (in_loop : bool) (t : option Token) : compiles_in in_loop (BreakStmt t).
Proof.
  intros Hin s (Hpool & Hdepth & _ & Hloop). cbn [looping_in] in Hin.
  destruct (Hloop Hin) as (Hlevel & _ & [init [top He]]).
  destruct (emit_instruction_fields OP_JUMP placeholder t s)
    as (s1 & E1 & C1 & K1 & D1 & S1 & P1 & L1).
  exists (set_loop_end_patches (init ++ [top ++ [len (bytecode_chunk s)]]) s1),
    [length (bytecode_chunk s)], [].
  split; [|split].
  - cbn [_compile_node]. unfold bind at 1. unfold gets at 1.
    replace (loop_level s =? 0) with false by (symmetry; apply Z.eqb_neq; lia).
    unfold bind at 1. rewrite E1. unfold record_break, append_to_last.
    rewrite P1, He, getitem_last_app, setitem_last_app. reflexivity.
  - split; [exists [mkInstruction OP_JUMP placeholder]; exact C1|].
    split; [exists []; rewrite app_nil_r; exact K1|].
    split; [cbn; rewrite K1; exact Hpool|]. split; [exact D1|]. split; [exact L1|].
    split; [left; split; [reflexivity|exact S1]|].
    split; [right; exists init, top; split; [exact He|reflexivity]|].
    split; [|intros j _; apply not_elem_of_nil].
    constructor; [|constructor]. split; [lia|].
    cbn [bytecode_chunk set_loop_end_patches]. rewrite C1, lookup_app_r by lia.
    rewrite Nat.sub_diag. reflexivity.
  - intros fuel host chunk values pc_break pc_continue Hhost Hcode Hvalues.
    destruct fuel as [|fuel]; [intros scopes outcome st g envs fs h Hrun; discriminate Hrun|].
    apply break_to; [apply len_nonneg|]. rewrite len_length.
    rewrite (Hcode (length (bytecode_chunk s)) (mkInstruction OP_JUMP placeholder));
      [|lia|].
    + unfold patched. rewrite decide_True by (apply list_elem_of_singleton; reflexivity).
      reflexivity.
    + cbn [bytecode_chunk set_loop_end_patches]. rewrite C1, lookup_app_r by lia.
      rewrite Nat.sub_diag. reflexivity.
Qed.

(** [continue]: a jump that waits in the last list of the continue
    patches. *)
Lemma continue_in (in_loop : bool) (t : option Token) :
  compiles_in in_loop (ContinueStmt t).
Proof.
  intros Hin s (Hpool & Hdepth & _ & Hloop). cbn [looping_in] in Hin.
  destruct (Hloop Hin) as (Hlevel & [init [top Hs]] & _).
  destruct (emit_instruction_fields OP_JUMP placeholder t s)
    as (s1 & E1 & C1 & K1 & D1 & S1 & P1 & L1).
  exists (set_loop_start_patches (init ++ [top ++ [len (bytecode_chunk s)]]) s1),
    [], [length (bytecode_chunk s)].
  split; [|split].
  - cbn [_compile_node]. unfold bind at 1. unfold gets at 1.
    replace (loop_level s =? 0) with false by (symmetry; apply Z.eqb_neq; lia).
    unfold bind at 1. rewrite E1. unfold record_continue, append_to_last.
    rewrite S1, Hs, getitem_last_app, setitem_last_app. reflexivity.
  - split; [exists [mkInstruction OP_JUMP placeholder]; exact C1|].
    split; [exists []; rewrite app_nil_r; exact K1|].
    split; [cbn; rewrite K1; exact Hpool|]. split; [exact D1|]. split; [exact L1|].
    split; [right; exists init, top; split; [exact Hs|reflexivity]|].
    split; [left; split; [reflexivity|exact P1]|].
    split; [|intros j Hj; apply not_elem_of_nil in Hj; destruct Hj].
    constructor; [|constructor]. split; [lia|].
    cbn [bytecode_chunk set_loop_start_patches]. rewrite C1, lookup_app_r by lia.
    rewrite Nat.sub_diag. reflexivity.
  - intros fuel host chunk values pc_break pc_continue Hhost Hcode Hvalues.
    destruct fuel as [|fuel]; [intros scopes outcome st g envs fs h Hrun; discriminate Hrun|].
    apply continue_to; [apply len_nonneg|]. rewrite len_length.
    rewrite (Hcode (length (bytecode_chunk s)) (mkInstruction OP_JUMP placeholder));
      [|lia|].
    + unfold patched. rewrite decide_False by (apply not_elem_of_nil).
      rewrite decide_True by (apply list_elem_of_singleton; reflexivity).
      reflexivity.
    + cbn [bytecode_chunk set_loop_start_patches]. rewrite C1, lookup_app_r by lia.
      rewrite Nat.sub_diag. reflexivity.
Qed.

(** The statements of a block, up to the first that leaves. *)
Lemma each_in (in_loop : bool) (statements : list ASTNode) :
  Forall (compiles_in in_loop) statements ->
  forallb (looping_in in_loop) statements = true ->
  forall s, ready in_loop s ->
    exists s' breaks continues,
      for_each statements (fun statement_node =>
        bind (_compile_node statement_node) (fun _ =>
          when (is_Expr statement_node) (emit OP_POP NoOperand None))) s
      = inr (tt, s')
      /\ extended s s' breaks continues
      /\ statements_code_in statements s s' breaks continues.
Proof.
  induction 1 as [|statement rest Hwell _ IH]; intros Hs s Hready.
  - exists s, [], []. split; [reflexivity|].
    split; [apply grown_extended, grown_refl, Hready|].
    intros fuel host chunk values pc_break pc_continue Hhost Hcode Hvalues.
    apply runs_to_refl.
  - cbn [forallb] in Hs. apply andb_true_iff in Hs. destruct Hs as [Hs Hrest].
    destruct (Hwell Hs s Hready) as (s1 & b1 & k1 & E1 & G1 & R1).
    destruct (IH Hrest s1 (ready_extended _ _ _ _ _ Hready G1))
      as (s2 & b2 & k2 & E2 & G2 & R2).
    exists s2, (b1 ++ b2), (k1 ++ k2).
    split; [|split; [eapply extended_trans; eauto|]].
    + cbn [for_each]. unfold bind at 1. unfold bind at 1.
      rewrite E1, (looping_in_statement _ _ Hs). cbn [when ret]. exact E2.
    + intros fuel host chunk values pc_break pc_continue Hhost Hcode Hvalues.
      apply (runs_to_seq host chunk values (run_looping fuel statement)
               (run_each_outcome (run_looping fuel) rest) _ (len (bytecode_chunk s1))).
      * apply R1; [exact Hhost|eapply code_pending_left; eauto|].
        eapply pool_loaded_extended; eauto.
      * apply R2; [exact Hhost|eapply code_pending_right; eauto|exact Hvalues].
Qed.

Lemma not_pending_below (s s' : Compiler) (b k : list nat) (i : nat) :
  extended s s' b k -> (i < length (bytecode_chunk s))%nat -> (i ∉ b) /\ (i ∉ k).
Proof.
  intros H Hi. split; intros Hin;
    (assert (Hin' : i ∈ b ++ k) by (rewrite elem_of_app; tauto));
    pose proof (extended_within _ _ _ _ _ H Hin'); lia.
Qed.

Lemma not_pending_above (s s' : Compiler) (b k : list nat) (i : nat) :
  extended s s' b k -> (length (bytecode_chunk s') <= i)%nat -> (i ∉ b) /\ (i ∉ k).
Proof.
  intros H Hi. split; intros Hin;
    (assert (Hin' : i ∈ b ++ k) by (rewrite elem_of_app; tauto));
    pose proof (extended_within _ _ _ _ _ H Hin'); lia.
Qed.

(** A block whose statements may leave it: the jump skips
    [OP_EXIT_SCOPE]. *)
Lemma block_in (in_loop : bool) (statements : list ASTNode) (token : option Token) :
  Forall (compiles_in in_loop) statements -> compiles_in in_loop (Block statements token).
Proof.
  intros IH Hs s Hready. cbn [looping_in] in Hs.
  destruct token as [tk|].
  - remember (set_scope_depth (scope_depth s + 1) s) as s0 eqn:Es0.
    assert (C0 : bytecode_chunk s0 = bytecode_chunk s) by (subst s0; reflexivity).
    assert (K0 : constants s0 = constants s) by (subst s0; reflexivity).
    assert (D0 : scope_depth s0 = scope_depth s + 1) by (subst s0; reflexivity).
    assert (S0 : loop_start_patches s0 = loop_start_patches s) by (subst s0; reflexivity).
    assert (P0 : loop_end_patches s0 = loop_end_patches s) by (subst s0; reflexivity).
    assert (L0 : loop_level s0 = loop_level s) by (subst s0; reflexivity).
    assert (Hready0 : ready in_loop s0).
    { destruct Hready as (Hi & Hd & Hl & Hloop). unfold ready.
      rewrite K0, D0, L0, S0, P0. split; [exact Hi|]. split; [lia|]. auto. }
    destruct (emit_grown OP_ENTER_SCOPE NoOperand (Some tk) s0 ltac:(apply Hready0))
      as [s1 [E1 [G1 [A1 L1]]]].
    destruct (each_in in_loop statements IH Hs s1 (ready_grown _ _ _ Hready0 G1))
      as (s2 & b & k & E2 & G2 & R2).
    destruct (emit_grown OP_EXIT_SCOPE NoOperand (Some tk) s2 ltac:(apply G2))
      as [s3 [E3 [G3 [A3 L3]]]].
    pose proof (extended_grown_r _ _ _ _ _ (extended_grown_l _ _ _ _ _ G1 G2) G3) as G03.
    exists (set_scope_depth (scope_depth s3 + -1) s3), b, k.
    split; [|split].
    + cbn [_compile_node is_not_None when]. unfold bind at 1. unfold bind at 1.
      unfold add_scope_depth at 1. unfold modify at 1. rewrite <- Es0, E1.
      unfold bind at 1. rewrite E2. unfold bind at 1. rewrite E3. reflexivity.
    + destruct G03 as (Hc & Hk & Hi & Hd & Hl & Hs3 & He3 & Hf).
      rewrite C0 in Hc, Hf. rewrite K0 in Hk. rewrite S0 in Hs3. rewrite P0 in He3.
      split; [exact Hc|]. split; [exact Hk|]. split; [exact Hi|].
      split; [cbn [scope_depth set_scope_depth]; lia|].
      split; [cbn [loop_level set_scope_depth]; congruence|].
      split; [exact Hs3|]. split; [exact He3|]. exact Hf.
    + intros fuel host chunk values pc_break pc_continue Hhost Hcode Hvalues scopes
        outcome st g envs fs h Hrun Hagree.
      destruct fuel as [|fuel]; [discriminate Hrun|]. cbn [run_looping] in Hrun.
      cbn [bytecode_chunk set_scope_depth].
      pose proof (len_grown _ _ G1) as N1. rewrite A1, C0 in N1.
      pose proof (len_grown _ _ G3) as N3. rewrite A3 in N3.
      rewrite N3.
      assert (Hlen1 : length (bytecode_chunk s1) = S (length (bytecode_chunk s)))
        by (unfold len in N1; lia).
      pose proof (extended_length _ _ _ _ G2) as Hlen2.
      assert (Hcode3 : code_pending s s3 b k pc_break pc_continue chunk) by exact Hcode.
      refine (scope_to host chunk values (run_each_outcome (run_looping fuel) statements)
                (len (bytecode_chunk s)) (len (bytecode_chunk s2)) pc_break pc_continue
                (len_nonneg _) (len_nonneg _) _ _ _ scopes outcome st g envs fs h Hrun
                Hagree).
      * destruct (not_pending_below _ _ _ _ (length (bytecode_chunk s)) G2 ltac:(lia))
          as [Hb Hk].
        apply (code_pending_at s s3 b k pc_break pc_continue chunk _ _ Hcode3);
          [lia| |exact Hb|exact Hk].
        destruct G2 as ([c2 Hc2] & _). destruct G3 as ([c3 Hc3] & _).
        rewrite Hc3, Hc2. do 2 apply lookup_app_l_Some. rewrite <- C0. exact L1.
      * destruct (not_pending_above _ _ _ _ (length (bytecode_chunk s2)) G2 ltac:(lia))
          as [Hb Hk].
        apply (code_pending_at s s3 b k pc_break pc_continue chunk _ _ Hcode3);
          [lia|exact L3|exact Hb|exact Hk].
      * replace (len (bytecode_chunk s) + 1) with (len (bytecode_chunk s1))
          by (rewrite N1; unfold added; lia).
        apply R2; [exact Hhost| |].
        -- apply (code_pending_part s s3 s1 s2 b k b k _ _ chunk Hcode3); [lia| |tauto].
           eapply kept_grown; [exact G3|lia].
        -- eapply pool_loaded_grown; [exact G3|exact Hvalues].
  - destruct (each_in in_loop statements IH Hs s Hready) as (s1 & b & k & E1 & G1 & R1).
    exists s1, b, k. split; [|split; [exact G1|]].
    + cbn [_compile_node is_not_None when]. unfold bind at 1. unfold ret at 1.
      unfold bind at 1. rewrite E1. reflexivity.
    + intros fuel host chunk values pc_break pc_continue Hhost Hcode Hvalues scopes
        outcome st g envs fs h Hrun Hagree.
      destruct fuel as [|fuel]; [discriminate Hrun|]. cbn [run_looping] in Hrun.
      apply (R1 fuel host chunk values pc_break pc_continue Hhost Hcode Hvalues scopes
               outcome st g envs fs h Hrun Hagree).
Qed.

(** [patch_jump] on a jump that was added after [s0] and does not wait. *)
Lemma patch_jump_extended (s0 s : Compiler) (b k : list nat) (idx : nat) (op : OpCode)
    (arg : Operand) :
  extended s0 s b k -> (length (bytecode_chunk s0) <= idx)%nat ->
  idx ∉ b ++ k ->
  bytecode_chunk s !! idx = Some (mkInstruction op arg) ->
  exists s', patch_jump (Z.of_nat idx) None s = inr (tt, s')
    /\ extended s0 s' b k
    /\ bytecode_chunk s'
       = <[idx := mkInstruction op (IntOperand (len (bytecode_chunk s)))]>
           (bytecode_chunk s)
    /\ constants s' = constants s
    /\ loop_start_patches s' = loop_start_patches s
    /\ loop_end_patches s' = loop_end_patches s.
Proof.
  intros Hg Hidx Hnot Hinstr. eexists. split; [|split; [|split; [|split; [|split]]]].
  - apply (patch_jump_state s idx _ Hinstr).
  - apply extended_patch; assumption.
  - reflexivity.
  - reflexivity.
  - reflexivity.
  - reflexivity.
Qed.

Lemma if_in (in_loop : bool) (condition then_branch : ASTNode)
    (else_branch : option ASTNode) (t : option Token) :
  compiles_in in_loop then_branch ->
  (forall else_node, else_branch = Some else_node -> compiles_in in_loop else_node) ->
  compiles_in in_loop (IfStmt condition then_branch else_branch t).
Proof.
  intros IHthen IHelse Hs s Hready. cbn [looping_in] in Hs.
  apply andb_true_iff in Hs. destruct Hs as [Hs Helse].
  apply andb_true_iff in Hs. destruct Hs as [Hcond Hthen].
  destruct (condition_runs condition s Hcond ltac:(apply Hready) ltac:(apply Hready))
    as [s1 [E1 [G1 R1]]].
  destruct (emit_instruction_grown OP_JUMP_IF_FALSE placeholder t s1 ltac:(apply G1))
    as [s2 [E2 [G2 C2]]].
  pose proof (grown_trans _ _ _ G1 G2) as G02.
  destruct (IHthen Hthen s2 (ready_grown _ _ _ Hready G02))
    as (s3 & b1 & k1 & E3 & G3 & R3).
  pose proof (extended_grown_l _ _ _ _ _ G02 G3) as G03.
  pose proof (grown_length _ _ G1) as N1.
  assert (N2 : length (bytecode_chunk s2) = S (length (bytecode_chunk s1)))
    by (rewrite C2, length_app; simpl; lia).
  pose proof (extended_length _ _ _ _ G3) as N3.
  assert (J2 : bytecode_chunk s2 !! length (bytecode_chunk s1)
               = Some (mkInstruction OP_JUMP_IF_FALSE placeholder)).
  { rewrite C2, lookup_app_r by lia. rewrite Nat.sub_diag. reflexivity. }
  destruct (not_pending_below _ _ _ _ (length (bytecode_chunk s1)) G3 ltac:(lia))
    as [Hb1 Hk1].
  destruct else_branch as [else_node|].
  - (* with an else branch *)
    destruct (emit_instruction_grown OP_JUMP placeholder t s3 ltac:(apply G3))
      as [s4 [E4 [G4 C4]]].
    pose proof (extended_grown_r _ _ _ _ _ G03 G4) as G04.
    assert (N4 : length (bytecode_chunk s4) = S (length (bytecode_chunk s3)))
      by (rewrite C4, length_app; simpl; lia).
    assert (J4 : bytecode_chunk s4 !! length (bytecode_chunk s1)
                 = Some (mkInstruction OP_JUMP_IF_FALSE placeholder)).
    { rewrite C4. apply lookup_app_l_Some. destruct G3 as ([c Hc] & _). rewrite Hc.
      apply lookup_app_l_Some. exact J2. }
    destruct (patch_jump_extended s s4 b1 k1 _ _ _ G04 N1
                ltac:(rewrite elem_of_app; tauto) J4)
      as (s5 & E5 & G5 & C5 & K5 & S5 & P5).
    assert (N5 : length (bytecode_chunk s5) = length (bytecode_chunk s4))
      by (rewrite C5; apply length_insert).
    destruct (IHelse else_node eq_refl Helse s5 (ready_extended _ _ _ _ _ Hready G5))
      as (s6 & b2 & k2 & E6 & G6 & R6).
    pose proof (extended_trans _ _ _ _ _ _ _ G5 G6) as G06.
    pose proof (extended_length _ _ _ _ G6) as N6.
    assert (J6 : bytecode_chunk s6 !! length (bytecode_chunk s3)
                 = Some (mkInstruction OP_JUMP placeholder)).
    { destruct G6 as ([c Hc] & _). rewrite Hc. apply lookup_app_l_Some.
      rewrite C5, list_lookup_insert_ne by lia.
      rewrite C4, lookup_app_r by lia. rewrite Nat.sub_diag. reflexivity. }
    assert (N03 : (length (bytecode_chunk s) <= length (bytecode_chunk s3))%nat) by lia.
    destruct (not_pending_above _ _ _ _ (length (bytecode_chunk s3)) G3 ltac:(lia))
      as [Hb3 Hk3].
    destruct (not_pending_below _ _ _ _ (length (bytecode_chunk s3)) G6 ltac:(lia))
      as [Hb6 Hk6].
    destruct (not_pending_below _ _ _ _ (length (bytecode_chunk s1)) G6 ltac:(lia))
      as [Hb16 Hk16].
    destruct (patch_jump_extended s s6 _ _ _ _ _ G06 N03
                ltac:(rewrite !elem_of_app; tauto) J6)
      as (s7 & E7 & G7 & C7 & K7 & S7 & P7).
    exists s7, (b1 ++ b2), (k1 ++ k2). split; [|split; [exact G7|]].
    + cbn [_compile_node is_not_None]. unfold bind at 1. rewrite E1.
      unfold bind at 1. rewrite E2. unfold bind at 1. rewrite E3.
      unfold bind at 1. rewrite E4. unfold bind at 1.
      change (len (bytecode_chunk s1)) with (Z.of_nat (length (bytecode_chunk s1))).
      rewrite E5. unfold bind at 1. rewrite E6.
      replace (len (bytecode_chunk s3) =? -1) with false
        by (symmetry; apply Z.eqb_neq; pose proof (len_nonneg (bytecode_chunk s3)); lia).
      exact E7.
    + intros fuel host chunk values pc_break pc_continue Hhost Hcode Hvalues scopes
        outcome st g envs fs h Hrun Hagree.
      destruct fuel as [|fuel]; [discriminate Hrun|]. cbn [run_looping] in Hrun.
      assert (V6 : pool_loaded s6 values) by (eapply pool_loaded_same; eauto).
      assert (V5 : pool_loaded s5 values) by (eapply pool_loaded_extended; eauto).
      assert (V4 : pool_loaded s4 values) by (eapply pool_loaded_same; eauto).
      assert (V3 : pool_loaded s3 values) by (eapply pool_loaded_grown; eauto).
      assert (V2 : pool_loaded s2 values) by (eapply pool_loaded_extended; eauto).
      assert (V1 : pool_loaded s1 values) by (eapply pool_loaded_grown; eauto).
      assert (F7 : forall i,
                bytecode_chunk s7 !! i
                = if decide (i = length (bytecode_chunk s3))
                  then Some (mkInstruction OP_JUMP (IntOperand (len (bytecode_chunk s6))))
                  else bytecode_chunk s6 !! i).
      { intros i. rewrite C7. destruct (decide (i = length (bytecode_chunk s3))) as [->|Hne].
        - apply lookup_insert_same. lia.
        - apply list_lookup_insert_ne. auto. }
      assert (F6 : forall i, (i < length (bytecode_chunk s4))%nat ->
                bytecode_chunk s6 !! i
                = if decide (i = length (bytecode_chunk s1))
                  then Some (mkInstruction OP_JUMP_IF_FALSE
                               (IntOperand (len (bytecode_chunk s4))))
                  else bytecode_chunk s4 !! i).
      { intros i Hi. destruct G6 as ([c Hc] & _).
        rewrite Hc, lookup_app_l by lia. rewrite C5.
        destruct (decide (i = length (bytecode_chunk s1))) as [->|Hne].
        - apply lookup_insert_same. lia.
        - apply list_lookup_insert_ne. auto. }
      assert (H1 : code_loaded s s1 chunk).
      { apply (code_pending_loaded s s1 pc_break pc_continue).
        apply (code_pending_part s s7 s s1 _ _ [] [] _ _ chunk Hcode); [lia| |].
        - intros i Hi. rewrite F7, decide_False by lia. rewrite F6, decide_False by lia.
          rewrite C4, lookup_app_l by lia.
          destruct (extended_grown_l _ _ _ _ _ G2 G3) as ([c Hc] & _).
          rewrite Hc. apply lookup_app_l. lia.
        - intros i Hi.
          destruct (not_pending_below _ _ _ _ i G3 ltac:(lia)) as [Hb Hk].
          destruct (not_pending_below _ _ _ _ i G6 ltac:(lia)) as [Hb' Hk'].
          rewrite !elem_of_app. split; split; try tauto; intros Hnil;
            apply not_elem_of_nil in Hnil; contradiction. }
      assert (H3 : code_pending s2 s3 b1 k1 pc_break pc_continue chunk).
      { apply (code_pending_part s s7 s2 s3 _ _ b1 k1 _ _ chunk Hcode); [lia| |].
        - intros i Hi. rewrite F7, decide_False by lia. rewrite F6, decide_False by lia.
          rewrite C4. apply lookup_app_l. lia.
        - intros i Hi. apply (pending_left s5 s5 s6 b1 k1 b2 k2 i G6). lia. }
      assert (H6 : code_pending s5 s6 b2 k2 pc_break pc_continue chunk).
      { apply (code_pending_part s s7 s5 s6 _ _ b2 k2 _ _ chunk Hcode); [lia| |].
        - intros i Hi. rewrite F7, decide_False by lia. reflexivity.
        - intros i Hi. apply (pending_right s2 s3 s6 b1 k1 b2 k2 i G3). lia. }
      assert (Hjif : chunk !! Z.to_nat (len (bytecode_chunk s1))
                     = Some (mkInstruction OP_JUMP_IF_FALSE
                               (IntOperand (len (bytecode_chunk s3) + 1)))).
      { apply (code_pending_at s s7 _ _ pc_break pc_continue chunk _ _ Hcode);
          [exact N1| |rewrite elem_of_app; tauto|rewrite elem_of_app; tauto].
        rewrite F7, decide_False by lia. rewrite F6, decide_True by lia.
        do 3 f_equal. unfold len. lia. }
      assert (Hjump : chunk !! Z.to_nat (len (bytecode_chunk s3))
                      = Some (mkInstruction OP_JUMP (IntOperand (len (bytecode_chunk s7))))).
      { apply (code_pending_at s s7 _ _ pc_break pc_continue chunk _ _ Hcode);
          [lia| |rewrite elem_of_app; tauto|rewrite elem_of_app; tauto].
        rewrite F7, decide_True by reflexivity. do 3 f_equal. unfold len.
        rewrite C7, length_insert. reflexivity. }
      refine (if_else_to host chunk values condition (added s s1)
                (run_looping fuel then_branch) (run_looping fuel else_node)
                (len (bytecode_chunk s)) (len (bytecode_chunk s1))
                (len (bytecode_chunk s3)) (len (bytecode_chunk s7)) pc_break pc_continue
                (len_nonneg _) (len_nonneg _) _ Hjif _ Hjump _
                scopes outcome st g envs fs h Hrun Hagree).
      * apply condition_tests; assumption.
      * replace (len (bytecode_chunk s1) + 1) with (len (bytecode_chunk s2))
          by (unfold len; lia).
        apply R3; assumption.
      * replace (len (bytecode_chunk s3) + 1) with (len (bytecode_chunk s5))
          by (unfold len; lia).
        replace (len (bytecode_chunk s7)) with (len (bytecode_chunk s6))
          by (unfold len; rewrite C7, length_insert; reflexivity).
        apply R6; assumption.
  - (* without *)
    assert (J3 : bytecode_chunk s3 !! length (bytecode_chunk s1)
                 = Some (mkInstruction OP_JUMP_IF_FALSE placeholder)).
    { destruct G3 as ([c Hc] & _). rewrite Hc. apply lookup_app_l_Some. exact J2. }
    destruct (patch_jump_extended s s3 b1 k1 _ _ _ G03 N1
                ltac:(rewrite elem_of_app; tauto) J3)
      as (s5 & E5 & G5 & C5 & K5 & S5 & P5).
    exists s5, b1, k1. split; [|split; [exact G5|]].
    + cbn [_compile_node is_not_None]. unfold bind at 1. rewrite E1.
      unfold bind at 1. rewrite E2. unfold bind at 1. rewrite E3.
      unfold bind at 1. unfold ret at 1. unfold bind at 1.
      change (len (bytecode_chunk s1)) with (Z.of_nat (length (bytecode_chunk s1))).
      rewrite E5. reflexivity.
    + intros fuel host chunk values pc_break pc_continue Hhost Hcode Hvalues scopes
        outcome st g envs fs h Hrun Hagree.
      destruct fuel as [|fuel]; [discriminate Hrun|]. cbn [run_looping] in Hrun.
      assert (V3 : pool_loaded s3 values) by (eapply pool_loaded_same; eauto).
      assert (V2 : pool_loaded s2 values) by (eapply pool_loaded_extended; eauto).
      assert (V1 : pool_loaded s1 values) by (eapply pool_loaded_grown; eauto).
      assert (F5 : forall i,
                bytecode_chunk s5 !! i
                = if decide (i = length (bytecode_chunk s1))
                  then Some (mkInstruction OP_JUMP_IF_FALSE
                               (IntOperand (len (bytecode_chunk s3))))
                  else bytecode_chunk s3 !! i).
      { intros i. rewrite C5. destruct (decide (i = length (bytecode_chunk s1))) as [->|Hne].
        - apply lookup_insert_same. lia.
        - apply list_lookup_insert_ne. auto. }
      assert (H1 : code_loaded s s1 chunk).
      { apply (code_pending_loaded s s1 pc_break pc_continue).
        apply (code_pending_part s s5 s s1 _ _ [] [] _ _ chunk Hcode); [lia| |].
        - intros i Hi. rewrite F5, decide_False by lia.
          destruct (extended_grown_l _ _ _ _ _ G2 G3) as ([c Hc] & _).
          rewrite Hc. apply lookup_app_l. lia.
        - intros i Hi.
          destruct (not_pending_below _ _ _ _ i G3 ltac:(lia)) as [Hb Hk].
          split; split; try tauto; intros Hnil;
            apply not_elem_of_nil in Hnil; contradiction. }
      assert (H3 : code_pending s2 s3 b1 k1 pc_break pc_continue chunk).
      { apply (code_pending_part s s5 s2 s3 _ _ b1 k1 _ _ chunk Hcode); [lia| |tauto].
        intros i Hi. rewrite F5, decide_False by lia. reflexivity. }
      assert (Hjif : chunk !! Z.to_nat (len (bytecode_chunk s1))
                     = Some (mkInstruction OP_JUMP_IF_FALSE
                               (IntOperand (len (bytecode_chunk s5))))).
      { apply (code_pending_at s s5 _ _ pc_break pc_continue chunk _ _ Hcode);
          [exact N1| |exact Hb1|exact Hk1].
        rewrite F5, decide_True by lia.
        do 3 f_equal. unfold len. rewrite C5, length_insert. reflexivity. }
      refine (if_to host chunk values condition (added s s1)
                (run_looping fuel then_branch)
                (len (bytecode_chunk s)) (len (bytecode_chunk s1))
                (len (bytecode_chunk s5)) pc_break pc_continue
                (len_nonneg _) _ Hjif _ scopes outcome st g envs fs h Hrun Hagree).
      * apply condition_tests; assumption.
      * replace (len (bytecode_chunk s1) + 1) with (len (bytecode_chunk s2))
          by (unfold len; lia).
        replace (len (bytecode_chunk s5)) with (len (bytecode_chunk s3))
          by (unfold len; rewrite C5, length_insert; reflexivity).
        apply R3; assumption.
Qed.

Lemma prefix_of_lookup {A} (p l : list A) :
  (length p <= length l)%nat ->
  (forall i, (i < length p)%nat -> l !! i = p !! i) ->
  exists more, l = p ++ more.
Proof.
  intros Hlen H. exists (drop (length p) l). apply list_eq. intros i.
  destruct (decide (i < length p)%nat) as [Hi|Hi].
  - rewrite lookup_app_l by exact Hi. apply H. exact Hi.
  - rewrite lookup_app_r by lia. rewrite lookup_drop. f_equal. lia.
Qed.

(** [patch_all] writes the target into each of the jumps. *)
Lemma patch_all_jumps (l : list nat) (target : Z) :
  forall s,
    Forall (fun i => exists arg,
              bytecode_chunk s !! i = Some (mkInstruction OP_JUMP arg)) l ->
    exists s', patch_all (Z.of_nat <$> l) (IntOperand target) s = inr (tt, s')
      /\ (forall i, bytecode_chunk s' !! i
                    = if decide (i ∈ l)
                      then Some (mkInstruction OP_JUMP (IntOperand target))
                      else bytecode_chunk s !! i)
      /\ constants s' = constants s
      /\ scope_depth s' = scope_depth s
      /\ loop_start_patches s' = loop_start_patches s
      /\ loop_end_patches s' = loop_end_patches s
      /\ loop_level s' = loop_level s.
Proof.
  induction l as [|j l IH]; intros s Hl.
  - exists s. split; [reflexivity|]. split; [|auto].
    intros i. rewrite decide_False by apply not_elem_of_nil. reflexivity.
  - apply Forall_cons in Hl. destruct Hl as [[arg Hj] Hl].
    pose proof (lookup_lt_Some _ _ _ Hj) as Hlt.
    set (s1 := set_bytecode_chunk
                 (<[j := mkInstruction OP_JUMP (IntOperand target)]> (bytecode_chunk s)) s).
    assert (E1 : set_operand (Z.of_nat j) (IntOperand target) s = inr (tt, s1)).
    { unfold set_operand. rewrite getitem_nat, Hj.
      erewrite setitem_index; [|lia|rewrite Nat2Z.id; exact Hj].
      rewrite Nat2Z.id. reflexivity. }
    destruct (IH s1) as (s' & E & Hc & Hrest).
    { rewrite Forall_forall in *. intros i Hi. destruct (Hl i Hi) as [arg' Harg'].
      cbn [s1 bytecode_chunk set_bytecode_chunk].
      destruct (decide (i = j)) as [->|Hne].
      - eexists. apply lookup_insert_same. exact Hlt.
      - exists arg'. rewrite list_lookup_insert_ne by auto. exact Harg'. }
    exists s'. split; [|split; [|exact Hrest]].
    + cbn [fmap list_fmap patch_all]. unfold bind. rewrite E1. exact E.
    + intros i. rewrite Hc. cbn [s1 bytecode_chunk set_bytecode_chunk].
      destruct (decide (i ∈ l)) as [Hin|Hin].
      * rewrite decide_True by (apply elem_of_cons; auto). reflexivity.
      * destruct (decide (i = j)) as [->|Hne].
        -- rewrite decide_True by (apply elem_of_cons; auto).
           apply lookup_insert_same. exact Hlt.
        -- rewrite decide_False by (rewrite elem_of_cons; tauto).
           apply list_lookup_insert_ne. auto.
Qed.

Lemma patch_all_length (s s' : Compiler) (l : list nat) (target : Z) :
  Forall (fun i => exists arg,
            bytecode_chunk s !! i = Some (mkInstruction OP_JUMP arg)) l ->
  (forall i, bytecode_chunk s' !! i
             = if decide (i ∈ l)
               then Some (mkInstruction OP_JUMP (IntOperand target))
               else bytecode_chunk s !! i) ->
  length (bytecode_chunk s') = length (bytecode_chunk s).
Proof.
  intros Hl H.
  assert (Hiff : forall i, is_Some (bytecode_chunk s' !! i)
                           <-> is_Some (bytecode_chunk s !! i)).
  { intros i. rewrite H. destruct (decide (i ∈ l)) as [Hin|Hin]; [|reflexivity].
    rewrite Forall_forall in Hl. destruct (Hl i Hin) as [arg Harg]. rewrite Harg.
    split; eauto. }
  destruct (Nat.lt_trichotomy (length (bytecode_chunk s')) (length (bytecode_chunk s)))
    as [Hlt|[Heq|Hgt]]; [|exact Heq|].
  - assert (Hs : is_Some (bytecode_chunk s !! length (bytecode_chunk s')))
      by (apply lookup_lt_is_Some; exact Hlt).
    apply Hiff, lookup_lt_is_Some in Hs. lia.
  - assert (Hs : is_Some (bytecode_chunk s' !! length (bytecode_chunk s)))
      by (apply lookup_lt_is_Some; exact Hgt).
    apply Hiff, lookup_lt_is_Some in Hs. lia.
Qed.

(** [while]: the jumps of [continue] get the index of the condition, those
    of [break] the index after the loop. *)
Lemma while_in (in_loop : bool) (condition body : ASTNode) (t : option Token) :
  compiles_in true body -> compiles_in in_loop (WhileStmt condition body t).
Proof.
  intros IHbody Hs s Hready. cbn [looping_in] in Hs.
  apply andb_true_iff in Hs. destruct Hs as [Hcond Hbody].
  destruct Hready as (Hpool & Hdepth & Hlevel & _).
  remember (begin_loop_end (begin_loop_start (set_loop_level (loop_level s + 1) s)))
    as s0 eqn:Es0.
  assert (C0 : bytecode_chunk s0 = bytecode_chunk s) by (subst s0; reflexivity).
  assert (K0 : constants s0 = constants s) by (subst s0; reflexivity).
  assert (D0 : scope_depth s0 = scope_depth s) by (subst s0; reflexivity).
  assert (S0 : loop_start_patches s0 = loop_start_patches s ++ [[]])
    by (subst s0; reflexivity).
  assert (P0 : loop_end_patches s0 = loop_end_patches s ++ [[]])
    by (subst s0; reflexivity).
  assert (L0 : loop_level s0 = loop_level s + 1) by (subst s0; reflexivity).
  assert (Hready0 : ready true s0).
  { unfold ready. rewrite K0, D0, L0, S0, P0. split; [exact Hpool|].
    split; [exact Hdepth|]. split; [lia|]. intros _. split; [lia|]. split; eauto. }
  destruct (condition_runs condition s0 Hcond ltac:(apply Hready0) ltac:(apply Hready0))
    as [s1 [E1 [G1 R1]]].
  destruct (emit_instruction_grown OP_JUMP_IF_FALSE placeholder t s1 ltac:(apply G1))
    as [s2 [E2 [G2 C2]]].
  pose proof (grown_trans _ _ _ G1 G2) as G02.
  destruct (IHbody Hbody s2 (ready_grown _ _ _ Hready0 G02))
    as (s3 & b & k & E3 & G3 & R3).
  pose proof (extended_grown_l _ _ _ _ _ G02 G3) as G03.
  assert (N0 : length (bytecode_chunk s0) = length (bytecode_chunk s))
    by (rewrite C0; reflexivity).
  pose proof (grown_length _ _ G1) as N1.
  assert (N2 : length (bytecode_chunk s2) = S (length (bytecode_chunk s1)))
    by (rewrite C2, length_app; simpl; lia).
  pose proof (extended_length _ _ _ _ G3) as N3.
  assert (S3 : loop_start_patches s3 = loop_start_patches s ++ [Z.of_nat <$> k]).
  { apply pended_pushed. rewrite <- S0. apply G03. }
  assert (P3 : loop_end_patches s3 = loop_end_patches s ++ [Z.of_nat <$> b]).
  { apply pended_pushed. rewrite <- P0. apply G03. }
  assert (Hjumps : forall i, i ∈ b ++ k ->
            bytecode_chunk s3 !! i = Some (mkInstruction OP_JUMP placeholder)).
  { intros i Hi. destruct G3 as (_ & _ & _ & _ & _ & _ & _ & Hf & _).
    rewrite Forall_forall in Hf. apply (Hf i Hi). }
  (* the jumps of continue *)
  destruct (patch_all_jumps k (len (bytecode_chunk s0)) s3)
    as (s3' & E3' & F3' & K3' & D3' & S3' & P3' & L3').
  { apply Forall_forall. intros i Hi. eexists. apply Hjumps. rewrite elem_of_app. auto. }
  assert (N3' : length (bytecode_chunk s3') = length (bytecode_chunk s3)).
  { eapply patch_all_length; [|exact F3'].
    apply Forall_forall. intros i Hi. eexists. apply Hjumps. rewrite elem_of_app. auto. }
  destruct (emit_state OP_JUMP (IntOperand (len (bytecode_chunk s0))) t s3')
    as (s4 & E4 & C4 & K4 & D4 & S4 & P4 & L4).
  assert (N4 : length (bytecode_chunk s4) = S (length (bytecode_chunk s3)))
    by (rewrite C4, length_app; simpl; lia).
  destruct (not_pending_below _ _ _ _ (length (bytecode_chunk s1)) G3 ltac:(lia))
    as [Hb1 Hk1].
  destruct (not_pending_above _ _ _ _ (length (bytecode_chunk s3)) G3 ltac:(lia))
    as [Hb3 Hk3].
  assert (J4 : bytecode_chunk s4 !! length (bytecode_chunk s1)
               = Some (mkInstruction OP_JUMP_IF_FALSE placeholder)).
  { rewrite C4, lookup_app_l by lia. rewrite F3', decide_False by exact Hk1.
    destruct G3 as ([c Hc] & _). rewrite Hc. apply lookup_app_l_Some.
    rewrite C2, lookup_app_r by lia. rewrite Nat.sub_diag. reflexivity. }
  pose proof (patch_jump_state s4 _ _ J4) as E5. cbn [opcode] in E5.
  remember (set_bytecode_chunk
              (<[length (bytecode_chunk s1)
                 := mkInstruction OP_JUMP_IF_FALSE (IntOperand (len (bytecode_chunk s4)))]>
                 (bytecode_chunk s4)) s4) as s5 eqn:Es5.
  assert (C5 : bytecode_chunk s5
               = <[length (bytecode_chunk s1)
                   := mkInstruction OP_JUMP_IF_FALSE (IntOperand (len (bytecode_chunk s4)))]>
                   (bytecode_chunk s4)) by (subst s5; reflexivity).
  assert (K5 : constants s5 = constants s4) by (subst s5; reflexivity).
  assert (D5 : scope_depth s5 = scope_depth s4) by (subst s5; reflexivity).
  assert (S5 : loop_start_patches s5 = loop_start_patches s4) by (subst s5; reflexivity).
  assert (P5 : loop_end_patches s5 = loop_end_patches s4) by (subst s5; reflexivity).
  assert (L5 : loop_level s5 = loop_level s4) by (subst s5; reflexivity).
  clear Es5.
  assert (N5 : length (bytecode_chunk s5) = length (bytecode_chunk s4))
    by (rewrite C5; apply length_insert).
  assert (J5 : bytecode_chunk s5 !! length (bytecode_chunk s1)
               = Some (mkInstruction OP_JUMP_IF_FALSE
                         (IntOperand (len (bytecode_chunk s4))))).
  { rewrite C5. apply lookup_insert_same. lia. }
  assert (F5 : forall i, (i < length (bytecode_chunk s3))%nat ->
            i <> length (bytecode_chunk s1) ->
            bytecode_chunk s5 !! i
            = if decide (i ∈ k)
              then Some (mkInstruction OP_JUMP (IntOperand (len (bytecode_chunk s0))))
              else bytecode_chunk s3 !! i).
  { intros i Hi Hne. rewrite C5, list_lookup_insert_ne by auto.
    rewrite C4, lookup_app_l by lia. apply F3'. }
  (* the jumps of break *)
  destruct (patch_all_jumps b (len (bytecode_chunk s4)) s5)
    as (s6 & E6 & F6 & K6 & D6 & S6 & P6 & L6).
  { apply Forall_forall. intros i Hi.
    assert (Hin : i ∈ b ++ k) by (rewrite elem_of_app; auto).
    pose proof (extended_within _ _ _ _ _ G3 Hin) as Hrange.
    rewrite F5 by lia. destruct (decide (i ∈ k)); [eauto|].
    eexists. apply Hjumps. exact Hin. }
  assert (N6 : length (bytecode_chunk s6) = length (bytecode_chunk s5)).
  { eapply patch_all_length; [|exact F6].
    apply Forall_forall. intros i Hi.
    assert (Hin : i ∈ b ++ k) by (rewrite elem_of_app; auto).
    pose proof (extended_within _ _ _ _ _ G3 Hin) as Hrange.
    rewrite F5 by lia. destruct (decide (i ∈ k)); [eauto|].
    eexists. apply Hjumps. exact Hin. }
  (* the code of the loop *)
  assert (Fbody : forall i instr, (i < length (bytecode_chunk s3))%nat ->
            i <> length (bytecode_chunk s1) ->
            bytecode_chunk s3 !! i = Some instr ->
            bytecode_chunk s6 !! i
            = Some (patched b k (len (bytecode_chunk s4)) (len (bytecode_chunk s0)) i
                      instr)).
  { intros i instr Hi Hne Hinstr. rewrite F6. unfold patched.
    destruct (decide (i ∈ b)); [reflexivity|]. rewrite F5 by assumption.
    destruct (decide (i ∈ k)); [reflexivity|exact Hinstr]. }
  assert (Fjif : bytecode_chunk s6 !! length (bytecode_chunk s1)
                 = Some (mkInstruction OP_JUMP_IF_FALSE
                           (IntOperand (len (bytecode_chunk s4))))).
  { rewrite F6, decide_False by exact Hb1. exact J5. }
  assert (Fjump : bytecode_chunk s6 !! length (bytecode_chunk s3)
                  = Some (mkInstruction OP_JUMP (IntOperand (len (bytecode_chunk s0))))).
  { rewrite F6, decide_False by exact Hb3.
    rewrite C5, list_lookup_insert_ne by lia.
    rewrite C4, lookup_app_r by lia. rewrite N3', Nat.sub_diag. reflexivity. }
  assert (Fold : forall i, (i < length (bytecode_chunk s2))%nat ->
            i <> length (bytecode_chunk s1) ->
            bytecode_chunk s6 !! i = bytecode_chunk s2 !! i).
  { intros i Hi Hne. destruct (not_pending_below _ _ _ _ i G3 Hi) as [Hb Hk].
    pose proof (lookup_lt_is_Some_2 (bytecode_chunk s2) i Hi) as [instr Hinstr].
    assert (Hinstr3 : bytecode_chunk s3 !! i = Some instr).
    { destruct G3 as ([c Hc] & _). rewrite Hc. apply lookup_app_l_Some. exact Hinstr. }
    rewrite (Fbody i instr ltac:(lia) Hne Hinstr3). unfold patched.
    rewrite !decide_False by assumption. symmetry. exact Hinstr. }
  eexists. exists [], []. split; [|split].
  - cbn [_compile_node]. unfold bind at 1. unfold add_loop_level at 1.
    unfold modify at 1. unfold bind at 1. unfold modify at 1.
    unfold bind at 1. unfold modify at 1. rewrite <- Es0.
    unfold bind at 1. unfold gets at 1.
    unfold bind at 1. rewrite E1. unfold bind at 1. rewrite E2.
    unfold bind at 1. rewrite E3.
    unfold bind at 1. rewrite (last_patches_pushed loop_start_patches s3 _ _ S3).
    unfold bind at 1. rewrite E3'.
    unfold bind at 1. rewrite E4. unfold bind at 1.
    change (len (bytecode_chunk s1)) with (Z.of_nat (length (bytecode_chunk s1))).
    rewrite E5. unfold bind at 1. rewrite (operand_at_state s5 _ _ J5).
    cbn [operand].
    unfold bind at 1.
    rewrite (last_patches_pushed loop_end_patches s5 (loop_end_patches s)
               (Z.of_nat <$> b)) by congruence.
    unfold bind at 1. rewrite E6.
    unfold bind at 1.
    rewrite (pop_loop_start_pushed s6 (loop_start_patches s) (Z.of_nat <$> k))
      by congruence.
    unfold bind at 1.
    rewrite (pop_loop_end_pushed _ (loop_end_patches s) (Z.of_nat <$> b));
      [|cbn [loop_end_patches set_loop_start_patches]; congruence].
    reflexivity.
  - unfold extended.
    cbn [bytecode_chunk constants scope_depth loop_level loop_start_patches
         loop_end_patches set_loop_level set_loop_end_patches set_loop_start_patches
         add_loop_level].
    split.
    { apply prefix_of_lookup; [lia|]. intros i Hi.
      rewrite Fold by lia. rewrite <- C0.
      destruct G02 as ([c Hc] & _). rewrite Hc. apply lookup_app_l. lia. }
    destruct G03 as (_ & [more Hk] & Hi & Hd & Hl & _).
    split; [exists more; rewrite K6, K5, K4, K3', <- K0; exact Hk|].
    split; [rewrite K6, K5, K4, K3'; exact Hi|].
    split; [congruence|]. split; [lia|].
    split; [apply pended_refl|]. split; [apply pended_refl|].
    split; [constructor|]. intros j _. apply not_elem_of_nil.
  - intros fuel host chunk values pc_break pc_continue Hhost Hcode Hvalues.
    unfold code_pending, pool_loaded in Hcode, Hvalues.
    cbn [bytecode_chunk constants set_loop_level set_loop_end_patches
         set_loop_start_patches add_loop_level] in *.
    assert (Hcode6 : forall i instr,
              (length (bytecode_chunk s) <= i)%nat ->
              bytecode_chunk s6 !! i = Some instr -> chunk !! i = Some instr)
      by exact Hcode.
    assert (V3 : pool_loaded s3 values).
    { apply (pool_loaded_same s3 s6); [congruence|exact Hvalues]. }
    assert (V2 : pool_loaded s2 values) by (eapply pool_loaded_extended; eauto).
    assert (V1 : pool_loaded s1 values) by (eapply pool_loaded_grown; eauto).
    assert (H1 : code_loaded s0 s1 chunk).
    { intros i instr Hle Hi. pose proof (lookup_lt_Some _ _ _ Hi) as Hlt.
      apply Hcode6; [rewrite <- C0; exact Hle|]. rewrite Fold by lia.
      rewrite C2. apply lookup_app_l_Some. exact Hi. }
    assert (H3 : code_pending s2 s3 b k (len (bytecode_chunk s3) + 1)
                   (len (bytecode_chunk s)) chunk).
    { intros i instr Hle Hi. pose proof (lookup_lt_Some _ _ _ Hi) as Hlt.
      apply Hcode6; [rewrite <- C0; lia|].
      rewrite (Fbody i instr Hlt ltac:(lia) Hi). rewrite C0. do 2 f_equal.
      unfold len. lia. }
    assert (Hjif : chunk !! Z.to_nat (len (bytecode_chunk s1))
                   = Some (mkInstruction OP_JUMP_IF_FALSE
                             (IntOperand (len (bytecode_chunk s3) + 1)))).
    { rewrite len_length. apply Hcode6; [rewrite <- C0; exact N1|].
      rewrite Fjif. do 3 f_equal. unfold len. lia. }
    assert (Hjump : chunk !! Z.to_nat (len (bytecode_chunk s3))
                    = Some (mkInstruction OP_JUMP (IntOperand (len (bytecode_chunk s))))).
    { rewrite len_length. apply Hcode6; [rewrite <- C0; lia|].
      rewrite Fjump, C0. reflexivity. }
    replace (len (bytecode_chunk s6)) with (len (bytecode_chunk s3) + 1)
      by (unfold len; lia).
    apply (while_to host chunk values condition body t (added s0 s1)
             (len (bytecode_chunk s)) (len (bytecode_chunk s1)) (len (bytecode_chunk s3))
             pc_break pc_continue (len_nonneg _) (len_nonneg _));
      [|exact Hjif| |exact Hjump].
    + rewrite <- C0. apply condition_tests; assumption.
    + intros fuel'.
      replace (len (bytecode_chunk s1) + 1) with (len (bytecode_chunk s2))
        by (unfold len; lia).
      apply R3; assumption.
Qed.

(** *** The steps of a [for] loop *)

Section RangeSteps.

Context (host : VM.Host) (n : nat) (chunk : list Instruction)
  (values : list VM.Value) (pc : Z) (g : VM.Scope) (fs : list VM.CallFrame).
Hypothesis pc_nonneg : 0 <= pc.

Lemma run_BUILD_RANGE (st : list VM.Value) (envs : list VM.Scope) (h : VM.Heap)
    (a b c : VM.Value) :
  chunk !! Z.to_nat pc = Some (mkInstruction OP_BUILD_RANGE NoOperand) ->
  VM._run host (S n) (VM.mkVM chunk values pc (st ++ [a; b; c]) g envs fs h)
  = VM._run host n
      (VM.mkVM chunk values (pc + 1) (st ++ [VM.VRange a b c]) g envs fs h).
Proof.
  intros Hinstr. fetch_step pc_nonneg Hinstr.
  unfold VM.vbind at 1. unfold VM.need at 1. unfold VM.vbind at 1. unfold VM.read at 1.
  cbn [VM.stack].
  replace (len (st ++ [a; b; c]) <? 3) with false
    by (symmetry; apply Z.ltb_ge; rewrite len_app; pose proof (len_nonneg st);
        unfold len at 2; simpl; lia).
  unfold VM.vret at 1.
  unfold VM.vbind at 1.
  rewrite (pop_top _ (st ++ [a; b]) c) by (cbn [VM.stack]; rewrite <- app_assoc; reflexivity).
  unfold VM.vbind at 1.
  rewrite (pop_top _ (st ++ [a]) b) by (cbn [VM.stack VM.set_stack]; rewrite <- app_assoc; reflexivity).
  unfold VM.vbind at 1.
  rewrite (pop_top _ st a) by reflexivity.
  reflexivity.
Qed.

(** [iter] of a range of integers with a step that is not zero: a new
    iterator, which holds the first item, the step and the number of
    items. *)
Lemma run_ITER_NEW (st : list VM.Value) (envs : list VM.Scope) (h : VM.Heap)
    (a b c : Z) :
  chunk !! Z.to_nat pc = Some (mkInstruction OP_ITER_NEW NoOperand) ->
  c <> 0 ->
  VM._run host (S n)
    (VM.mkVM chunk values pc (st ++ [VM.VRange (VM.VInt a) (VM.VInt b) (VM.VInt c)]) g
       envs fs h)
  = VM._run host n
      (VM.mkVM chunk values (pc + 1) (st ++ [VM.VIter (length h)]) g envs fs
         (h ++ [VM.OIter (VM.RangeIter a c (VM.range_length a b c))])).
Proof.
  intros Hinstr Hc. fetch_step pc_nonneg Hinstr.
  unfold VM.vbind at 1. erewrite need_one by reflexivity.
  unfold VM.vbind at 1. erewrite pop_top by reflexivity.
  unfold VM.vbind at 1. unfold VM.read at 1.
  cbn [VM.heap VM.set_stack VM.py_iter VM.as_index].
  replace (c =? 0) with false by (symmetry; apply Z.eqb_neq; exact Hc).
  reflexivity.
Qed.

(** [next] of an iterator that has items left. *)
Lemma run_ITER_NEXT (st : list VM.Value) (envs : list VM.Scope) (h : VM.Heap)
    (it : VM.addr) (item c r target : Z) :
  chunk !! Z.to_nat pc = Some (mkInstruction OP_ITER_NEXT_OR_JUMP (IntOperand target)) ->
  h !! it = Some (VM.OIter (VM.RangeIter item c r)) -> 0 < r ->
  VM._run host (S n) (VM.mkVM chunk values pc (st ++ [VM.VIter it]) g envs fs h)
  = VM._run host n
      (VM.mkVM chunk values (pc + 1) (st ++ [VM.VIter it; VM.VInt item]) g envs fs
         (<[it := VM.OIter (VM.RangeIter (item + c) c (r - 1))]> h)).
Proof.
  intros Hinstr Hit Hr. fetch_step pc_nonneg Hinstr.
  unfold VM.vbind at 1. erewrite need_one by reflexivity.
  unfold VM.vbind at 1. unfold VM.read at 1.
  unfold VM.vbind at 1. unfold VM.read at 1.
  cbn [VM.stack VM.heap]. unfold VM.top_or_None. rewrite list_pop_app.
  unfold VM.py_next.
  match goal with |- context [match ?x with _ => _ end] =>
    change x with (h !! it) end.
  rewrite Hit.
  replace (0 <? r) with true by (symmetry; apply Z.ltb_lt; exact Hr).
  unfold VM.vbind at 1. unfold VM.write at 1. unfold VM._push, VM.write.
  cbn [VM.set_heap VM.set_stack VM.bytecode_chunk VM.constants VM.ip VM.stack
       VM.globals VM.environments VM.frames VM.heap].
  rewrite <- app_assoc. reflexivity.
Qed.

(** [next] of an iterator that has none: the iterator is popped. *)
Lemma run_ITER_NEXT_exhausted (st : list VM.Value) (envs : list VM.Scope) (h : VM.Heap)
    (it : VM.addr) (item c r target : Z) :
  chunk !! Z.to_nat pc = Some (mkInstruction OP_ITER_NEXT_OR_JUMP (IntOperand target)) ->
  h !! it = Some (VM.OIter (VM.RangeIter item c r)) -> r <= 0 ->
  VM._run host (S n) (VM.mkVM chunk values pc (st ++ [VM.VIter it]) g envs fs h)
  = VM._run host n (VM.mkVM chunk values target st g envs fs h).
Proof.
  intros Hinstr Hit Hr. fetch_step pc_nonneg Hinstr.
  unfold VM.vbind at 1. erewrite need_one by reflexivity.
  unfold VM.vbind at 1. unfold VM.read at 1.
  unfold VM.vbind at 1. unfold VM.read at 1.
  cbn [VM.stack VM.heap]. unfold VM.top_or_None. rewrite list_pop_app.
  unfold VM.py_next.
  match goal with |- context [match ?x with _ => _ end] =>
    change x with (h !! it) end.
  rewrite Hit.
  replace (0 <? r) with false by (symmetry; apply Z.ltb_ge; exact Hr).
  unfold VM.vbind at 1. unfold VM.write at 1.
  unfold VM.vbind at 1. erewrite pop_top by reflexivity.
  reflexivity.
Qed.

Lemma run_POP (st : list VM.Value) (envs : list VM.Scope) (h : VM.Heap) (v : VM.Value) :
  chunk !! Z.to_nat pc = Some (mkInstruction OP_POP NoOperand) ->
  VM._run host (S n) (VM.mkVM chunk values pc (st ++ [v]) g envs fs h)
  = VM._run host n (VM.mkVM chunk values (pc + 1) st g envs fs h).
Proof.
  intros Hinstr. fetch_step pc_nonneg Hinstr.
  unfold VM.vbind at 1. erewrite need_one by reflexivity.
  unfold VM.vbind at 1. erewrite pop_top by reflexivity.
  reflexivity.
Qed.

End RangeSteps.

(** *** Ranges *)

(** [start:end] with or without a step compiles to code that pushes the
    range of the three integers. *)
Lemma range_runs (iterable : ASTNode) (s : Compiler) :
  plain_range iterable = true -> ints_only (constants s) -> 0 < scope_depth s ->
  exists s', _compile_node iterable s = inr (tt, s') /\ grown s s'
    /\ forall store items host chunk values st g envs fs h,
         range_value store iterable = Some items ->
         code_loaded s s' chunk -> pool_loaded s' values -> reads store envs ->
         exists a b c,
           c <> 0 /\ items = range_items a b c
           /\ forall n,
                VM._run host (added s s' + n)
                  (VM.mkVM chunk values (len (bytecode_chunk s)) st g envs fs h)
                = VM._run host n
                    (VM.mkVM chunk values (len (bytecode_chunk s'))
                       (st ++ [VM.VRange (VM.VInt a) (VM.VInt b) (VM.VInt c)]) g envs fs h).
Proof.
  intros Hplain Hpool Hdepth.
  destruct iterable
    as [| | | | | | | | | | | | | | | |start end_ step t| | | | | | | |];
    try discriminate Hplain.
  cbn [plain_range] in Hplain.
  apply andb_true_iff in Hplain. destruct Hplain as [Hplain Hstep].
  apply andb_true_iff in Hplain. destruct Hplain as [Hstart Hend].
  destruct (expression_runs start s Hstart Hpool Hdepth) as [s1 [E1 [G1 R1]]].
  destruct (expression_runs end_ s1 Hend ltac:(apply G1)
              ltac:(eapply grown_depth; eauto)) as [s2 [E2 [G2 R2]]].
  pose proof (grown_trans _ _ _ G1 G2) as G02.
  assert (Hthird : exists s3,
    match step with
    | Some step_node => _compile_node step_node
    | None => bind (Compiler_add_constant (CInt 1))
                (fun idx => emit OP_CONST (IntOperand idx) t)
    end s2 = inr (tt, s3) /\ grown s2 s3
    /\ forall store c host n chunk values st g envs fs h,
         match step with
         | Some e => int_value store e
         | None => Some 1
         end = Some c ->
         code_loaded s2 s3 chunk -> pool_loaded s3 values -> reads store envs ->
         VM._run host (added s2 s3 + n)
           (VM.mkVM chunk values (len (bytecode_chunk s2)) st g envs fs h)
         = VM._run host n
             (VM.mkVM chunk values (len (bytecode_chunk s3)) (st ++ [VM.VInt c]) g
                envs fs h)).
  { destruct step as [e|].
    - apply (expression_runs e s2 Hstep ltac:(apply G2)).
      eapply grown_depth; eauto.
    - destruct (constant_grown (CInt 1) s2 ltac:(apply G2) ltac:(eauto))
        as [k [s3 [E3 [G3 [A3 [C3 K3]]]]]].
      destruct (emit_grown OP_CONST (IntOperand (Z.of_nat k)) t s3 ltac:(apply G3))
        as [s4 [E4 [G4 [A4 L4]]]].
      exists s4. split; [unfold bind; rewrite E3; exact E4|].
      split; [eapply grown_trans; eauto|].
      intros store c host n chunk values st g envs fs h [= <-] Hcode Hvalues Hreads.
      rewrite (added_grown s2 s3 s4 G3 G4), A3, A4.
      rewrite (len_grown s3 s4 G4), A4, C3.
      change (0 + 1 + n)%nat with (S n).
      assert (Hinstr : chunk !! Z.to_nat (len (bytecode_chunk s2))
                       = Some (mkInstruction OP_CONST (IntOperand (Z.of_nat k)))).
      { eapply (code_at s2 s2 s4 s4); [exact Hcode|lia| |apply grown_refl; apply G4].
        rewrite <- C3. exact L4. }
      assert (Hconst : getitem values (Z.of_nat k) = Some (VM.VInt 1)).
      { eapply pool_int; [exact K3|exact G4|exact Hvalues]. }
      rewrite (run_CONST host n chunk values _ st g envs fs h _ _
                 (len_nonneg _) Hinstr Hconst).
      reflexivity. }
  destruct Hthird as (s3 & E3 & G3 & R3).
  destruct (emit_grown OP_BUILD_RANGE NoOperand t s3 ltac:(apply G3))
    as [s4 [E4 [G4 [A4 L4]]]].
  pose proof (grown_trans _ _ _ G02 G3) as G03.
  pose proof (grown_trans _ _ _ G3 G4) as G34.
  pose proof (grown_trans _ _ _ G2 G34) as G24.
  exists s4. split; [|split; [eapply grown_trans; eauto|]].
  - cbn [_compile_node]. unfold bind at 1. rewrite E1. unfold bind at 1. rewrite E2.
    unfold bind at 1. rewrite E3. exact E4.
  - intros store items host chunk values st g envs fs h Hvalue Hcode Hvalues Hreads.
    cbn [range_value] in Hvalue.
    destruct (int_value store start) as [a|] eqn:Ea; [|discriminate Hvalue].
    destruct (int_value store end_) as [b|] eqn:Eb; [|discriminate Hvalue].
    destruct (match step with Some e => int_value store e | None => Some 1 end)
      as [c|] eqn:Ec; [|discriminate Hvalue].
    destruct (c =? 0) eqn:Hc; [discriminate Hvalue|]. injection Hvalue as <-.
    apply Z.eqb_neq in Hc.
    exists a, b, c. split; [exact Hc|]. split; [reflexivity|]. intros n.
    rewrite (added_grown s s1 s4 G1 G24), (added_grown s1 s2 s4 G2 G34),
      (added_grown s2 s3 s4 G3 G4), A4.
    rewrite <- !Nat.add_assoc.
    rewrite (R1 store a host _ chunk values st g envs fs h Ea
               (code_loaded_left _ _ _ _ G24 Hcode)
               (pool_loaded_grown _ _ _ G24 Hvalues) Hreads).
    rewrite (R2 store b host _ chunk values _ g envs fs h Eb
               (code_loaded_left _ _ _ _ G34 (code_loaded_right _ _ _ _ G1 Hcode))
               (pool_loaded_grown _ _ _ G34 Hvalues) Hreads).
    rewrite (R3 store c host _ chunk values _ g envs fs h Ec
               (code_loaded_left _ _ _ _ G4 (code_loaded_right _ _ _ _ G02 Hcode))
               (pool_loaded_grown _ _ _ G4 Hvalues) Hreads).
    rewrite (len_grown s3 s4 G4), A4. change (1 + n)%nat with (S n).
    rewrite <- !app_assoc. cbn [app].
    apply (run_BUILD_RANGE host n chunk values _ g fs (len_nonneg _) st envs h).
    eapply (code_at s s3 s4 s4); [exact Hcode|apply grown_length; exact G03|exact L4|].
    apply grown_refl. apply G4.
Qed.

(** *** The turns of a [for] loop *)

Lemma items_none (next c r : Z) :
  r <= 0 -> map (fun k => next + Z.of_nat k * c) (seq 0 (Z.to_nat r)) = [].
Proof. intros H. replace (Z.to_nat r) with 0%nat by lia. reflexivity. Qed.

Lemma items_next (next c r : Z) :
  0 < r ->
  map (fun k => next + Z.of_nat k * c) (seq 0 (Z.to_nat r))
  = next :: map (fun k => next + c + Z.of_nat k * c) (seq 0 (Z.to_nat (r - 1))).
Proof.
  intros H. replace (Z.to_nat r) with (S (Z.to_nat (r - 1))) by lia.
  cbn [seq map]. f_equal; [lia|]. rewrite <- seq_shift, map_map.
  apply map_ext. intros k. lia.
Qed.

Lemma heap_kept_insert (h0 h : list VM.Obj) (it : nat) (o : VM.Obj) :
  h0 !! it = None -> heap_kept h0 h -> heap_kept h0 (<[it := o]> h).
Proof.
  intros Hit Hkept a o' Ha. change VM.Heap with (list VM.Obj) in *.
  destruct (decide (a = it)) as [->|Hne]; [congruence|].
  rewrite list_lookup_insert_ne by auto. apply Hkept. exact Ha.
Qed.

Lemma heap_kept_app (h : VM.Heap) (o : VM.Obj) : heap_kept h (h ++ [o]).
Proof. intros a o' Ha. apply lookup_app_l_Some. exact Ha. Qed.

(** The first item is assigned to the variable that the loop has declared
    with [None]. *)
Lemma assign_first_item (x : string) (z : Z) (renvs : list VM.Scope) :
  VM.assign_local
    (VM.dict_set [] (VM.VStr x) (VM.mkVariable (VM.VStr x) VM.VNone false) :: renvs)
    (VM.VStr x) (VM.VInt z)
  = VM.PyOk (VM.Assigned (VM.dict_set [] (VM.VStr x) (variable x z) :: renvs)).
Proof.
  cbn [VM.assign_local]. unfold VM.contains. cbn [VM.hashable].
  rewrite dict_get_set_same by (apply key_eq_refl; reflexivity).
  cbn [is_not_None VM.py_bind]. unfold VM._set_variable. cbn [VM.hashable VM.py_bind].
  cbn [VM.dict_set]. rewrite key_eq_refl by reflexivity. reflexivity.
Qed.

Section ForLoop.

Context (host : VM.Host) (chunk : list Instruction) (values : list VM.Value)
  (run_body : list Store -> option Outcome) (x : string) (i_name : Z) (c : Z)
  (it : nat) (h0 : VM.Heap) (pc_next pc_jump : Z).
Hypothesis pc_next_nonneg : 0 <= pc_next.
Hypothesis pc_jump_nonneg : 0 <= pc_jump.
Hypothesis next_at :
  chunk !! Z.to_nat pc_next
  = Some (mkInstruction OP_ITER_NEXT_OR_JUMP (IntOperand (pc_jump + 2))).
Hypothesis set_at :
  chunk !! Z.to_nat (pc_next + 1) = Some (mkInstruction OP_SET_LOCAL (IntOperand i_name)).
Hypothesis name_at : getitem values i_name = Some (VM.VStr x).
Hypothesis body_runs :
  runs_to host chunk values run_body (pc_next + 2) pc_jump (pc_jump + 1) pc_next.
Hypothesis jump_at :
  chunk !! Z.to_nat pc_jump = Some (mkInstruction OP_JUMP (IntOperand pc_next)).
Hypothesis pop_at :
  chunk !! Z.to_nat (pc_jump + 1) = Some (mkInstruction OP_POP NoOperand).
Hypothesis iterator_new : h0 !! it = None.

(** From the body of a turn to the end of the loop: the iterator is on the
    stack while the loop turns and is popped when the loop ends, by
    [OP_ITER_NEXT_OR_JUMP] or by the handler of [break]. *)
Lemma turns_to (rest : list Z) :
  forall scopes scopes_end st g envs fs h next r,
    rest = map (fun k => next + Z.of_nat k * c) (seq 0 (Z.to_nat r)) ->
    h !! it = Some (VM.OIter (VM.RangeIter next c r)) ->
    heap_kept h0 h -> scopes_agree scopes envs ->
    run_turns_outcome run_body x rest scopes = Some scopes_end ->
    exists envs' h' steps,
      scopes_agree scopes_end envs' /\ heap_kept h0 h'
      /\ forall n,
           VM._run host (steps + n)
             (VM.mkVM chunk values (pc_next + 2) (st ++ [VM.VIter it]) g envs fs h)
           = VM._run host n (VM.mkVM chunk values (pc_jump + 2) st g envs' fs h').
Proof.
  induction rest as [|item rest IH];
    intros scopes scopes_end st g envs fs h next r Hrest Hcell Hkept Hagree Hrun.
  - assert (Hr : r <= 0).
    { destruct (Z.to_nat r) as [|k] eqn:Er; [lia|discriminate Hrest]. }
    cbn [run_turns_outcome] in Hrun.
    destruct (run_body scopes) as [[scopes1|scopes1|scopes1]|] eqn:E1;
      [| | |discriminate Hrun]; injection Hrun as <-;
      destruct (body_runs scopes _ (st ++ [VM.VIter it]) g envs fs h E1 Hagree)
        as (envs1 & h1 & k1 & Hagree1 & Hh1 & Hrun1);
      cbn [outcome_scopes outcome_pc] in *.
    + exists envs1, h1, (k1 + 2)%nat. split; [exact Hagree1|].
      split; [eapply heap_kept_trans; eauto|]. intros n.
      rewrite <- Nat.add_assoc, Hrun1. cbn [Nat.add].
      rewrite (run_JUMP host _ chunk values pc_jump g fs h1 pc_jump_nonneg _ envs1
                 pc_next jump_at).
      apply (run_ITER_NEXT_exhausted host n chunk values pc_next g fs pc_next_nonneg st
               envs1 h1 it next c r _ next_at (Hh1 _ _ Hcell) Hr).
    + exists envs1, h1, (k1 + 1)%nat. split; [exact Hagree1|].
      split; [eapply heap_kept_trans; eauto|]. intros n.
      rewrite <- Nat.add_assoc, Hrun1. cbn [Nat.add].
      replace (pc_jump + 2) with (pc_jump + 1 + 1) by lia.
      apply (run_POP host n chunk values (pc_jump + 1) g fs ltac:(lia) st envs1 h1 _
               pop_at).
    + exists envs1, h1, (k1 + 1)%nat. split; [exact Hagree1|].
      split; [eapply heap_kept_trans; eauto|]. intros n.
      rewrite <- Nat.add_assoc, Hrun1. cbn [Nat.add].
      apply (run_ITER_NEXT_exhausted host n chunk values pc_next g fs pc_next_nonneg st
               envs1 h1 it next c r _ next_at (Hh1 _ _ Hcell) Hr).
  - assert (Hr : 0 < r).
    { destruct (Z.to_nat r) as [|k] eqn:Er; [discriminate Hrest|lia]. }
    rewrite (items_next next c r Hr) in Hrest. injection Hrest as -> Hrest.
    assert (Hnext : forall scopes1 envs1 h1,
      scopes_agree scopes1 envs1 -> heap_kept h h1 ->
      match assign_variable scopes1 x next with
      | Some scopes2 => run_turns_outcome run_body x rest scopes2
      | None => None
      end = Some scopes_end ->
      exists envs' h' steps,
        scopes_agree scopes_end envs' /\ heap_kept h0 h'
        /\ forall n,
             VM._run host (steps + n)
               (VM.mkVM chunk values pc_next (st ++ [VM.VIter it]) g envs1 fs h1)
             = VM._run host n (VM.mkVM chunk values (pc_jump + 2) st g envs' fs h')).
    { intros scopes1 envs1 h1 Hagree1 Hh1 Hrun1.
      destruct (assign_variable scopes1 x next) as [scopes2|] eqn:Eassign;
        [|discriminate Hrun1].
      destruct (assign_local_agrees _ _ _ _ _ Hagree1 Eassign)
        as [renvs2 [Hassign Hagree2]].
      destruct (IH scopes2 scopes_end st g (rev renvs2) fs
                  (<[it := VM.OIter (VM.RangeIter (next + c) c (r - 1))]> h1)
                  (next + c) (r - 1) Hrest)
        as (envs' & h' & k & Hagree' & Hh' & Hrun').
      { apply lookup_insert_same. apply (lookup_lt_Some _ _ _ (Hh1 _ _ Hcell)). }
      { apply heap_kept_insert; [exact iterator_new|].
        eapply heap_kept_trans; eauto. }
      { unfold scopes_agree. rewrite rev_involutive. exact Hagree2. }
      { exact Hrun1. }
      exists envs', h', (2 + k)%nat. split; [exact Hagree'|]. split; [exact Hh'|].
      intros n. cbn [Nat.add].
      rewrite (run_ITER_NEXT host _ chunk values pc_next g fs pc_next_nonneg st envs1 h1
                 it next c r _ next_at (Hh1 _ _ Hcell) Hr).
      replace (st ++ [VM.VIter it; VM.VInt next])
        with ((st ++ [VM.VIter it]) ++ [VM.VInt next])
        by (rewrite <- app_assoc; reflexivity).
      rewrite (run_SET_LOCAL host _ chunk values (pc_next + 1) g fs _ ltac:(lia) _ envs1
                 _ _ _ renvs2 set_at name_at Hassign).
      replace (pc_next + 1 + 1) with (pc_next + 2) by lia. apply Hrun'. }
    cbn [run_turns_outcome] in Hrun.
    destruct (run_body scopes) as [[scopes1|scopes1|scopes1]|] eqn:E1;
      [| | |discriminate Hrun];
      destruct (body_runs scopes _ (st ++ [VM.VIter it]) g envs fs h E1 Hagree)
        as (envs1 & h1 & k1 & Hagree1 & Hh1 & Hrun1);
      cbn [outcome_scopes outcome_pc] in *.
    + destruct (Hnext scopes1 envs1 h1 Hagree1 Hh1 Hrun)
        as (envs' & h' & k & Hagree' & Hh' & Hrun').
      exists envs', h', (k1 + (1 + k))%nat. split; [exact Hagree'|].
      split; [exact Hh'|]. intros n.
      rewrite <- Nat.add_assoc, Hrun1. cbn [Nat.add].
      rewrite (run_JUMP host _ chunk values pc_jump g fs h1 pc_jump_nonneg _ envs1
                 pc_next jump_at).
      apply Hrun'.
    + injection Hrun as <-.
      exists envs1, h1, (k1 + 1)%nat. split; [exact Hagree1|].
      split; [eapply heap_kept_trans; eauto|]. intros n.
      rewrite <- Nat.add_assoc, Hrun1. cbn [Nat.add].
      replace (pc_jump + 2) with (pc_jump + 1 + 1) by lia.
      apply (run_POP host n chunk values (pc_jump + 1) g fs ltac:(lia) st envs1 h1 _
               pop_at).
    + destruct (Hnext scopes1 envs1 h1 Hagree1 Hh1 Hrun)
        as (envs' & h' & k & Hagree' & Hh' & Hrun').
      exists envs', h', (k1 + k)%nat. split; [exact Hagree'|].
      split; [exact Hh'|]. intros n.
      rewrite <- Nat.add_assoc, Hrun1. apply Hrun'.
Qed.

End ForLoop.

Section ForStatement.

Context (host : VM.Host) (chunk : list Instruction) (values : list VM.Value).

(** [for x in start:end { body }]: the loop runs in a scope of its own,
    which [OP_EXIT_SCOPE] drops after the loop; a [break] of the body lands
    on the [OP_POP] that drops the iterator, a [continue] on
    [OP_ITER_NEXT_OR_JUMP], both in the scopes of the jump. *)
Lemma for_to (loop_variable : Token) (iterable body : ASTNode) (t : option Token)
    (k : nat) (i_name i_none : Z) (pc pc_iter pc_jump pc_break pc_continue : Z) :
  0 <= pc -> 0 <= pc_iter -> 0 <= pc_jump ->
  chunk !! Z.to_nat pc = Some (mkInstruction OP_ENTER_SCOPE NoOperand) ->
  (forall store items st g envs fs h,
     range_value store iterable = Some items -> reads store envs ->
     exists a b c,
       c <> 0 /\ items = range_items a b c
       /\ forall n,
            VM._run host (k + n) (VM.mkVM chunk values (pc + 1) st g envs fs h)
            = VM._run host n
                (VM.mkVM chunk values pc_iter
                   (st ++ [VM.VRange (VM.VInt a) (VM.VInt b) (VM.VInt c)]) g envs fs h)) ->
  chunk !! Z.to_nat pc_iter = Some (mkInstruction OP_ITER_NEW NoOperand) ->
  chunk !! Z.to_nat (pc_iter + 1) = Some (mkInstruction OP_CONST (IntOperand i_none)) ->
  getitem values i_none = Some VM.VNone ->
  chunk !! Z.to_nat (pc_iter + 2) = Some (mkInstruction OP_DEF_LOCAL (IntOperand i_name)) ->
  getitem values i_name = Some (VM.VStr (value loop_variable)) ->
  chunk !! Z.to_nat (pc_iter + 3)
  = Some (mkInstruction OP_ITER_NEXT_OR_JUMP (IntOperand (pc_jump + 2))) ->
  chunk !! Z.to_nat (pc_iter + 4) = Some (mkInstruction OP_SET_LOCAL (IntOperand i_name)) ->
  (forall fuel,
     runs_to host chunk values (run_looping fuel body) (pc_iter + 5) pc_jump
       (pc_jump + 1) (pc_iter + 3)) ->
  chunk !! Z.to_nat pc_jump = Some (mkInstruction OP_JUMP (IntOperand (pc_iter + 3))) ->
  chunk !! Z.to_nat (pc_jump + 1) = Some (mkInstruction OP_POP NoOperand) ->
  chunk !! Z.to_nat (pc_jump + 2) = Some (mkInstruction OP_EXIT_SCOPE NoOperand) ->
  forall fuel,
    runs_to host chunk values
      (run_looping fuel (ForInStmt loop_variable iterable body t))
      pc (pc_jump + 3) pc_break pc_continue.
Proof.
  intros Hpc Hpc_iter Hpc_jump Henter Hrange Hnew Hconst Hnone Hdef Hname Hnext Hset
    Hbody Hjump Hpop Hexit fuel scopes outcome st g envs fs h Hrun Hagree.
  destruct fuel as [|fuel]; [discriminate Hrun|]. cbn [run_looping] in Hrun.
  destruct (range_value (lookup_variable scopes) iterable) as [items|] eqn:Eitems;
    [|discriminate Hrun].
  assert (Hagree0 : scopes_agree (no_variable :: scopes) (envs ++ [[]])).
  { unfold scopes_agree. rewrite rev_app_distr. constructor; [apply agrees_empty|].
    exact Hagree. }
  assert (Hreads : reads (lookup_variable scopes) (envs ++ [[]])).
  { exact (reads_scopes _ _ Hagree0). }
  destruct (Hrange _ _ st g (envs ++ [[]]) fs h Eitems Hreads)
    as (a & b & c & Hc & -> & Hrun0).
  set (x := value loop_variable) in *.
  set (scope0 := VM.dict_set [] (VM.VStr x) (VM.mkVariable (VM.VStr x) VM.VNone false)).
  set (it := length h).
  set (h1 := h ++ [VM.OIter (VM.RangeIter a c (VM.range_length a b c))]).
  assert (Hstart : forall n,
    VM._run host (1 + (k + (3 + n))) (VM.mkVM chunk values pc st g envs fs h)
    = VM._run host n
        (VM.mkVM chunk values (pc_iter + 3) (st ++ [VM.VIter it]) g (envs ++ [scope0])
           fs h1)).
  { intros n. cbn [Nat.add].
    rewrite (run_ENTER_SCOPE host _ chunk values pc g fs h Hpc st envs Henter).
    rewrite Hrun0.
    rewrite (run_ITER_NEW host _ chunk values pc_iter g fs Hpc_iter st _ h a b c Hnew Hc).
    rewrite (run_CONST host _ chunk values (pc_iter + 1) _ g _ fs _ _ _ ltac:(lia) Hconst
               Hnone).
    replace (pc_iter + 1 + 1) with (pc_iter + 2) by lia.
    rewrite (run_DEF_LOCAL host n chunk values (pc_iter + 2) g fs _ ltac:(lia) _ envs []
               _ _ VM.VNone Hdef Hname).
    replace (pc_iter + 2 + 1) with (pc_iter + 3) by lia. reflexivity. }
  assert (Hcell : h1 !! it = Some (VM.OIter (VM.RangeIter a c (VM.range_length a b c)))).
  { unfold h1, it. rewrite lookup_app_r by lia. rewrite Nat.sub_diag. reflexivity. }
  unfold range_items in Hrun.
  destruct (Z_lt_le_dec 0 (VM.range_length a b c)) as [Hr|Hr].
  - rewrite (items_next a c _ Hr) in Hrun.
    set (rest := map (fun j => a + c + Z.of_nat j * c)
                   (seq 0 (Z.to_nat (VM.range_length a b c - 1)))) in *.
    destruct (run_turns_outcome (run_looping fuel body) x rest
                (bind_variable x a no_variable :: scopes))
      as [[|inner outer]|] eqn:Eturns; try discriminate Hrun.
    injection Hrun as <-. cbn [outcome_scopes outcome_pc].
    set (h2 := <[it := VM.OIter (VM.RangeIter (a + c) c (VM.range_length a b c - 1))]> h1).
    destruct (turns_to host chunk values (run_looping fuel body) x i_name c it h
                (pc_iter + 3) pc_jump ltac:(lia) Hpc_jump Hnext
                ltac:(replace (pc_iter + 3 + 1) with (pc_iter + 4) by lia; exact Hset)
                Hname
                ltac:(replace (pc_iter + 3 + 2) with (pc_iter + 5) by lia; apply Hbody)
                Hjump Hpop ltac:(apply lookup_ge_None_2; unfold it; lia)
                rest (bind_variable x a no_variable :: scopes) (inner :: outer) st g
                (envs ++ [VM.dict_set [] (VM.VStr x) (variable x a)]) fs h2 (a + c)
                (VM.range_length a b c - 1) eq_refl)
      as (envs' & h' & steps & Hagree' & Hh' & Hrun').
    { unfold h2. apply lookup_insert_same. apply (lookup_lt_Some _ _ _ Hcell). }
    { unfold h2. apply heap_kept_insert; [apply lookup_ge_None_2; unfold it; lia|].
      apply heap_kept_app. }
    { unfold scopes_agree. rewrite rev_app_distr. constructor; [|exact Hagree].
      apply agrees_bind. apply agrees_empty. }
    { exact Eturns. }
    unfold scopes_agree in Hagree'.
    destruct (rev envs') as [|scope renvs] eqn:Erev; [inversion Hagree'|].
    apply Forall2_cons in Hagree'. destruct Hagree' as [_ Houter].
    assert (Eenvs : envs' = rev renvs ++ [scope]).
    { rewrite <- (rev_involutive envs'), Erev. reflexivity. }
    exists (rev renvs), h', (1 + (k + (3 + (2 + (steps + 1)))))%nat.
    split; [|split; [exact Hh'|]].
    + unfold scopes_agree. rewrite rev_involutive. exact Houter.
    + intros n. rewrite <- !Nat.add_assoc. rewrite Hstart. cbn [Nat.add].
      rewrite (run_ITER_NEXT host _ chunk values (pc_iter + 3) g fs ltac:(lia) st _ h1
                 it a c _ _ Hnext Hcell Hr).
      fold h2.
      replace (st ++ [VM.VIter it; VM.VInt a])
        with ((st ++ [VM.VIter it]) ++ [VM.VInt a])
        by (rewrite <- app_assoc; reflexivity).
      replace (pc_iter + 3 + 1) with (pc_iter + 4) by lia.
      rewrite (run_SET_LOCAL host _ chunk values (pc_iter + 4) g fs _ ltac:(lia) _
                 (envs ++ [scope0]) _ x _
                 (VM.dict_set [] (VM.VStr x) (variable x a) :: rev envs) Hset Hname);
        [|rewrite rev_app_distr; apply assign_first_item].
      cbn [rev]. rewrite rev_involutive.
      replace (pc_iter + 4 + 1) with (pc_iter + 3 + 2) by lia.
      rewrite Hrun', Eenvs. cbn [Nat.add].
      replace (pc_jump + 3) with (pc_jump + 2 + 1) by lia.
      apply (run_EXIT_SCOPE host n chunk values (pc_jump + 2) g fs h' ltac:(lia) st
               (rev renvs) scope Hexit).
  - rewrite (items_none a c _ Hr) in Hrun. injection Hrun as <-.
    cbn [outcome_scopes outcome_pc].
    exists envs, h1, (1 + (k + (3 + 2)))%nat. split; [exact Hagree|].
    split; [apply heap_kept_app|]. intros n.
    rewrite <- !Nat.add_assoc. rewrite Hstart. cbn [Nat.add].
    rewrite (run_ITER_NEXT_exhausted host _ chunk values (pc_iter + 3) g fs ltac:(lia) st
               _ h1 it a c _ _ Hnext Hcell Hr).
    replace (pc_jump + 3) with (pc_jump + 2 + 1) by lia.
    apply (run_EXIT_SCOPE host n chunk values (pc_jump + 2) g fs h1 ltac:(lia) st envs
             scope0 Hexit).
Qed.

End ForStatement.

(** *** What the compiler adds for a [for] loop *)

Lemma patch_jump_target (s : Compiler) (idx : nat) (instr : Instruction) (target : Z) :
  bytecode_chunk s !! idx = Some instr ->
  patch_jump (Z.of_nat idx) (Some target) s
  = inr (tt, set_bytecode_chunk
               (<[idx := mkInstruction (opcode instr) (IntOperand target)]>
                  (bytecode_chunk s)) s).
Proof.
  intros Hinstr. pose proof (lookup_lt_Some _ _ _ Hinstr) as Hlt.
  unfold patch_jump, bind, gets.
  replace (0 <=? Z.of_nat idx) with true by (symmetry; apply Z.leb_le; lia).
  replace (Z.of_nat idx <? len (bytecode_chunk s)) with true
    by (symmetry; apply Z.ltb_lt; unfold len; lia).
  cbn [andb negb]. unfold set_operand. rewrite getitem_nat, Hinstr.
  erewrite setitem_index; [|lia|rewrite Nat2Z.id; exact Hinstr].
  rewrite Nat2Z.id. reflexivity.
Qed.

Lemma grown_lookup (s s' : Compiler) (i : nat) (instr : Instruction) :
  grown s s' -> bytecode_chunk s !! i = Some instr ->
  bytecode_chunk s' !! i = Some instr.
Proof. intros ([code Hc] & _) H. rewrite Hc. apply lookup_app_l_Some. exact H. Qed.

Lemma grown_one (s s' : Compiler) :
  grown s s' -> added s s' = 1%nat ->
  length (bytecode_chunk s') = S (length (bytecode_chunk s)).
Proof. intros G A. pose proof (grown_length _ _ G). unfold added in A. lia. Qed.

(** [for]: the jumps of [break] get the index of the [OP_POP] that drops
    the iterator, those of [continue] the index of
    [OP_ITER_NEXT_OR_JUMP]. *)
Lemma for_in (in_loop : bool) (loop_variable : Token) (iterable body : ASTNode)
    (t : option Token) :
  compiles_in true body -> compiles_in in_loop (ForInStmt loop_variable iterable body t).
Proof.
  intros IHbody Hs s Hready. cbn [looping_in] in Hs.
  apply andb_true_iff in Hs. destruct Hs as [Hrange Hbody].
  destruct Hready as (Hpool & Hdepth & Hlevel & _).
  remember (begin_loop_start (begin_loop_end (set_loop_level (loop_level s + 1) s)))
    as sx eqn:Esx.
  remember (set_scope_depth (scope_depth sx + 1) sx) as s0 eqn:Es0.
  assert (C0 : bytecode_chunk s0 = bytecode_chunk s) by (subst s0 sx; reflexivity).
  assert (K0 : constants s0 = constants s) by (subst s0 sx; reflexivity).
  assert (D0 : scope_depth s0 = scope_depth s + 1) by (subst s0 sx; reflexivity).
  assert (S0 : loop_start_patches s0 = loop_start_patches s ++ [[]])
    by (subst s0 sx; reflexivity).
  assert (P0 : loop_end_patches s0 = loop_end_patches s ++ [[]])
    by (subst s0 sx; reflexivity).
  assert (L0 : loop_level s0 = loop_level s + 1) by (subst s0 sx; reflexivity).
  assert (Hready0 : ready true s0).
  { unfold ready. rewrite K0, D0, L0, S0, P0. split; [exact Hpool|].
    split; [lia|]. split; [lia|]. intros _. split; [lia|]. split; eauto. }
  set (x := value loop_variable).
  destruct (emit_grown OP_ENTER_SCOPE NoOperand t s0 ltac:(apply Hready0))
    as [sE [EE [GE [AE LE]]]].
  destruct (range_runs iterable sE Hrange ltac:(apply GE)
              ltac:(eapply grown_depth; [exact GE|apply Hready0]))
    as [sR [ER [GR RR]]].
  destruct (emit_grown OP_ITER_NEW NoOperand (token_or (node_token iterable) t) sR
              ltac:(apply GR)) as [sN [EN [GN [AN LN]]]].
  destruct (constant_grown (CStr x) sN ltac:(apply GN) ltac:(eauto))
    as [kn [sA [EA [GA [AA [CA KA]]]]]].
  destruct (constant_grown CNone sA ltac:(apply GA) ltac:(auto))
    as [k0 [sB [EB [GB [AB [CB KB]]]]]].
  destruct (emit_grown OP_CONST (IntOperand (Z.of_nat k0)) (Some loop_variable) sB
              ltac:(apply GB)) as [sK [EK [GK [AK LK]]]].
  destruct (emit_grown OP_DEF_LOCAL (IntOperand (Z.of_nat kn)) (Some loop_variable) sK
              ltac:(apply GK)) as [sD [ED [GD [AD LD]]]].
  destruct (emit_instruction_grown OP_ITER_NEXT_OR_JUMP placeholder t sD ltac:(apply GD))
    as [s2 [E2 [G2 C2]]].
  destruct (emit_grown OP_SET_LOCAL (IntOperand (Z.of_nat kn)) (Some loop_variable) s2
              ltac:(apply G2)) as [sS [ES [GS [AS LS]]]].
  (* the lengths *)
  assert (N0 : length (bytecode_chunk s0) = length (bytecode_chunk s))
    by (rewrite C0; reflexivity).
  pose proof (grown_one _ _ GE AE) as NE.
  pose proof (grown_length _ _ GR) as NR.
  pose proof (grown_one _ _ GN AN) as NN.
  assert (NB : length (bytecode_chunk sB) = length (bytecode_chunk sN))
    by (rewrite CB, CA; reflexivity).
  pose proof (grown_one _ _ GK AK) as NK.
  pose proof (grown_one _ _ GD AD) as ND.
  assert (N2 : length (bytecode_chunk s2) = S (length (bytecode_chunk sD)))
    by (rewrite C2, length_app; simpl; lia).
  pose proof (grown_one _ _ GS AS) as NS.
  (* from each state to the body *)
  pose proof (grown_trans _ _ _ G2 GS) as GDS.
  pose proof (grown_trans _ _ _ GD GDS) as GKS.
  pose proof (grown_trans _ _ _ GK GKS) as GBS.
  pose proof (grown_trans _ _ _ GB GBS) as GAS.
  pose proof (grown_trans _ _ _ GA GAS) as GNS.
  pose proof (grown_trans _ _ _ GN GNS) as GRS.
  pose proof (grown_trans _ _ _ GR GRS) as GES.
  pose proof (grown_trans _ _ _ GE GES) as G0S.
  destruct (IHbody Hbody sS (ready_grown _ _ _ Hready0 G0S))
    as (s3 & b & k & E3 & G3 & R3).
  pose proof (extended_grown_l _ _ _ _ _ G0S G3) as G03.
  pose proof (extended_length _ _ _ _ G3) as N3.
  assert (S3 : loop_start_patches s3 = loop_start_patches s ++ [Z.of_nat <$> k]).
  { apply pended_pushed. rewrite <- S0. apply G03. }
  assert (P3 : loop_end_patches s3 = loop_end_patches s ++ [Z.of_nat <$> b]).
  { apply pended_pushed. rewrite <- P0. apply G03. }
  assert (Hjumps : forall i, i ∈ b ++ k ->
            bytecode_chunk s3 !! i = Some (mkInstruction OP_JUMP placeholder)).
  { intros i Hi. destruct G3 as (_ & _ & _ & _ & _ & _ & _ & Hf & _).
    rewrite Forall_forall in Hf. apply (Hf i Hi). }
  assert (Hapart : forall i, i ∈ b -> i ∉ k) by apply G3.
  assert (Hprefix : forall i instr, bytecode_chunk sS !! i = Some instr ->
            bytecode_chunk s3 !! i = Some instr).
  { intros i instr Hi. destruct G3 as ([code Hc] & _). rewrite Hc.
    apply lookup_app_l_Some. exact Hi. }
  set (idx := length (bytecode_chunk sD)).
  set (pL := len (bytecode_chunk sD)).
  destruct (emit_state OP_JUMP (IntOperand pL) t s3)
    as (s4 & E4 & C4 & K4 & D4 & S4 & P4 & L4).
  assert (N4 : length (bytecode_chunk s4) = S (length (bytecode_chunk s3)))
    by (rewrite C4, length_app; simpl; lia).
  set (pH := len (bytecode_chunk s4)).
  destruct (emit_state OP_POP NoOperand t s4)
    as (s5 & E5 & C5 & K5 & D5 & S5 & P5 & L5).
  assert (N5 : length (bytecode_chunk s5) = S (length (bytecode_chunk s4)))
    by (rewrite C5, length_app; simpl; lia).
  assert (F5 : forall i, (i < length (bytecode_chunk s3))%nat ->
            bytecode_chunk s5 !! i = bytecode_chunk s3 !! i).
  { intros i Hi. rewrite C5, lookup_app_l by lia. rewrite C4, lookup_app_l by lia.
    reflexivity. }
  (* the jumps of break *)
  assert (Hb5 : Forall (fun i => exists arg,
                   bytecode_chunk s5 !! i = Some (mkInstruction OP_JUMP arg)) b).
  { apply Forall_forall. intros i Hi.
    assert (Hin : i ∈ b ++ k) by (rewrite elem_of_app; auto).
    pose proof (extended_within _ _ _ _ _ G3 Hin) as Hrange'.
    rewrite F5 by lia. eexists. apply Hjumps. exact Hin. }
  destruct (patch_all_jumps b pH s5 Hb5) as (s6 & E6 & F6 & K6 & D6 & S6 & P6 & L6).
  pose proof (patch_all_length s5 s6 b pH Hb5 F6) as N6.
  destruct (not_pending_below _ _ _ _ idx G3 ltac:(unfold idx; lia)) as [Hbi Hki].
  assert (J6 : bytecode_chunk s6 !! idx
               = Some (mkInstruction OP_ITER_NEXT_OR_JUMP placeholder)).
  { rewrite F6, decide_False by exact Hbi. rewrite F5 by (unfold idx; lia).
    apply Hprefix. apply (grown_lookup _ _ _ _ GS).
    rewrite C2, lookup_app_r by (unfold idx; lia). unfold idx.
    rewrite Nat.sub_diag. reflexivity. }
  set (pA := len (bytecode_chunk s6)).
  pose proof (patch_jump_target s6 idx _ pA J6) as E7. cbn [opcode] in E7.
  remember (set_bytecode_chunk
              (<[idx := mkInstruction OP_ITER_NEXT_OR_JUMP (IntOperand pA)]>
                 (bytecode_chunk s6)) s6) as s7 eqn:Es7.
  assert (C7 : bytecode_chunk s7
               = <[idx := mkInstruction OP_ITER_NEXT_OR_JUMP (IntOperand pA)]>
                   (bytecode_chunk s6)) by (subst s7; reflexivity).
  assert (K7 : constants s7 = constants s6) by (subst s7; reflexivity).
  assert (D7 : scope_depth s7 = scope_depth s6) by (subst s7; reflexivity).
  assert (S7 : loop_start_patches s7 = loop_start_patches s6) by (subst s7; reflexivity).
  assert (P7 : loop_end_patches s7 = loop_end_patches s6) by (subst s7; reflexivity).
  assert (L7 : loop_level s7 = loop_level s6) by (subst s7; reflexivity).
  clear Es7.
  assert (N7 : length (bytecode_chunk s7) = length (bytecode_chunk s6))
    by (rewrite C7; apply length_insert).
  (* the jumps of continue *)
  assert (Hk7 : Forall (fun i => exists arg,
                   bytecode_chunk s7 !! i = Some (mkInstruction OP_JUMP arg)) k).
  { apply Forall_forall. intros i Hi.
    assert (Hin : i ∈ b ++ k) by (rewrite elem_of_app; auto).
    pose proof (extended_within _ _ _ _ _ G3 Hin) as Hrange'.
    rewrite C7, list_lookup_insert_ne by (unfold idx; lia).
    rewrite F6. destruct (decide (i ∈ b)); [eauto|].
    rewrite F5 by lia. eexists. apply Hjumps. exact Hin. }
  destruct (patch_all_jumps k pL s7 Hk7) as (s8 & E8 & F8 & K8 & D8 & S8 & P8 & L8).
  pose proof (patch_all_length s7 s8 k pL Hk7 F8) as N8.
  destruct (emit_state OP_EXIT_SCOPE NoOperand t s8)
    as (s9 & E9 & C9 & K9 & D9 & S9 & P9 & L9).
  assert (N9 : length (bytecode_chunk s9) = S (length (bytecode_chunk s8)))
    by (rewrite C9, length_app; simpl; lia).
  (* the code of the loop *)
  assert (F9 : forall i, (i < length (bytecode_chunk s5))%nat -> i <> idx ->
            bytecode_chunk s9 !! i
            = if decide (i ∈ k) then Some (mkInstruction OP_JUMP (IntOperand pL))
              else if decide (i ∈ b) then Some (mkInstruction OP_JUMP (IntOperand pH))
              else bytecode_chunk s5 !! i).
  { intros i Hi Hne. rewrite C9, lookup_app_l by lia. rewrite F8.
    destruct (decide (i ∈ k)); [reflexivity|].
    rewrite C7, list_lookup_insert_ne by auto. apply F6. }
  assert (Fbody : forall i instr, (i < length (bytecode_chunk s3))%nat -> i <> idx ->
            bytecode_chunk s3 !! i = Some instr ->
            bytecode_chunk s9 !! i = Some (patched b k pH pL i instr)).
  { intros i instr Hi Hne Hinstr. rewrite F9 by lia. unfold patched.
    destruct (decide (i ∈ b)) as [Hb|Hb].
    - rewrite decide_False by (apply Hapart; exact Hb). reflexivity.
    - destruct (decide (i ∈ k)); [reflexivity|]. rewrite F5 by lia. exact Hinstr. }
  assert (Fold : forall i instr, i <> idx ->
            bytecode_chunk sS !! i = Some instr -> bytecode_chunk s9 !! i = Some instr).
  { intros i instr Hne Hinstr. pose proof (lookup_lt_Some _ _ _ Hinstr) as Hlt.
    destruct (not_pending_below _ _ _ _ i G3 Hlt) as [Hb Hk].
    rewrite (Fbody i instr ltac:(lia) Hne (Hprefix _ _ Hinstr)). unfold patched.
    rewrite !decide_False by assumption. reflexivity. }
  assert (Fnext : bytecode_chunk s9 !! idx
                  = Some (mkInstruction OP_ITER_NEXT_OR_JUMP (IntOperand pA))).
  { rewrite C9, lookup_app_l by (unfold idx; lia).
    rewrite F8, decide_False by exact Hki. rewrite C7.
    apply lookup_insert_same. unfold idx. lia. }
  destruct (not_pending_above _ _ _ _ (length (bytecode_chunk s3)) G3 ltac:(lia))
    as [Hb3 Hk3].
  destruct (not_pending_above _ _ _ _ (length (bytecode_chunk s4)) G3 ltac:(lia))
    as [Hb4 Hk4].
  assert (Fjump : bytecode_chunk s9 !! length (bytecode_chunk s3)
                  = Some (mkInstruction OP_JUMP (IntOperand pL))).
  { rewrite F9 by (unfold idx; lia). rewrite !decide_False by assumption.
    rewrite C5, lookup_app_l by lia. rewrite C4, lookup_app_r by lia.
    rewrite Nat.sub_diag. reflexivity. }
  assert (Fpop : bytecode_chunk s9 !! length (bytecode_chunk s4)
                 = Some (mkInstruction OP_POP NoOperand)).
  { rewrite F9 by (unfold idx; lia). rewrite !decide_False by assumption.
    rewrite C5, lookup_app_r by lia. rewrite Nat.sub_diag. reflexivity. }
  assert (Fexit : bytecode_chunk s9 !! length (bytecode_chunk s5)
                  = Some (mkInstruction OP_EXIT_SCOPE NoOperand)).
  { rewrite C9, lookup_app_r by lia. rewrite N8, N7, N6, Nat.sub_diag. reflexivity. }
  eexists. exists [], []. split; [|split].
  - cbn [_compile_node]. unfold bind at 1. unfold add_loop_level at 1.
    unfold modify at 1. unfold bind at 1. unfold modify at 1.
    unfold bind at 1. unfold modify at 1. rewrite <- Esx.
    unfold bind at 1. unfold add_scope_depth at 1. unfold modify at 1. rewrite <- Es0.
    unfold bind at 1. rewrite EE. unfold bind at 1. rewrite ER.
    unfold bind at 1. rewrite EN. unfold bind at 1. fold x. rewrite EA.
    unfold bind at 1. rewrite EB. unfold bind at 1. rewrite EK.
    unfold bind at 1. rewrite ED. unfold bind at 1. unfold gets at 1.
    unfold bind at 1. rewrite E2. unfold bind at 1. rewrite ES.
    unfold bind at 1. rewrite E3. unfold bind at 1. fold pL. rewrite E4.
    unfold bind at 1. unfold gets at 1. unfold bind at 1. rewrite E5.
    unfold bind at 1.
    rewrite (last_patches_pushed loop_end_patches s5 (loop_end_patches s)
               (Z.of_nat <$> b)) by congruence.
    unfold bind at 1. fold pH. rewrite E6.
    unfold bind at 1. unfold gets at 1. unfold bind at 1. fold pA.
    change pL with (Z.of_nat idx). rewrite E7.
    unfold bind at 1.
    rewrite (last_patches_pushed loop_start_patches s7 (loop_start_patches s)
               (Z.of_nat <$> k)) by congruence.
    unfold bind at 1. change (Z.of_nat idx) with pL. rewrite E8.
    unfold bind at 1. rewrite E9.
    unfold bind at 1. unfold add_scope_depth at 1. unfold modify at 1.
    unfold bind at 1.
    rewrite (pop_loop_start_pushed _ (loop_start_patches s) (Z.of_nat <$> k));
      [|cbn [loop_start_patches set_scope_depth]; congruence].
    unfold bind at 1.
    rewrite (pop_loop_end_pushed _ (loop_end_patches s) (Z.of_nat <$> b));
      [|cbn [loop_end_patches set_loop_start_patches set_scope_depth]; congruence].
    reflexivity.
  - unfold extended.
    cbn [bytecode_chunk constants scope_depth loop_level loop_start_patches
         loop_end_patches set_loop_level set_loop_end_patches set_loop_start_patches
         set_scope_depth add_loop_level].
    split.
    { apply prefix_of_lookup; [lia|]. intros i Hi.
      pose proof (lookup_lt_is_Some_2 (bytecode_chunk s) i Hi) as [instr Hinstr].
      rewrite Hinstr. apply Fold; [unfold idx; lia|].
      apply (grown_lookup _ _ _ _ G0S). rewrite C0. exact Hinstr. }
    destruct G03 as (_ & [more Hk] & Hi & Hd & Hl & _).
    split; [exists more; rewrite K9, K8, K7, K6, K5, K4, <- K0; exact Hk|].
    split; [rewrite K9, K8, K7, K6, K5, K4; exact Hi|].
    split; [lia|]. split; [lia|].
    split; [apply pended_refl|]. split; [apply pended_refl|].
    split; [constructor|]. intros j _. apply not_elem_of_nil.
  - intros fuel host chunk values pc_break pc_continue Hhost Hcode Hvalues.
    unfold code_pending, pool_loaded in Hcode, Hvalues.
    cbn [bytecode_chunk constants set_loop_level set_loop_end_patches
         set_loop_start_patches set_scope_depth add_loop_level] in *.
    assert (Hcode9 : forall i instr,
              (length (bytecode_chunk s) <= i)%nat ->
              bytecode_chunk s9 !! i = Some instr -> chunk !! i = Some instr)
      by exact Hcode.
    assert (V3 : pool_loaded s3 values).
    { apply (pool_loaded_same s3 s9); [congruence|exact Hvalues]. }
    assert (VS : pool_loaded sS values) by (eapply pool_loaded_extended; eauto).
    assert (HR : code_loaded sE sR chunk).
    { intros i instr Hle Hi. pose proof (lookup_lt_Some _ _ _ Hi) as Hlt.
      apply Hcode9; [lia|]. apply Fold; [unfold idx; lia|].
      apply (grown_lookup _ _ _ _ GRS). exact Hi. }
    assert (H3 : code_pending sS s3 b k pH pL chunk).
    { intros i instr Hle Hi. pose proof (lookup_lt_Some _ _ _ Hi) as Hlt.
      apply Hcode9; [lia|]. apply Fbody; [exact Hlt|unfold idx; lia|exact Hi]. }
    assert (Hat : forall (state : Compiler) instr,
              (length (bytecode_chunk s) <= length (bytecode_chunk state))%nat ->
              length (bytecode_chunk state) <> idx ->
              bytecode_chunk sS !! length (bytecode_chunk state) = Some instr ->
              chunk !! Z.to_nat (len (bytecode_chunk state)) = Some instr).
    { intros state instr Hle Hne Hi. rewrite len_length. apply Hcode9; [exact Hle|].
      apply Fold; assumption. }
    replace (len (bytecode_chunk s9)) with (len (bytecode_chunk s3) + 3)
      by (unfold len; lia).
    apply (for_to host chunk values loop_variable iterable body t (added sE sR)
             (Z.of_nat kn) (Z.of_nat k0) (len (bytecode_chunk s)) (len (bytecode_chunk sR))
             (len (bytecode_chunk s3)) pc_break pc_continue (len_nonneg _)
             (len_nonneg _) (len_nonneg _)).
    + rewrite <- C0. apply Hat; [lia|unfold idx; lia|].
      apply (grown_lookup _ _ _ _ GES). exact LE.
    + intros store items st g envs fs h Hitems Hreads.
      destruct (RR store items host chunk values st g envs fs h Hitems HR
                  (pool_loaded_grown _ _ _ GRS VS) Hreads)
        as (a0 & b0 & c0 & Hc0 & Hi0 & Hrun0).
      exists a0, b0, c0. split; [exact Hc0|]. split; [exact Hi0|].
      replace (len (bytecode_chunk s) + 1) with (len (bytecode_chunk sE))
        by (unfold len; lia).
      exact Hrun0.
    + apply Hat; [lia|unfold idx; lia|]. apply (grown_lookup _ _ _ _ GNS). exact LN.
    + replace (len (bytecode_chunk sR) + 1) with (len (bytecode_chunk sB))
        by (unfold len; lia).
      apply Hat; [lia|unfold idx; lia|]. apply (grown_lookup _ _ _ _ GKS). exact LK.
    + eapply pool_none; [exact KB|exact GBS|exact VS].
    + replace (len (bytecode_chunk sR) + 2) with (len (bytecode_chunk sK))
        by (unfold len; lia).
      apply Hat; [lia|unfold idx; lia|]. apply (grown_lookup _ _ _ _ GDS). exact LD.
    + eapply pool_str; [exact KA|exact GAS|exact VS].
    + replace (len (bytecode_chunk sR) + 3) with (len (bytecode_chunk sD))
        by (unfold len; lia).
      rewrite len_length. apply Hcode9; [lia|]. fold idx. rewrite Fnext.
      do 3 f_equal. unfold pA, len. lia.
    + replace (len (bytecode_chunk sR) + 4) with (len (bytecode_chunk s2))
        by (unfold len; lia).
      apply Hat; [lia|unfold idx; lia|]. exact LS.
    + intros fuel'.
      replace (len (bytecode_chunk sR) + 5) with (len (bytecode_chunk sS))
        by (unfold len; lia).
      replace (len (bytecode_chunk s3) + 1) with pH by (unfold pH, len; lia).
      replace (len (bytecode_chunk sR) + 3) with pL by (unfold pL, len; lia).
      apply R3; assumption.
    + rewrite len_length. apply Hcode9; [lia|]. rewrite Fjump.
      do 3 f_equal. unfold pL, len. lia.
    + replace (len (bytecode_chunk s3) + 1) with (len (bytecode_chunk s4))
        by (unfold len; lia).
      rewrite len_length. apply Hcode9; [lia|]. exact Fpop.
    + replace (len (bytecode_chunk s3) + 2) with (len (bytecode_chunk s5))
        by (unfold len; lia).
      rewrite len_length. apply Hcode9; [lia|]. exact Fexit.
Qed.

(** Every statement of the fragment compiles to code that runs it to its
    outcome. *)
Lemma statement_in (statement : ASTNode) :
  forall in_loop, compiles_in in_loop statement.
Proof.
  induction statement as [node IH] using ASTNode_children_ind. intros in_loop.
  destruct node as [statements t|name initializer c t|name e t| |condition then_branch
                    else_branch t| | | | | | | | |condition body t|t|t|
                    |loop_variable iterable body t| | | | | | |];
    try (intros Hs; discriminate Hs); cbn [children] in IH.
  - apply block_in. eapply Forall_impl; [exact IH|]. intros statement H. apply H.
  - apply declaration_in.
  - apply assignment_in.
  - apply Forall_cons in IH. destruct IH as [_ IH].
    apply Forall_cons in IH. destruct IH as [IHthen IHelse].
    apply if_in; [apply IHthen|].
    intros else_node ->. cbn [option_list] in IHelse.
    apply Forall_cons in IHelse. apply IHelse.
  - apply Forall_cons in IH. destruct IH as [_ IH].
    apply Forall_cons in IH. destruct IH as [IHbody _].
    apply while_in. apply IHbody.
  - apply break_in.
  - apply continue_in.
  - apply Forall_cons in IH. destruct IH as [_ IH].
    apply Forall_cons in IH. destruct IH as [IHbody _].
    apply for_in. apply IHbody.
Qed.

(** The statements of a program and the final [return], outside every
    loop and every call: the run returns the value of the returned
    expression, and leaves the scopes of the statements. *)
Lemma statements_return (host : VM.Host) (statements : list ASTNode) (e : ASTNode)
    (turns : nat) (scopes : list Store) (z : Z) :
  (0 < VM.recursion_limit host)%nat ->
  forallb (looping_in false) statements = true ->
  run_each_outcome (run_looping turns) statements [no_variable] = Some (Normal scopes) ->
  int_value (lookup_variable scopes) e = Some z ->
  forall s, ints_only (constants s) -> 0 < scope_depth s ->
    loop_level s = 0 -> loop_start_patches s = [] -> loop_end_patches s = [] ->
    exists s',
      for_each (statements ++ [ReturnStmt (Some e) None]) (fun statement_node =>
        bind (_compile_node statement_node) (fun _ =>
          when (is_Expr statement_node) (emit OP_POP NoOperand None))) s
      = inr (tt, s')
      /\ grown s s'
      /\ forall chunk values g h,
           code_loaded s s' chunk -> pool_loaded s' values ->
           exists steps vm',
             VM._run host steps
               (VM.mkVM chunk values (len (bytecode_chunk s)) [] g [[]] [] h)
             = VM.Return_ (VM.Ok (VM.VInt z)) vm'
             /\ scopes_agree scopes (VM.environments vm').
Proof.
  intros Hhost Hs Hrun Hz s Hpool Hdepth Hlevel Hstart Hend.
  assert (Hready : ready false s).
  { split; [exact Hpool|]. split; [exact Hdepth|]. split; [lia|]. discriminate. }
  assert (Hwell : Forall (compiles_in false) statements).
  { apply Forall_forall. intros statement _. apply statement_in. }
  destruct (each_in false statements Hwell Hs s Hready) as (s1 & b & k & E1 & G1 & R1).
  assert (Hb : b = []).
  { destruct G1 as (_ & _ & _ & _ & _ & _ & He & _). rewrite Hend in He.
    apply pended_none in He. apply He. }
  assert (Hk : k = []).
  { destruct G1 as (_ & _ & _ & _ & _ & Hst & _). rewrite Hstart in Hst.
    apply pended_none in Hst. apply Hst. }
  subst b k.
  destruct (expression_runs e s1 (int_value_plain _ _ _ Hz) ltac:(apply G1)
              ltac:(destruct G1 as (_ & _ & _ & Hd & _); rewrite Hd; exact Hdepth))
    as [s2 [E2 [G2 R2]]].
  destruct (emit_grown OP_RETURN NoOperand None s2 ltac:(apply G2))
    as [s3 [E3 [G3 [A3 L3]]]].
  pose proof (grown_trans _ _ _ G2 G3) as G23.
  pose proof (extended_grown_r _ _ _ _ _ G1 G23) as G13.
  exists s3. split; [|split].
  - rewrite for_each_app. unfold bind at 1. rewrite E1.
    cbn [for_each _compile_node is_Expr when]. unfold bind. rewrite E2, E3.
    reflexivity.
  - apply extended_grown. exact G13.
  - intros chunk values g h Hcode Hvalues.
    assert (Hcode1 : code_pending s s1 [] [] 0 0 chunk).
    { apply code_loaded_pending. intros i instr Hle Hi. apply Hcode; [exact Hle|].
      destruct G23 as ([c Hc] & _). rewrite Hc. apply lookup_app_l_Some. exact Hi. }
    destruct (R1 turns host chunk values 0 0 Hhost Hcode1
                (pool_loaded_grown _ _ _ G23 Hvalues) [no_variable] (Normal scopes) []
                g [[]] [] h Hrun) as (envs & h1 & steps & Hagree & _ & Hrun1).
    { constructor; [apply agrees_empty|constructor]. }
    cbn [outcome_scopes outcome_pc] in *.
    assert (Hcode2 : code_loaded s1 s2 chunk).
    { intros i instr Hle Hi. apply Hcode.
      - pose proof (extended_length _ _ _ _ G1). lia.
      - destruct G3 as ([c Hc] & _). rewrite Hc. apply lookup_app_l_Some. exact Hi. }
    assert (Hinstr : chunk !! Z.to_nat (len (bytecode_chunk s2))
                     = Some (mkInstruction OP_RETURN NoOperand)).
    { rewrite len_length. apply Hcode; [|exact L3].
      pose proof (extended_length _ _ _ _ G1). pose proof (grown_length _ _ G2). lia. }
    exists (steps + (added s1 s2 + 1))%nat. eexists. split.
    + rewrite Hrun1.
      rewrite (R2 _ z host _ chunk values [] g envs [] h1 Hz Hcode2
                 (pool_loaded_grown _ _ _ G3 Hvalues) (reads_scopes _ _ Hagree)).
      apply (run_RETURN host 0 chunk values _ g h1 (len_nonneg _) [] envs _ Hinstr).
    + exact Hagree.
Qed.

(** *** The fragment without [for]

    [looping_in] and [run_looping] extend [structured_in] and
    [run_outcome]: a statement of the smaller fragment is one of the
    larger, with the same outcome. *)

Lemma structured_in_looping (statement : ASTNode) :
  forall in_loop,
    structured_in in_loop statement = true -> looping_in in_loop statement = true.
Proof.
  induction statement as [node IH] using ASTNode_children_ind. intros in_loop Hs.
  destruct node as [statements t|name initializer c t|name e t| |condition then_branch
                    else_branch t| | | | | | | | |condition body t|t|t| | | | | | | | |];
    try discriminate Hs; cbn [children] in IH; cbn [structured_in looping_in] in *.
  - induction IH as [|statement rest Hst _ IHrest]; [reflexivity|].
    cbn [forallb] in *. apply andb_true_iff in Hs. destruct Hs as [H1 H2].
    rewrite (Hst in_loop H1). apply IHrest. exact H2.
  - exact Hs.
  - exact Hs.
  - apply Forall_cons in IH. destruct IH as [_ IH].
    apply Forall_cons in IH. destruct IH as [IHthen IHelse].
    apply andb_true_iff in Hs. destruct Hs as [Hs Helse].
    apply andb_true_iff in Hs. destruct Hs as [Hcond Hthen].
    rewrite Hcond, (IHthen in_loop Hthen). cbn [andb].
    destruct else_branch as [else_node|]; [|reflexivity].
    cbn [option_list] in IHelse. apply Forall_cons in IHelse.
    destruct IHelse as [IHelse _]. apply IHelse. exact Helse.
  - apply Forall_cons in IH. destruct IH as [_ IH].
    apply Forall_cons in IH. destruct IH as [IHbody _].
    apply andb_true_iff in Hs. destruct Hs as [Hcond Hbody].
    rewrite Hcond, (IHbody true Hbody). reflexivity.
  - exact Hs.
  - exact Hs.
Qed.

Lemma run_each_outcome_same (run run' : ASTNode -> list Store -> option Outcome) :
  (forall statement scopes outcome,
     run statement scopes = Some outcome -> run' statement scopes = Some outcome) ->
  forall statements scopes outcome,
    run_each_outcome run statements scopes = Some outcome ->
    run_each_outcome run' statements scopes = Some outcome.
Proof.
  intros H statements. induction statements as [|statement rest IH];
    intros scopes outcome Hrun; cbn [run_each_outcome] in *; [exact Hrun|].
  destruct (run statement scopes) as [[scopes1|scopes1|scopes1]|] eqn:E;
    [| | |discriminate Hrun]; rewrite (H _ _ _ E); [|exact Hrun|exact Hrun].
  apply IH. exact Hrun.
Qed.

Lemma run_outcome_looping (fuel : nat) :
  forall statement scopes outcome,
    run_outcome fuel statement scopes = Some outcome ->
    run_looping fuel statement scopes = Some outcome.
Proof.
  induction fuel as [|fuel IH]; intros statement scopes outcome Hrun;
    [discriminate Hrun|].
  destruct statement as [statements t|name initializer c t|name e t| |condition
                         then_branch else_branch t| | | | | | | | |condition body t|t|t|
                         | | | | | | | |];
    try discriminate Hrun; cbn [run_outcome run_looping] in *.
  - destruct t as [tk|].
    + destruct (run_each_outcome (run_outcome fuel) statements (no_variable :: scopes))
        as [inner|] eqn:E; [|discriminate Hrun].
      rewrite (run_each_outcome_same _ _ IH _ _ _ E). exact Hrun.
    + apply (run_each_outcome_same _ _ IH). exact Hrun.
  - exact Hrun.
  - exact Hrun.
  - destruct (condition_value (lookup_variable scopes) condition) as [[|]|];
      [| |discriminate Hrun].
    + apply IH. exact Hrun.
    + destruct else_branch as [else_node|]; [apply IH; exact Hrun|exact Hrun].
  - destruct (condition_value (lookup_variable scopes) condition) as [[|]|];
      [| |discriminate Hrun].
    + destruct (run_outcome fuel body scopes) as [[scopes1|scopes1|scopes1]|] eqn:E;
        [| | |discriminate Hrun]; rewrite (IH _ _ _ E);
        [apply IH; exact Hrun|exact Hrun|apply IH; exact Hrun].
    + exact Hrun.
  - exact Hrun.
  - exact Hrun.
Qed.

(** *** Programs without early exits *)

Lemma structured_statement_in (statement : ASTNode) :
  forall in_loop, structured statement = true -> structured_in in_loop statement = true.
Proof.
  induction statement as [node IH] using ASTNode_children_ind. intros in_loop Hs.
  destruct node as [statements t|name initializer c t|name e t| |condition then_branch
                    else_branch t| | | | | | | | |condition body t| | | | | | | | | | |];
    try discriminate Hs; cbn [children] in IH; cbn [structured structured_in] in *.
  - induction IH as [|statement rest Hst _ IHrest]; [reflexivity|].
    cbn [forallb] in *. apply andb_true_iff in Hs. destruct Hs as [H1 H2].
    rewrite (Hst in_loop H1). apply IHrest. exact H2.
  - exact Hs.
  - exact Hs.
  - apply Forall_cons in IH. destruct IH as [_ IH].
    apply Forall_cons in IH. destruct IH as [IHthen IHelse].
    apply andb_true_iff in Hs. destruct Hs as [Hs Helse].
    apply andb_true_iff in Hs. destruct Hs as [Hcond Hthen].
    rewrite Hcond, (IHthen in_loop Hthen). cbn [andb].
    destruct else_branch as [else_node|]; [|reflexivity].
    cbn [option_list] in IHelse. apply Forall_cons in IHelse.
    destruct IHelse as [IHelse _]. apply IHelse. exact Helse.
  - apply Forall_cons in IH. destruct IH as [_ IH].
    apply Forall_cons in IH. destruct IH as [IHbody _].
    apply andb_true_iff in Hs. destruct Hs as [Hcond Hbody].
    rewrite Hcond, (IHbody true Hbody). reflexivity.
Qed.

Lemma run_each_normal (fuel : nat) :
  (forall statement scopes scopes',
     run_statement fuel statement scopes = Some scopes' ->
     run_outcome fuel statement scopes = Some (Normal scopes')) ->
  forall statements scopes scopes',
    run_each (run_statement fuel) statements scopes = Some scopes' ->
    run_each_outcome (run_outcome fuel) statements scopes = Some (Normal scopes').
Proof.
  intros H statements. induction statements as [|statement rest IH];
    intros scopes scopes' Hrun; cbn [run_each run_each_outcome] in *.
  - injection Hrun as <-. reflexivity.
  - destruct (run_statement fuel statement scopes) as [scopes1|] eqn:E;
      [|discriminate Hrun].
    rewrite (H _ _ _ E). apply IH. exact Hrun.
Qed.

(** A statement that runs to its end without [break] and [continue] has
    the same scopes in both readings. *)
Lemma run_statement_normal (fuel : nat) :
  forall statement scopes scopes',
    run_statement fuel statement scopes = Some scopes' ->
    run_outcome fuel statement scopes = Some (Normal scopes').
Proof.
  induction fuel as [|fuel IH]; intros statement scopes scopes' Hrun;
    [discriminate Hrun|].
  destruct statement as [statements t|name initializer c t|name e t| |condition
                         then_branch else_branch t| | | | | | | | |condition body t| | |
                         | | | | | | | |];
    try discriminate Hrun; cbn [run_statement run_outcome] in *.
  - destruct t as [tk|].
    + destruct (run_each (run_statement fuel) statements (no_variable :: scopes))
        as [[|inner outer]|] eqn:E; try discriminate Hrun.
      injection Hrun as <-. rewrite (run_each_normal fuel IH _ _ _ E). reflexivity.
    + apply (run_each_normal fuel IH). exact Hrun.
  - destruct initializer as [e|]; [|discriminate Hrun]. destruct c; [discriminate Hrun|].
    destruct (int_value (lookup_variable scopes) e); [|discriminate Hrun].
    rewrite Hrun. reflexivity.
  - destruct (int_value (lookup_variable scopes) e); [|discriminate Hrun].
    rewrite Hrun. reflexivity.
  - destruct (condition_value (lookup_variable scopes) condition) as [[|]|];
      [| |discriminate Hrun].
    + apply IH. exact Hrun.
    + destruct else_branch as [else_node|]; [apply IH; exact Hrun|].
      injection Hrun as <-. reflexivity.
  - destruct (condition_value (lookup_variable scopes) condition) as [[|]|];
      [| |discriminate Hrun].
    + destruct (run_statement fuel body scopes) as [scopes1|] eqn:E;
        [|discriminate Hrun].
      rewrite (IH _ _ _ E). apply IH. exact Hrun.
    + injection Hrun as <-. reflexivity.
Qed.

Lemma assign_variable_length (scopes scopes' : list Store) (x : string) (z : Z) :
  assign_variable scopes x z = Some scopes' -> length scopes' = length scopes.
Proof.
  revert scopes'. induction scopes as [|scope outer IH]; intros scopes' H;
    [discriminate H|].
  cbn [assign_variable] in H. destruct (scope x); [injection H as <-; reflexivity|].
  destruct (assign_variable outer x z) as [outer'|]; [|discriminate H].
  injection H as <-. cbn [length]. rewrite (IH outer' eq_refl). reflexivity.
Qed.

(** Without early exits a statement leaves as many scopes as it found. *)
Lemma run_statement_length (fuel : nat) :
  forall statement scopes scopes',
    run_statement fuel statement scopes = Some scopes' ->
    length scopes' = length scopes.
Proof.
  induction fuel as [|fuel IH]; intros statement scopes scopes' Hrun;
    [discriminate Hrun|].
  assert (Heach : forall statements scopes scopes',
            run_each (run_statement fuel) statements scopes = Some scopes' ->
            length scopes' = length scopes).
  { induction statements as [|statement' rest IHrest]; intros sc sc' H;
      cbn [run_each] in H; [injection H as <-; reflexivity|].
    destruct (run_statement fuel statement' sc) as [sc1|] eqn:E; [|discriminate H].
    rewrite (IHrest _ _ H). apply (IH _ _ _ E). }
  destruct statement as [statements t|name initializer c t|name e t| |condition
                         then_branch else_branch t| | | | | | | | |condition body t| | |
                         | | | | | | | |];
    try discriminate Hrun; cbn [run_statement] in Hrun.
  - destruct t as [tk|]; [|apply (Heach _ _ _ Hrun)].
    destruct (run_each (run_statement fuel) statements (no_variable :: scopes))
      as [[|inner outer]|] eqn:E; try discriminate Hrun.
    injection Hrun as <-. apply Heach in E. cbn [length] in E. lia.
  - destruct initializer as [e|]; [|discriminate Hrun]. destruct c; [discriminate Hrun|].
    destruct (int_value (lookup_variable scopes) e); [|discriminate Hrun].
    destruct scopes; [discriminate Hrun|]. injection Hrun as <-. reflexivity.
  - destruct (int_value (lookup_variable scopes) e); [|discriminate Hrun].
    apply (assign_variable_length _ _ _ _ Hrun).
  - destruct (condition_value (lookup_variable scopes) condition) as [[|]|];
      [| |discriminate Hrun].
    + apply (IH _ _ _ Hrun).
    + destruct else_branch as [else_node|]; [apply (IH _ _ _ Hrun)|].
      injection Hrun as <-. reflexivity.
  - destruct (condition_value (lookup_variable scopes) condition) as [[|]|];
      [| |discriminate Hrun].
    + destruct (run_statement fuel body scopes) as [scopes1|] eqn:E;
        [|discriminate Hrun].
      rewrite (IH _ _ _ Hrun). apply (IH _ _ _ E).
    + injection Hrun as <-. reflexivity.
Qed.

Lemma run_each_length (fuel : nat) (statements : list ASTNode) :
  forall scopes scopes',
    run_each (run_statement fuel) statements scopes = Some scopes' ->
    length scopes' = length scopes.
Proof.
  induction statements as [|statement rest IH]; intros scopes scopes' H;
    cbn [run_each] in H; [injection H as <-; reflexivity|].
  destruct (run_statement fuel statement scopes) as [scopes1|] eqn:E; [|discriminate H].
  rewrite (IH _ _ H). apply (run_statement_length fuel _ _ _ E).
Qed.

(** X21: a program of declarations, assignments, blocks in braces, [if]
    with or without [else] and [while], over integer expressions and their
    comparisons, ended by [return e]: it compiles, and when the statements
    run to an end, with enough fuel the machine returns [Result.ok] of the
    value that [e] has in the scopes after them, with one scope left, the
    scope of the program, which binds the variables as they are after the
    statements.  The jumps that [patch_jump] fills in land where the
    branches and the loop need them, a block in braces gets a scope of its
    own for the length of the block, and an assignment reaches the scope
    that declared the variable. *)
Theorem structured_programs_run_as_written (host : VM.Host)
    (statements : list ASTNode) (e : ASTNode) (turns : nat) (scopes : list Store)
    (z : Z) :
  (0 < VM.recursion_limit host)%nat ->
  forallb structured statements = true ->
  run_each (run_statement turns) statements [no_variable] = Some scopes ->
  int_value (lookup_variable scopes) e = Some z ->
  exists n, forall fuel, (n <= fuel)%nat ->
    exists vm',
      compile_and_run host fuel (Block (statements ++ [ReturnStmt (Some e) None]) None)
      = Some (VM.Return_ (VM.Ok (VM.VInt z)) vm')
      /\ scopes_agree scopes (VM.environments vm')
      /\ length (VM.environments vm') = 1%nat.
Proof.
  intros Hhost Hs Hrun Hz.
  apply (block_returns host _ z
           (fun envs => scopes_agree scopes envs /\ length envs = 1%nat)).
  intros s Hpool Hdepth Hlevel Hstart Hend.
  destruct (statements_return host statements e turns scopes z Hhost) with (s := s)
    as [s' [E [G R]]]; try assumption.
  - rewrite forallb_forall in *. intros statement Hin.
    apply structured_in_looping, structured_statement_in. apply Hs. exact Hin.
  - apply (run_each_outcome_same _ _ (run_outcome_looping turns)).
    apply (run_each_normal turns (run_statement_normal turns)). exact Hrun.
  - exists s'. split; [exact E|]. split; [exact G|].
    intros chunk values g h Hcode Hvalues.
    destruct (R chunk values g h Hcode Hvalues) as [steps [vm' [Hsteps Hagree]]].
    exists steps, vm'. split; [exact Hsteps|]. split; [exact Hagree|].
    apply Forall2_length in Hagree. rewrite length_rev in Hagree.
    rewrite <- Hagree. apply (run_each_length _ _ _ _ Hrun).
Qed.

Lemma structured_programs_run_as_written_witness :
  exists n, forall fuel, (n <= fuel)%nat ->
    exists vm',
      compile_and_run silent_host fuel
        (Block (sum_of_squares ++ [ReturnStmt (Some (ident "total")) None]) None)
      = Some (VM.Return_ (VM.Ok (VM.VInt 22)) vm')
      /\ scopes_agree [sum_of_squares_scope] (VM.environments vm')
      /\ length (VM.environments vm') = 1%nat.
Proof.
  apply (structured_programs_run_as_written silent_host sum_of_squares (ident "total")
           20 [sum_of_squares_scope] 22);
    [cbn; lia|reflexivity|reflexivity|reflexivity].
Defined.

(** *** Programs with early exits *)

(** X22: a program as above whose loops may hold [break] and [continue]
    compiles, and when its statements run to an end, with enough fuel the
    machine returns [Result.ok] of the value that [e] has in the scopes
    after them, and these are the scopes that it is left with.  [break]
    ends the innermost loop and [continue] goes back to its condition; the
    jump skips the [OP_EXIT_SCOPE] of the blocks in braces that it leaves,
    so their scopes, and the variables declared in them, stay on the
    machine after the jump. *)
Theorem programs_with_early_exits_run_as_written (host : VM.Host)
    (statements : list ASTNode) (e : ASTNode) (turns : nat) (scopes : list Store)
    (z : Z) :
  (0 < VM.recursion_limit host)%nat ->
  forallb (structured_in false) statements = true ->
  run_each_outcome (run_outcome turns) statements [no_variable] = Some (Normal scopes) ->
  int_value (lookup_variable scopes) e = Some z ->
  exists n, forall fuel, (n <= fuel)%nat ->
    exists vm',
      compile_and_run host fuel (Block (statements ++ [ReturnStmt (Some e) None]) None)
      = Some (VM.Return_ (VM.Ok (VM.VInt z)) vm')
      /\ scopes_agree scopes (VM.environments vm').
Proof.
  intros Hhost Hs Hrun Hz. apply (block_returns host _ z (scopes_agree scopes)).
  intros s Hpool Hdepth Hlevel Hstart Hend.
  assert (Hs' : forallb (looping_in false) statements = true).
  { rewrite forallb_forall in *. intros statement Hin.
    apply structured_in_looping. apply Hs. exact Hin. }
  pose proof (run_each_outcome_same _ _ (run_outcome_looping turns) _ _ _ Hrun) as Hrun'.
  destruct (statements_return host statements e turns scopes z Hhost Hs' Hrun' Hz s Hpool
              Hdepth Hlevel Hstart Hend) as [s' [E [G R]]].
  exists s'. split; [exact E|]. split; [exact G|]. exact R.
Qed.

Lemma programs_with_early_exits_run_as_written_witness :
  exists n, forall fuel, (n <= fuel)%nat ->
    exists vm',
      compile_and_run silent_host fuel
        (Block (first_double ++ [ReturnStmt (Some (ident "x")) None]) None)
      = Some (VM.Return_ (VM.Ok (VM.VInt 6)) vm')
      /\ scopes_agree first_double_scopes (VM.environments vm').
Proof.
  apply (programs_with_early_exits_run_as_written silent_host first_double (ident "x")
           20 first_double_scopes 6);
    [cbn; lia|reflexivity|reflexivity|reflexivity].
Defined.

(** *** Programs with loops over ranges *)

(** X23: a program as above that also holds [for x in start:end] and
    [for x in start:end:step] over integer expressions compiles, and when
    its statements run to an end, with enough fuel the machine returns
    [Result.ok] of the value that [e] has in the scopes after them, and
    these are the scopes that it is left with.  The loop runs in a scope
    of its own, where the variable is bound to [start], [start + step],
    ... in turn, as many times as [range] has items; the iterator stays
    on the operand stack under the values of the body and is dropped when
    the loop ends.  [continue] goes to the next item and [break] to the
    [OP_POP] that drops the iterator; after such a jump out of a block in
    braces the [OP_EXIT_SCOPE] of the loop drops the scope of that block,
    so the scope of the loop and its variable stay on the machine. *)
Theorem programs_with_range_loops_run_as_written (host : VM.Host)
    (statements : list ASTNode) (e : ASTNode) (turns : nat) (scopes : list Store)
    (z : Z) :
  (0 < VM.recursion_limit host)%nat ->
  forallb (looping_in false) statements = true ->
  run_each_outcome (run_looping turns) statements [no_variable] = Some (Normal scopes) ->
  int_value (lookup_variable scopes) e = Some z ->
  exists n, forall fuel, (n <= fuel)%nat ->
    exists vm',
      compile_and_run host fuel (Block (statements ++ [ReturnStmt (Some e) None]) None)
      = Some (VM.Return_ (VM.Ok (VM.VInt z)) vm')
      /\ scopes_agree scopes (VM.environments vm').
Proof.
  intros Hhost Hs Hrun Hz. apply (block_returns host _ z (scopes_agree scopes)).
  intros s Hpool Hdepth Hlevel Hstart Hend.
  destruct (statements_return host statements e turns scopes z Hhost Hs Hrun Hz s Hpool
              Hdepth Hlevel Hstart Hend) as [s' [E [G R]]].
  exists s'. split; [exact E|]. split; [exact G|]. exact R.
Qed.

Lemma programs_with_range_loops_run_as_written_witness :
  exists n, forall fuel, (n <= fuel)%nat ->
    exists vm',
      compile_and_run silent_host fuel
        (Block (first_square_over ++ [ReturnStmt (Some (ident "n")) None]) None)
      = Some (VM.Return_ (VM.Ok (VM.VInt 5)) vm')
      /\ scopes_agree first_square_over_scopes (VM.environments vm').
Proof.
  apply (programs_with_range_loops_run_as_written silent_host first_square_over
           (ident "n") 20 first_square_over_scopes 5);
    [cbn; lia|reflexivity|reflexivity|reflexivity].
Defined.
